(** * gitweb: the repository graph analyzer

    A shallow embedding of the static-analysis pipeline of
    [src/lib/analyzer.ts] (the Babel-based version: [analyzeRepositoryGraph],
    [analyzeFile], [resolveImports], [collectFunctionExports],
    [collectFunctionEdges], [enrichRelationshipsWithLLM],
    [createModuleResolver]) and of the response parser of [src/lib/llm.ts],
    followed by the code around them: the loader of path aliases
    ([loadTsconfigPaths]), the rate limiter ([checkRateLimit],
    [recordRequest], [getUserStats]), the repository scanner
    ([repo-scanner.ts]) and the graph builder of the second analyzer
    ([analyzeCodeFromFiles]).

    Conventions of the embedding:
    - a JavaScript string is a [string]; every character stands for one
      code unit below 256;
    - a JavaScript [Map] whose iteration order is observable (the file table,
      the edge tables, the unresolved table) is an insertion-ordered
      association list ([oget], [oset]); a [Map] or [Set] that is only probed by key
      is a [gmap] or [gset];
    - objects that are mutated through several references (the
      [FunctionInfo] records) live in the per-file [functions] array and are
      referred to by their index;
    - the Babel parser and traversal are outside the repository: a file is
      given by the sequence of visitor calls the traversal makes, each call
      carrying exactly what its handler reads from the path. *)

From stdpp Require Import base option list gmap strings.
From Stdlib Require Import Ascii String ZArith Lia.

Local Open Scope string_scope.
Local Open Scope list_scope.

(** ** JavaScript string primitives *)

Module JsString.

Definition chars (s : string) : list ascii := list_ascii_of_string s.
Definition unchars (l : list ascii) : string := string_of_list_ascii l.

  (** [s.startsWith(p)] *)
Definition startsWith (s p : string) : bool := String.prefix p s.

  (** [s.slice(start, end)] with a non-negative [start]; a negative [end]
      counts from the end of the string. *)
Definition slice (s : string) (start : nat) (end_ : Z) : string :=
    let len := Z.of_nat (String.length s) in
    let e := if (end_ <? 0)%Z then Z.max (len + end_) 0 else Z.min end_ len in
    let e := Z.to_nat e in
    String.substring start (e - start) s.

  (** [s.slice(start)] *)
Definition sliceFrom (s : string) (start : nat) : string :=
    String.substring start (String.length s - start) s.

  (** [s.replace(/\\/g, '/')] *)
Definition backslashesToSlashes (s : string) : string :=
    unchars (map (fun c => if Ascii.eqb c "\"%char then "/"%char else c) (chars s)).

  (** Decimal rendering of a counter, as a template literal prints it. *)
Definition digit (n : nat) : ascii := ascii_of_nat (48 + n).

Fixpoint decimal_go (fuel n : nat) (acc : string) : string :=
    match fuel with
    | 0 => acc
    | S fuel' =>
        let acc' := String (digit (n mod 10)) acc in
        if decide (n / 10 = 0) then acc' else decimal_go fuel' (n / 10) acc'
    end.

Definition ofNat (n : nat) : string := decimal_go (S n) n "".

  (** [s.toLowerCase()] on code units below 256: the letters A-Z and the
      Latin-1 capitals (except the multiplication sign) move up by 32. *)
Definition lowerChar (c : ascii) : ascii :=
    let n := nat_of_ascii c in
    if (Nat.leb 65 n && Nat.leb n 90)
       || (Nat.leb 192 n && Nat.leb n 222 && negb (Nat.eqb n 215))
    then ascii_of_nat (n + 32) else c.

Definition toLowerCase (s : string) : string :=
    unchars (map lowerChar (chars s)).

  (** [s.includes(sub)] *)
Fixpoint includes (s sub : string) : bool :=
    String.prefix sub s
    || match s with
       | "" => false
       | String _ s' => includes s' sub
       end.

End JsString.

(** ** [path.posix] of Node.js (dirname, normalize, join) *)

Module PosixPath.
  Import JsString.

Definition slash : ascii := "/"%char.
Definition dot : ascii := "."%char.

  (** Segments between separators, as [normalizeString] scans them. *)
Fixpoint segments (s : list ascii) : list (list ascii) :=
    match s with
    | [] => [[]]
    | c :: s' =>
        if Ascii.eqb c slash then [] :: segments s'
        else match segments s' with
             | [] => [[c]]
             | h :: t => (c :: h) :: t
             end
    end.

Definition is_dotdot (seg : list ascii) : bool :=
    match seg with
    | [a; b] => Ascii.eqb a dot && Ascii.eqb b dot
    | _ => false
    end.

Definition is_dot (seg : list ascii) : bool :=
    match seg with
    | [a] => Ascii.eqb a dot
    | _ => false
    end.

  (** One step of [normalizeString]: [res] holds the segments kept so far,
      last one first. *)
Definition normalizeStep (allowAboveRoot : bool)
      (res : list (list ascii)) (seg : list ascii) : list (list ascii) :=
    match seg with
    | [] => res
    | _ =>
        if is_dot seg then res
        else if is_dotdot seg then
          match res with
          | last :: rest =>
              if is_dotdot last
              then (if allowAboveRoot then seg :: res else res)
              else rest
          | [] => if allowAboveRoot then [seg] else []
          end
        else seg :: res
    end.

Fixpoint joinSegments (segs : list (list ascii)) : list ascii :=
    match segs with
    | [] => []
    | [s] => s
    | s :: rest => s ++ slash :: joinSegments rest
    end.

Definition normalizeString (path : list ascii) (allowAboveRoot : bool) : list ascii :=
    joinSegments (rev (fold_left (normalizeStep allowAboveRoot) (segments path) [])).

Definition normalize (p : string) : string :=
    match chars p with
    | [] => "."
    | c0 :: _ =>
        let cs := chars p in
        let isAbsolute := Ascii.eqb c0 slash in
        let trailingSeparator :=
          match last cs with Some c => Ascii.eqb c slash | None => false end in
        let body := normalizeString cs (negb isAbsolute) in
        match body with
        | [] => if isAbsolute then "/" else if trailingSeparator then "./" else "."
        | _ =>
            let body := if trailingSeparator then body ++ [slash] else body in
            unchars (if isAbsolute then slash :: body else body)
        end
    end.

Fixpoint joinArgs (joined : option string) (args : list string) : option string :=
    match args with
    | [] => joined
    | arg :: rest =>
        if decide (arg = "") then joinArgs joined rest
        else joinArgs (Some (match joined with
                             | None => arg
                             | Some j => j +:+ "/" +:+ arg
                             end)) rest
    end.

Definition join (args : list string) : string :=
    match joinArgs None args with
    | None => "."
    | Some joined => normalize joined
    end.

  (** The backwards scan of [dirname]: [rcs] holds the characters at the
      indices [i, i-1, .., 1]; the result is the index [end], if one is found. *)
Fixpoint dirnameScan (rcs : list ascii) (i : nat) (matchedSlash : bool) : option nat :=
    match rcs with
    | [] => None
    | c :: rest =>
        if Ascii.eqb c slash then
          (if matchedSlash then dirnameScan rest (pred i) matchedSlash else Some i)
        else dirnameScan rest (pred i) false
    end.

Definition dirname (p : string) : string :=
    match chars p with
    | [] => "."
    | c0 :: tl =>
        let hasRoot := Ascii.eqb c0 slash in
        match dirnameScan (rev tl) (List.length tl) true with
        | None => if hasRoot then "/" else "."
        | Some e =>
            if hasRoot && bool_decide (e = 1) then "//"
            else String.substring 0 e p
        end
    end.

Fixpoint dropSlashes (l : list ascii) : list ascii :=
    match l with
    | c :: r => if Ascii.eqb c slash then dropSlashes r else l
    | [] => []
    end.

Fixpoint takeUntil (stop : ascii) (l : list ascii) : list ascii :=
    match l with
    | c :: r => if Ascii.eqb c stop then [] else c :: takeUntil stop r
    | [] => []
    end.

Fixpoint dropUntil (stop : ascii) (l : list ascii) : list ascii :=
    match l with
    | c :: r => if Ascii.eqb c stop then l else dropUntil stop r
    | [] => []
    end.

  (** The backwards scan shared by [basename] and [extname]: trailing
      separators are skipped and the scan stops at the separator before the
      last segment. The result is that segment, last character first. *)
Definition lastSegmentRev (p : string) : list ascii :=
    takeUntil slash (dropSlashes (rev (chars p))).

Definition basename (p : string) : string := unchars (rev (lastSegmentRev p)).

  (** [extname]: from the last dot of the last segment on, unless that dot
      opens the segment or the segment is [..]. *)
Definition extname (p : string) : string :=
    let seg := lastSegmentRev p in
    match dropUntil dot seg with
    | [] => ""
    | _ :: before =>
        match before with
        | [] => ""
        | _ =>
            if is_dotdot seg then ""
            else unchars (dot :: rev (takeUntil dot seg))
        end
    end.

End PosixPath.

(** ** The module resolver ([createModuleResolver]) *)

Definition SUPPORTED_EXTENSIONS : list string :=
  [".ts"; ".tsx"; ".js"; ".jsx"; ".mjs"; ".cjs"].
Definition IMPORT_EXTENSIONS : list string :=
  [".ts"; ".tsx"; ".js"; ".jsx"; ".mjs"; ".cjs"; ".json"].
Definition INDEX_FILES : list string :=
  map (fun ext => "/index" +:+ ext) IMPORT_EXTENSIONS.

Record TsconfigPathsEntry := {
  prefix : string;
  suffix : string;
  targets : list string;
}.

Module Resolver.
  Import JsString.

  (** [candidateCache] of the closure. *)
  Abbreviation Cache := (gmap string (option string)).

  (** The list [candidates] built inside [tryCandidates]. *)
Definition candidates (normBase : string) : list string :=
    normBase
      :: map (fun ext => normBase +:+ ext) IMPORT_EXTENSIONS
      ++ map (fun index => normBase +:+ index) INDEX_FILES.

  (** The [for (const candidate of candidates)] loop. *)
Fixpoint firstKnown (fileSet : gset string) (cands : list string) : option string :=
    match cands with
    | [] => None
    | c :: rest => if decide (c ∈ fileSet) then Some c else firstKnown fileSet rest
    end.

Definition tryCandidates (fileSet : gset string) (cache : Cache) (base : string)
    : option string * Cache :=
    let normBase := backslashesToSlashes base in
    match cache !! normBase with
    | Some hit => (hit, cache)
    | None =>
        let found := firstKnown fileSet (candidates normBase) in
        (found, <[normBase := found]> cache)
    end.

  (** The inner [for (const target of entry.targets)] loop; the second
      component tells whether the loop returned. *)
Fixpoint tryTargets (fileSet : gset string) (cache : Cache)
      (remainder : string) (ts : list string) : option string * Cache :=
    match ts with
    | [] => (None, cache)
    | target :: rest =>
        let candidate := PosixPath.join [target; remainder] in
        match tryCandidates fileSet cache (PosixPath.normalize candidate) with
        | (Some resolved, cache') => (Some resolved, cache')
        | (None, cache') => tryTargets fileSet cache' remainder rest
        end
    end.

Definition aliasRemainder (specifier : string) (entry : TsconfigPathsEntry) : string :=
    let plen := String.length (prefix entry) in
    let slen := String.length specifier in
    if decide (plen = slen) then sliceFrom specifier plen
    else slice specifier plen (Z.of_nat slen - Z.of_nat (String.length (suffix entry))).

  (** The outer [for (const entry of paths)] loop. *)
Fixpoint tryAliases (fileSet : gset string) (cache : Cache)
      (specifier : string) (paths : list TsconfigPathsEntry) : option string * Cache :=
    match paths with
    | [] => (None, cache)
    | entry :: rest =>
        if startsWith specifier (prefix entry) then
          match tryTargets fileSet cache (aliasRemainder specifier entry) (targets entry) with
          | (Some resolved, cache') => (Some resolved, cache')
          | (None, cache') => tryAliases fileSet cache' specifier rest
          end
        else tryAliases fileSet cache specifier rest
    end.

  (** The closure returned by [createModuleResolver]. *)
Definition resolve (fileSet : gset string) (paths : list TsconfigPathsEntry)
      (cache : Cache) (fromPath specifier : string) : option string * Cache :=
    if decide (specifier = "") then (None, cache)
    else
      let fromDir := PosixPath.dirname fromPath in
      if startsWith specifier "." then
        let joined := PosixPath.join [fromDir; specifier] in
        tryCandidates fileSet cache (PosixPath.normalize joined)
      else
        match tryAliases fileSet cache specifier paths with
        | (Some resolved, cache1) => (Some resolved, cache1)
        | (None, cache1) =>
            match tryCandidates fileSet cache1 (PosixPath.join ["."; specifier]) with
            | (Some absoluteCandidate, cache2) => (Some absoluteCandidate, cache2)
            | (None, cache2) =>
                match tryCandidates fileSet cache2 (PosixPath.join ["src"; specifier]) with
                | (Some srcCandidate, cache3) => (Some srcCandidate, cache3)
                | (None, cache3) => (None, cache3)
                end
            end
        end.

End Resolver.


(** ** Insertion-ordered maps (a JavaScript [Map] that is iterated) *)

Section OrderedMap.
  Context {V : Type}.

  (** [m.get(k)] *)
Fixpoint oget (m : list (string * V)) (k : string) : option V :=
    match m with
    | [] => None
    | (k', v) :: m' => if String.eqb k' k then Some v else oget m' k
    end.

  (** [m.set(k, v)]: an existing key keeps its position. *)
Fixpoint oset (m : list (string * V)) (k : string) (v : V) : list (string * V) :=
    match m with
    | [] => [(k, v)]
    | (k', v') :: m' =>
        if String.eqb k' k then (k', v) :: m' else (k', v') :: oset m' k v
    end.

Definition okeys (m : list (string * V)) : list string := map fst m.
Definition ovalues (m : list (string * V)) : list V := map snd m.

End OrderedMap.

(** [set.add(x)] on an insertion-ordered [Set<string>]. *)
Definition setAdd (s : list string) (x : string) : list string :=
  if bool_decide (x ∈ s) then s else s ++ [x].

(** ** Data model of the analyzer *)

Inductive SpecifierType := type_named | type_default | type_namespace.

Module ImportSpecifierBinding.
Record t := mk {
    local : string;
    imported : string;
    type : SpecifierType;
    resolved : option string;
  }.
End ImportSpecifierBinding.

Inductive ImportKind := es | require | dynamic.

Module ImportBinding.
Record t := mk {
    source : string;
    resolved : option string;
    kind : ImportKind;
    specifiers : list ImportSpecifierBinding.t;
  }.
End ImportBinding.

Inductive FunctionKind := function | arrow | method | class | anonymous.

Record Loc := {
  start_line : nat; start_column : nat;
  end_line : nat; end_column : nat;
}.

Module FunctionInfo.
Record t := mk {
    id : string;
    name : string;
    filePath : string;
    kind : FunctionKind;
    loc : option Loc;
    exportName : option string;
    isExported : bool;
    include : bool;
  }.
End FunctionInfo.

Module CallBinding.
Record t := mk {
    local : string;
    imported : string;
    source : string;
    callerId : string;
    resolved : option string;
  }.
End CallBinding.

Module FileAnalysis.
Record t := mk {
    path : string;
    imports : list ImportBinding.t;
    functions : list FunctionInfo.t;
    calls : list CallBinding.t;
    preview : string;
    size : nat;
  }.
End FileAnalysis.

Inductive RelationshipConfidence := low | medium | high.
Inductive SourceType := static | llm.

(** [FileEdge['kind']] and [FunctionEdge['kind']] of [types.ts]. *)
Inductive FileEdgeKind := file_imports | file_llm_reference.
Inductive FunctionEdgeKind := fn_imports | fn_reexports | fn_invokes | fn_llm_reference.

(** [FileEdgeRecord] (at [K := FileEdgeKind]) and [FunctionEdgeRecord]
    (at [K := FunctionEdgeKind]). *)
Module EdgeRecord.
Record t (K : Type) := mk {
    source : string;
    target : string;
    kind : K;
    sourceType : SourceType;
    confidence : option RelationshipConfidence;
    reason : option string;
  }.
  Arguments mk {K}.
  Arguments source {K}.
  Arguments target {K}.
  Arguments kind {K}.
  Arguments sourceType {K}.
  Arguments confidence {K}.
  Arguments reason {K}.
End EdgeRecord.

(** JavaScript truthiness of an optional string and of a string. *)
Definition truthy (o : option string) : bool :=
  match o with
  | Some s => negb (String.eqb s "")
  | None => false
  end.

(** ** What the Babel traversal hands to the visitor *)

Inductive ImportSpecifierNode :=
  | ImportSpecifier (local : string) (importedIdentifier : option string)
  | ImportDefaultSpecifier (local : string)
  | ImportNamespaceSpecifier (local : string).

(** [path.scope.getBinding(name)]: the kind of the binding and, when the
    binding's path sits directly under an import declaration, the source
    string of that declaration. *)
Inductive BindingKind := binding_module | binding_other.

Record ScopeBinding := {
  bindingKind : BindingKind;
  importParentSource : option string;
}.

Inductive Callee :=
  | CalleeIdentifier (name : string) (binding : option ScopeBinding)
  | CalleeOther.

Inductive FunctionNodeType :=
  | FunctionDeclaration | FunctionExpression | ArrowFunctionExpression
  | ClassMethod | ObjectMethod | ClassPrivateMethod.

Inductive ParentShape :=
  | VariableDeclarator (idName : option string)
  | AssignmentExpression (leftName : option string)
  | OtherParent.

(** A path to a function node: the identity of the node, its type, its own
    identifier, the shape of its parent and its source span. *)
Record FunctionPath := {
  node : nat;
  nodeType : FunctionNodeType;
  nodeId : option string;
  parentShape : ParentShape;
  nodeLoc : option Loc;
}.

Inductive ExportAncestor := ExportNamedAncestor | ExportDefaultAncestor.

(** The class declaration found by [findParent] from a method: its
    identifier and whether its parent is an [export] declaration. *)
Record ClassAncestor := {
  classId : option string;
  classParentIsExportNamed : bool;
}.

Inductive DeclaratorInit :=
  | InitFunctionExpression (node : nat) (loc : option Loc)
  | InitArrowFunctionExpression (node : nat) (loc : option Loc)
  | InitOther.

Inductive NamedDeclaration :=
  | DeclFunction (node : nat) (id : option string) (loc : option Loc)
  | DeclVariables (declarators : list (option string * DeclaratorInit))
  | DeclClass (node : nat) (id : option string) (loc : option Loc)
  | DeclOther.

Inductive DefaultDeclaration :=
  | DefaultFunctionDeclaration (node : nat) (id : option string) (loc : option Loc)
  | DefaultArrowFunction (node : nat) (loc : option Loc)
  | DefaultFunctionExpression (node : nat) (loc : option Loc)
  | DefaultIdentifier (name : string) (bindingNode : option nat)
  | DefaultOther.

Inductive Visit :=
  | VisitImportDeclaration (specifiers : list ImportSpecifierNode) (source : string)
  | VisitCallExpression (callee : Callee) (funcParent : option FunctionPath)
  | VisitFunctionDeclaration (p : FunctionPath) (parentIsExportNamed : bool)
  | VisitArrowFunctionExpression (p : FunctionPath) (parentExport : option ExportAncestor)
  | VisitFunctionExpression (p : FunctionPath) (parentExportDefault : bool)
  | VisitClassMethod (node : nat) (key : option string) (loc : option Loc)
      (parentClass : option ClassAncestor)
  | VisitExportNamedDeclaration (declaration : option NamedDeclaration)
  | VisitExportDefaultDeclaration (declaration : DefaultDeclaration).

(** ** The per-file extractor ([analyzeFile]) *)

Definition MAX_PREVIEW_CHARS : nat := 4000.

Module Analyzer.
  Import JsString.

  (** The local variables of [analyzeFile] that the visitor closes over.
      [functionNodeLookup] and [moduleInvoker] hold references to records of
      [functions]: they are indices into that array. *)
Record State := mkState {
    imports : list ImportBinding.t;
    functions : list FunctionInfo.t;
    calls : list CallBinding.t;
    importSpecifierLookup : gmap string ImportSpecifierBinding.t;
    functionNodeLookup : gmap nat nat;
    moduleInvoker : option nat;
    functionCounter : nat;
  }.

Definition initial : State :=
    mkState [] [] [] ∅ ∅ None 0.

Definition withFunctions (st : State) (fs : list FunctionInfo.t) : State :=
    mkState (imports st) fs (calls st) (importSpecifierLookup st)
      (functionNodeLookup st) (moduleInvoker st) (functionCounter st).

Definition withCounter (st : State) (n : nat) : State :=
    mkState (imports st) (functions st) (calls st) (importSpecifierLookup st)
      (functionNodeLookup st) (moduleInvoker st) n.

  (** Field updates of a [FunctionInfo] object. *)
Definition setInclude (fn : FunctionInfo.t) : FunctionInfo.t :=
    FunctionInfo.mk (FunctionInfo.id fn) (FunctionInfo.name fn) (FunctionInfo.filePath fn)
      (FunctionInfo.kind fn) (FunctionInfo.loc fn) (FunctionInfo.exportName fn)
      (FunctionInfo.isExported fn) true.

Definition setExport (exportName : string) (fn : FunctionInfo.t) : FunctionInfo.t :=
    FunctionInfo.mk (FunctionInfo.id fn) (FunctionInfo.name fn) (FunctionInfo.filePath fn)
      (FunctionInfo.kind fn) (FunctionInfo.loc fn) (Some exportName) true true.

Definition setMethodExport (exportName : string) (fn : FunctionInfo.t) : FunctionInfo.t :=
    FunctionInfo.mk (FunctionInfo.id fn) (FunctionInfo.name fn) (FunctionInfo.filePath fn)
      (FunctionInfo.kind fn) (FunctionInfo.loc fn) (Some exportName)
      (FunctionInfo.isExported fn) true.

  (** [info.id] read through a reference. *)
Definition idAt (fs : list FunctionInfo.t) (i : nat) : string :=
    from_option FunctionInfo.id "" (fs !! i).

Definition ensureModuleInvoker (relPath : string) (st : State) : nat * State :=
    match moduleInvoker st with
    | Some i => (i, st)
    | None =>
        let info :=
          FunctionInfo.mk (relPath +:+ "::(module)") "(module)" relPath anonymous
            None None false true in
        let i := List.length (functions st) in
        (i, mkState (imports st) (functions st ++ [info]) (calls st)
              (importSpecifierLookup st) (functionNodeLookup st) (Some i)
              (functionCounter st))
    end.

Definition registerFunction (relPath : string) (st : State) (node : nat)
      (name : string) (kind : FunctionKind) (exportName : option string)
      (isExported : bool) (loc : option Loc) : nat * State :=
    let idBase := from_option (fun e => e) name exportName in
    let c0 := functionCounter st in
    let '(idTail, c1) :=
      if String.eqb idBase "" then ("fn_" +:+ ofNat c0, S c0) else (idBase, c0) in
    let id := relPath +:+ "::" +:+ idTail in
    let '(shown, c2) :=
      if negb (String.eqb name "") then (name, c1)
      else if truthy exportName then (from_option (fun e => e) "" exportName, c1)
      else ("anonymous_" +:+ ofNat c1, S c1) in
    let info := FunctionInfo.mk id shown relPath kind loc exportName isExported isExported in
    let i := List.length (functions st) in
    (i, mkState (imports st) (functions st ++ [info]) (calls st)
          (importSpecifierLookup st) (<[node := i]> (functionNodeLookup st))
          (moduleInvoker st) c2).

Definition markExport (st : State) (info : option nat) (exportName : string) : State :=
    match info with
    | None => st
    | Some i => withFunctions st (alter (setExport exportName) i (functions st))
    end.

Definition inferArrowFunctionName (p : FunctionPath) : option string :=
    match parentShape p with
    | VariableDeclarator (Some n) => Some n
    | AssignmentExpression (Some n) => Some n
    | _ => None
    end.

Definition inferFunctionName (p : FunctionPath) : option string :=
    match nodeType p, nodeId p with
    | FunctionDeclaration, Some n => Some n
    | FunctionExpression, Some n => Some n
    | _, _ => inferArrowFunctionName p
    end.

Definition inferFunctionKind (ty : FunctionNodeType) : FunctionKind :=
    match ty with
    | ArrowFunctionExpression => arrow
    | ClassMethod | ObjectMethod => method
    | _ => function
    end.

Definition importRecord (s : ImportSpecifierNode) : ImportSpecifierBinding.t :=
    match s with
    | ImportSpecifier local imported =>
        ImportSpecifierBinding.mk local (from_option (fun n => n) "default" imported) type_named None
    | ImportDefaultSpecifier local =>
        ImportSpecifierBinding.mk local "default" type_default None
    | ImportNamespaceSpecifier local =>
        ImportSpecifierBinding.mk local "*" type_namespace None
    end.

Definition visitImportDeclaration (st : State)
      (specifiers : list ImportSpecifierNode) (source : string) : State :=
    let records := map importRecord specifiers in
    let lookup :=
      fold_left (fun m r => <[ImportSpecifierBinding.local r := r]> m) records
        (importSpecifierLookup st) in
    mkState (imports st ++ [ImportBinding.mk source None es records])
      (functions st) (calls st) lookup (functionNodeLookup st)
      (moduleInvoker st) (functionCounter st).

  (** The caller of a call: the enclosing function, registered on the fly
      when no handler has seen it, or the module pseudo-record. *)
Definition callerOf (relPath : string) (st : State) (funcParent : option FunctionPath)
    : nat * State :=
    match funcParent with
    | Some fp =>
        let '(i, st1) :=
          match functionNodeLookup st !! node fp with
          | Some i => (i, st)
          | None =>
              let '(name, st0) :=
                match inferFunctionName fp with
                | Some n => (n, st)
                | None => ("anonymous_" +:+ ofNat (functionCounter st),
                           withCounter st (S (functionCounter st)))
                end in
              registerFunction relPath st0 (node fp) name
                (inferFunctionKind (nodeType fp)) None false (nodeLoc fp)
          end in
        (i, withFunctions st1 (alter setInclude i (functions st1)))
    | None => ensureModuleInvoker relPath st
    end.

Definition visitCallExpression (relPath : string) (st : State)
      (callee : Callee) (funcParent : option FunctionPath) : State :=
    match callee with
    | CalleeIdentifier name (Some {| bindingKind := binding_module;
                                     importParentSource := importParent |}) =>
        match importSpecifierLookup st !! name with
        | None => st
        | Some specifier =>
            match ImportSpecifierBinding.type specifier with
            | type_namespace => st
            | _ =>
                let importSource := from_option (fun s => s) "" importParent in
                let '(caller, st1) := callerOf relPath st funcParent in
                let call :=
                  CallBinding.mk (ImportSpecifierBinding.local specifier)
                    (ImportSpecifierBinding.imported specifier) importSource
                    (idAt (functions st1) caller) None in
                mkState (imports st1) (functions st1) (calls st1 ++ [call])
                  (importSpecifierLookup st1) (functionNodeLookup st1)
                  (moduleInvoker st1) (functionCounter st1)
            end
        end
    | _ => st
    end.

Definition visitFunctionDeclaration (relPath : string) (st : State)
      (p : FunctionPath) (parentIsExportNamed : bool) : State :=
    match nodeId p with
    | None => st
    | Some idName =>
        let '(info, st1) :=
          registerFunction relPath st (node p) idName function None
            parentIsExportNamed (nodeLoc p) in
        if parentIsExportNamed then markExport st1 (Some info) idName else st1
    end.

Definition visitArrowFunctionExpression (relPath : string) (st : State)
      (p : FunctionPath) (parentExport : option ExportAncestor) : State :=
    let name := inferArrowFunctionName p in
    let '(info, st1) :=
      registerFunction relPath st (node p) (from_option (fun n => n) "" name) arrow
        (match parentExport with Some ExportDefaultAncestor => Some "default" | _ => None end)
        (match parentExport with Some _ => true | None => false end)
        (nodeLoc p) in
    let st2 :=
      match parentExport, name with
      | Some ExportNamedAncestor, Some n =>
          if String.eqb n "" then st1 else markExport st1 (Some info) n
      | _, _ => st1
      end in
    match parentExport with
    | Some ExportDefaultAncestor => markExport st2 (Some info) "default"
    | _ => st2
    end.

Definition visitFunctionExpression (relPath : string) (st : State)
      (p : FunctionPath) (parentExportDefault : bool) : State :=
    let name := inferFunctionName p in
    let '(info, st1) :=
      registerFunction relPath st (node p) (from_option (fun n => n) "" name) function
        (if parentExportDefault then Some "default" else None)
        parentExportDefault (nodeLoc p) in
    if parentExportDefault then markExport st1 (Some info) "default" else st1.

Definition visitClassMethod (relPath : string) (st : State) (node : nat)
      (key : option string) (loc : option Loc) (parentClass : option ClassAncestor) : State :=
    match key with
    | None => st
    | Some keyName =>
        let '(info, st1) :=
          registerFunction relPath st node keyName method None false loc in
        match parentClass with
        | Some {| classId := Some className; classParentIsExportNamed := true |} =>
            withFunctions st1
              (alter (setMethodExport (className +:+ "." +:+ keyName)) info (functions st1))
        | _ => st1
        end
    end.

  (** [functionNodeLookup.get(node) ?? registerFunction(node, ...)] *)
Definition lookupOrRegister (relPath : string) (st : State) (node : nat)
      (name : string) (kind : FunctionKind) (exportName : option string)
      (loc : option Loc) : nat * State :=
    match functionNodeLookup st !! node with
    | Some i => (i, st)
    | None => registerFunction relPath st node name kind exportName true loc
    end.

Definition exportDeclarator (relPath : string) (st : State)
      (decl : option string * DeclaratorInit) : State :=
    match decl with
    | (Some idName, InitFunctionExpression node loc) =>
        let '(info, st1) :=
          lookupOrRegister relPath st node idName function (Some idName) loc in
        markExport st1 (Some info) idName
    | (Some idName, InitArrowFunctionExpression node loc) =>
        let '(info, st1) :=
          lookupOrRegister relPath st node idName arrow (Some idName) loc in
        markExport st1 (Some info) idName
    | _ => st
    end.

Definition visitExportNamedDeclaration (relPath : string) (st : State)
      (declaration : option NamedDeclaration) : State :=
    match declaration with
    | Some (DeclFunction node (Some idName) loc) =>
        let '(info, st1) :=
          lookupOrRegister relPath st node idName function (Some idName) loc in
        markExport st1 (Some info) idName
    | Some (DeclVariables declarators) =>
        fold_left (exportDeclarator relPath) declarators st
    | Some (DeclClass node (Some idName) loc) =>
        let '(info, st1) :=
          registerFunction relPath st node idName class (Some idName) true loc in
        markExport st1 (Some info) idName
    | _ => st
    end.

Definition visitExportDefaultDeclaration (relPath : string) (st : State)
      (declaration : DefaultDeclaration) : State :=
    match declaration with
    | DefaultFunctionDeclaration node id loc =>
        let name := from_option (fun n => n) "default" id in
        let '(info, st1) :=
          lookupOrRegister relPath st node name function (Some "default") loc in
        markExport st1 (Some info) "default"
    | DefaultArrowFunction node loc =>
        let '(info, st1) :=
          lookupOrRegister relPath st node "default" arrow (Some "default") loc in
        markExport st1 (Some info) "default"
    | DefaultFunctionExpression node loc =>
        let '(info, st1) :=
          lookupOrRegister relPath st node "default" function (Some "default") loc in
        markExport st1 (Some info) "default"
    | DefaultIdentifier _ bindingNode =>
        let info := bindingNode ≫= fun n => functionNodeLookup st !! n in
        markExport st info "default"
    | DefaultOther => st
    end.

  (** The visitor object passed to [traverse]. *)
Definition visit (relPath : string) (st : State) (v : Visit) : State :=
    match v with
    | VisitImportDeclaration specifiers source => visitImportDeclaration st specifiers source
    | VisitCallExpression callee funcParent => visitCallExpression relPath st callee funcParent
    | VisitFunctionDeclaration p e => visitFunctionDeclaration relPath st p e
    | VisitArrowFunctionExpression p e => visitArrowFunctionExpression relPath st p e
    | VisitFunctionExpression p e => visitFunctionExpression relPath st p e
    | VisitClassMethod node key loc c => visitClassMethod relPath st node key loc c
    | VisitExportNamedDeclaration d => visitExportNamedDeclaration relPath st d
    | VisitExportDefaultDeclaration d => visitExportDefaultDeclaration relPath st d
    end.

Definition traverse (relPath : string) (visits : list Visit) : State :=
    fold_left (visit relPath) visits initial.

Definition previewOf (code : string) : string :=
    if decide (MAX_PREVIEW_CHARS < String.length code)
    then String.substring 0 MAX_PREVIEW_CHARS code
         +:+ String "010" "/* …preview truncated… */"
    else code.

  (** [analyzeFile] once the file is read and parsed. *)
Definition analyzeFile (relPath code : string) (visits : list Visit) : FileAnalysis.t :=
    let st := traverse relPath visits in
    FileAnalysis.mk relPath (imports st) (functions st) (calls st)
      (previewOf code) (String.length code).

End Analyzer.

(** ** Results of the language model ([llm.ts]) *)

Module LLMRelationshipFileEdge.
Record t := mk {
    source : string;
    target : string;
    relationship : string;
    confidence : option RelationshipConfidence;
  }.
End LLMRelationshipFileEdge.

Record SymbolRef := { filePath : string; symbol : string }.

Module LLMRelationshipFunctionEdge.
Record t := mk {
    source : SymbolRef;
    target : SymbolRef;
    relationship : string;
    confidence : option RelationshipConfidence;
    reason : option string;
  }.
End LLMRelationshipFunctionEdge.

Module LLMRelationshipResult.
Record t := mk {
    fileEdges : list LLMRelationshipFileEdge.t;
    functionEdges : list LLMRelationshipFunctionEdge.t;
    notes : list string;
  }.
End LLMRelationshipResult.

Record LLMImportSummary := {
  summary_specifier : string;
  summary_resolved : option string;
  summary_kind : ImportKind;
  summary_symbols : list string;
}.

Record LLMFunctionSummary := {
  fsummary_name : string;
  fsummary_exportName : option string;
  fsummary_kind : FunctionKind;
  fsummary_isExported : bool;
}.

Record LLMCallSummary := {
  csummary_callerId : string;
  csummary_local : string;
  csummary_imported : string;
  csummary_importPath : string;
  csummary_resolved : option string;
}.

Record LLMFileDigest := {
  digest_filePath : string;
  digest_size : nat;
  digest_preview : string;
  digest_imports : list LLMImportSummary;
  digest_exports : list LLMFunctionSummary;
  digest_calls : list LLMCallSummary;
}.

(** How a call of an asynchronous function ends. *)
Inductive Completion (A : Type) :=
  | Throws (message : string)
  | Returns (value : A).
Arguments Throws {A}.
Arguments Returns {A}.

(** ** The response parser of [llm.ts] *)

(** Values built by [JSON.parse]. An object lists its members in source
    order; reading a property finds the last member with that key. The value
    of a number is not inspected by the parser and is kept as its literal. *)
#[warnings="-register-all"]
Inductive json :=
  | JNull
  | JBool (b : bool)
  | JNumber (literal : string)
  | JString (s : string)
  | JArray (items : list json)
  | JObject (members : list (string * json)).

Inductive ChatOutcome :=
  | ChatFails (message : string)
  | ChatNotOk (status : nat) (statusText : string)
  | ChatContent (content : option string).

(** What the code takes from its host: the environment variable, the
    built-in [JSON.parse] ([None] when it throws a [SyntaxError]) and the
    round trip to the completion endpoint, ending in
    [data.choices[0]?.message?.content]. *)
Record Host := {
  OPENAI_API_KEY : option string;
  JSON_parse : string → option json;
  chatCompletion : list LLMFileDigest → ChatOutcome;
}.

Module Llm.
  Import JsString.

  (** *** Character classes of the regular expressions *)

  (** [\s] (and what [trim] strips) among the code units below 256. *)
Definition isSpace (c : ascii) : bool :=
    let n := nat_of_ascii c in
    (Nat.leb 9 n && Nat.leb n 13) || Nat.eqb n 32 || Nat.eqb n 160.

  (** [\w] *)
Definition isWord (c : ascii) : bool :=
    let n := nat_of_ascii c in
    (Nat.leb 48 n && Nat.leb n 57) || (Nat.leb 65 n && Nat.leb n 90)
    || (Nat.leb 97 n && Nat.leb n 122) || Nat.eqb n 95.

  (** [[\u0000-\u001F\u007F-\u009F]] *)
Definition isControl (c : ascii) : bool :=
    let n := nat_of_ascii c in
    Nat.leb n 31 || (Nat.leb 127 n && Nat.leb n 159).

Definition lbrace : ascii := "{"%char.
Definition rbrace : ascii := "}"%char.
Definition rbracket : ascii := "]"%char.
Definition comma : ascii := ","%char.
Definition quote : ascii := ascii_of_nat 34.
Definition backtick : ascii := "`"%char.
Definition space : ascii := " "%char.

Definition isCloser (c : ascii) : bool := Ascii.eqb c rbrace || Ascii.eqb c rbracket.

Fixpoint dropSpaces (l : list ascii) : list ascii :=
    match l with
    | c :: r => if isSpace c then dropSpaces r else l
    | [] => []
    end.

Fixpoint takeSpaces (l : list ascii) : list ascii :=
    match l with
    | c :: r => if isSpace c then c :: takeSpaces r else []
    | [] => []
    end.

  (** [s.trim()] *)
Definition trim (l : list ascii) : list ascii :=
    rev (dropSpaces (rev (dropSpaces l))).

Fixpoint stripPrefix (p l : list ascii) : option (list ascii) :=
    match p, l with
    | [], _ => Some l
    | a :: p', b :: l' => if Ascii.eqb a b then stripPrefix p' l' else None
    | _ :: _, [] => None
    end.

  (** *** The code fence: [/```(?:json)?\s*(\{[\s\S]*\})\s*```/] *)

Definition fence : list ascii := [backtick; backtick; backtick].

  (** [\s*```] matches at the head of [l]. *)
Definition fenceFollows (l : list ascii) : bool :=
    match stripPrefix fence (dropSpaces l) with
    | Some _ => true
    | None => false
    end.

  (** The greedy [[\s\S]*\}] followed by [\s*```]: the longest prefix of [l]
      that ends in a closing brace after which the fence follows. *)
Fixpoint lastClose (l : list ascii) : option (list ascii) :=
    match l with
    | [] => None
    | c :: r =>
        match lastClose r with
        | Some p => Some (c :: p)
        | None => if Ascii.eqb c rbrace && fenceFollows r then Some [c] else None
        end
    end.

  (** The capture group of a match that starts at the head of [l]. *)
Definition fenceAt (l : list ascii) : option (list ascii) :=
    match stripPrefix fence l with
    | None => None
    | Some r =>
        let r :=
          match stripPrefix (chars "json") r with
          | Some r' => r'
          | None => r
          end in
        match dropSpaces r with
        | c :: body =>
            if Ascii.eqb c lbrace then cons c <$> lastClose body else None
        | [] => None
        end
    end.

  (** The capture group of the leftmost match. *)
Fixpoint fenceMatch (l : list ascii) : option (list ascii) :=
    match fenceAt l with
    | Some g => Some g
    | None =>
        match l with
        | [] => None
        | _ :: r => fenceMatch r
        end
    end.

  (** *** Control characters and line breaks *)

Definition stripControl (l : list ascii) : list ascii :=
    filter (fun c => isControl c = false) l.

  (** [.replace(/\r\n/g, ' ')] *)
Fixpoint replaceCRLF (l : list ascii) : list ascii :=
    match l with
    | a :: r =>
        match r with
        | b :: r' =>
            if Ascii.eqb a "013"%char && Ascii.eqb b "010"%char
            then space :: replaceCRLF r'
            else a :: replaceCRLF r
        | [] => [a]
        end
    | [] => []
    end.

  (** [.replace(/c/g, ' ')] for a single character [c]. *)
Definition replaceChar (c : ascii) (l : list ascii) : list ascii :=
    map (fun a => if Ascii.eqb a c then space else a) l.

Definition removeControlCharacters (l : list ascii) : list ascii :=
    replaceChar "009"%char
      (replaceChar "013"%char (replaceChar "010"%char (replaceCRLF (stripControl l)))).

  (** *** The outermost braces *)

Fixpoint indexOf (c : ascii) (l : list ascii) : option nat :=
    match l with
    | [] => None
    | a :: r => if Ascii.eqb a c then Some 0 else S <$> indexOf c r
    end.

Fixpoint lastIndexOf (c : ascii) (l : list ascii) : option nat :=
    match l with
    | [] => None
    | a :: r =>
        match lastIndexOf c r with
        | Some i => Some (S i)
        | None => if Ascii.eqb a c then Some 0 else None
        end
    end.

Definition outermostBraces (l : list ascii) : list ascii :=
    match indexOf lbrace l, lastIndexOf rbrace l with
    | Some jsonStart, Some jsonEnd =>
        if decide (jsonStart < jsonEnd)
        then take (S jsonEnd - jsonStart) (drop jsonStart l)
        else l
    | _, _ => l
    end.

  (** *** The repairs *)

  (** A global replace scans from left to right: [step] tells, at the head
      of the rest, what a match writes and how much input it consumes. *)
Fixpoint replaceAll (fuel : nat)
      (step : list ascii → option (list ascii * list ascii))
      (l : list ascii) : list ascii :=
    match fuel with
    | 0 => l
    | S fuel' =>
        match step l with
        | Some (out, rest) => out ++ replaceAll fuel' step rest
        | None =>
            match l with
            | [] => []
            | c :: r => c :: replaceAll fuel' step r
            end
        end
    end.

  (** [/,(\s*[}\]])/ -> '$1'] *)
Definition trailingCommaStep (l : list ascii) : option (list ascii * list ascii) :=
    match l with
    | c :: r =>
        if Ascii.eqb c comma then
          match dropSpaces r with
          | d :: rest => if isCloser d then Some (takeSpaces r ++ [d], rest) else None
          | [] => None
          end
        else None
    | [] => None
    end.

  (** [/X(\s*Q){/ -> 'X,$1{'] for a closing character [X], where [Q] is
      the double quote. *)
Definition missingCommaQuoteStep (closer : ascii) (l : list ascii)
    : option (list ascii * list ascii) :=
    match l with
    | c :: r =>
        if Ascii.eqb c closer then
          match dropSpaces r with
          | q :: b :: rest =>
              if Ascii.eqb q quote && Ascii.eqb b lbrace
              then Some (closer :: comma :: takeSpaces r ++ [quote; lbrace], rest)
              else None
          | _ => None
          end
        else None
    | [] => None
    end.

  (** [/X(\s*\w)/ -> 'X,$1'] for a closing character [X]. *)
Definition missingCommaWordStep (closer : ascii) (l : list ascii)
    : option (list ascii * list ascii) :=
    match l with
    | c :: r =>
        if Ascii.eqb c closer then
          match dropSpaces r with
          | w :: rest =>
              if isWord w then Some (closer :: comma :: takeSpaces r ++ [w], rest) else None
          | [] => None
          end
        else None
    | [] => None
    end.

Definition replaceWith (step : list ascii → option (list ascii * list ascii))
      (l : list ascii) : list ascii :=
    replaceAll (S (List.length l)) step l.

  (** [/}[^}]*$/ -> '}']: everything after the last closing brace goes. *)
Definition dropAfterLastBrace (l : list ascii) : list ascii :=
    match lastIndexOf rbrace l with
    | Some i => take (S i) l
    | None => l
    end.

Fixpoint allSpaces (l : list ascii) : bool :=
    match l with
    | [] => true
    | c :: r => isSpace c && allSpaces r
    end.

  (** [}*\s*$] matches the whole of [l]. *)
Fixpoint bracesThenSpaces (l : list ascii) : bool :=
    match l with
    | [] => true
    | c :: r => if Ascii.eqb c rbrace then bracesThenSpaces r else allSpaces l
    end.

  (** [/}*\s*$/g -> '}']: the leftmost match runs to the end of the input
      and is replaced; when it was not empty, the empty match at the end of
      the input is replaced as well. *)
Fixpoint closeBraces (l : list ascii) : list ascii :=
    match l with
    | [] => [rbrace]
    | c :: r =>
        if bracesThenSpaces l then [rbrace; rbrace] else c :: closeBraces r
    end.

Definition fixCommonIssues (l : list ascii) : list ascii :=
    closeBraces
      (dropAfterLastBrace
         (replaceWith (missingCommaWordStep rbracket)
            (replaceWith (missingCommaWordStep rbrace)
               (replaceWith (missingCommaQuoteStep rbracket)
                  (replaceWith (missingCommaQuoteStep rbrace)
                     (replaceWith trailingCommaStep l)))))).

  (** The text handed to the first [JSON.parse]. *)
Definition cleanJsonText (jsonText : string) : string :=
    let trimmed := trim (chars jsonText) in
    let unfenced :=
      match fenceMatch trimmed with
      | Some g => g
      | None => trimmed
      end in
    unchars (fixCommonIssues (outermostBraces (removeControlCharacters unfenced))).

  (** *** The fallback match: an opening brace, then characters other than
      braces interleaved with brace pairs that hold no brace, then a closing
      brace (the regular expression of [partialMatch]) *)

  (** After the opening brace: [inner] tells whether a nested object is
      open. *)
Fixpoint partialScan (inner : bool) (l : list ascii) : option (list ascii) :=
    match l with
    | [] => None
    | c :: r =>
        if Ascii.eqb c lbrace then
          (if inner then None else cons c <$> partialScan true r)
        else if Ascii.eqb c rbrace then
          (if inner then cons c <$> partialScan false r else Some [c])
        else cons c <$> partialScan inner r
    end.

Fixpoint partialMatch (l : list ascii) : option (list ascii) :=
    match l with
    | [] => None
    | c :: r =>
        match (if Ascii.eqb c lbrace then cons c <$> partialScan false r else None) with
        | Some m => Some m
        | None => partialMatch r
        end
    end.

  (** *** [normaliseResult] *)

  (** Reading the property [key] of a parsed value. *)
Definition property (key : string) (v : json) : option json :=
    match v with
    | JObject members => oget (rev members) key
    | _ => None
    end.

Definition confidenceOf (v : option json) : option RelationshipConfidence :=
    match v with
    | Some (JString c) =>
        if String.eqb c "low" then Some low
        else if String.eqb c "medium" then Some medium
        else if String.eqb c "high" then Some high
        else None
    | _ => None
    end.

Definition stringOr (fallback : string) (v : option json) : string :=
    match v with
    | Some (JString s) => s
    | _ => fallback
    end.

Definition toFileEdge (raw : json) : option LLMRelationshipFileEdge.t :=
    match property "source" raw, property "target" raw with
    | Some (JString source), Some (JString target) =>
        Some (LLMRelationshipFileEdge.mk source target
                (stringOr "uses" (property "relationship" raw))
                (confidenceOf (property "confidence" raw)))
    | _, _ => None
    end.

Definition toSymbolRef (v : option json) : option SymbolRef :=
    match v with
    | Some o =>
        match property "filePath" o, property "symbol" o with
        | Some (JString f), Some (JString s) => Some {| filePath := f; symbol := s |}
        | _, _ => None
        end
    | None => None
    end.

Definition toFunctionEdge (raw : json) : option LLMRelationshipFunctionEdge.t :=
    match toSymbolRef (property "source" raw), toSymbolRef (property "target" raw) with
    | Some source, Some target =>
        Some (LLMRelationshipFunctionEdge.mk source target
                (stringOr "calls" (property "relationship" raw))
                (confidenceOf (property "confidence" raw))
                (match property "reason" raw with
                 | Some (JString r) => Some r
                 | _ => None
                 end))
    | _, _ => None
    end.

Definition emptyResult : LLMRelationshipResult.t :=
    LLMRelationshipResult.mk [] [] [].

Definition arrayOr {A} (f : list json → list A) (v : option json) : list A :=
    match v with
    | Some (JArray items) => f items
    | _ => []
    end.

Definition normaliseResult (payload : json) : LLMRelationshipResult.t :=
    match payload with
    | JObject _ =>
        LLMRelationshipResult.mk
          (arrayOr (omap toFileEdge) (property "fileEdges" payload))
          (arrayOr (omap toFunctionEdge) (property "functionEdges" payload))
          (arrayOr (omap (fun note => match note with JString s => Some s | _ => None end))
             (property "notes" payload))
    | _ => emptyResult
    end.

  (** *** [inferRelationshipsWithLLM] *)

  (** From the content of the response on. *)
Definition parseContent (host : Host) (content : option string)
    : Completion LLMRelationshipResult.t :=
    if negb (truthy content) then Throws "No response content from OpenAI API"
    else
      let jsonText := from_option (fun s => s) "" content in
      let cleaned := cleanJsonText jsonText in
      match JSON_parse host cleaned with
      | Some parsed => Returns (normaliseResult parsed)
      | None =>
          match partialMatch (chars cleaned) with
          | Some m =>
              match JSON_parse host (unchars m) with
              | Some parsed => Returns (normaliseResult parsed)
              | None => Returns emptyResult
              end
          | None => Returns emptyResult
          end
      end.

Definition inferRelationshipsWithLLM (host : Host) (digests : list LLMFileDigest)
    : Completion (option LLMRelationshipResult.t) :=
    if negb (truthy (OPENAI_API_KEY host)) || bool_decide (digests = []) then Returns None
    else
      match chatCompletion host (take 20 digests) with
      | ChatFails message => Throws message
      | ChatNotOk status statusText =>
          Throws ("OpenAI API error: " +:+ ofNat status +:+ " " +:+ statusText)
      | ChatContent content =>
          match parseContent host content with
          | Throws message => Throws message
          | Returns result => Returns (Some result)
          end
      end.

End Llm.

(** ** The graph assembler *)

Abbreviation FileEdgeRecord := (EdgeRecord.t FileEdgeKind).
Abbreviation FunctionEdgeRecord := (EdgeRecord.t FunctionEdgeKind).

(** A reference to a [FunctionInfo] object: the position of its file in
    [ctx.files] and its index in that file's [functions]. *)
Abbreviation FnRef := (nat * nat)%type.

Record AnalysisContext := mkContext {
  files : list (string * FileAnalysis.t);
  warnings : list string;
  fileEdges : list (string * FileEdgeRecord);
  functionEdges : list (string * FunctionEdgeRecord);
  unresolved : list (string * list string);
  exportedFunctions : gmap string FnRef;
  candidateCache : Resolver.Cache;
}.

Module Context.

Definition withFiles (ctx : AnalysisContext) fs : AnalysisContext :=
    mkContext fs (warnings ctx) (fileEdges ctx) (functionEdges ctx)
      (unresolved ctx) (exportedFunctions ctx) (candidateCache ctx).

Definition withWarnings (ctx : AnalysisContext) ws : AnalysisContext :=
    mkContext (files ctx) ws (fileEdges ctx) (functionEdges ctx)
      (unresolved ctx) (exportedFunctions ctx) (candidateCache ctx).

Definition withFileEdges (ctx : AnalysisContext) es : AnalysisContext :=
    mkContext (files ctx) (warnings ctx) es (functionEdges ctx)
      (unresolved ctx) (exportedFunctions ctx) (candidateCache ctx).

Definition withFunctionEdges (ctx : AnalysisContext) es : AnalysisContext :=
    mkContext (files ctx) (warnings ctx) (fileEdges ctx) es
      (unresolved ctx) (exportedFunctions ctx) (candidateCache ctx).

Definition withExportedFunctions (ctx : AnalysisContext) m : AnalysisContext :=
    mkContext (files ctx) (warnings ctx) (fileEdges ctx) (functionEdges ctx)
      (unresolved ctx) m (candidateCache ctx).

Definition pushWarning (ctx : AnalysisContext) (w : string) : AnalysisContext :=
    withWarnings ctx (warnings ctx ++ [w]).

  (** Dereferencing and updating a [FunctionInfo] through a reference. *)
Definition fnAt (fs : list (string * FileAnalysis.t)) (r : FnRef) : option FunctionInfo.t :=
    fs !! r.1 ≫= fun entry => FileAnalysis.functions entry.2 !! r.2.

Definition idOf (fs : list (string * FileAnalysis.t)) (r : FnRef) : string :=
    from_option FunctionInfo.id "" (fnAt fs r).

Definition alterFunctions (f : list FunctionInfo.t → list FunctionInfo.t)
      (entry : string * FileAnalysis.t) : string * FileAnalysis.t :=
    (entry.1,
     FileAnalysis.mk (FileAnalysis.path entry.2) (FileAnalysis.imports entry.2)
       (f (FileAnalysis.functions entry.2)) (FileAnalysis.calls entry.2)
       (FileAnalysis.preview entry.2) (FileAnalysis.size entry.2)).

Definition alterCalls (f : list CallBinding.t → list CallBinding.t)
      (entry : string * FileAnalysis.t) : string * FileAnalysis.t :=
    (entry.1,
     FileAnalysis.mk (FileAnalysis.path entry.2) (FileAnalysis.imports entry.2)
       (FileAnalysis.functions entry.2) (f (FileAnalysis.calls entry.2))
       (FileAnalysis.preview entry.2) (FileAnalysis.size entry.2)).

  (** [fn.include = true] through a reference. *)
Definition includeFn (fs : list (string * FileAnalysis.t)) (r : FnRef)
    : list (string * FileAnalysis.t) :=
    alter (alterFunctions (alter Analyzer.setInclude r.2)) r.1 fs.

Definition setCallResolved (resolved : string) (c : CallBinding.t) : CallBinding.t :=
    CallBinding.mk (CallBinding.local c) (CallBinding.imported c)
      (CallBinding.source c) (CallBinding.callerId c) (Some resolved).

End Context.

Module Assembler.
  Import JsString Context.

  Section WithResolver.
    (** The arguments of [createModuleResolver]. *)
    Variable fileSet : gset string.
    Variable paths : list TsconfigPathsEntry.

    (** What the body of the inner loop of [resolveImports] touches. *)
Record ResolveState := mkResolveState {
      rs_cache : Resolver.Cache;
      rs_fileEdges : list (string * FileEdgeRecord);
      rs_unresolved : list (string * list string);
    }.

Definition markResolved (resolved : string) (binding : ImportBinding.t) : ImportBinding.t :=
      ImportBinding.mk (ImportBinding.source binding) (Some resolved)
        (ImportBinding.kind binding)
        (map (fun spec =>
                ImportSpecifierBinding.mk (ImportSpecifierBinding.local spec)
                  (ImportSpecifierBinding.imported spec)
                  (ImportSpecifierBinding.type spec) (Some resolved))
           (ImportBinding.specifiers binding)).

    (** The edge written by [resolveImports]: the fields of an existing
        record win over the defaults. *)
Definition staticFileEdge (existing : option FileEdgeRecord)
        (relPath resolved : string) : FileEdgeRecord :=
      EdgeRecord.mk relPath resolved
        (from_option EdgeRecord.kind file_imports existing)
        (from_option EdgeRecord.sourceType static existing)
        (existing ≫= EdgeRecord.confidence)
        (existing ≫= EdgeRecord.reason).

Definition resolveBinding (relPath : string) (st : ResolveState)
        (binding : ImportBinding.t) : ResolveState * ImportBinding.t :=
      let '(resolved, cache) :=
        Resolver.resolve fileSet paths (rs_cache st) relPath (ImportBinding.source binding) in
      if truthy resolved then
        let target := from_option (fun r => r) "" resolved in
        let edgeKey := relPath +:+ "->" +:+ target in
        let existing := oget (rs_fileEdges st) edgeKey in
        (mkResolveState cache
           (oset (rs_fileEdges st) edgeKey (staticFileEdge existing relPath target))
           (rs_unresolved st),
         markResolved target binding)
      else if negb (String.eqb (ImportBinding.source binding) "") then
        let unresolved := from_option (fun s => s) [] (oget (rs_unresolved st) relPath) in
        (mkResolveState cache (rs_fileEdges st)
           (oset (rs_unresolved st) relPath
              (setAdd unresolved (ImportBinding.source binding))),
         binding)
      else (mkResolveState cache (rs_fileEdges st) (rs_unresolved st), binding).

Fixpoint resolveBindings (relPath : string) (st : ResolveState)
        (bindings : list ImportBinding.t) : ResolveState * list ImportBinding.t :=
      match bindings with
      | [] => (st, [])
      | binding :: rest =>
          let '(st1, binding') := resolveBinding relPath st binding in
          let '(st2, rest') := resolveBindings relPath st1 rest in
          (st2, binding' :: rest')
      end.

Definition withImports (a : FileAnalysis.t) (imports : list ImportBinding.t)
      : FileAnalysis.t :=
      FileAnalysis.mk (FileAnalysis.path a) imports (FileAnalysis.functions a)
        (FileAnalysis.calls a) (FileAnalysis.preview a) (FileAnalysis.size a).

Fixpoint resolveFiles (st : ResolveState) (entries : list (string * FileAnalysis.t))
      : ResolveState * list (string * FileAnalysis.t) :=
      match entries with
      | [] => (st, [])
      | (relPath, analysis) :: rest =>
          let '(st1, imports) :=
            resolveBindings relPath st (FileAnalysis.imports analysis) in
          let '(st2, rest') := resolveFiles st1 rest in
          (st2, (relPath, withImports analysis imports) :: rest')
      end.

Definition resolveImports (ctx : AnalysisContext) : AnalysisContext :=
      let '(st, entries) :=
        resolveFiles
          (mkResolveState (candidateCache ctx) (fileEdges ctx) (unresolved ctx))
          (files ctx) in
      mkContext entries (warnings ctx) (rs_fileEdges st) (functionEdges ctx)
        (rs_unresolved st) (exportedFunctions ctx) (rs_cache st).

  End WithResolver.

  (** Positions paired with elements, as an indexed loop sees them. *)
Definition indexed {A} (l : list A) : list (nat * A) := imap pair l.

Definition exportFunction (path : string) (filePos : nat)
      (m : gmap string FnRef) (entry : nat * FunctionInfo.t) : gmap string FnRef :=
    let fn := entry.2 in
    if FunctionInfo.isExported fn && truthy (FunctionInfo.exportName fn)
    then <[path +:+ ":" +:+ from_option (fun e => e) "" (FunctionInfo.exportName fn)
             := (filePos, entry.1)]> m
    else m.

Definition exportFile (m : gmap string FnRef)
      (entry : nat * (string * FileAnalysis.t)) : gmap string FnRef :=
    let analysis := entry.2.2 in
    fold_left (exportFunction (FileAnalysis.path analysis) entry.1)
      (indexed (FileAnalysis.functions analysis)) m.

Definition collectFunctionExports (ctx : AnalysisContext) : AnalysisContext :=
    withExportedFunctions ctx
      (fold_left exportFile (indexed (files ctx)) (exportedFunctions ctx)).

  (** [specifierMap] of [collectFunctionEdges]. *)
Definition specifierMapOf (imports : list ImportBinding.t)
    : gmap string ImportSpecifierBinding.t :=
    fold_left
      (fun m binding =>
         fold_left (fun m spec => <[ImportSpecifierBinding.local spec := spec]> m)
           (ImportBinding.specifiers binding) m)
      imports ∅.

  (** The edge written by [collectFunctionEdges]. *)
Definition staticFunctionEdge (existing : option FunctionEdgeRecord)
      (source target : string) : FunctionEdgeRecord :=
    EdgeRecord.mk source target
      (from_option EdgeRecord.kind fn_imports existing)
      (from_option EdgeRecord.sourceType static existing)
      (existing ≫= EdgeRecord.confidence)
      (existing ≫= EdgeRecord.reason).

  (** [analysis.functions.find((fn) => fn.id === callerId)], as a reference. *)
Definition findCaller (fns : list FunctionInfo.t) (callerId : string) : option nat :=
    fst <$> list_find (fun fn => FunctionInfo.id fn = callerId) fns.

  (** The body of [for (const call of analysis.calls)] for the call at
      index [k] of the file at position [filePos]. *)
Definition edgeForCall (filePos : nat)
      (specifierMap : gmap string ImportSpecifierBinding.t)
      (ctx : AnalysisContext) (entry : nat * CallBinding.t) : AnalysisContext :=
    let '(k, call) := entry in
    match specifierMap !! CallBinding.local call with
    | None => ctx
    | Some spec =>
        if negb (truthy (ImportSpecifierBinding.resolved spec)) then ctx
        else
          let resolved := from_option (fun r => r) "" (ImportSpecifierBinding.resolved spec) in
          let targetKey := resolved +:+ ":" +:+ ImportSpecifierBinding.imported spec in
          let target :=
            match exportedFunctions ctx !! targetKey with
            | Some r => Some r
            | None => exportedFunctions ctx !! (resolved +:+ ":default")
            end in
          match target with
          | None => ctx
          | Some targetFn =>
              let fns :=
                from_option (fun e => FileAnalysis.functions e.2) [] (files ctx !! filePos) in
              match findCaller fns (CallBinding.callerId call) with
              | None => ctx
              | Some j =>
                  let caller := (filePos, j) in
                  let fs1 := includeFn (files ctx) caller in
                  let fs2 := includeFn fs1 targetFn in
                  let fs3 := alter (alterCalls (alter (setCallResolved resolved) k)) filePos fs2 in
                  let callerId := idOf fs3 caller in
                  let targetId := idOf fs3 targetFn in
                  let edgeKey := callerId +:+ "->" +:+ targetId in
                  let existing := oget (functionEdges ctx) edgeKey in
                  withFunctionEdges (withFiles ctx fs3)
                    (oset (functionEdges ctx) edgeKey
                       (staticFunctionEdge existing callerId targetId))
              end
          end
    end.

  (** The body of [for (const analysis of ctx.files.values())]. *)
Definition edgesForFile (ctx : AnalysisContext)
      (entry : nat * (string * FileAnalysis.t)) : AnalysisContext :=
    let analysis := entry.2.2 in
    fold_left (edgeForCall entry.1 (specifierMapOf (FileAnalysis.imports analysis)))
      (indexed (FileAnalysis.calls analysis)) ctx.

Definition collectFunctionEdges (ctx : AnalysisContext) : AnalysisContext :=
    fold_left edgesForFile (indexed (files ctx)) ctx.

End Assembler.

(** ** Merging the language model's proposals ([enrichRelationshipsWithLLM]) *)

Module Enrichment.
  Import JsString Context.

Definition digestOf (analysis : FileAnalysis.t) : LLMFileDigest :=
    {| digest_filePath := FileAnalysis.path analysis;
       digest_size := FileAnalysis.size analysis;
       digest_preview := FileAnalysis.preview analysis;
       digest_imports :=
         map (fun binding =>
                {| summary_specifier := ImportBinding.source binding;
                   summary_resolved := ImportBinding.resolved binding;
                   summary_kind := ImportBinding.kind binding;
                   summary_symbols :=
                     map ImportSpecifierBinding.imported (ImportBinding.specifiers binding) |})
           (FileAnalysis.imports analysis);
       digest_exports :=
         map (fun fn =>
                {| fsummary_name := FunctionInfo.name fn;
                   fsummary_exportName := FunctionInfo.exportName fn;
                   fsummary_kind := FunctionInfo.kind fn;
                   fsummary_isExported := FunctionInfo.isExported fn |})
           (filter (fun fn => FunctionInfo.isExported fn = true)
              (FileAnalysis.functions analysis));
       digest_calls :=
         map (fun call =>
                {| csummary_callerId := CallBinding.callerId call;
                   csummary_local := CallBinding.local call;
                   csummary_imported := CallBinding.imported call;
                   csummary_importPath := CallBinding.source call;
                   csummary_resolved := CallBinding.resolved call |})
           (FileAnalysis.calls analysis) |}.

Definition fileEdgeKindOf (relationship : string) : FileEdgeKind :=
    if String.eqb (toLowerCase relationship) "imports"
    then file_imports else file_llm_reference.

Definition withConfidence {K} (e : EdgeRecord.t K)
      (c : option RelationshipConfidence) : EdgeRecord.t K :=
    EdgeRecord.mk (EdgeRecord.source e) (EdgeRecord.target e) (EdgeRecord.kind e)
      (EdgeRecord.sourceType e) c (EdgeRecord.reason e).

Definition withReason {K} (e : EdgeRecord.t K) (r : option string) : EdgeRecord.t K :=
    EdgeRecord.mk (EdgeRecord.source e) (EdgeRecord.target e) (EdgeRecord.kind e)
      (EdgeRecord.sourceType e) (EdgeRecord.confidence e) r.

  (** [if (!existing.confidence) existing.confidence = edge.confidence] *)
Definition backfillConfidence {K} (existing : EdgeRecord.t K)
      (c : option RelationshipConfidence) : EdgeRecord.t K :=
    match EdgeRecord.confidence existing with
    | Some _ => existing
    | None => withConfidence existing c
    end.

  (** The body of [for (const edge of result.fileEdges)]; the state is
      [ctx.fileEdges] and the counter [llmFileEdges]. *)
Definition mergeFileEdge (filePaths : list string)
      (st : list (string * FileEdgeRecord) * nat) (edge : LLMRelationshipFileEdge.t)
    : list (string * FileEdgeRecord) * nat :=
    let '(edges, llmFileEdges) := st in
    let source := LLMRelationshipFileEdge.source edge in
    let target := LLMRelationshipFileEdge.target edge in
    if negb (bool_decide (source ∈ filePaths)) || negb (bool_decide (target ∈ filePaths))
    then st
    else
      let key := source +:+ "->" +:+ target in
      let kind := fileEdgeKindOf (LLMRelationshipFileEdge.relationship edge) in
      match oget edges key with
      | Some existing =>
          (oset edges key
             (backfillConfidence existing (LLMRelationshipFileEdge.confidence edge)),
           llmFileEdges)
      | None =>
          (oset edges key
             (EdgeRecord.mk source target kind llm
                (LLMRelationshipFileEdge.confidence edge) None),
           S llmFileEdges)
      end.

  (** The keys under which one function is entered into [functionLookup]. *)
Definition identifiersOf (path : string) (fn : FunctionInfo.t) : list string :=
    [FunctionInfo.id fn]
    ++ (if truthy (FunctionInfo.exportName fn)
        then [path +:+ ":" +:+ from_option (fun e => e) "" (FunctionInfo.exportName fn)]
        else [])
    ++ (if negb (String.eqb (FunctionInfo.name fn) "")
        then [path +:+ ":" +:+ FunctionInfo.name fn] else [])
    ++ [path +:+ ":" +:+ from_option (fun e => e) (FunctionInfo.name fn)
                           (FunctionInfo.exportName fn)].

Definition setIfAbsent (key : string) (r : FnRef) (m : gmap string FnRef)
    : gmap string FnRef :=
    match m !! key with
    | Some _ => m
    | None => <[key := r]> m
    end.

Definition lookupFunction (path : string) (filePos : nat)
      (m : gmap string FnRef) (entry : nat * FunctionInfo.t) : gmap string FnRef :=
    let '(j, fn) := entry in
    let r := (filePos, j) in
    let m1 := fold_left (fun m key => <[key := r]> m) (identifiersOf path fn) m in
    let m2 :=
      if truthy (FunctionInfo.exportName fn)
      then setIfAbsent (from_option (fun e => e) "" (FunctionInfo.exportName fn)) r m1
      else m1 in
    if negb (String.eqb (FunctionInfo.name fn) "")
    then setIfAbsent (FunctionInfo.name fn) r m2
    else m2.

Definition lookupFile (m : gmap string FnRef)
      (entry : nat * (string * FileAnalysis.t)) : gmap string FnRef :=
    let analysis := entry.2.2 in
    fold_left (lookupFunction (FileAnalysis.path analysis) entry.1)
      (Assembler.indexed (FileAnalysis.functions analysis)) m.

  (** [functionLookup] *)
Definition functionLookupOf (fs : list (string * FileAnalysis.t)) : gmap string FnRef :=
    fold_left lookupFile (Assembler.indexed fs) ∅.

Definition functionEdgeKindOf (relationship : string) : FunctionEdgeKind :=
    let relationship := toLowerCase relationship in
    if includes relationship "call" || includes relationship "invoke"
    then fn_invokes else fn_llm_reference.

  (** [if (edge.reason) existing.reason = existing.reason ?
      `${existing.reason} ${edge.reason}` : edge.reason] *)
Definition mergeReason {K} (existing : EdgeRecord.t K) (reason : option string)
    : EdgeRecord.t K :=
    if truthy reason then
      let r := from_option (fun r => r) "" reason in
      withReason existing
        (Some (if truthy (EdgeRecord.reason existing)
               then from_option (fun r => r) "" (EdgeRecord.reason existing) +:+ " " +:+ r
               else r))
    else existing.

Record FunctionMergeState := mkFunctionMergeState {
    fm_files : list (string * FileAnalysis.t);
    fm_edges : list (string * FunctionEdgeRecord);
    fm_count : nat;
  }.

  (** The body of [for (const edge of result.functionEdges)]. *)
Definition mergeFunctionEdge (functionLookup : gmap string FnRef)
      (st : FunctionMergeState) (edge : LLMRelationshipFunctionEdge.t)
    : FunctionMergeState :=
    let sourceKey :=
      filePath (LLMRelationshipFunctionEdge.source edge) +:+ ":"
      +:+ symbol (LLMRelationshipFunctionEdge.source edge) in
    let targetKey :=
      filePath (LLMRelationshipFunctionEdge.target edge) +:+ ":"
      +:+ symbol (LLMRelationshipFunctionEdge.target edge) in
    match functionLookup !! sourceKey, functionLookup !! targetKey with
    | Some sourceFn, Some targetFn =>
        let fs := includeFn (includeFn (fm_files st) sourceFn) targetFn in
        let sourceId := idOf fs sourceFn in
        let targetId := idOf fs targetFn in
        let key := sourceId +:+ "->" +:+ targetId in
        let inferredKind :=
          functionEdgeKindOf (LLMRelationshipFunctionEdge.relationship edge) in
        match oget (fm_edges st) key with
        | Some existing =>
            mkFunctionMergeState fs
              (oset (fm_edges st) key
                 (mergeReason
                    (backfillConfidence existing
                       (LLMRelationshipFunctionEdge.confidence edge))
                    (LLMRelationshipFunctionEdge.reason edge)))
              (fm_count st)
        | None =>
            mkFunctionMergeState fs
              (oset (fm_edges st) key
                 (EdgeRecord.mk sourceId targetId inferredKind llm
                    (LLMRelationshipFunctionEdge.confidence edge)
                    (LLMRelationshipFunctionEdge.reason edge)))
              (S (fm_count st))
        end
    | _, _ => st
    end.

Definition plural (n : nat) : string := if decide (n = 1) then "" else "s".

  (** The part of [enrichRelationshipsWithLLM] after a non-null result. *)
Definition mergeResult (ctx : AnalysisContext) (result : LLMRelationshipResult.t)
    : AnalysisContext :=
    let filePaths := okeys (files ctx) in
    let '(fileEdges', llmFileEdges) :=
      fold_left (mergeFileEdge filePaths) (LLMRelationshipResult.fileEdges result)
        (fileEdges ctx, 0) in
    let functionLookup := functionLookupOf (files ctx) in
    let st :=
      fold_left (mergeFunctionEdge functionLookup)
        (LLMRelationshipResult.functionEdges result)
        (mkFunctionMergeState (files ctx) (functionEdges ctx) 0) in
    let llmFunctionEdges := fm_count st in
    let warnings1 :=
      warnings ctx ++ map (fun note => "LLM: " +:+ note) (LLMRelationshipResult.notes result) in
    let warnings2 :=
      if negb (Nat.eqb llmFileEdges 0) || negb (Nat.eqb llmFunctionEdges 0) then
        warnings1 ++
          ["LLM inferred " +:+ ofNat llmFileEdges +:+ " file relationship"
             +:+ plural llmFileEdges +:+ " and " +:+ ofNat llmFunctionEdges
             +:+ " function relationship" +:+ plural llmFunctionEdges +:+ "."]
      else warnings1 in
    mkContext (fm_files st) warnings2 fileEdges' (fm_edges st) (unresolved ctx)
      (exportedFunctions ctx) (candidateCache ctx).

Definition enrichRelationshipsWithLLM (host : Host) (ctx : AnalysisContext)
    : AnalysisContext :=
    let digests := map digestOf (ovalues (files ctx)) in
    match Llm.inferRelationshipsWithLLM host digests with
    | Throws message =>
        pushWarning ctx ("LLM relationship inference failed: " +:+ message)
    | Returns None =>
        if negb (truthy (OPENAI_API_KEY host))
        then pushWarning ctx "Set OPENAI_API_KEY to enable LLM-inferred relationships."
        else ctx
    | Returns (Some result) => mergeResult ctx result
    end.

End Enrichment.

(** ** The orchestrator ([analyzeRepositoryGraph]) *)

Inductive FileNodeKind := kind_file | kind_directory.

Module FileNode.
Record t := mk {
    id : string;
    label : string;
    path : string;
    kind : FileNodeKind;
  }.
End FileNode.

Module FunctionNode.
Record t := mk {
    id : string;
    label : string;
    filePath : string;
    exportName : option string;
    loc : option Loc;
  }.
End FunctionNode.

(** [FileEdge] and [FunctionEdge] of [types.ts]. *)
Module GraphEdge.
Record t (K : Type) := mk {
    id : string;
    source : string;
    target : string;
    kind : K;
    sourceType : SourceType;
    confidence : option RelationshipConfidence;
    reason : option string;
  }.
  Arguments mk {K}.
  Arguments id {K}.
  Arguments source {K}.
  Arguments target {K}.
  Arguments kind {K}.
  Arguments sourceType {K}.
  Arguments confidence {K}.
  Arguments reason {K}.
End GraphEdge.

Record Stats := {
  fileCount : nat;
  directoryCount : nat;
  functionCount : nat;
  durationMs : Z;
}.

Module AnalyzeResponseBody.
Record t := mk {
    fileNodes : list FileNode.t;
    fileEdges : list (GraphEdge.t FileEdgeKind);
    functionNodes : list FunctionNode.t;
    functionEdges : list (GraphEdge.t FunctionEdgeKind);
    warnings : list string;
    stats : Stats;
    generatedAt : string;
  }.
End AnalyzeResponseBody.

(** What reading, parsing and traversing one file gives. *)
Inductive FileOutcome :=
  | AnalysisFails (message : string)
  | Parsed (code : string) (visits : list Visit).

(** The repository as the orchestrator finds it: the label and origin given
    by [resolveRepository], the relative paths listed by the two globs (in
    the order the globs return them), the path mappings read by
    [loadTsconfigPaths], and the content of every file. *)
Record Repository := {
  repoLabel : string;
  isRemote : bool;
  fileEntries : list string;
  directoryEntries : list string;
  tsconfigPaths : list TsconfigPathsEntry;
  outcomeOf : string → FileOutcome;
}.

(** The readings of the clock. *)
Record Clock := {
  startedAt : Z;
  finishedAt : Z;
  isoNow : string;
}.

Module Pipeline.
  Import JsString Context.

Definition extOf (rel : string) : string := toLowerCase (PosixPath.extname rel).

Definition parseTargets (repo : Repository) : list string :=
    filter (fun rel => extOf rel ∈ SUPPORTED_EXTENSIONS) (fileEntries repo).

Definition fileSetOf (repo : Repository) : gset string :=
    list_to_set (fileEntries repo).

  (** [new Set(directoryEntries.map(..).concat(['.']))] *)
Definition directoriesOf (repo : Repository) : list string :=
    fold_left setAdd
      (map (fun rel => if String.eqb rel "" then "." else rel) (directoryEntries repo)
       ++ ["."]) [].

Definition initialContext (repo : Repository) : AnalysisContext :=
    mkContext []
      (if isRemote repo then ["Repository cloned into local cache (.gitweb-cache/repos)."]
       else [])
      [] [] [] ∅ ∅.

  (** One callback of the [Promise.all]: it runs when its file has been
      read and parsed. *)
Definition settle (repo : Repository) (ctx : AnalysisContext) (rel : string)
    : AnalysisContext :=
    match outcomeOf repo rel with
    | AnalysisFails message =>
        pushWarning ctx ("Failed to analyze " +:+ rel +:+ ": " +:+ message)
    | Parsed code visits =>
        withFiles ctx (oset (files ctx) rel (Analyzer.analyzeFile rel code visits))
    end.

  (** The parallel phase: the callbacks run in the order [completion] in
      which the files finish. *)
Definition extract (repo : Repository) (completion : list string)
      (ctx : AnalysisContext) : AnalysisContext :=
    fold_left (settle repo) completion ctx.

Definition collectUnresolvedWarnings (ctx : AnalysisContext) : AnalysisContext :=
    fold_left
      (fun ctx entry =>
         let '(file, specifiers) := entry in
         let summary := String.concat ", " (take 5 specifiers) in
         pushWarning ctx
           (if decide (5 < List.length specifiers)
            then "Some imports in " +:+ file +:+ " could not be resolved: "
                   +:+ summary +:+ ", …"
            else "Could not resolve imports in " +:+ file +:+ ": " +:+ summary))
      (unresolved ctx) ctx.

  (** The deterministic passes that follow the parallel phase:
      [resolveImports], [collectFunctionExports], [collectFunctionEdges]. *)
Definition staticPasses (repo : Repository) (ctx : AnalysisContext) : AnalysisContext :=
    let ctx :=
      if decide (files ctx = [])
      then pushWarning ctx
             "No supported source files were parsed. File graph includes nodes without edges."
      else ctx in
    let ctx := Assembler.resolveImports (fileSetOf repo) (tsconfigPaths repo) ctx in
    let ctx := Assembler.collectFunctionExports ctx in
    Assembler.collectFunctionEdges ctx.

  (** The context before enrichment, for the completion order [completion]. *)
Definition staticContext (repo : Repository) (completion : list string) : AnalysisContext :=
    staticPasses repo (extract repo completion (initialContext repo)).

  (** All the passes that follow the parallel phase. *)
Definition assemble (host : Host) (repo : Repository) (ctx : AnalysisContext)
    : AnalysisContext :=
    collectUnresolvedWarnings
      (Enrichment.enrichRelationshipsWithLLM host (staticPasses repo ctx)).

Definition directoryNode (repo : Repository) (relPath : string) : FileNode.t :=
    let isRoot := String.eqb relPath "." || String.eqb relPath "" in
    let displayPath := if isRoot then "." else relPath in
    let labelBase :=
      if isRoot then repoLabel repo
      else if String.eqb (PosixPath.basename relPath) "" then repoLabel repo
           else PosixPath.basename relPath in
    FileNode.mk ("dir:" +:+ displayPath) (labelBase +:+ "/") displayPath kind_directory.

Definition fileNode (repo : Repository) (rel : string) : FileNode.t :=
    FileNode.mk rel
      (if String.eqb (PosixPath.basename rel) "" then repoLabel repo
       else PosixPath.basename rel)
      rel kind_file.

Definition edgeOut {K} (edge : EdgeRecord.t K) : GraphEdge.t K :=
    GraphEdge.mk (EdgeRecord.source edge +:+ "->" +:+ EdgeRecord.target edge)
      (EdgeRecord.source edge) (EdgeRecord.target edge) (EdgeRecord.kind edge)
      (EdgeRecord.sourceType edge) (EdgeRecord.confidence edge) (EdgeRecord.reason edge).

  (** The loop that fills [functionNodes]; [seen] is [seenFunctionNodes]. *)
Definition pushFunctionNode (st : list FunctionNode.t * list string)
      (fn : FunctionInfo.t) : list FunctionNode.t * list string :=
    let '(nodes, seen) := st in
    if negb (FunctionInfo.include fn) then st
    else if bool_decide (FunctionInfo.id fn ∈ seen) then st
    else
      (nodes ++
         [FunctionNode.mk (FunctionInfo.id fn)
            (from_option (fun e => e) (FunctionInfo.name fn) (FunctionInfo.exportName fn))
            (FunctionInfo.filePath fn) (FunctionInfo.exportName fn) (FunctionInfo.loc fn)],
       seen ++ [FunctionInfo.id fn]).

Definition functionNodesOf (fs : list (string * FileAnalysis.t)) : list FunctionNode.t :=
    (fold_left
       (fun st analysis => fold_left pushFunctionNode (FileAnalysis.functions analysis) st)
       (ovalues fs) ([], [])).1.

Definition respond (repo : Repository) (clock : Clock) (ctx : AnalysisContext)
    : AnalyzeResponseBody.t :=
    let parsedFileNodes := okeys (files ctx) in
    let directoryNodes := map (directoryNode repo) (directoriesOf repo) in
    let fileNodes :=
      directoryNodes
      ++ map (fileNode repo)
           (filter (fun rel => rel ∈ parsedFileNodes) (fileEntries repo)) in
    let functionNodes := functionNodesOf (files ctx) in
    AnalyzeResponseBody.mk fileNodes
      (map edgeOut (ovalues (fileEdges ctx)))
      functionNodes
      (map edgeOut (ovalues (functionEdges ctx)))
      (warnings ctx)
      {| fileCount := List.length parsedFileNodes;
         directoryCount := List.length directoryNodes;
         functionCount := List.length functionNodes;
         durationMs := (finishedAt clock - startedAt clock)%Z |}
      (isoNow clock).

  (** [analyzeRepositoryGraph], from the point where the repository has been
      resolved and listed. [completion] is the order in which the files of
      the parallel phase finish; it is a permutation of [parseTargets]. A
      thrown [RepoScannerError] is [Throws] with its message. *)
Definition analyzeRepositoryGraph (host : Host) (clock : Clock)
      (repo : Repository) (completion : list string)
    : Completion AnalyzeResponseBody.t :=
    if decide (fileEntries repo = []) then Throws "No files were found in the repository."
    else
      let ctx := extract repo completion (initialContext repo) in
      Returns (respond repo clock (assemble host repo ctx)).

  (** The schedules the event loop can produce. *)
Definition schedule (repo : Repository) (completion : list string) : Prop :=
    completion ≡ₚ parseTargets repo.

End Pipeline.


(** ** The path aliases of the project ([loadTsconfigPaths]) *)

(** What the code reads from one of the two configuration files. Reading
    the file, stripping its comments and [JSON.parse] are taken as one step
    of the host; the step can throw, the parsed value can lack
    [compilerOptions] or [compilerOptions.paths], or it gives the pairs of
    [Object.entries(compilerOptions.paths)]. *)
Inductive ConfigOutcome :=
  | ConfigThrows
  | ConfigWithoutPaths
  | ConfigPaths (entries : list (string * json)).

Module Tsconfig.
  Import JsString.

Definition star : ascii := "*"%char.

  (** [s.indexOf(c)] for a single character [c]. *)
Fixpoint indexOf (c : ascii) (s : string) : option nat :=
    match s with
    | EmptyString => None
    | String a r => if Ascii.eqb a c then Some 0 else S <$> indexOf c r
    end.

  (** [s.replace(/^\.?\//, '')] *)
Definition stripLeadingSlash (s : string) : string :=
    match s with
    | String a r =>
        if Ascii.eqb a "/"%char then r
        else if Ascii.eqb a "."%char then
          match r with
          | String b r' => if Ascii.eqb b "/"%char then r' else s
          | EmptyString => s
          end
        else s
    | EmptyString => s
    end.

  (** The callback of [values.map]. A value that is not a string has no
      method [replace]: the callback throws a [TypeError], which is [None]. *)
Definition targetOf (value : json) : option string :=
    match value with
    | JString v =>
        let targetPrefix :=
          match indexOf star v with
          | Some targetStar => slice v 0 (Z.of_nat targetStar)
          | None => v
          end in
        Some (PosixPath.normalize (stripLeadingSlash targetPrefix))
    | _ => None
    end.

  (** The body of the loop over the pairs: [None] when it throws,
      [Some None] when it continues without an entry. *)
Definition entryOf (key : string) (values : json)
    : option (option TsconfigPathsEntry) :=
    match values with
    | JArray [] => Some None
    | JArray items =>
        let starIndex := indexOf star key in
        let prefix :=
          match starIndex with
          | Some i => slice key 0 (Z.of_nat i)
          | None => key
          end in
        let suffix :=
          match starIndex with
          | Some i => sliceFrom key (S i)
          | None => ""
          end in
        match mapM targetOf items with
        | Some targets =>
            Some (Some {| prefix := prefix; suffix := suffix; targets := targets |})
        | None => None
        end
    | _ => Some None
    end.

  (** The loop over the pairs: the entries pushed, or [None] when the body
      throws. *)
Fixpoint pathsEntries (pairs : list (string * json)) : option (list TsconfigPathsEntry) :=
    match pairs with
    | [] => Some []
    | (key, values) :: rest =>
        match entryOf key values with
        | None => None
        | Some pushed =>
            match pathsEntries rest with
            | Some entries =>
                Some (match pushed with Some e => e :: entries | None => entries end)
            | None => None
            end
        end
    end.

  (** The loop over the configuration files. *)
Fixpoint loadFrom (configs : list ConfigOutcome) : list TsconfigPathsEntry :=
    match configs with
    | [] => []
    | ConfigPaths pairs :: rest =>
        match pathsEntries pairs with
        | Some entries => entries
        | None => loadFrom rest
        end
    | _ :: rest => loadFrom rest
    end.

  (** [loadTsconfigPaths], given what [tsconfig.json] and [jsconfig.json]
      hold. *)
Definition loadTsconfigPaths (tsconfig jsconfig : ConfigOutcome)
    : list TsconfigPathsEntry :=
    loadFrom [tsconfig; jsconfig].

End Tsconfig.

(** ** The rate limiter ([checkRateLimit], [recordRequest], [getUserStats])

    The two tables of the database are finite maps under their unique keys:
    [userDailyStats] under the user and the day, [userRequestHistory] under
    the user and the URL of the repository. Every query of the client can
    reject; the world carries, for the queries to come, whether each one
    rejects. Instants are milliseconds; the calendar of the host gives the
    local midnight of an instant ([setHours(0, 0, 0, 0)]) and the same time
    on the next day ([setDate(getDate() + 1)]). *)

Module RateLimit.

Local Open Scope Z_scope.

Record DailyStats := {
  newRequestsUsed : Z;
  totalRequests : Z;
}.

Record Db := {
  userDailyStats : gmap (string * Z) DailyStats;
  userRequestHistory : gmap (string * string) string;
}.

Record World := {
  db : Db;
  outages : list bool;
}.

Record Calendar := {
  startOfDay : Z → Z;
  plusOneDay : Z → Z;
}.

Record RateLimitResult := {
  allowed : bool;
  remainingNewRequests : Z;
  resetTime : Z;
  error : option string;
}.

Record UserStats := {
  stats_remainingNewRequests : Z;
  stats_resetTime : Z;
}.

  (** A computation that queries the database: [None] when a query has
      rejected. *)
Definition Prisma (A : Type) : Type := World → option A * World.

#[export] Instance Prisma_ret : MRet Prisma := fun A a w => (Some a, w).

#[export] Instance Prisma_bind : MBind Prisma :=
    fun A B f m w =>
      match m w with
      | (Some a, w') => f a w'
      | (None, w') => (None, w')
      end.

  (** One query: it rejects when the world says so, and runs on the
      database otherwise. *)
Definition query {A} (run : Db → A * Db) : Prisma A :=
    fun w =>
      match outages w with
      | true :: later => (None, {| db := db w; outages := later |})
      | false :: later =>
          let '(a, d) := run (db w) in (Some a, {| db := d; outages := later |})
      | [] =>
          let '(a, d) := run (db w) in (Some a, {| db := d; outages := [] |})
      end.

  (** [try { ... } catch { return fallback }] *)
Definition tryCatch {A} (m : Prisma A) (fallback : A) : World → A * World :=
    fun w =>
      match m w with
      | (Some a, w') => (a, w')
      | (None, w') => (fallback, w')
      end.

  (** *** The queries *)

Definition findStats (userId : string) (date : Z) : Prisma (option DailyStats) :=
    query (fun d => (userDailyStats d !! (userId, date), d)).

Definition createStats (userId : string) (date : Z) (row : DailyStats)
    : Prisma DailyStats :=
    query (fun d =>
             (row, {| userDailyStats := <[(userId, date) := row]> (userDailyStats d);
                      userRequestHistory := userRequestHistory d |})).

Definition findHistory (userId repoUrl : string) : Prisma (option string) :=
    query (fun d => (userRequestHistory d !! (userId, repoUrl), d)).

Definition createHistory (userId repoUrl repoName : string) : Prisma unit :=
    query (fun d =>
             (tt, {| userDailyStats := userDailyStats d;
                     userRequestHistory :=
                       <[(userId, repoUrl) := repoName]> (userRequestHistory d) |})).

  (** [upsert]: the row under the key is updated when there is one and
      created otherwise. *)
Definition upsertStats (userId : string) (date : Z) (update create : DailyStats)
    : Prisma unit :=
    query (fun d =>
             let row :=
               match userDailyStats d !! (userId, date) with
               | Some _ => update
               | None => create
               end in
             (tt, {| userDailyStats := <[(userId, date) := row]> (userDailyStats d);
                     userRequestHistory := userRequestHistory d |})).

Definition DAY_MS : Z := 24 * 60 * 60 * 1000.

  (** [!userId] *)
Definition noUser (userId : option string) : bool := negb (truthy userId).

  (** [checkRateLimit]. [now] is the reading of the clock at the start of
      the call and [nowAtCatch] the reading in the handler of the error. *)
Definition checkRateLimit (cal : Calendar) (userId : option string) (repoUrl : string)
      (now nowAtCatch : Z) (w : World) : RateLimitResult * World :=
    match userId with
    | Some user =>
        if noUser userId then
          ({| allowed := true; remainingNewRequests := -1;
              resetTime := now + DAY_MS; error := None |}, w)
        else
          let today := startOfDay cal now in
          tryCatch
            (found ← findStats user today;
             dailyStats ←
               match found with
               | Some row => mret row
               | None =>
                   createStats user today {| newRequestsUsed := 0; totalRequests := 0 |}
               end;
             existingRequest ← findHistory user repoUrl;
             let isNewRepo := negb (bool_decide (is_Some existingRequest)) in
             let remaining := Z.max 0 (10 - newRequestsUsed dailyStats) in
             if isNewRepo && (10 <=? newRequestsUsed dailyStats) then
               mret {| allowed := false; remainingNewRequests := 0;
                      resetTime := plusOneDay cal today;
                      error :=
                        Some "Daily limit of 10 new repositories reached. Try again tomorrow." |}
             else
               mret {| allowed := true;
                      remainingNewRequests :=
                        if isNewRepo then remaining - 1 else remaining;
                      resetTime := today + DAY_MS; error := None |})
            {| allowed := true; remainingNewRequests := -1;
               resetTime := nowAtCatch + DAY_MS; error := None |}
            w
    | None =>
        ({| allowed := true; remainingNewRequests := -1;
            resetTime := now + DAY_MS; error := None |}, w)
    end.

  (** [recordRequest] *)
Definition recordRequest (cal : Calendar) (userId : option string)
      (repoUrl repoName : string) (now : Z) (w : World) : World :=
    match userId with
    | Some user =>
        if noUser userId then w
        else
          let today := startOfDay cal now in
          (tryCatch
             (existingRequest ← findHistory user repoUrl;
              let isNewRepo := negb (bool_decide (is_Some existingRequest)) in
              _ ← (if isNewRepo then createHistory user repoUrl repoName else mret tt);
              currentStats ← findStats user today;
              let used := from_option newRequestsUsed 0 currentStats in
              let total := from_option totalRequests 0 currentStats in
              upsertStats user today
                {| newRequestsUsed := if isNewRepo then used + 1 else used;
                   totalRequests := total + 1 |}
                {| newRequestsUsed := if isNewRepo then 1 else 0;
                   totalRequests := 1 |})
             tt w).2
    | None => w
    end.

  (** [getUserStats] *)
Definition getUserStats (cal : Calendar) (userId : option string)
      (now nowAtCatch : Z) (w : World) : option UserStats * World :=
    match userId with
    | Some user =>
        if noUser userId then (None, w)
        else
          let today := startOfDay cal now in
          let '(stats, w') :=
            tryCatch
              (dailyStats ← findStats user today;
               mret {| stats_remainingNewRequests :=
                        Z.max 0 (10 - from_option newRequestsUsed 0 dailyStats);
                      stats_resetTime := plusOneDay cal today |})
              {| stats_remainingNewRequests := 10;
                 stats_resetTime := plusOneDay cal nowAtCatch |}
              w in
          (Some stats, w')
    | None => (None, w)
    end.

End RateLimit.

(** ** The repository scanner ([repo-scanner.ts])

    What the scanner takes from its host: the constructor [URL] (its
    [pathname], or nothing when it throws), [path.resolve], [path.join],
    [path.basename], the SHA-1 digest in hexadecimal, the file system and the
    [git] executable. A call of the file system or of [git] is a command;
    what it answers may depend on the commands run before it. *)

Module RepoScanner.
  Import JsString.

Record RepoScannerError := {
  message : string;
  status : nat;
}.

  (** A thrown value: a [RepoScannerError], or an error of the file system
      that the scanner does not catch. *)
Inductive Failure :=
  | ScannerError (e : RepoScannerError)
  | OtherError.

Inductive Outcome (A : Type) :=
  | Fails (f : Failure)
  | Done (a : A).
Arguments Fails {A}.
Arguments Done {A}.

Record ResolvedRepository := {
  path : string;
  displayName : string;
  isRemote : bool;
}.

Inductive Command :=
  | Mkdir (dir : string)
  | Stat (file : string)
  | Rm (dir : string)
  | Git (args : list string).

Inductive GitOutcome :=
  | GitOk
  | GitMissing
  | GitFails (stderr : option string) (errorMessage : string).

Record ScannerHost := {
  urlPathname : string → option string;
  pathResolve : string → string;
  pathJoin : string → string → string;
  pathBasename : string → string;
  sha1Hex : string → string;
  REMOTE_REPOS_ROOT : string;
  (** [fs.mkdir] and [fs.rm]: whether the call succeeds. *)
  mkdir : list Command → string → bool;
  rm : list Command → string → bool;
  (** [fs.stat]: nothing when it rejects, or [isDirectory()]. *)
  stat : list Command → string → option bool;
  git : list Command → list string → GitOutcome;
}.

  (** [new RepoScannerError(message)]: the status defaults to 400. *)
Definition badRequest (message : string) : Failure :=
    ScannerError {| message := message; status := 400 |}.

  (** *** The patterns *)

  (** What [.] does not match. *)
Definition isLineTerminator (c : ascii) : bool :=
    Ascii.eqb c "010"%char || Ascii.eqb c "013"%char.

  (** [.+] matches at the head of [l]. *)
Definition dotPlus (l : list ascii) : bool :=
    match l with
    | c :: _ => negb (isLineTerminator c)
    | [] => false
    end.

  (** The text after [http://] or [https://]. *)
Definition afterHttp (l : list ascii) : option (list ascii) :=
    match Llm.stripPrefix (chars "https://") l with
    | Some rest => Some rest
    | None => Llm.stripPrefix (chars "http://") l
    end.

  (** [.+:.+] matches at the head of [l]; [seen] tells whether the first
      [.+] has taken a character. *)
Fixpoint hostColonPath (seen : bool) (l : list ascii) : bool :=
    match l with
    | [] => false
    | c :: r =>
        if isLineTerminator c then false
        else if seen && Ascii.eqb c ":"%char && dotPlus r then true
        else hostColonPath true r
    end.

Definition startsWithSsh (l : list ascii) : bool :=
    match Llm.stripPrefix (chars "ssh://") l with
    | Some _ => true
    | None => false
    end.

Definition isRemoteRepository (candidate : string) : bool :=
    let l := chars candidate in
    match afterHttp l with
    | Some rest => dotPlus rest
    | None => false
    end
    || match Llm.stripPrefix (chars "git@") l with
       | Some rest => hostColonPath false rest
       | None => false
       end
    || startsWithSsh l.

  (** [value.replace(/\.git$/i, '')] *)
Definition stripGit (l : list ascii) : list ascii :=
    match rev l with
    | t :: i :: g :: d :: before =>
        if Ascii.eqb (lowerChar t) "t"%char && Ascii.eqb (lowerChar i) "i"%char
           && Ascii.eqb (lowerChar g) "g"%char && Ascii.eqb d "."%char
        then rev before else l
    | _ => l
    end.

  (** [s.split(sep)] for a separator that matches one character. *)
Fixpoint splitOn (sep : ascii → bool) (l : list ascii) : list (list ascii) :=
    match l with
    | [] => [[]]
    | c :: r =>
        if sep c then [] :: splitOn sep r
        else match splitOn sep r with
             | [] => [[c]]
             | h :: t => (c :: h) :: t
             end
    end.

Definition nonEmpty (l : list ascii) : bool :=
    match l with
    | [] => false
    | _ :: _ => true
    end.

  (** [stripGit(p).split('/').map((segment) => segment.trim()).filter(Boolean)] *)
Definition pathSegments (p : list ascii) : list (list ascii) :=
    filter (fun s => nonEmpty s = true)
      (map Llm.trim (splitOn (fun c => Ascii.eqb c "/"%char) (stripGit p))).

  (** [[^@]+@] matches at the head of [l]. *)
Definition hasUser (l : list ascii) : bool :=
    match l with
    | c :: r => negb (Ascii.eqb c "@"%char) && bool_decide ("@"%char ∈ r)
    | [] => false
    end.

  (** The capture group of [/^git@[^:]+:(.+)$/], given the text after
      [git@]. *)
Fixpoint scpPath (seen : bool) (l : list ascii) : option (list ascii) :=
    match l with
    | [] => None
    | c :: r =>
        if Ascii.eqb c ":"%char then
          (if seen && nonEmpty r && forallb (fun x => negb (isLineTerminator x)) r
           then Some r else None)
        else scpPath true r
    end.

Definition segmentsMessage : string :=
    "Remote repository URLs must include both owner and repository name (e.g. https://github.com/owner/repo).".

  (** [ensureRemotePathSegments]: the error it throws, if any. *)
Definition ensureRemotePathSegments (host : ScannerHost) (url : string) : option Failure :=
    let l := chars url in
    if bool_decide (is_Some (afterHttp l)) || startsWithSsh l then
      let arg :=
        match Llm.stripPrefix (chars "ssh://") l with
        | Some rest =>
            if hasUser rest then url else unchars (chars "ssh://git@" ++ rest)
        | None => url
        end in
      match urlPathname host arg with
      | Some pathname =>
          if decide (List.length (pathSegments (chars pathname)) < 2)
          then Some (badRequest segmentsMessage) else None
      | None => Some (badRequest segmentsMessage)
      end
    else
      match Llm.stripPrefix (chars "git@") l with
      | Some rest =>
          match scpPath false rest with
          | Some p =>
              if decide (List.length (pathSegments p) < 2)
              then Some (badRequest segmentsMessage) else None
          | None => Some (badRequest segmentsMessage)
          end
      | None => None
      end.

  (** [url.replace(/\.git$/i, '').split(/[:\/]/).filter(Boolean).pop() ?? 'repository'] *)
Definition displayNameOf (url : string) : string :=
    match
      last (filter (fun s => nonEmpty s = true)
              (splitOn (fun c => Ascii.eqb c ":"%char || Ascii.eqb c "/"%char)
                 (stripGit (chars url))))
    with
    | Some name => unchars name
    | None => "repository"
    end.

  (** *** Commands *)

  (** A computation that runs commands: the commands run so far go in, the
      outcome and the commands run come out. *)
Definition Scan (A : Type) : Type := list Command → Outcome A * list Command.

#[export] Instance Scan_ret : MRet Scan := fun A a trace => (Done a, trace).

#[export] Instance Scan_bind : MBind Scan :=
    fun A B f m trace =>
      match m trace with
      | (Done a, trace') => f a trace'
      | (Fails e, trace') => (Fails e, trace')
      end.

Definition throw {A} (e : Failure) : Scan A := fun trace => (Fails e, trace).

  (** [try { m } catch { handler }] *)
Definition catch {A} (m : Scan A) (handler : Scan A) : Scan A :=
    fun trace =>
      match m trace with
      | (Done a, trace') => (Done a, trace')
      | (Fails _, trace') => handler trace'
      end.

Definition fsMkdir (host : ScannerHost) (dir : string) : Scan unit :=
    fun trace =>
      (if mkdir host trace dir then Done tt else Fails OtherError, trace ++ [Mkdir dir]).

Definition fsRm (host : ScannerHost) (dir : string) : Scan unit :=
    fun trace =>
      (if rm host trace dir then Done tt else Fails OtherError, trace ++ [Rm dir]).

  (** [fs.stat] inside a handler of its rejection. *)
Definition fsStat (host : ScannerHost) (file : string) : Scan (option bool) :=
    fun trace => (Done (stat host trace file), trace ++ [Stat file]).

Definition execGit (host : ScannerHost) (args : list string) (contextMessage : string)
    : Scan unit :=
    fun trace =>
      (match git host trace args with
       | GitOk => Done tt
       | GitMissing =>
           Fails (ScannerError
                    {| message :=
                         "Git is required to clone remote repositories. Install git and try again.";
                       status := 501 |})
       | GitFails stderr errorMessage =>
           let stderrText :=
             match stderr with
             | Some text => unchars (Llm.trim (chars text))
             | None => ""
             end in
           let message :=
             if negb (String.eqb stderrText "") then stderrText
             else if negb (String.eqb errorMessage "") then errorMessage
             else "Unknown git error" in
           Fails (ScannerError
                    {| message :=
                         if negb (String.eqb contextMessage "")
                         then contextMessage +:+ ": " +:+ message
                         else "Git command failed: " +:+ message;
                       status := 502 |})
       end,
       trace ++ [Git args]).

Definition cloneArgs (url localPath : string) : list string :=
    ["clone"; "--depth"; "1"; url; localPath].

Definition ensureRemoteRepository (host : ScannerHost) (url : string)
    : Scan (string * string) :=
    _ ← fsMkdir host (REMOTE_REPOS_ROOT host);
    let hash := sha1Hex host url in
    let localPath := pathJoin host (REMOTE_REPOS_ROOT host) hash in
    let gitDir := pathJoin host localPath ".git" in
    stats ← fsStat host gitDir;
    let cloneRequired :=
      match stats with
      | Some isDirectory => negb isDirectory
      | None => true
      end in
    _ ← (if cloneRequired then
           _ ← fsRm host localPath;
           execGit host (cloneArgs url localPath)
             ("Failed to clone repository from " +:+ url)
         else
           catch
             (_ ← execGit host
                    ["-C"; localPath; "fetch"; "--tags"; "--prune"; "--depth"; "1";
                     "origin"; "HEAD"]
                    ("Failed to update repository " +:+ url);
              execGit host ["-C"; localPath; "reset"; "--hard"; "FETCH_HEAD"]
                ("Failed to sync repository " +:+ url))
             (_ ← fsRm host localPath;
              execGit host (cloneArgs url localPath)
                ("Failed to refresh repository from " +:+ url)));
    mret (localPath, displayNameOf url).

Definition resolveRepository (host : ScannerHost) (input : string)
    : Scan ResolvedRepository :=
    let trimmed := unchars (Llm.trim (chars input)) in
    if String.eqb trimmed "" then
      throw (badRequest "Provide a repository URL or absolute path to analyze.")
    else if isRemoteRepository trimmed then
      match ensureRemotePathSegments host trimmed with
      | Some e => throw e
      | None =>
          '(localPath, name) ← ensureRemoteRepository host trimmed;
          mret {| path := localPath; displayName := name; isRemote := true |}
      end
    else
      let absPath := pathResolve host trimmed in
      stats ← fsStat host absPath;
      match stats with
      | None =>
          throw (ScannerError {| message := "Repository path does not exist."; status := 404 |})
      | Some isDirectory =>
          if negb isDirectory then throw (badRequest "The target path must be a directory.")
          else mret {| path := absPath; displayName := pathBasename host absPath;
                       isRemote := false |}
      end.

End RepoScanner.

(** ** The file graph built from parsed files ([analyzeCodeFromFiles])

    The second analyzer reads each file with [parseCodeFile] of
    [parser.ts]; what the graph builder reads from it is taken as given: the
    entries of the [files] map, in the order of the map, each with the
    [ParseResult] of its content, or nothing when the parser throws. The
    functions [path.basename] and [path.dirname] are those of the host. *)

Module CodeFiles.
  Import JsString.

Record ParsedFunction := {
  fn_name : string;
  fn_calls : list string;
}.

Record ParseResult := {
  imports : list string;
  functions : list ParsedFunction;
}.

Record Node := {
  id : string;
  label : string;
  file : string;
}.

Record Edge := {
  edge_id : string;
  source : string;
  target : string;
}.

Record PathHost := {
  basename : string → string;
  dirname : string → string;
}.

  (** [s.replace(/\.(js|ts|jsx|tsx)$/, '')] *)
Definition stripExtension (l : list ascii) : list ascii :=
    match rev l with
    | c3 :: c2 :: c1 :: rest =>
        if Ascii.eqb c1 "."%char && Ascii.eqb c3 "s"%char
           && (Ascii.eqb c2 "j"%char || Ascii.eqb c2 "t"%char)
        then rev rest
        else
          match rest with
          | c0 :: rest' =>
              if Ascii.eqb c0 "."%char && Ascii.eqb c3 "x"%char && Ascii.eqb c2 "s"%char
                 && (Ascii.eqb c1 "j"%char || Ascii.eqb c1 "t"%char)
              then rev rest' else l
          | [] => l
          end
    | _ => l
    end.

  (** [s.replace(/^[\.\/]+/, '')] *)
Fixpoint stripLeadingDots (l : list ascii) : list ascii :=
    match l with
    | c :: r =>
        if Ascii.eqb c "."%char || Ascii.eqb c "/"%char then stripLeadingDots r else l
    | [] => []
    end.

Fixpoint firstMatching (normalized : list ascii) (allFiles : list Node) : option string :=
    match allFiles with
    | [] => None
    | f :: rest =>
        if bool_decide (normalized `suffix_of` stripExtension (chars (id f)))
        then Some (id f) else firstMatching normalized rest
    end.

Definition resolveImport (sourceFile importPath : string) (allFiles : list Node)
    : option string :=
    firstMatching (stripExtension (stripLeadingDots (chars importPath))) allFiles.

Fixpoint findFileForFunction (functionName : string)
      (fileFunctions : list (string * list string)) : option string :=
    match fileFunctions with
    | [] => None
    | (f, functions) :: rest =>
        if bool_decide (functionName ∈ functions) then Some f
        else findFileForFunction functionName rest
    end.

Definition hasEdge (edges : list Edge) (s t : string) : bool :=
    existsb (fun e => String.eqb (source e) s && String.eqb (target e) t) edges.

  (** [new Set(items)] *)
Definition toSet (items : list string) : list string := fold_left setAdd items [].

  (** The tables filled by the loop over the results. *)
Record Tables := {
  fileNodes : list Node;
  fileImports : list (string * list string);
  fileFunctions : list (string * list string);
  functionCalls : list (string * list string);
}.

Definition collect (host : PathHost) (tables : Tables)
      (entry : string * option ParseResult) : Tables :=
    match entry with
    | (_, None) => tables
    | (fileId, Some analysis) =>
        let calls :=
          fold_left (fun acc fn => fold_left setAdd (fn_calls fn) acc)
            (functions analysis) [] in
        {| fileNodes :=
             fileNodes tables
             ++ [{| id := fileId; label := basename host fileId; file := fileId |}];
           fileImports :=
             match imports analysis with
             | [] => fileImports tables
             | _ => oset (fileImports tables) fileId (toSet (imports analysis))
             end;
           fileFunctions :=
             match functions analysis with
             | [] => fileFunctions tables
             | _ =>
                 oset (fileFunctions tables) fileId
                   (toSet (map fn_name (functions analysis)))
             end;
           functionCalls :=
             match functions analysis, calls with
             | _ :: _, _ :: _ => oset (functionCalls tables) fileId calls
             | _, _ => functionCalls tables
             end |}
    end.

Definition importEdges (nodes : list Node) (edges : list Edge)
      (entry : string * list string) : list Edge :=
    let '(sourceFile, paths) := entry in
    fold_left
      (fun edges importPath =>
         match resolveImport sourceFile importPath nodes with
         | Some targetFile =>
             if negb (String.eqb targetFile "") && negb (String.eqb targetFile sourceFile)
             then edges ++ [{| edge_id := sourceFile +:+ "->" +:+ targetFile;
                               source := sourceFile; target := targetFile |}]
             else edges
         | None => edges
         end)
      paths edges.

Definition callEdges (fileFunctions : list (string * list string)) (edges : list Edge)
      (entry : string * list string) : list Edge :=
    let '(sourceFile, calls) := entry in
    fold_left
      (fun edges call =>
         match findFileForFunction call fileFunctions with
         | Some targetFile =>
             if negb (String.eqb targetFile "") && negb (String.eqb targetFile sourceFile)
             then edges ++ [{| edge_id :=
                                 sourceFile +:+ "-calls-" +:+ targetFile +:+ "::" +:+ call;
                               source := sourceFile; target := targetFile |}]
             else edges
         | None => edges
         end)
      calls edges.

Definition sameDirEdge (host : PathHost) (node : Node) (edges : list Edge)
      (otherNode : Node) : list Edge :=
    let nodeDir := dirname host (id node) in
    let otherDir := dirname host (id otherNode) in
    if String.eqb nodeDir otherDir && negb (String.eqb nodeDir ".")
       && negb (hasEdge edges (id node) (id otherNode))
    then edges ++ [{| edge_id := id node +:+ "-samedir-" +:+ id otherNode;
                      source := id node; target := id otherNode |}]
    else edges.

  (** [fileNodes.forEach((node, i) => fileNodes.slice(i + 1).forEach(...))] *)
Fixpoint sameDirEdges (host : PathHost) (nodes : list Node) (edges : list Edge)
    : list Edge :=
    match nodes with
    | [] => edges
    | node :: rest => sameDirEdges host rest (fold_left (sameDirEdge host node) rest edges)
    end.

  (** [analyzeCodeFromFiles]: the nodes and the edges of the file graph. *)
Definition analyzeCodeFromFiles (host : PathHost)
      (files : list (string * option ParseResult)) : list Node * list Edge :=
    let filesToProcess := take 100 files in
    match filesToProcess with
    | [] => ([], [])
    | _ =>
        let tables := fold_left (collect host) filesToProcess
                        {| fileNodes := []; fileImports := []; fileFunctions := [];
                           functionCalls := [] |} in
        let edges := fold_left (importEdges (fileNodes tables)) (fileImports tables) [] in
        let edges := fold_left (callEdges (fileFunctions tables)) (functionCalls tables) edges in
        (fileNodes tables, sameDirEdges host (fileNodes tables) edges)
    end.

End CodeFiles.

(** * Notions used by the statements *)

(** ** The resolver without its memo table *)

Module ResolverSpec.
Import JsString Resolver.

(** The memo table only holds what probing would find. *)
Definition CacheSound (fileSet : gset string) (cache : Cache) : Prop :=
  ∀ normBase hit, cache !! normBase = Some hit →
    hit = firstKnown fileSet (candidates normBase).

(** Probing without the memo table. *)
Definition probe (fileSet : gset string) (base : string) : option string :=
  firstKnown fileSet (candidates (backslashesToSlashes base)).

Fixpoint probeTargets (fileSet : gset string) (remainder : string) (ts : list string)
  : option string :=
  match ts with
  | [] => None
  | target :: rest =>
      match probe fileSet (PosixPath.normalize (PosixPath.join [target; remainder])) with
      | Some r => Some r
      | None => probeTargets fileSet remainder rest
      end
  end.

Fixpoint probeAliases (fileSet : gset string) (specifier : string)
    (paths : list TsconfigPathsEntry) : option string :=
  match paths with
  | [] => None
  | entry :: rest =>
      if startsWith specifier (prefix entry) then
        match probeTargets fileSet (aliasRemainder specifier entry) (targets entry) with
        | Some r => Some r
        | None => probeAliases fileSet specifier rest
        end
      else probeAliases fileSet specifier rest
  end.

(** The resolver as a function of the file set alone. *)
Definition resolvePure (fileSet : gset string) (paths : list TsconfigPathsEntry)
    (fromPath specifier : string) : option string :=
  if decide (specifier = "") then None
  else if startsWith specifier "." then
    probe fileSet
      (PosixPath.normalize (PosixPath.join [PosixPath.dirname fromPath; specifier]))
  else
    match probeAliases fileSet specifier paths with
    | Some r => Some r
    | None =>
        match probe fileSet (PosixPath.join ["."; specifier]) with
        | Some r => Some r
        | None => probe fileSet (PosixPath.join ["src"; specifier])
        end
    end.

End ResolverSpec.

(** ** Hosts, clocks and small repositories used as concrete inputs *)

Module Examples.

(** No credential: enrichment is disabled. *)
Definition offlineHost : Host :=
  {| OPENAI_API_KEY := None;
     JSON_parse := fun _ => None;
     chatCompletion := fun _ => ChatFails "offline" |}.

Definition clock0 : Clock :=
  {| startedAt := 0; finishedAt := 7; isoNow := "2026-01-01T00:00:00.000Z" |}.

(** A repository whose listing is empty. *)
Definition emptyRepo : Repository :=
  {| repoLabel := "empty"; isRemote := false; fileEntries := [];
     directoryEntries := []; tsconfigPaths := [];
     outcomeOf := fun _ => AnalysisFails "ENOENT" |}.

(** A repository with one file that is not a supported source file. *)
Definition readmeRepo : Repository :=
  {| repoLabel := "docs"; isRemote := false; fileEntries := ["README.md"];
     directoryEntries := []; tsconfigPaths := [];
     outcomeOf := fun _ => AnalysisFails "ENOENT" |}.

(** A repository given by its files: each path with the visits of its
    traversal. Every file reads and parses. *)
Definition repoOf (entries : list (string * list Visit)) : Repository :=
  {| repoLabel := "demo"; isRemote := false;
     fileEntries := map fst entries;
     directoryEntries := []; tsconfigPaths := [];
     outcomeOf := fun rel =>
       match oget entries rel with
       | Some visits => Parsed "" visits
       | None => AnalysisFails "ENOENT"
       end |}.

Definition functionPath (node : nat) (ty : FunctionNodeType) (id : option string)
  : FunctionPath :=
  {| node := node; nodeType := ty; nodeId := id; parentShape := OtherParent;
     nodeLoc := None |}.

Definition moduleBinding (source : string) : option ScopeBinding :=
  Some {| bindingKind := binding_module; importParentSource := Some source |}.

(** [export function name() {}]: the export declaration is entered first,
    then the function declaration under it. *)
Definition exportFunctionVisits (node : nat) (name : string) : list Visit :=
  [VisitExportNamedDeclaration (Some (DeclFunction node (Some name) None));
   VisitFunctionDeclaration (functionPath node FunctionDeclaration (Some name)) true].

(** [function name() {}] at top level, not exported. *)
Definition localFunctionVisits (node : nat) (name : string) : list Visit :=
  [VisitFunctionDeclaration (functionPath node FunctionDeclaration (Some name)) false].

(** [import { name } from source; name();] at top level. *)
Definition importAndCallVisits (name source : string) : list Visit :=
  [VisitImportDeclaration [ImportSpecifier name (Some name)] source;
   VisitCallExpression (CalleeIdentifier name (moduleBinding source)) None].

End Examples.

(** ** Edge tables *)

Module EdgeSpec.

(** A table is keyed by source and target when every record sits under the
    key made of its own source and target. *)
Definition KeyedBySourceTarget {K} (m : list (string * EdgeRecord.t K)) : Prop :=
  ∀ k e, (k, e) ∈ m → k = EdgeRecord.source e +:+ "->" +:+ EdgeRecord.target e.

(** Every record of [m] is still found in [m'] under its key, changed at
    most as [R] allows. *)
Definition Keeps {K} (R : EdgeRecord.t K → EdgeRecord.t K → Prop)
    (m m' : list (string * EdgeRecord.t K)) : Prop :=
  ∀ k e, oget m k = Some e → ∃ e', oget m' k = Some e' ∧ R e e'.

(** One pass over a table: records are kept up to [R], keys stay unique
    and stay made of source and target. *)
Definition Pass {K} (R : EdgeRecord.t K → EdgeRecord.t K → Prop)
    (m m' : list (string * EdgeRecord.t K)) : Prop :=
  Keeps R m m'
  ∧ (NoDup (okeys m) → NoDup (okeys m'))
  ∧ (KeyedBySourceTarget m → KeyedBySourceTarget m').

(** Kind, provenance, confidence and reason are the same. *)
Definition Untouched {K} (e e' : EdgeRecord.t K) : Prop :=
  EdgeRecord.kind e' = EdgeRecord.kind e
  ∧ EdgeRecord.sourceType e' = EdgeRecord.sourceType e
  ∧ EdgeRecord.confidence e' = EdgeRecord.confidence e
  ∧ EdgeRecord.reason e' = EdgeRecord.reason e.

(** Kind, provenance and reason are the same; the confidence is the same
    unless it was missing. *)
Definition ConfidenceBackfilled {K} (e e' : EdgeRecord.t K) : Prop :=
  EdgeRecord.kind e' = EdgeRecord.kind e
  ∧ EdgeRecord.sourceType e' = EdgeRecord.sourceType e
  ∧ (EdgeRecord.confidence e' = EdgeRecord.confidence e ∨ EdgeRecord.confidence e = None)
  ∧ EdgeRecord.reason e' = EdgeRecord.reason e.

(** Kind and provenance are the same; the confidence is the same unless it
    was missing; a reason that was there is still there, with text possibly
    added after it. *)
Definition ReasonAppended {K} (e e' : EdgeRecord.t K) : Prop :=
  EdgeRecord.kind e' = EdgeRecord.kind e
  ∧ EdgeRecord.sourceType e' = EdgeRecord.sourceType e
  ∧ (EdgeRecord.confidence e' = EdgeRecord.confidence e ∨ EdgeRecord.confidence e = None)
  ∧ (∀ r, EdgeRecord.reason e = Some r →
       ∃ added, EdgeRecord.reason e' = Some (r +:+ added)).

(** What one proposal of the language model does to a stored file edge:
    ends, kind, provenance and reason stay; a confidence that is there stays,
    and a missing one becomes the confidence [c] of the proposal. *)
Definition ConfidenceFilled {K} (c : option RelationshipConfidence)
    (e e' : EdgeRecord.t K) : Prop :=
  EdgeRecord.source e' = EdgeRecord.source e
  ∧ EdgeRecord.target e' = EdgeRecord.target e
  ∧ EdgeRecord.kind e' = EdgeRecord.kind e
  ∧ EdgeRecord.sourceType e' = EdgeRecord.sourceType e
  ∧ EdgeRecord.reason e' = EdgeRecord.reason e
  ∧ (∀ c0, EdgeRecord.confidence e = Some c0 → EdgeRecord.confidence e' = Some c0)
  ∧ (EdgeRecord.confidence e = None → EdgeRecord.confidence e' = c).

(** What one proposal does to a stored function edge: ends, kind and
    provenance stay; the confidence is filled as for a file edge; a reason
    [r] of the proposal that is not empty is put after the stored reason and
    a space, or becomes the reason when none (or an empty one) is stored; a
    proposal without a reason leaves the stored reason as it is. *)
Definition ReasonJoined {K} (c : option RelationshipConfidence) (r : option string)
    (e e' : EdgeRecord.t K) : Prop :=
  EdgeRecord.source e' = EdgeRecord.source e
  ∧ EdgeRecord.target e' = EdgeRecord.target e
  ∧ EdgeRecord.kind e' = EdgeRecord.kind e
  ∧ EdgeRecord.sourceType e' = EdgeRecord.sourceType e
  ∧ (∀ c0, EdgeRecord.confidence e = Some c0 → EdgeRecord.confidence e' = Some c0)
  ∧ (EdgeRecord.confidence e = None → EdgeRecord.confidence e' = c)
  ∧ (∀ new, r = Some new → new ≠ "" →
       (∀ old, EdgeRecord.reason e = Some old → old ≠ "" →
               EdgeRecord.reason e' = Some (old +:+ " " +:+ new))
       ∧ (EdgeRecord.reason e = None ∨ EdgeRecord.reason e = Some "" →
          EdgeRecord.reason e' = Some new))
  ∧ (r = None ∨ r = Some "" → EdgeRecord.reason e' = EdgeRecord.reason e).

(** A table after a write under [k]: the keys and their order are the same,
    every other key holds what it held, and [k] holds a record related by [R]
    to the record [e] that it held. *)
Definition Rewritten {K} (R : EdgeRecord.t K → EdgeRecord.t K → Prop) (k : string)
    (e : EdgeRecord.t K) (m m' : list (string * EdgeRecord.t K)) : Prop :=
  okeys m' = okeys m
  ∧ (∀ k', k' ≠ k → oget m' k' = oget m k')
  ∧ ∃ e', oget m' k = Some e' ∧ R e e'.

(** The claim of the specification about a second write: kind and
    provenance stay, and an optional field that is present stays as it is. *)
Definition OnlyFillsBlanks {K} (e e' : EdgeRecord.t K) : Prop :=
  EdgeRecord.kind e' = EdgeRecord.kind e
  ∧ EdgeRecord.sourceType e' = EdgeRecord.sourceType e
  ∧ (is_Some (EdgeRecord.confidence e) → EdgeRecord.confidence e' = EdgeRecord.confidence e)
  ∧ (is_Some (EdgeRecord.reason e) → EdgeRecord.reason e' = EdgeRecord.reason e).

(** The kind rule as the specification words it, for both graphs: a label
    containing call or invoke gives invokes, the label imports gives imports,
    any other label gives llm-reference. *)
Definition specifiedKind (label : string) : FunctionEdgeKind :=
  if JsString.includes label "call" || JsString.includes label "invoke" then fn_invokes
  else if String.eqb label "imports" then fn_imports
  else fn_llm_reference.

(** A file-edge kind among the kinds of the specification. *)
Definition fileKindAsSpecified (k : FileEdgeKind) : FunctionEdgeKind :=
  match k with
  | file_imports => fn_imports
  | file_llm_reference => fn_llm_reference
  end.

End EdgeSpec.

(** More concrete inputs: a file with a local function and an exported one,
    beside an empty file, and proposals of the language model about them. *)
Module MergeExamples.
Import Examples.

Definition abRepo : Repository :=
  repoOf [("a.ts", localFunctionVisits 1 "foo" ++ exportFunctionVisits 2 "bar");
          ("b.ts", [])].

(** The context before enrichment. *)
Definition abContext : AnalysisContext :=
  Pipeline.staticContext abRepo ["a.ts"; "b.ts"].

Definition fooRef : SymbolRef := {| filePath := "a.ts"; symbol := "foo" |}.
Definition barRef : SymbolRef := {| filePath := "a.ts"; symbol := "bar" |}.

(** A file edge labelled calls. *)
Definition callsFileEdge : LLMRelationshipResult.t :=
  LLMRelationshipResult.mk
    [LLMRelationshipFileEdge.mk "a.ts" "b.ts" "calls" (Some high)] [] [].

(** A function edge labelled imports. *)
Definition importsFunctionEdge : LLMRelationshipResult.t :=
  LLMRelationshipResult.mk []
    [LLMRelationshipFunctionEdge.mk fooRef barRef "imports" None None] [].

(** The same function edge proposed once with a reason. *)
Definition oneReason : LLMRelationshipResult.t :=
  LLMRelationshipResult.mk []
    [LLMRelationshipFunctionEdge.mk fooRef barRef "uses" (Some low) (Some "r1")] [].

(** The same function edge proposed twice, with two reasons. *)
Definition twoReasons : LLMRelationshipResult.t :=
  LLMRelationshipResult.mk []
    [LLMRelationshipFunctionEdge.mk fooRef barRef "uses" (Some low) (Some "r1");
     LLMRelationshipFunctionEdge.mk fooRef barRef "uses" (Some low) (Some "r2")] [].

(** The function table after the first of the two proposals, and a later
    proposal for the same pair with another confidence and another reason. *)
Definition storedState : Enrichment.FunctionMergeState :=
  Enrichment.mkFunctionMergeState (files abContext)
    [("a.ts::foo->a.ts::bar",
      EdgeRecord.mk "a.ts::foo" "a.ts::bar" fn_llm_reference llm (Some low) (Some "r1"))]
    1.

Definition laterProposal : LLMRelationshipFunctionEdge.t :=
  LLMRelationshipFunctionEdge.mk fooRef barRef "calls" (Some high) (Some "r2").

End MergeExamples.

(** A file that imports its neighbour, and a proposal of the language
    model for the same pair of files. *)
Module StaticEdgeExample.
Import Examples.

Definition repo : Repository :=
  repoOf [("a.ts", [VisitImportDeclaration [ImportDefaultSpecifier "b"] "./b"]);
          ("b.ts", [])].

Definition context : AnalysisContext := Pipeline.staticContext repo ["a.ts"; "b.ts"].

Definition proposal : LLMRelationshipResult.t :=
  LLMRelationshipResult.mk
    [LLMRelationshipFileEdge.mk "a.ts" "b.ts" "uses" (Some medium)] [] [].

End StaticEdgeExample.

(** ** How the passes after extraction change the file table *)

Module FilesSpec.

(** A record is as it was, or has been marked for inclusion. *)
Definition FnGrown (f f' : FunctionInfo.t) : Prop :=
  f' = f ∨ f' = Analyzer.setInclude f.

(** A call is as it was, up to its resolved target. *)
Definition CallKept (c c' : CallBinding.t) : Prop :=
  CallBinding.local c' = CallBinding.local c
  ∧ CallBinding.imported c' = CallBinding.imported c
  ∧ CallBinding.source c' = CallBinding.source c
  ∧ CallBinding.callerId c' = CallBinding.callerId c.

Definition AnalysisGrown (a a' : FileAnalysis.t) : Prop :=
  FileAnalysis.path a' = FileAnalysis.path a
  ∧ FileAnalysis.imports a' = FileAnalysis.imports a
  ∧ Forall2 FnGrown (FileAnalysis.functions a) (FileAnalysis.functions a')
  ∧ Forall2 CallKept (FileAnalysis.calls a) (FileAnalysis.calls a').

(** The file table keeps its keys and their order; records are only marked
    for inclusion and calls only get their resolved target. *)
Definition FilesGrown (fs fs' : list (string * FileAnalysis.t)) : Prop :=
  Forall2 (fun e e' => e'.1 = e.1 ∧ AnalysisGrown e.2 e'.2) fs fs'.

(** The identifiers of the function nodes built from a file table. *)
Definition nodeIds (fs : list (string * FileAnalysis.t)) : list string :=
  map FunctionNode.id (Pipeline.functionNodesOf fs).

End FilesSpec.

(** ** The edges written for proposals of the language model *)

Module ProposalSpec.

(** A file edge written for one of the proposals: its endpoints are those
    of the proposal, both are parsed files, and its kind comes from the
    label of the proposal. *)
Definition FileProposal (proposals : list LLMRelationshipFileEdge.t)
    (filePaths : list string) (e : FileEdgeRecord) : Prop :=
  EdgeRecord.sourceType e = llm
  ∧ ∃ p, p ∈ proposals
         ∧ EdgeRecord.source e = LLMRelationshipFileEdge.source p
         ∧ EdgeRecord.target e = LLMRelationshipFileEdge.target p
         ∧ EdgeRecord.source e ∈ filePaths
         ∧ EdgeRecord.target e ∈ filePaths
         ∧ EdgeRecord.kind e
           = Enrichment.fileEdgeKindOf (LLMRelationshipFileEdge.relationship p).

(** A function edge written for one of the proposals: its endpoints are the
    identifiers of the records that the symbols of the proposal look up, and
    its kind comes from the label of the proposal. *)
Definition FunctionProposal (proposals : list LLMRelationshipFunctionEdge.t)
    (fs : list (string * FileAnalysis.t)) (e : FunctionEdgeRecord) : Prop :=
  EdgeRecord.sourceType e = llm
  ∧ ∃ p sourceFn targetFn,
      p ∈ proposals
      ∧ Enrichment.functionLookupOf fs
          !! (filePath (LLMRelationshipFunctionEdge.source p) +:+ ":"
              +:+ symbol (LLMRelationshipFunctionEdge.source p)) = Some sourceFn
      ∧ Enrichment.functionLookupOf fs
          !! (filePath (LLMRelationshipFunctionEdge.target p) +:+ ":"
              +:+ symbol (LLMRelationshipFunctionEdge.target p)) = Some targetFn
      ∧ EdgeRecord.source e = Context.idOf fs sourceFn
      ∧ EdgeRecord.target e = Context.idOf fs targetFn
      ∧ EdgeRecord.kind e
        = Enrichment.functionEdgeKindOf (LLMRelationshipFunctionEdge.relationship p).

End ProposalSpec.

(** ** Import resolution *)

Module ResolveSpec.

(** The target that [resolveImports] accepts for an import of
    [specifier] written in [relPath]: what the resolver finds, if it is a
    non-empty path. *)
Definition resolvedTarget (fileSet : gset string) (paths : list TsconfigPathsEntry)
    (relPath specifier : string) : option string :=
  match ResolverSpec.resolvePure fileSet paths relPath specifier with
  | Some r => if String.eqb r "" then None else Some r
  | None => None
  end.

(** The keys of the file edges that the imports of a file table give. *)
Definition ImportKey (fileSet : gset string) (paths : list TsconfigPathsEntry)
    (fs : list (string * FileAnalysis.t)) (k : string) : Prop :=
  ∃ relPath analysis binding r,
    (relPath, analysis) ∈ fs
    ∧ binding ∈ FileAnalysis.imports analysis
    ∧ resolvedTarget fileSet paths relPath (ImportBinding.source binding) = Some r
    ∧ k = relPath +:+ "->" +:+ r.

(** A static record joins a key of [keys] to a known file. *)
Definition StaticEnds (keys : list string) (fileSet : gset string)
    (m : list (string * FileEdgeRecord)) : Prop :=
  ∀ k e, (k, e) ∈ m → EdgeRecord.sourceType e = static →
         EdgeRecord.source e ∈ keys ∧ EdgeRecord.target e ∈ fileSet.

(** The invariant of import resolution: a sound memo table, and static
    records that join a key of the file table to a known file. *)
Definition Resolved (fileSet : gset string) (keys : list string)
    (st : Assembler.ResolveState) : Prop :=
  ResolverSpec.CacheSound fileSet (Assembler.rs_cache st)
  ∧ StaticEnds keys fileSet (Assembler.rs_fileEdges st).

End ResolveSpec.

(** ** The parallel phase *)

Module ExtractSpec.

(** The file is read and parsed. *)
Definition parsed (repo : Repository) (rel : string) : Prop :=
  ∃ code visits, outcomeOf repo rel = Parsed code visits.

(** The file table holds, under distinct keys, the analyses of parsed
    files. *)
Definition WellExtracted (repo : Repository) (fs : list (string * FileAnalysis.t)) : Prop :=
  NoDup (okeys fs)
  ∧ ∀ k a, (k, a) ∈ fs →
      ∃ code visits,
        outcomeOf repo k = Parsed code visits ∧ a = Analyzer.analyzeFile k code visits.

End ExtractSpec.

(** A source file that imports a JSON file by its extensionless name. *)
Module JsonExample.
Import Examples.

Definition repo : Repository :=
  repoOf [("a.ts", [VisitImportDeclaration [ImportDefaultSpecifier "data"] "./data"]);
          ("data.json", [])].

End JsonExample.

(** ** Why a record is included *)

Module IncludeSpec.

(** The grounds on which the code marks a record for inclusion before
    enrichment: it is exported; or it is a method that got an export name
    from its exported class; or it is the caller of a recorded call to an
    imported name. *)
Definition Justified (calls : list CallBinding.t) (f : FunctionInfo.t) : Prop :=
  FunctionInfo.isExported f = true
  ∨ (FunctionInfo.kind f = method ∧ is_Some (FunctionInfo.exportName f))
  ∨ ∃ c, c ∈ calls ∧ CallBinding.callerId c = FunctionInfo.id f.

(** The records and calls of one file agree: an exported record is
    included, an included record has grounds, and the caller of every call is
    an included record. *)
Definition Coherent (fns : list FunctionInfo.t) (calls : list CallBinding.t) : Prop :=
  (∀ f, f ∈ fns → FunctionInfo.isExported f = true → FunctionInfo.include f = true)
  ∧ (∀ f, f ∈ fns → FunctionInfo.include f = true → Justified calls f)
  ∧ (∀ c, c ∈ calls →
       ∃ f, f ∈ fns ∧ FunctionInfo.id f = CallBinding.callerId c
            ∧ FunctionInfo.include f = true).

(** The references held by the visitor point into the array of records,
    and the module pseudo-record is included. *)
Definition LookupsValid (st : Analyzer.State) : Prop :=
  (∀ n i, Analyzer.functionNodeLookup st !! n = Some i →
          i < List.length (Analyzer.functions st))
  ∧ (∀ i, Analyzer.moduleInvoker st = Some i →
          ∃ f, Analyzer.functions st !! i = Some f ∧ FunctionInfo.include f = true).

Definition StateCoherent (st : Analyzer.State) : Prop :=
  LookupsValid st ∧ Coherent (Analyzer.functions st) (Analyzer.calls st).

Definition FilesCoherent (fs : list (string * FileAnalysis.t)) : Prop :=
  ∀ e, e ∈ fs → Coherent (FileAnalysis.functions e.2) (FileAnalysis.calls e.2).

(** The export index refers to exported records. *)
Definition ExportsValid (fs : list (string * FileAnalysis.t)) (m : gmap string FnRef) : Prop :=
  ∀ key r, m !! key = Some r →
    ∃ f, Context.fnAt fs r = Some f ∧ FunctionInfo.isExported f = true.

(** Both ends of every function edge are function nodes. *)
Definition EndpointsIncluded (fs : list (string * FileAnalysis.t))
    (edges : list (string * FunctionEdgeRecord)) : Prop :=
  ∀ k edge, (k, edge) ∈ edges →
    EdgeRecord.source edge ∈ FilesSpec.nodeIds fs
    ∧ EdgeRecord.target edge ∈ FilesSpec.nodeIds fs.

(** What the deterministic passes keep true of a context. *)
Definition ContextCoherent (ctx : AnalysisContext) : Prop :=
  FilesCoherent (files ctx)
  ∧ ExportsValid (files ctx) (exportedFunctions ctx)
  ∧ EndpointsIncluded (files ctx) (functionEdges ctx).

(** The claim of the specification: a record is included exactly when it is
    exported or takes part in a call edge. *)
Definition IncludedIffExportedOrInEdge (ctx : AnalysisContext) : Prop :=
  ∀ e f, e ∈ files ctx → f ∈ FileAnalysis.functions e.2 →
    (FunctionInfo.include f = true ↔
     FunctionInfo.isExported f = true
     ∨ ∃ k edge, (k, edge) ∈ functionEdges ctx
                 ∧ (EdgeRecord.source edge = FunctionInfo.id f
                    ∨ EdgeRecord.target edge = FunctionInfo.id f)).

(** The visits of the traversal of a file that reads and parses. *)
Definition visitsOf (repo : Repository) (rel : string) : list Visit :=
  match outcomeOf repo rel with
  | Parsed _ visits => visits
  | AnalysisFails _ => []
  end.

(** The record is a method that got its export name from its class: the
    traversal visited a method [key] of a class [className] that sits
    directly under an [export] declaration, and the export name of the record
    is [className.key]. *)
Definition MethodOfExportedClass (visits : list Visit) (f : FunctionInfo.t) : Prop :=
  FunctionInfo.kind f = method
  ∧ ∃ node key loc className,
      VisitClassMethod node (Some key) loc
        (Some {| classId := Some className; classParentIsExportNamed := true |}) ∈ visits
      ∧ FunctionInfo.exportName f = Some (className +:+ "." +:+ key).

(** A record that has an export name without being marked exported is such
    a method. *)
Definition NamedByClass (visits : list Visit) (f : FunctionInfo.t) : Prop :=
  FunctionInfo.isExported f = false → is_Some (FunctionInfo.exportName f) →
  MethodOfExportedClass visits f.

(** The grounds for inclusion, with the class of a method spelled out, and
    with the caller told by its identifier: identifiers are not unique in a
    file, and [collectFunctionEdges] marks the first record that carries the
    identifier of the caller. *)
Definition Grounds (visits : list Visit) (calls : list CallBinding.t)
    (f : FunctionInfo.t) : Prop :=
  FunctionInfo.isExported f = true
  ∨ (FunctionInfo.isExported f = false ∧ MethodOfExportedClass visits f)
  ∨ ∃ c, c ∈ calls ∧ CallBinding.callerId c = FunctionInfo.id f.

End IncludeSpec.

(** A file whose only import is a package outside the repository, called
    at top level. *)
Module ExternalCallExample.
Import Examples.

Definition repo : Repository :=
  repoOf [("main.ts", importAndCallVisits "useState" "react")].

Definition context : AnalysisContext := Pipeline.staticContext repo ["main.ts"].

End ExternalCallExample.

(** Two files that import a third one; the files of the parallel phase can
    finish in either order. *)
Module ScheduleExample.
Import Examples.

Definition repo : Repository :=
  repoOf [("a.ts", importAndCallVisits "shared" "./c");
          ("b.ts", importAndCallVisits "shared" "./c");
          ("c.ts", exportFunctionVisits 1 "shared")].

Definition first : list string := ["a.ts"; "b.ts"; "c.ts"].
Definition second : list string := ["b.ts"; "a.ts"; "c.ts"].

End ScheduleExample.

(** ** Calls across files *)

Module CallSpec.




(** The reference to the module pseudo-record is the same, and every
    position that held an identifier still holds it. *)
Definition IdsKept (st st' : Analyzer.State) : Prop :=
  Analyzer.moduleInvoker st' = Analyzer.moduleInvoker st
  ∧ ∀ i, Analyzer.idAt (Analyzer.functions st) i ≠ "" →
         Analyzer.idAt (Analyzer.functions st') i = Analyzer.idAt (Analyzer.functions st) i.

End CallSpec.

(** The two files of the cross-file call: [util.ts] declares and exports a
    function in one statement, [main.ts] imports it by name and calls it at
    top level. *)
Module CallEdgeExample.
Import Examples.

Definition repo (node : nat) (name : string) : Repository :=
  repoOf [("util.ts", exportFunctionVisits node name);
          ("main.ts", importAndCallVisits name "./util")].


End CallEdgeExample.

(** ** Responses in a code fence *)

Module FenceSpec.
Import JsString Llm.

(** A body wrapped in a code fence: the fence, the optional language tag,
    white space, the body, white space, the fence. *)
Definition fenced (tag : bool) (before after body : list ascii) : list ascii :=
  fence ++ (if tag then chars "json" else []) ++ before ++ body ++ after ++ fence.

(** The last character of [l] that is not white space is a comma. *)
Definition endsInComma (l : list ascii) : bool :=
  match dropSpaces (rev l) with
  | c :: _ => Ascii.eqb c comma
  | [] => false
  end.

(** A text [start ++ gap ++ closer :: rest] reads as an object with no
    fence inside, and a comma can be put as a trailing comma before
    [closer]: [start] opens the object and does not itself end in a comma,
    [gap] is white space, [closer] closes an array or an object, and the
    text ends with a closing brace. *)
Definition TrailingCommaSite (start gap : list ascii) (closer : ascii)
    (rest : list ascii) : Prop :=
  head start = Some lbrace
  ∧ allSpaces gap = true
  ∧ isCloser closer = true
  ∧ last (closer :: rest) = Some rbrace
  ∧ (backtick ∉ start ++ gap ++ closer :: rest)
  ∧ endsInComma (removeControlCharacters start) = false.

(** A step of a global replacement consumes input when it matches. *)
Definition Consumes (step : list ascii → option (list ascii * list ascii)) : Prop :=
  ∀ l out rest, step l = Some (out, rest) → List.length rest < List.length l.

(** A parser that knows one text: the object with the single member
    [notes], an array holding the string [ok]. *)
Definition notesStart : list ascii :=
  lbrace :: quote :: chars "notes" ++ quote :: chars ":[" ++ quote :: chars "ok" ++ [quote].

Definition notesText : list ascii := notesStart ++ [rbracket; rbrace].

Definition notesHost : Host :=
  {| OPENAI_API_KEY := Some "sk-test";
     JSON_parse := fun s =>
       if String.eqb s (unchars notesText)
       then Some (JObject [("notes", JArray [JString "ok"])])
       else None;
     chatCompletion := fun _ => ChatContent (Some "") |}.

End FenceSpec.

(** ** The run as a whole *)

Module RunSpec.

(** The context from which the response is built. *)
Definition finalContext (host : Host) (repo : Repository) (completion : list string)
    : AnalysisContext :=
  Pipeline.assemble host repo
    (Pipeline.extract repo completion (Pipeline.initialContext repo)).

(** A property of records holds of every record of a file table, told
    against the key of its file. *)
Definition RecordsAt (P : string → FunctionInfo.t → Prop)
    (fs : list (string * FileAnalysis.t)) : Prop :=
  ∀ e f, e ∈ fs → f ∈ FileAnalysis.functions e.2 → P e.1 f.

(** A property of records that does not look at the inclusion mark. *)
Definition Stable (P : string → FunctionInfo.t → Prop) : Prop :=
  ∀ k f, P k f → P k (Analyzer.setInclude f).

(** A host with a credential whose completion endpoint answers with an
    error status. *)
Definition failingHost : Host :=
  {| OPENAI_API_KEY := Some "sk-test";
     JSON_parse := fun _ => None;
     chatCompletion := fun _ => ChatNotOk 500 "Internal Server Error" |}.

(** A repository with one file that parses and one that does not. *)
Definition brokenRepo : Repository :=
  {| repoLabel := "demo"; isRemote := true;
     fileEntries := ["src/ok.ts"; "src/bad.ts"; "README.md"];
     directoryEntries := ["src"]; tsconfigPaths := [];
     outcomeOf := fun rel =>
       if String.eqb rel "src/ok.ts"
       then Parsed "" (Examples.exportFunctionVisits 1 "ok")
       else AnalysisFails "Unexpected token (1:0)" |}.

End RunSpec.

(** ** What the edges of a run look like *)

Module KindSpec.

(** A file edge carries no reason, and when it was found by the static
    analysis its kind is [imports]. *)
Definition FileEdgeShape (e : FileEdgeRecord) : Prop :=
  EdgeRecord.reason e = None
  ∧ (EdgeRecord.sourceType e = static → EdgeRecord.kind e = file_imports).

(** A function edge found by the static analysis has the kind [imports];
    one proposed by the model has the kind [invokes] or [llm-reference]. *)
Definition FunctionEdgeShape (e : FunctionEdgeRecord) : Prop :=
  (EdgeRecord.sourceType e = static → EdgeRecord.kind e = fn_imports)
  ∧ (EdgeRecord.sourceType e = llm →
     EdgeRecord.kind e = fn_invokes ∨ EdgeRecord.kind e = fn_llm_reference).

End KindSpec.

(** ** Imports over a whole run *)

Module ImportSpec.
Import JsString.

(** What an import declaration pushes on [imports]. *)
Definition importOf (v : Visit) : list ImportBinding.t :=
  match v with
  | VisitImportDeclaration specifiers source =>
      [ImportBinding.mk source None es (map Analyzer.importRecord specifiers)]
  | _ => []
  end.

(** The imports, the calls and the table of import specifiers of [st'] are
    those of [st]. *)
Definition ImportsKept (st st' : Analyzer.State) : Prop :=
  Analyzer.imports st' = Analyzer.imports st
  ∧ Analyzer.calls st' = Analyzer.calls st
  ∧ Analyzer.importSpecifierLookup st' = Analyzer.importSpecifierLookup st.

(** The call goes through a named or default specifier of one of the
    imports, and has no resolved target yet. *)
Definition NamesImport (imports : list ImportBinding.t) (c : CallBinding.t) : Prop :=
  ∃ b s, b ∈ imports ∧ s ∈ ImportBinding.specifiers b
         ∧ ImportSpecifierBinding.local s = CallBinding.local c
         ∧ ImportSpecifierBinding.imported s = CallBinding.imported c
         ∧ ImportSpecifierBinding.type s ≠ type_namespace
         ∧ CallBinding.resolved c = None.

(** The table of import specifiers holds specifiers of the imports, each
    under its local name, and every call goes through one of them. *)
Definition KnownImports (st : Analyzer.State) : Prop :=
  (∀ name spec, Analyzer.importSpecifierLookup st !! name = Some spec →
     ImportSpecifierBinding.local spec = name
     ∧ ∃ b, b ∈ Analyzer.imports st ∧ spec ∈ ImportBinding.specifiers b)
  ∧ ∀ c, c ∈ Analyzer.calls st → NamesImport (Analyzer.imports st) c.




End ImportSpec.

(** ** The request to the model *)

Module RequestSpec.

(** A host like [RunSpec.failingHost], except that its endpoint refuses a
    request that describes more than twenty files. *)
Definition strictHost : Host :=
  {| OPENAI_API_KEY := Some "sk-test";
     JSON_parse := fun _ => None;
     chatCompletion := fun digests =>
       if decide (20 < List.length digests) then ChatFails "request too large"
       else ChatNotOk 500 "Internal Server Error" |}.

End RequestSpec.

(** ** Path aliases *)

Module AliasSpec.
Import JsString.

(** The string holds the character. *)
Definition holds (c : ascii) (s : string) : Prop := c ∈ chars s.

(** [tsconfig.json] maps the pattern [@/*] to [./src/*]. *)
Definition atSrc : ConfigOutcome :=
  ConfigPaths [("@/*", JArray [JString "./src/*"])].

(** A configuration with one well-formed alias and one whose target list
    holds a number. *)
Definition brokenAlias : ConfigOutcome :=
  ConfigPaths [("@/*", JArray [JString "./src/*"]); ("~/*", JArray [JNumber "1"])].

End AliasSpec.

(** ** The rate limiter *)

Module RateLimitSpec.
Import RateLimit.

Local Open Scope Z_scope.

(** A calendar in which days are blocks of 24 hours. *)
Definition utc : Calendar :=
  {| startOfDay := fun t => t - t `mod` DAY_MS;
     plusOneDay := fun t => t + DAY_MS |}.

(** A database with no rows that answers every query. *)
Definition emptyWorld : World :=
  {| db := {| userDailyStats := ∅; userRequestHistory := ∅ |}; outages := [] |}.

(** The user has used the quota of day 0 and has not asked for any
    repository that the history knows. *)
Definition spentWorld (user : string) : World :=
  {| db := {| userDailyStats :=
                {[(user, 0) := {| newRequestsUsed := 10; totalRequests := 12 |}]};
              userRequestHistory := ∅ |};
     outages := [] |}.

(** The database answers three queries and rejects the fourth. *)
Definition failingUpsert : World :=
  {| db := {| userDailyStats := ∅; userRequestHistory := ∅ |};
     outages := [false; false; false; true] |}.

(** The database rejects the next query. *)
Definition downWorld : World :=
  {| db := {| userDailyStats := ∅; userRequestHistory := ∅ |}; outages := [true] |}.

(** The user is one repository short of the quota of day 0. *)
Definition nearlySpentWorld (user : string) : World :=
  {| db := {| userDailyStats :=
                {[(user, 0) := {| newRequestsUsed := 9; totalRequests := 9 |}]};
              userRequestHistory := ∅ |};
     outages := [] |}.

End RateLimitSpec.

(** ** The repository scanner *)

Module ScannerSpec.
Import JsString RepoScanner.

(** The directory of the cache that holds the clone of [url]. *)
Definition localPathOf (host : ScannerHost) (url : string) : string :=
  pathJoin host (REMOTE_REPOS_ROOT host) (sha1Hex host url).

Definition fetchArgs (localPath : string) : list string :=
  ["-C"; localPath; "fetch"; "--tags"; "--prune"; "--depth"; "1"; "origin"; "HEAD"].

Definition resetArgs (localPath : string) : list string :=
  ["-C"; localPath; "reset"; "--hard"; "FETCH_HEAD"].

(** The commands that resolving the remote repository [url] may run. *)
Definition Expected (host : ScannerHost) (url : string) (c : Command) : Prop :=
  c = Mkdir (REMOTE_REPOS_ROOT host)
  ∨ c = Stat (pathJoin host (localPathOf host url) ".git")
  ∨ c = Rm (localPathOf host url)
  ∨ c = Git (cloneArgs url (localPathOf host url))
  ∨ c = Git (fetchArgs (localPathOf host url))
  ∨ c = Git (resetArgs (localPathOf host url)).

(** A computation runs commands of [P] only, after the ones run before. *)
Definition Runs {A} (P : Command → Prop) (m : Scan A) : Prop :=
  ∀ trace, ∃ added, (m trace).2 = trace ++ added ∧ Forall P added.

(** The text opens with one of the four marks of a remote repository. *)
Definition RemoteScheme (url : string) : Prop :=
  ∃ scheme rest,
    scheme ∈ ["https://"; "http://"; "git@"; "ssh://"] ∧ chars url = chars scheme ++ rest.

(** A host on which everything succeeds and no clone is cached. *)
Definition freshHost : ScannerHost :=
  {| urlPathname := fun _ => Some "/owner/repo";
     pathResolve := fun p => p;
     pathJoin := fun a b => a +:+ "/" +:+ b;
     pathBasename := PosixPath.basename;
     sha1Hex := fun _ => "da39a3ee";
     REMOTE_REPOS_ROOT := "/srv/.gitweb-cache/repos";
     mkdir := fun _ _ => true;
     rm := fun _ _ => true;
     stat := fun _ _ => None;
     git := fun _ _ => GitOk |}.

(** The characters at which the display name is cut. *)
Definition nameSeparator (c : ascii) : bool :=
  Ascii.eqb c ":"%char || Ascii.eqb c "/"%char.

(** [name] is the last piece of [l] between separators that is not empty:
    [l] is [before ++ name ++ after], where [name] is not empty and holds no
    separator, [after] holds separators only, and [before] is empty or ends
    with a separator. *)
Definition LastPiece (sep : ascii → bool) (l name : list ascii) : Prop :=
  ∃ before after,
    l = before ++ name ++ after
    ∧ name ≠ []
    ∧ Forall (fun c => sep c = false) name
    ∧ Forall (fun c => sep c = true) after
    ∧ (before = [] ∨ ∃ b s, before = b ++ [s] ∧ sep s = true).

End ScannerSpec.

(** ** The file graph of the second analyzer *)

Module CodeFilesSpec.
Import JsString CodeFiles.

(** An edge joins two different nodes among [ids]. *)
Definition GoodEdge (ids : list string) (e : Edge) : Prop :=
  source e ∈ ids ∧ target e ∈ ids ∧ source e ≠ target e.

(** The keys of a table are among [ids]. *)
Definition KeysAmong (ids : list string) (table : list (string * list string)) : Prop :=
  ∀ k, k ∈ okeys table → k ∈ ids.

(** The entries that the parser reads without an error. *)
Definition parsedEntries (entries : list (string * option ParseResult)) : list string :=
  omap (fun entry => match entry.2 with Some _ => Some entry.1 | None => None end) entries.

(** A path made of dots and slashes only. *)
Definition dotsOnly (importPath : string) : Prop :=
  Forall (fun c => c = "."%char ∨ c = "/"%char) (chars importPath).

Definition posixHost : PathHost :=
  {| basename := PosixPath.basename; dirname := PosixPath.dirname |}.

(** Two files of one directory; the first imports the second. *)
Definition twoFiles : list (string * option ParseResult) :=
  [("src/a.ts", Some {| imports := ["./b"]; functions := [] |});
   ("src/b.ts", Some {| imports := []; functions := [] |})].

End CodeFilesSpec.

(** ** The file nodes of a run *)

Module FileNodeSpec.

(** The file is read and parsed without an error. *)
Definition parses (repo : Repository) (rel : string) : bool :=
  match outcomeOf repo rel with
  | Parsed _ _ => true
  | AnalysisFails _ => false
  end.

End FileNodeSpec.

(** ** Names that do not clash *)

Module NameSpec.
Import JsString.

(** The character occurs in the string. *)
Fixpoint holds (c : ascii) (s : string) : bool :=
  match s with
  | "" => false
  | String x r => Ascii.eqb x c || holds c r
  end.

(** A path that holds neither a colon nor a greater-than sign, the
    characters of which the keys of the tables are made. *)
Definition plainPath (rel : string) : bool :=
  negb (holds ":"%char rel) && negb (holds ">"%char rel).

(** The identifiers of the records that the extractor makes for a file. *)
Definition idsOf (repo : Repository) (rel : string) : list string :=
  match outcomeOf repo rel with
  | Parsed code visits =>
      map FunctionInfo.id (FileAnalysis.functions (Analyzer.analyzeFile rel code visits))
  | AnalysisFails _ => []
  end.

(** No path of the listing holds a colon or a greater-than sign, and no
    identifier of a record holds a greater-than sign. *)
Definition plainNames (repo : Repository) : bool :=
  forallb plainPath (fileEntries repo)
  && forallb (fun rel => forallb (fun i => negb (holds ">"%char i)) (idsOf repo rel))
       (fileEntries repo).

End NameSpec.

(** ** The deterministic passes in closed form *)

Module StaticSpec.
Import JsString Context.

(** What import resolution makes of one import of the file [relPath]. *)
Definition resolvedBinding (fileSet : gset string) (paths : list TsconfigPathsEntry)
    (relPath : string) (b : ImportBinding.t) : ImportBinding.t :=
  match ResolveSpec.resolvedTarget fileSet paths relPath (ImportBinding.source b) with
  | Some r => Assembler.markResolved r b
  | None => b
  end.

(** What import resolution makes of one entry of the file table. *)
Definition resolvedEntry (fileSet : gset string) (paths : list TsconfigPathsEntry)
    (e : string * FileAnalysis.t) : string * FileAnalysis.t :=
  (e.1, Assembler.withImports e.2
          (map (resolvedBinding fileSet paths e.1) (FileAnalysis.imports e.2))).


(** The key under which [collectFunctionExports] enters a record of the
    file [path], if it enters it. *)
Definition exportKeyOf (path : string) (f : FunctionInfo.t) : option string :=
  if FunctionInfo.isExported f && truthy (FunctionInfo.exportName f)
  then Some (path +:+ ":" +:+ from_option (fun e => e) "" (FunctionInfo.exportName f))
  else None.

Definition entersUnder (path key : string) (f : FunctionInfo.t) : bool :=
  bool_decide (exportKeyOf path f = Some key).

(** The position of the last element of a list that passes a test. *)
Fixpoint lastMatch {A} (P : A → bool) (l : list A) : option nat :=
  match l with
  | [] => None
  | x :: r =>
      match lastMatch P r with
      | Some j => Some (S j)
      | None => if P x then Some 0 else None
      end
  end.

(** The record of the file [e] that the export index holds under [key]:
    the last one that is entered under it. *)
Definition exportOf (key : string) (e : string * FileAnalysis.t) : option nat :=
  lastMatch (entersUnder (FileAnalysis.path e.2) key) (FileAnalysis.functions e.2).

(** The export index of a file table. *)
Definition exportsOf (fs : list (string * FileAnalysis.t)) : gmap string FnRef :=
  fold_left Assembler.exportFile (Assembler.indexed fs) ∅.

(** The target that the export index [E] holds for a call through [spec]:
    the export under the imported name, or else the default export. *)
Definition targetOf (E : gmap string FnRef) (spec : ImportSpecifierBinding.t)
    : option FnRef :=
  let resolved := from_option (fun r => r) "" (ImportSpecifierBinding.resolved spec) in
  match E !! (resolved +:+ ":" +:+ ImportSpecifierBinding.imported spec) with
  | Some r => Some r
  | None => E !! (resolved +:+ ":default")
  end.

(** The call gives an edge when its local name is that of an import
    specifier that resolved and the export index holds a target: the
    resolved path and the target. *)
Definition yields (E : gmap string FnRef)
    (specifierMap : gmap string ImportSpecifierBinding.t) (call : CallBinding.t)
    : option (string * FnRef) :=
  match specifierMap !! CallBinding.local call with
  | Some spec =>
      if truthy (ImportSpecifierBinding.resolved spec)
      then (fun t => (from_option (fun r => r) "" (ImportSpecifierBinding.resolved spec), t))
             <$> targetOf E spec
      else None
  | None => None
  end.

(** What a call that gives an edge does to the analysis of its own file:
    the first record that carries the identifier of the caller is marked,
    and the call gets its resolved path. *)
Definition callStep (E : gmap string FnRef)
    (specifierMap : gmap string ImportSpecifierBinding.t)
    (a : FileAnalysis.t) (entry : nat * CallBinding.t) : FileAnalysis.t :=
  match yields E specifierMap entry.2 with
  | Some (resolved, _) =>
      match Assembler.findCaller (FileAnalysis.functions a) (CallBinding.callerId entry.2) with
      | Some j =>
          FileAnalysis.mk (FileAnalysis.path a) (FileAnalysis.imports a)
            (alter Analyzer.setInclude j (FileAnalysis.functions a))
            (alter (setCallResolved resolved) entry.1 (FileAnalysis.calls a))
            (FileAnalysis.preview a) (FileAnalysis.size a)
      | None => a
      end
  | None => a
  end.

(** What call-edge derivation makes of one entry of the file table. *)
Definition settledEntry (E : gmap string FnRef) (e : string * FileAnalysis.t)
    : string * FileAnalysis.t :=
  (e.1,
   fold_left (callStep E (Assembler.specifierMapOf (FileAnalysis.imports e.2)))
     (Assembler.indexed (FileAnalysis.calls e.2)) e.2).

(** The ends of the edge that a call gives. *)
Definition endsOf (fs : list (string * FileAnalysis.t)) (E : gmap string FnRef)
    (specifierMap : gmap string ImportSpecifierBinding.t) (call : CallBinding.t)
    : option (string * string) :=
  (fun rt => (CallBinding.callerId call, idOf fs rt.2)) <$> yields E specifierMap call.

(** The ends of the edges that the calls of one file give, in order. *)
Definition yieldedEnds (fs : list (string * FileAnalysis.t)) (E : gmap string FnRef)
    (e : string * FileAnalysis.t) : list (string * string) :=
  omap (endsOf fs E (Assembler.specifierMapOf (FileAnalysis.imports e.2)))
    (FileAnalysis.calls e.2).

(** The write of [collectFunctionEdges] for a pair of ends. *)
Definition writeEdge (T : list (string * FunctionEdgeRecord)) (st : string * string)
    : list (string * FunctionEdgeRecord) :=
  let key := st.1 +:+ "->" +:+ st.2 in
  oset T key (Assembler.staticFunctionEdge (oget T key) st.1 st.2).

(** The file table after import resolution, for a completion order. *)
Definition resolvedFiles (repo : Repository) (completion : list string)
    : list (string * FileAnalysis.t) :=
  map (resolvedEntry (Pipeline.fileSetOf repo) (tsconfigPaths repo))
    (files (Pipeline.extract repo completion (Pipeline.initialContext repo))).

(** The ends of the edges that the imports of one file give, in order. *)
Definition fileEnds (fileSet : gset string) (paths : list TsconfigPathsEntry)
    (e : string * FileAnalysis.t) : list (string * string) :=
  omap (fun b =>
          (fun r => (e.1, r))
            <$> ResolveSpec.resolvedTarget fileSet paths e.1 (ImportBinding.source b))
    (FileAnalysis.imports e.2).

(** The write of [resolveImports] for a pair of ends. *)
Definition writeFileEdge (T : list (string * FileEdgeRecord)) (st : string * string)
    : list (string * FileEdgeRecord) :=
  let key := st.1 +:+ "->" +:+ st.2 in
  oset T key (Assembler.staticFileEdge (oget T key) st.1 st.2).

(** The function nodes of one file, built on their own. *)
Definition nodesOfFile (e : string * FileAnalysis.t) : list FunctionNode.t :=
  (fold_left Pipeline.pushFunctionNode (FileAnalysis.functions e.2) ([], [])).1.

(** No two files of the table hold records with the same identifier. *)
Definition IdsOwned (fs : list (string * FileAnalysis.t)) : Prop :=
  ∀ e e' f g, e ∈ fs → e' ∈ fs →
    f ∈ FileAnalysis.functions e.2 → g ∈ FileAnalysis.functions e'.2 →
    FunctionInfo.id f = FunctionInfo.id g → e.1 = e'.1.

End StaticSpec.

(** ** Names that clash *)

Module ClashExample.
Import Examples.

(** Four files whose names clash in the keys of the file edges: [a.ts]
    imports [b.ts->c.ts], and [a.ts->b.ts] imports [c.ts]. *)
Definition repo : Repository :=
  repoOf [("a.ts", [VisitImportDeclaration [ImportSpecifier "x" (Some "x")] "./b.ts->c"]);
          ("a.ts->b.ts", [VisitImportDeclaration [ImportSpecifier "y" (Some "y")] "./c"]);
          ("b.ts->c.ts", []);
          ("c.ts", [])].

Definition first : list string := ["a.ts"; "a.ts->b.ts"; "b.ts->c.ts"; "c.ts"].
Definition second : list string := ["a.ts->b.ts"; "a.ts"; "b.ts->c.ts"; "c.ts"].

(** Four files whose names clash in the keys of the function edges: [a.ts]
    imports [g] from [Y.ts::(module)->c.ts] and calls it at top level, and
    [a.ts::(module)->Y.ts] imports [g] from [c.ts] and calls it at top
    level. *)
Definition callRepo : Repository :=
  repoOf [("a.ts", importAndCallVisits "g" "./Y.ts::(module)->c");
          ("a.ts::(module)->Y.ts", importAndCallVisits "g" "./c");
          ("Y.ts::(module)->c.ts", exportFunctionVisits 1 "g");
          ("c.ts", exportFunctionVisits 2 "g")].

Definition callOrder : list string :=
  ["a.ts"; "a.ts::(module)->Y.ts"; "Y.ts::(module)->c.ts"; "c.ts"].

End ClashExample.

(** * Properties *)

(** ** Insertion-ordered maps *)

Section OrderedMapFacts.
Context {V : Type}.
Implicit Types (m : list (string * V)) (k : string) (v : V).

Lemma oget_oset_eq m k v : oget (oset m k v) k = Some v.
Proof.
  induction m as [|[k' v'] m IH]; simpl.
  - by rewrite String.eqb_refl.
  - destruct (String.eqb k' k) eqn:E; simpl; rewrite E; auto.
Qed.

Lemma oget_oset_ne m k k' v : k ≠ k' → oget (oset m k v) k' = oget m k'.
Proof.
  intros Hne. induction m as [|[k0 v0] m IH]; simpl.
  - destruct (String.eqb_spec k k'); congruence.
  - destruct (String.eqb_spec k0 k) as [->|]; simpl.
    + destruct (String.eqb_spec k k'); congruence.
    + by rewrite IH.
Qed.

Lemma oget_Some_elem_of m k v : oget m k = Some v → (k, v) ∈ m.
Proof.
  induction m as [|[k0 v0] m IH]; simpl; [done|].
  destruct (String.eqb_spec k0 k) as [->|].
  - intros [= ->]. left.
  - intros. right. auto.
Qed.

Lemma oget_None_not_key m k : oget m k = None ↔ k ∉ okeys m.
Proof.
  induction m as [|[k0 v0] m IH]; simpl.
  - split; [intros _; apply not_elem_of_nil | done].
  - rewrite not_elem_of_cons. destruct (String.eqb_spec k0 k) as [->|]; naive_solver.
Qed.

Lemma oget_is_Some_key m k : is_Some (oget m k) ↔ k ∈ okeys m.
Proof.
  destruct (oget m k) eqn:E.
  - split; [intros _|eauto].
    destruct (decide (k ∈ okeys m)) as [|Hn]; [done|].
    apply oget_None_not_key in Hn. congruence.
  - split; [intros [? ?]; congruence|].
    intros Hin. apply oget_None_not_key in E. done.
Qed.

(** A present key keeps its place; a new key goes to the end. *)
Lemma okeys_oset m k v :
  okeys (oset m k v) = if bool_decide (k ∈ okeys m) then okeys m else okeys m ++ [k].
Proof.
  induction m as [|[k0 v0] m IH]; simpl; [done|].
  destruct (String.eqb_spec k0 k) as [->|Hne]; simpl.
  - rewrite bool_decide_eq_true_2; [done | left].
  - rewrite IH. unfold okeys. simpl.
    destruct (bool_decide (k ∈ map fst m)) eqn:E.
    + apply bool_decide_eq_true in E. rewrite bool_decide_eq_true_2; [done | by right].
    + apply bool_decide_eq_false in E. rewrite bool_decide_eq_false_2; [done|].
      rewrite not_elem_of_cons. split; congruence.
Qed.

Lemma elem_of_okeys_oset m k v k' : k' ∈ okeys (oset m k v) ↔ k' = k ∨ k' ∈ okeys m.
Proof.
  rewrite okeys_oset. case_bool_decide.
  - naive_solver.
  - rewrite elem_of_app, list_elem_of_singleton. naive_solver.
Qed.

Lemma NoDup_okeys_oset m k v : NoDup (okeys m) → NoDup (okeys (oset m k v)).
Proof.
  intros Hnd. rewrite okeys_oset. case_bool_decide; [done|].
  apply NoDup_app. split_and!; [done| |apply NoDup_singleton].
  intros x Hx ->%list_elem_of_singleton. done.
Qed.

(** Every stored pair is what [oget] finds under its key, when keys are
    not repeated. *)
Lemma elem_of_oget m k v : NoDup (okeys m) → (k, v) ∈ m → oget m k = Some v.
Proof.
  induction m as [|[k0 v0] m IH]; simpl; [by intros _ ?%elem_of_nil|].
  intros [Hnotin Hnd]%NoDup_cons [Heq|Hin]%elem_of_cons.
  - injection Heq as -> ->. by rewrite String.eqb_refl.
  - destruct (String.eqb_spec k0 k) as [->|]; [|auto].
    exfalso. apply Hnotin. apply list_elem_of_fmap. by exists (k, v).
Qed.

End OrderedMapFacts.

(** ** The module resolver *)

Module ResolverFacts.
Import JsString Resolver ResolverSpec.

(** What the loop over the candidates returns. *)
Lemma firstKnown_spec (fileSet : gset string) (cands : list string) :
  match firstKnown fileSet cands with
  | Some c =>
      ∃ before after,
        cands = before ++ c :: after ∧ c ∈ fileSet ∧ Forall (fun x => x ∉ fileSet) before
  | None => Forall (fun x => x ∉ fileSet) cands
  end.
Proof.
  induction cands as [|c cands IH]; simpl; [constructor|].
  destruct (decide (c ∈ fileSet)) as [Hin|Hout].
  - exists [], cands. auto.
  - destruct (firstKnown fileSet cands) as [c'|].
    + destruct IH as (before & after & -> & ? & ?).
      exists (c :: before), after. auto.
    + by constructor.
Qed.

Lemma firstKnown_elem_of (fileSet : gset string) cands c :
  firstKnown fileSet cands = Some c → c ∈ fileSet.
Proof.
  intros H. pose proof (firstKnown_spec fileSet cands) as Hs.
  rewrite H in Hs. naive_solver.
Qed.


Lemma CacheSound_empty fileSet : CacheSound fileSet ∅.
Proof. intros k v. by rewrite lookup_empty. Qed.


Lemma tryCandidates_sound fileSet cache base :
  CacheSound fileSet cache →
  (tryCandidates fileSet cache base).1 = probe fileSet base
  ∧ CacheSound fileSet (tryCandidates fileSet cache base).2.
Proof.
  intros Hc. unfold tryCandidates, probe.
  destruct (cache !! backslashesToSlashes base) as [hit|] eqn:E; simpl.
  - split; [by apply Hc | done].
  - split; [done|]. intros k v. rewrite lookup_insert.
    case_decide; [intros [= <-]; by subst | by apply Hc].
Qed.


Lemma tryTargets_sound fileSet cache remainder ts :
  CacheSound fileSet cache →
  (tryTargets fileSet cache remainder ts).1 = probeTargets fileSet remainder ts
  ∧ CacheSound fileSet (tryTargets fileSet cache remainder ts).2.
Proof.
  revert cache. induction ts as [|t ts IH]; intros cache Hc; simpl; [done|].
  destruct (tryCandidates_sound fileSet cache
              (PosixPath.normalize (PosixPath.join [t; remainder])) Hc) as [H1 H2].
  destruct (tryCandidates _ _ _) as [[r|] cache']; simpl in *.
  - by rewrite <- H1.
  - rewrite <- H1. by apply IH.
Qed.


Lemma tryAliases_sound fileSet cache specifier paths :
  CacheSound fileSet cache →
  (tryAliases fileSet cache specifier paths).1 = probeAliases fileSet specifier paths
  ∧ CacheSound fileSet (tryAliases fileSet cache specifier paths).2.
Proof.
  revert cache. induction paths as [|e paths IH]; intros cache Hc; simpl; [done|].
  destruct (startsWith specifier (prefix e)); [|by apply IH].
  destruct (tryTargets_sound fileSet cache (aliasRemainder specifier e) (targets e) Hc)
    as [H1 H2].
  destruct (tryTargets _ _ _ _) as [[r|] cache']; simpl in *.
  - by rewrite <- H1.
  - rewrite <- H1. by apply IH.
Qed.


(** The memo table never changes an answer. *)
Lemma resolve_sound fileSet paths cache fromPath specifier :
  CacheSound fileSet cache →
  (resolve fileSet paths cache fromPath specifier).1
    = resolvePure fileSet paths fromPath specifier
  ∧ CacheSound fileSet (resolve fileSet paths cache fromPath specifier).2.
Proof.
  intros Hc. unfold resolve, resolvePure.
  destruct (decide (specifier = "")); [done|].
  destruct (startsWith specifier "."); [by apply tryCandidates_sound|].
  destruct (tryAliases_sound fileSet cache specifier paths Hc) as [H1 H2].
  destruct (tryAliases _ _ _ _) as [[r|] cache1]; simpl in *; rewrite <- H1; [done|].
  destruct (tryCandidates_sound fileSet cache1 (PosixPath.join ["."; specifier]) H2)
    as [H3 H4].
  destruct (tryCandidates fileSet cache1 _) as [[r|] cache2]; simpl in *;
    rewrite <- H3; [done|].
  destruct (tryCandidates_sound fileSet cache2 (PosixPath.join ["src"; specifier]) H4)
    as [H5 H6].
  destruct (tryCandidates fileSet cache2 _) as [[r|] cache3]; simpl in *;
    by rewrite <- H5.
Qed.

Lemma probe_elem_of fileSet base r : probe fileSet base = Some r → r ∈ fileSet.
Proof. apply firstKnown_elem_of. Qed.

Lemma probeTargets_elem_of fileSet remainder ts r :
  probeTargets fileSet remainder ts = Some r → r ∈ fileSet.
Proof.
  induction ts as [|t ts IH]; simpl; [done|].
  destruct (probe _ _) eqn:E; [intros [= <-]; by eapply probe_elem_of | done].
Qed.

Lemma probeAliases_elem_of fileSet specifier paths r :
  probeAliases fileSet specifier paths = Some r → r ∈ fileSet.
Proof.
  induction paths as [|e paths IH]; simpl; [done|].
  destruct (startsWith _ _); [|done].
  destruct (probeTargets _ _ _) eqn:E; [intros [= <-]; by eapply probeTargets_elem_of | done].
Qed.

(** Whatever the resolver returns is a known file. *)
Lemma resolvePure_elem_of fileSet paths fromPath specifier r :
  resolvePure fileSet paths fromPath specifier = Some r → r ∈ fileSet.
Proof.
  unfold resolvePure. destruct (decide _); [done|].
  destruct (startsWith _ _); [apply probe_elem_of|].
  destruct (probeAliases _ _ _) eqn:E1; [intros [= <-]; by eapply probeAliases_elem_of|].
  destruct (probe fileSet (PosixPath.join ["."; _])) eqn:E2;
    [intros [= <-]; by eapply probe_elem_of | apply probe_elem_of].
Qed.

(** C2. Candidate probing of a base path tries the path itself, then the
    path with each import extension appended, then the path with each
    index-file name appended, and returns the first of these that is a
    known file, whatever the memo table of the run holds; and with the
    known files a/b.ts and a/b/index.ts, the specifier ./b resolves from
    a/x.ts to a/b.ts. *)
Theorem candidate_probing_order (fileSet : gset string) (cache : Cache) (base : string) :
  CacheSound fileSet cache →
  let normBase := backslashesToSlashes base in
  let probes :=
    normBase
      :: map (fun tail => normBase +:+ tail)
           [".ts"; ".tsx"; ".js"; ".jsx"; ".mjs"; ".cjs"; ".json";
            "/index.ts"; "/index.tsx"; "/index.js"; "/index.jsx";
            "/index.mjs"; "/index.cjs"; "/index.json"] in
  match (tryCandidates fileSet cache base).1 with
  | Some c =>
      ∃ before after,
        probes = before ++ c :: after ∧ c ∈ fileSet
        ∧ Forall (fun x => x ∉ fileSet) before
  | None => Forall (fun x => x ∉ fileSet) probes
  end
  ∧ CacheSound fileSet (tryCandidates fileSet cache base).2
  ∧ (resolve {["a/b.ts"; "a/b/index.ts"]} [] ∅ "a/x.ts" "./b").1 = Some "a/b.ts".
Proof.
  intros Hc normBase probes.
  destruct (tryCandidates_sound fileSet cache base Hc) as [H1 H2].
  split_and!; [|done|by vm_compute].
  rewrite H1. unfold probe. fold normBase.
  change (candidates normBase) with probes.
  apply firstKnown_spec.
Qed.

Lemma candidate_probing_order_witness :
  CacheSound {["a/b.ts"; "a/b/index.ts"]} ∅
  ∧ (tryCandidates {["a/b.ts"; "a/b/index.ts"]} ∅ "a/b").1 = Some "a/b.ts"
  ∧ CacheSound {["a/b.ts"; "a/b/index.ts"]}
      (tryCandidates {["a/b.ts"; "a/b/index.ts"]} ∅ "a/b").2.
Proof.
  split; [apply CacheSound_empty|].
  split; [by vm_compute|].
  apply (candidate_probing_order {["a/b.ts"; "a/b/index.ts"]} ∅ "a/b"
           (CacheSound_empty _)).
Defined.

End ResolverFacts.

(** ** A run in which no file is parsed *)

Module EmptyRun.
Import JsString Context Pipeline.

(** A failed file only leaves a warning. *)
Lemma extract_all_fail repo completion ctx :
  Forall (fun rel => ∃ message, outcomeOf repo rel = AnalysisFails message) completion →
  ∃ ws,
    extract repo completion ctx
    = mkContext (files ctx) (warnings ctx ++ ws) (fileEdges ctx) (functionEdges ctx)
        (unresolved ctx) (exportedFunctions ctx) (candidateCache ctx).
Proof.
  unfold extract. intros Hall. revert ctx.
  induction Hall as [|rel completion [message Hrel] _ IH]; intros ctx; simpl.
  - exists []. rewrite app_nil_r. by destruct ctx.
  - unfold settle at 2. rewrite Hrel.
    destruct (IH (pushWarning ctx ("Failed to analyze " +:+ rel +:+ ": " +:+ message)))
      as [ws ->].
    simpl. eexists. by rewrite <- app_assoc.
Qed.

(** The passes after the parallel phase, on a context without files. *)
Lemma assemble_no_files host repo ws cache :
  ∃ ws',
    assemble host repo (mkContext [] ws [] [] [] ∅ cache)
    = mkContext []
        ((ws ++ ["No supported source files were parsed. File graph includes nodes without edges."])
         ++ ws')
        [] [] [] ∅ cache.
Proof.
  unfold assemble, staticPasses, Enrichment.enrichRelationshipsWithLLM,
    Llm.inferRelationshipsWithLLM, collectUnresolvedWarnings,
    Assembler.collectFunctionEdges, Assembler.collectFunctionExports,
    Assembler.resolveImports, pushWarning, withWarnings, withExportedFunctions.
  simpl. rewrite orb_true_r.
  destruct (negb (truthy (OPENAI_API_KEY host))); simpl.
  - by eexists.
  - exists []. by rewrite app_nil_r.
Qed.

(** C7 (as the code has it). An empty listing makes the run throw the error
    of the repository scanner. With a listing that is not empty, when no file
    of the parallel phase is analysed successfully (in particular when no file
    has a supported extension), the run returns: the file graph holds the
    directory nodes only, there is no edge and no function node, and the
    warnings say that no supported source file was parsed. *)
Theorem run_without_parsed_files host clock repo completion :
  (fileEntries repo = [] →
   analyzeRepositoryGraph host clock repo completion
   = Throws "No files were found in the repository.")
  ∧ (fileEntries repo ≠ [] →
     Forall (fun rel => ∃ message, outcomeOf repo rel = AnalysisFails message) completion →
     ∃ r,
       analyzeRepositoryGraph host clock repo completion = Returns r
       ∧ AnalyzeResponseBody.fileNodes r = map (directoryNode repo) (directoriesOf repo)
       ∧ AnalyzeResponseBody.fileEdges r = []
       ∧ AnalyzeResponseBody.functionNodes r = []
       ∧ AnalyzeResponseBody.functionEdges r = []
       ∧ "No supported source files were parsed. File graph includes nodes without edges."
         ∈ AnalyzeResponseBody.warnings r).
Proof.
  unfold analyzeRepositoryGraph. split.
  - intros ->. done.
  - intros Hne Hall. destruct (decide (fileEntries repo = [])) as [|_]; [done|].
    destruct (extract_all_fail repo completion (initialContext repo) Hall) as [ws ->].
    simpl.
    destruct (assemble_no_files host repo
                ((if isRemote repo
                  then ["Repository cloned into local cache (.gitweb-cache/repos)."]
                  else []) ++ ws) ∅) as [ws' ->].
    eexists. split; [reflexivity|]. unfold respond. simpl.
    split_and!; try done.
    + assert (filter (fun rel : string => rel ∈ @nil string) (fileEntries repo) = [])
        as ->; [|by rewrite app_nil_r].
      clear. induction (fileEntries repo) as [|x l IH]; [done|].
      rewrite filter_cons_False; [exact IH | apply not_elem_of_nil].
    + rewrite !elem_of_app, list_elem_of_singleton. auto.
Qed.

Lemma run_without_parsed_files_witness :
  ∃ r,
    analyzeRepositoryGraph Examples.offlineHost Examples.clock0 Examples.readmeRepo []
    = Returns r
    ∧ AnalyzeResponseBody.fileEdges r = []
    ∧ AnalyzeResponseBody.functionNodes r = [].
Proof.
  destruct (run_without_parsed_files Examples.offlineHost Examples.clock0
              Examples.readmeRepo []) as [_ H].
  destruct H as (r & Hr & _ & He & Hf & _); [done | constructor |].
  exists r. auto.
Defined.

(** C7, counterexample: with no file at all the run does not return a graph:
    it throws. *)
Lemma empty_listing_throws :
  analyzeRepositoryGraph Examples.offlineHost Examples.clock0 Examples.emptyRepo []
  = Throws "No files were found in the repository."
  ∧ ¬ ∃ r,
      analyzeRepositoryGraph Examples.offlineHost Examples.clock0 Examples.emptyRepo []
      = Returns r.
Proof. split; [reflexivity|]. intros [r Hr]. discriminate Hr. Qed.

End EmptyRun.

(** ** Edge tables: what an insertion keeps *)

Module EdgeFacts.
Import JsString Context EdgeSpec.

Lemma append_assoc (a b c : string) : (a +:+ b) +:+ c = a +:+ (b +:+ c).
Proof.
  induction a as [|x a IH]; [done|].
  change (String x ((a +:+ b) +:+ c) = String x (a +:+ (b +:+ c))). by rewrite IH.
Qed.

Lemma append_nil_r (a : string) : a +:+ "" = a.
Proof.
  induction a as [|x a IH]; [done|].
  change (String x (a +:+ "") = String x a). by rewrite IH.
Qed.

Section Tables.
Context {K : Type}.
Implicit Types (m : list (string * EdgeRecord.t K)) (e : EdgeRecord.t K).

(** What [oset] stores: the new pair, or a pair that was there. *)
Lemma elem_of_oset {V} (m : list (string * V)) k v k' v' :
  (k', v') ∈ oset m k v → (k' = k ∧ v' = v) ∨ (k', v') ∈ m.
Proof.
  induction m as [|[k0 v0] m IH]; simpl.
  - intros [= -> ->]%list_elem_of_singleton. by left.
  - destruct (String.eqb_spec k0 k) as [->|Hne].
    + intros [[= -> ->]|Hin]%elem_of_cons; [by left|]. right. by right.
    + intros [[= -> ->]|Hin]%elem_of_cons; [right; left|].
      destruct (IH Hin) as [?|?]; [by left|]. right. by right.
Qed.

Lemma Untouched_refl e : Untouched e e.
Proof. by repeat split. Qed.

Lemma ConfidenceBackfilled_refl e : ConfidenceBackfilled e e.
Proof. repeat split; auto. Qed.

Lemma ReasonAppended_refl e : ReasonAppended e e.
Proof.
  repeat split; auto. intros r ->. exists "". by rewrite append_nil_r.
Qed.

Lemma Untouched_trans e1 e2 e3 : Untouched e1 e2 → Untouched e2 e3 → Untouched e1 e3.
Proof. unfold Untouched. intros (?&?&?&?) (?&?&?&?). repeat split; congruence. Qed.

Lemma ConfidenceBackfilled_trans e1 e2 e3 :
  ConfidenceBackfilled e1 e2 → ConfidenceBackfilled e2 e3 → ConfidenceBackfilled e1 e3.
Proof.
  unfold ConfidenceBackfilled. intros (?&?&Hc1&?) (?&?&Hc2&?).
  repeat split; try congruence.
  destruct Hc1 as [Hc1|]; [|by right]. destruct Hc2 as [Hc2|Hc2]; [left|right]; congruence.
Qed.

Lemma ReasonAppended_trans e1 e2 e3 :
  ReasonAppended e1 e2 → ReasonAppended e2 e3 → ReasonAppended e1 e3.
Proof.
  unfold ReasonAppended. intros (?&?&Hc1&Hr1) (?&?&Hc2&Hr2).
  repeat split; try congruence.
  - destruct Hc1 as [Hc1|]; [|by right].
    destruct Hc2 as [Hc2|Hc2]; [left|right]; congruence.
  - intros r Hr. destruct (Hr1 r Hr) as [a1 Ha1]. destruct (Hr2 _ Ha1) as [a2 Ha2].
    exists (a1 +:+ a2). rewrite Ha2. f_equal. apply append_assoc.
Qed.

Lemma Untouched_ConfidenceBackfilled e e' : Untouched e e' → ConfidenceBackfilled e e'.
Proof. unfold Untouched, ConfidenceBackfilled. naive_solver. Qed.

Lemma ConfidenceBackfilled_ReasonAppended e e' :
  ConfidenceBackfilled e e' → ReasonAppended e e'.
Proof.
  unfold ReasonAppended, ConfidenceBackfilled. intros (?&?&?&Hr). repeat split; auto.
  intros r Hr'. exists "". rewrite append_nil_r. congruence.
Qed.

Lemma Keeps_refl (R : EdgeRecord.t K → EdgeRecord.t K → Prop) m :
  (∀ e, R e e) → Keeps R m m.
Proof. intros HR k e He. eauto. Qed.

Lemma Keeps_trans (R : EdgeRecord.t K → EdgeRecord.t K → Prop) m1 m2 m3 :
  (∀ e1 e2 e3, R e1 e2 → R e2 e3 → R e1 e3) →
  Keeps R m1 m2 → Keeps R m2 m3 → Keeps R m1 m3.
Proof.
  intros HR H12 H23 k e He. destruct (H12 k e He) as (e2 & He2 & ?).
  destruct (H23 k e2 He2) as (e3 & He3 & ?). eauto.
Qed.

(** Writing under a key keeps the table when the new record is related to
    the one it replaces. *)
Lemma Keeps_oset (R : EdgeRecord.t K → EdgeRecord.t K → Prop) m k v :
  (∀ e, R e e) →
  (∀ e, oget m k = Some e → R e v) →
  Keeps R m (oset m k v).
Proof.
  intros Hrefl Hv k' e He. destruct (decide (k = k')) as [<-|Hne].
  - exists v. rewrite oget_oset_eq. auto.
  - exists e. rewrite oget_oset_ne by done. auto.
Qed.

Lemma Keyed_oset m k v :
  KeyedBySourceTarget m →
  k = EdgeRecord.source v +:+ "->" +:+ EdgeRecord.target v →
  KeyedBySourceTarget (oset m k v).
Proof.
  intros Hm Hk k' e' [[-> ->]|Hin]%elem_of_oset; [done | by apply Hm].
Qed.

Lemma Keyed_nil : KeyedBySourceTarget (@nil (string * EdgeRecord.t K)).
Proof. intros k e Hin. by apply elem_of_nil in Hin. Qed.

Lemma Pass_refl R m : (∀ e, R e e) → Pass R m m.
Proof. intros HR. split_and!; [by apply Keeps_refl | done | done]. Qed.

Lemma Pass_trans R m1 m2 m3 :
  (∀ e1 e2 e3, R e1 e2 → R e2 e3 → R e1 e3) →
  Pass R m1 m2 → Pass R m2 m3 → Pass R m1 m3.
Proof.
  intros HR (?&?&?) (?&?&?). split_and!; [by eapply Keeps_trans | auto | auto].
Qed.

Lemma Pass_oset R m k v :
  (∀ e, R e e) →
  (∀ e, oget m k = Some e → R e v) →
  (KeyedBySourceTarget m → k = EdgeRecord.source v +:+ "->" +:+ EdgeRecord.target v) →
  Pass R m (oset m k v).
Proof.
  intros Hrefl Hv Hk. split_and!.
  - by apply Keeps_oset.
  - apply NoDup_okeys_oset.
  - intros Hm. apply Keyed_oset; auto.
Qed.

(** A loop whose every step is a pass is a pass. *)
Lemma Pass_fold_left {A S} R (table : S → list (string * EdgeRecord.t K))
    (f : S → A → S) (l : list A) (s : S) :
  (∀ e, R e e) →
  (∀ e1 e2 e3, R e1 e2 → R e2 e3 → R e1 e3) →
  (∀ s a, Pass R (table s) (table (f s a))) →
  Pass R (table s) (table (fold_left f l s)).
Proof.
  intros Hrefl Htrans Hstep. revert s.
  induction l as [|a l IH]; intros s; simpl; [by apply Pass_refl|].
  eapply Pass_trans; [done | apply Hstep | apply IH].
Qed.

End Tables.

(** *** The static passes *)

Section StaticPasses.
Variable fileSet : gset string.
Variable paths : list TsconfigPathsEntry.

Lemma resolveBinding_Pass relPath st binding :
  Pass Untouched (Assembler.rs_fileEdges st)
    (Assembler.rs_fileEdges (Assembler.resolveBinding fileSet paths relPath st binding).1).
Proof.
  unfold Assembler.resolveBinding.
  destruct (Resolver.resolve _ _ _ _ _) as [resolved cache].
  destruct (truthy resolved); simpl.
  - apply Pass_oset; [apply Untouched_refl| |done].
    intros e ->. by repeat split.
  - destruct (negb _); simpl; apply Pass_refl, Untouched_refl.
Qed.

Lemma resolveBindings_Pass relPath st bindings :
  Pass Untouched (Assembler.rs_fileEdges st)
    (Assembler.rs_fileEdges (Assembler.resolveBindings fileSet paths relPath st bindings).1).
Proof.
  revert st. induction bindings as [|b bindings IH]; intros st; simpl.
  - apply Pass_refl, Untouched_refl.
  - pose proof (resolveBinding_Pass relPath st b) as H1.
    destruct (Assembler.resolveBinding _ _ _ _ _) as [st1 b']. simpl in H1.
    pose proof (IH st1) as H2.
    destruct (Assembler.resolveBindings _ _ _ _ _) as [st2 rest']. simpl in *.
    eapply Pass_trans; [apply Untouched_trans | done | done].
Qed.

Lemma resolveFiles_Pass st entries :
  Pass Untouched (Assembler.rs_fileEdges st)
    (Assembler.rs_fileEdges (Assembler.resolveFiles fileSet paths st entries).1).
Proof.
  revert st. induction entries as [|[relPath analysis] entries IH]; intros st; simpl.
  - apply Pass_refl, Untouched_refl.
  - pose proof (resolveBindings_Pass relPath st (FileAnalysis.imports analysis)) as H1.
    destruct (Assembler.resolveBindings _ _ _ _ _) as [st1 imports']. simpl in H1.
    pose proof (IH st1) as H2.
    destruct (Assembler.resolveFiles _ _ _ _) as [st2 rest']. simpl in *.
    eapply Pass_trans; [apply Untouched_trans | done | done].
Qed.

Lemma resolveImports_Pass ctx :
  Pass Untouched (fileEdges ctx) (fileEdges (Assembler.resolveImports fileSet paths ctx)).
Proof.
  unfold Assembler.resolveImports.
  pose proof (resolveFiles_Pass
                (Assembler.mkResolveState (candidateCache ctx) (fileEdges ctx) (unresolved ctx))
                (files ctx)) as H.
  destruct (Assembler.resolveFiles _ _ _ _) as [st entries]. done.
Qed.

Lemma resolveImports_functionEdges ctx :
  functionEdges (Assembler.resolveImports fileSet paths ctx) = functionEdges ctx.
Proof.
  unfold Assembler.resolveImports.
  destruct (Assembler.resolveFiles _ _ _ _) as [st entries]. done.
Qed.

End StaticPasses.

Lemma edgeForCall_Pass filePos specifierMap ctx entry :
  Pass Untouched (functionEdges ctx)
    (functionEdges (Assembler.edgeForCall filePos specifierMap ctx entry)).
Proof.
  unfold Assembler.edgeForCall. destruct entry as [k call].
  destruct (specifierMap !! _) as [spec|]; [|apply Pass_refl, Untouched_refl].
  destruct (negb _); [apply Pass_refl, Untouched_refl|].
  match goal with |- context [match ?t with Some _ => _ | None => _ end] =>
    destruct t as [targetFn|] end; [|apply Pass_refl, Untouched_refl].
  destruct (Assembler.findCaller _ _) as [j|]; [|apply Pass_refl, Untouched_refl].
  simpl. apply Pass_oset; [apply Untouched_refl| |done].
  intros e ->. by repeat split.
Qed.

Lemma edgeForCall_fileEdges filePos specifierMap ctx entry :
  fileEdges (Assembler.edgeForCall filePos specifierMap ctx entry) = fileEdges ctx.
Proof.
  unfold Assembler.edgeForCall. destruct entry as [k call].
  destruct (specifierMap !! _) as [spec|]; [|done].
  destruct (negb _); [done|].
  match goal with |- context [match ?t with Some _ => _ | None => _ end] =>
    destruct t as [targetFn|] end; [|done].
  by destruct (Assembler.findCaller _ _) as [j|].
Qed.

Lemma collectFunctionEdges_Pass ctx :
  Pass Untouched (functionEdges ctx) (functionEdges (Assembler.collectFunctionEdges ctx)).
Proof.
  unfold Assembler.collectFunctionEdges.
  apply (Pass_fold_left Untouched functionEdges);
    [apply Untouched_refl | apply Untouched_trans|].
  intros s a. unfold Assembler.edgesForFile.
  apply (Pass_fold_left Untouched functionEdges);
    [apply Untouched_refl | apply Untouched_trans|].
  intros s' a'. apply edgeForCall_Pass.
Qed.

Lemma collectFunctionEdges_fileEdges ctx :
  fileEdges (Assembler.collectFunctionEdges ctx) = fileEdges ctx.
Proof.
  unfold Assembler.collectFunctionEdges.
  generalize (Assembler.indexed (files ctx)). intros l. revert ctx.
  induction l as [|a l IH]; intros ctx; simpl; [done|].
  rewrite IH. unfold Assembler.edgesForFile.
  generalize (Assembler.indexed (FileAnalysis.calls a.2.2)).
  generalize (Assembler.specifierMapOf (FileAnalysis.imports a.2.2)).
  intros sm cs. revert ctx. induction cs as [|c cs IHc]; intros ctx; simpl; [done|].
  by rewrite IHc, edgeForCall_fileEdges.
Qed.

(** *** Merging the proposals of the language model *)

Lemma mergeFileEdge_Pass filePaths st edge :
  Pass ConfidenceBackfilled st.1 (Enrichment.mergeFileEdge filePaths st edge).1.
Proof.
  unfold Enrichment.mergeFileEdge. destruct st as [edges n]. simpl.
  destruct (_ || _); [apply Pass_refl, ConfidenceBackfilled_refl|].
  destruct (oget edges _) as [existing|] eqn:Hex; simpl.
  - apply Pass_oset; [apply ConfidenceBackfilled_refl| |].
    + intros e He. rewrite Hex in He. injection He as <-.
      unfold Enrichment.backfillConfidence.
      destruct (EdgeRecord.confidence existing) eqn:Hc; repeat split; auto.
    + intros Hkeyed. apply oget_Some_elem_of, Hkeyed in Hex. rewrite Hex.
      unfold Enrichment.backfillConfidence. by destruct (EdgeRecord.confidence existing).
  - apply Pass_oset; [apply ConfidenceBackfilled_refl| |done].
    intros e He. congruence.
Qed.

Lemma mergeFunctionEdge_Pass functionLookup st edge :
  Pass ReasonAppended (Enrichment.fm_edges st)
    (Enrichment.fm_edges (Enrichment.mergeFunctionEdge functionLookup st edge)).
Proof.
  unfold Enrichment.mergeFunctionEdge.
  destruct (functionLookup !! _) as [sourceFn|]; [|apply Pass_refl, ReasonAppended_refl].
  destruct (functionLookup !! _) as [targetFn|]; [|apply Pass_refl, ReasonAppended_refl].
  destruct (oget (Enrichment.fm_edges st) _) as [existing|] eqn:Hex; simpl.
  - apply Pass_oset; [apply ReasonAppended_refl| |].
    + intros e He. rewrite Hex in He. injection He as <-.
      assert (ReasonAppended existing
                (Enrichment.backfillConfidence existing
                   (LLMRelationshipFunctionEdge.confidence edge))) as H1.
      { apply ConfidenceBackfilled_ReasonAppended.
        unfold Enrichment.backfillConfidence.
        destruct (EdgeRecord.confidence existing) eqn:Hc; repeat split; auto. }
      eapply ReasonAppended_trans; [exact H1|].
      generalize (Enrichment.backfillConfidence existing
                    (LLMRelationshipFunctionEdge.confidence edge)). intros e0.
      unfold Enrichment.mergeReason.
      destruct (truthy (LLMRelationshipFunctionEdge.reason edge));
        [|apply ReasonAppended_refl].
      repeat split; auto. simpl. intros r0 Hr0. rewrite Hr0. simpl.
      destruct (String.eqb_spec r0 "") as [->|]; simpl; eauto.
    + intros Hkeyed. apply oget_Some_elem_of, Hkeyed in Hex. rewrite Hex.
      unfold Enrichment.mergeReason, Enrichment.backfillConfidence.
      by destruct (EdgeRecord.confidence existing), (truthy _).
  - apply Pass_oset; [apply ReasonAppended_refl| |done].
    intros e He. congruence.
Qed.

Lemma mergeResult_fileEdges ctx result :
  fileEdges (Enrichment.mergeResult ctx result)
  = (fold_left (Enrichment.mergeFileEdge (okeys (files ctx)))
       (LLMRelationshipResult.fileEdges result) (fileEdges ctx, 0)).1.
Proof.
  unfold Enrichment.mergeResult. by destruct (fold_left _ _ _) as [es n].
Qed.

Lemma mergeResult_functionEdges ctx result :
  functionEdges (Enrichment.mergeResult ctx result)
  = Enrichment.fm_edges
      (fold_left (Enrichment.mergeFunctionEdge (Enrichment.functionLookupOf (files ctx)))
         (LLMRelationshipResult.functionEdges result)
         (Enrichment.mkFunctionMergeState (files ctx) (functionEdges ctx) 0)).
Proof.
  unfold Enrichment.mergeResult. by destruct (fold_left _ _ _) as [es n].
Qed.

Lemma mergeResult_files ctx result :
  files (Enrichment.mergeResult ctx result)
  = Enrichment.fm_files
      (fold_left (Enrichment.mergeFunctionEdge (Enrichment.functionLookupOf (files ctx)))
         (LLMRelationshipResult.functionEdges result)
         (Enrichment.mkFunctionMergeState (files ctx) (functionEdges ctx) 0)).
Proof.
  unfold Enrichment.mergeResult. by destruct (fold_left _ _ _) as [es n].
Qed.

Lemma mergeResult_file_Pass ctx result :
  Pass ConfidenceBackfilled (fileEdges ctx) (fileEdges (Enrichment.mergeResult ctx result)).
Proof.
  rewrite mergeResult_fileEdges.
  apply (Pass_fold_left ConfidenceBackfilled fst _ _ (fileEdges ctx, 0));
    [apply ConfidenceBackfilled_refl | apply ConfidenceBackfilled_trans|].
  intros s a. apply mergeFileEdge_Pass.
Qed.

Lemma mergeResult_function_Pass ctx result :
  Pass ReasonAppended (functionEdges ctx)
    (functionEdges (Enrichment.mergeResult ctx result)).
Proof.
  rewrite mergeResult_functionEdges.
  apply (Pass_fold_left ReasonAppended Enrichment.fm_edges _ _
           (Enrichment.mkFunctionMergeState (files ctx) (functionEdges ctx) 0));
    [apply ReasonAppended_refl | apply ReasonAppended_trans|].
  intros s a. apply mergeFunctionEdge_Pass.
Qed.

End EdgeFacts.

(** ** Edge tables over a whole run *)

Module EdgeRun.
Import JsString Context EdgeSpec EdgeFacts Pipeline.

Lemma extract_edges repo completion ctx :
  fileEdges (extract repo completion ctx) = fileEdges ctx
  ∧ functionEdges (extract repo completion ctx) = functionEdges ctx.
Proof.
  unfold extract. revert ctx.
  induction completion as [|rel completion IH]; intros ctx; simpl; [done|].
  destruct (IH (settle repo ctx rel)) as [-> ->].
  unfold settle. by destruct (outcomeOf repo rel).
Qed.

Lemma collectUnresolvedWarnings_edges ctx :
  fileEdges (collectUnresolvedWarnings ctx) = fileEdges ctx
  ∧ functionEdges (collectUnresolvedWarnings ctx) = functionEdges ctx.
Proof.
  unfold collectUnresolvedWarnings.
  generalize (unresolved ctx). intros l. revert ctx.
  induction l as [|[file specifiers] l IH]; intros ctx; simpl; [done|].
  by destruct (IH (pushWarning ctx
    (if decide (5 < List.length specifiers)
     then "Some imports in " +:+ file +:+ " could not be resolved: "
            +:+ String.concat ", " (take 5 specifiers) +:+ ", …"
     else "Could not resolve imports in " +:+ file +:+ ": "
            +:+ String.concat ", " (take 5 specifiers)))) as [-> ->].
Qed.

Lemma staticPasses_Pass repo ctx :
  Pass Untouched (fileEdges ctx) (fileEdges (staticPasses repo ctx))
  ∧ Pass Untouched (functionEdges ctx) (functionEdges (staticPasses repo ctx)).
Proof.
  unfold staticPasses.
  set (ctx0 := if decide (files ctx = []) then _ else ctx).
  assert (fileEdges ctx0 = fileEdges ctx ∧ functionEdges ctx0 = functionEdges ctx)
    as [Hf Hg] by (unfold ctx0; by destruct (decide _)).
  rewrite <- Hf, <- Hg. clearbody ctx0. clear.
  split.
  - rewrite collectFunctionEdges_fileEdges. apply resolveImports_Pass.
  - eapply Pass_trans; [apply Untouched_trans| |apply collectFunctionEdges_Pass].
    simpl. rewrite resolveImports_functionEdges. apply Pass_refl, Untouched_refl.
Qed.

Lemma enrich_Pass host ctx :
  Pass ConfidenceBackfilled (fileEdges ctx)
    (fileEdges (Enrichment.enrichRelationshipsWithLLM host ctx))
  ∧ Pass ReasonAppended (functionEdges ctx)
      (functionEdges (Enrichment.enrichRelationshipsWithLLM host ctx)).
Proof.
  unfold Enrichment.enrichRelationshipsWithLLM.
  destruct (Llm.inferRelationshipsWithLLM _ _) as [message|[result|]]; simpl.
  - split; [apply Pass_refl, ConfidenceBackfilled_refl | apply Pass_refl, ReasonAppended_refl].
  - split; [apply mergeResult_file_Pass | apply mergeResult_function_Pass].
  - destruct (negb _); simpl;
      (split; [apply Pass_refl, ConfidenceBackfilled_refl
              | apply Pass_refl, ReasonAppended_refl]).
Qed.

(** The tables at the end of a run. *)
Lemma run_tables host repo completion :
  let ctx := assemble host repo (extract repo completion (initialContext repo)) in
  (NoDup (okeys (fileEdges ctx)) ∧ KeyedBySourceTarget (fileEdges ctx))
  ∧ (NoDup (okeys (functionEdges ctx)) ∧ KeyedBySourceTarget (functionEdges ctx)).
Proof.
  intros ctx. unfold ctx, assemble.
  destruct (collectUnresolvedWarnings_edges
              (Enrichment.enrichRelationshipsWithLLM host
                 (staticPasses repo (extract repo completion (initialContext repo)))))
    as [-> ->].
  set (ctx0 := extract repo completion (initialContext repo)).
  destruct (extract_edges repo completion (initialContext repo)) as [Hf Hg].
  fold ctx0 in Hf, Hg. simpl in Hf, Hg.
  destruct (staticPasses_Pass repo ctx0) as [(_ & Hn1 & Hk1) (_ & Hn2 & Hk2)].
  destruct (enrich_Pass host (staticPasses repo ctx0)) as [(_ & Hn3 & Hk3) (_ & Hn4 & Hk4)].
  rewrite Hf in Hn1, Hk1. rewrite Hg in Hn2, Hk2.
  split; split.
  - apply Hn3, Hn1. constructor.
  - apply Hk3, Hk1, Keyed_nil.
  - apply Hn4, Hn2. constructor.
  - apply Hk4, Hk2, Keyed_nil.
Qed.

(** The identifiers of the emitted edges are the keys of the table. *)
Lemma edge_ids {K} (m : list (string * EdgeRecord.t K)) :
  KeyedBySourceTarget m → map GraphEdge.id (map edgeOut (ovalues m)) = okeys m.
Proof.
  induction m as [|[k e] m IH]; intros Hk; simpl; [done|].
  rewrite IH.
  - f_equal. symmetry. apply Hk. left.
  - intros k' e' Hin. apply Hk. by right.
Qed.

(** Distinct identifiers mean distinct pairs of source and target. *)
Lemma NoDup_endpoints {K} (es : list (GraphEdge.t K)) :
  Forall (fun e => GraphEdge.id e = GraphEdge.source e +:+ "->" +:+ GraphEdge.target e) es →
  NoDup (map GraphEdge.id es) →
  NoDup (map (fun e => (GraphEdge.source e, GraphEdge.target e)) es).
Proof.
  induction 1 as [|e es He Hes IH]; simpl; [constructor|].
  intros [Hnotin Hnd]%NoDup_cons. apply NoDup_cons. split; [|auto].
  intros (e' & [= Hs Ht] & Hin)%list_elem_of_fmap. apply Hnotin.
  apply list_elem_of_fmap. exists e'. split; [|done].
  rewrite He. rewrite Forall_forall in Hes. rewrite (Hes e' Hin). by rewrite Hs, Ht.
Qed.

Lemma edgeOut_ids {K} (m : list (string * EdgeRecord.t K)) :
  Forall (fun e => GraphEdge.id e = GraphEdge.source e +:+ "->" +:+ GraphEdge.target e)
    (map edgeOut (ovalues m)).
Proof. apply Forall_forall. intros e (e0 & -> & _)%list_elem_of_fmap. done. Qed.

End EdgeRun.


(** ** The file table through the passes *)

Module FilesFacts.
Import JsString Context FilesSpec.

Lemma FnGrown_refl f : FnGrown f f.
Proof. by left. Qed.

Lemma setInclude_idem f : Analyzer.setInclude (Analyzer.setInclude f) = Analyzer.setInclude f.
Proof. done. Qed.

Lemma FnGrown_trans f1 f2 f3 : FnGrown f1 f2 → FnGrown f2 f3 → FnGrown f1 f3.
Proof. unfold FnGrown. intros [->| ->] [->| ->]; auto. Qed.

Lemma FnGrown_setInclude f : FnGrown f (Analyzer.setInclude f).
Proof. by right. Qed.

(** What growing keeps of a record. *)
Lemma FnGrown_fields f f' :
  FnGrown f f' →
  FunctionInfo.id f' = FunctionInfo.id f
  ∧ FunctionInfo.name f' = FunctionInfo.name f
  ∧ FunctionInfo.filePath f' = FunctionInfo.filePath f
  ∧ FunctionInfo.kind f' = FunctionInfo.kind f
  ∧ FunctionInfo.loc f' = FunctionInfo.loc f
  ∧ FunctionInfo.exportName f' = FunctionInfo.exportName f
  ∧ FunctionInfo.isExported f' = FunctionInfo.isExported f
  ∧ (FunctionInfo.include f = true → FunctionInfo.include f' = true).
Proof. intros [->| ->]; by repeat split. Qed.

Lemma CallKept_refl c : CallKept c c.
Proof. by repeat split. Qed.

Lemma CallKept_trans c1 c2 c3 : CallKept c1 c2 → CallKept c2 c3 → CallKept c1 c3.
Proof. unfold CallKept. intros (?&?&?&?) (?&?&?&?). repeat split; congruence. Qed.

Lemma Forall2_refl_on {A} (R : A → A → Prop) (l : list A) : (∀ x, R x x) → Forall2 R l l.
Proof. intros HR. induction l; constructor; auto. Qed.

Lemma Forall2_trans_on {A} (R : A → A → Prop) (l1 l2 l3 : list A) :
  (∀ x y z, R x y → R y z → R x z) →
  Forall2 R l1 l2 → Forall2 R l2 l3 → Forall2 R l1 l3.
Proof.
  intros HR H12. revert l3. induction H12; intros l3 H23; inversion H23; subst;
    constructor; eauto.
Qed.

Lemma AnalysisGrown_refl a : AnalysisGrown a a.
Proof.
  repeat split; [apply Forall2_refl_on, FnGrown_refl | apply Forall2_refl_on, CallKept_refl].
Qed.

Lemma AnalysisGrown_trans a1 a2 a3 :
  AnalysisGrown a1 a2 → AnalysisGrown a2 a3 → AnalysisGrown a1 a3.
Proof.
  intros (?&?&Hf1&Hc1) (?&?&Hf2&Hc2). repeat split; try congruence.
  - eapply Forall2_trans_on; [apply FnGrown_trans | done | done].
  - eapply Forall2_trans_on; [apply CallKept_trans | done | done].
Qed.

Lemma FilesGrown_refl fs : FilesGrown fs fs.
Proof. apply Forall2_refl_on. intros e. split; [done | apply AnalysisGrown_refl]. Qed.

Lemma FilesGrown_trans fs1 fs2 fs3 :
  FilesGrown fs1 fs2 → FilesGrown fs2 fs3 → FilesGrown fs1 fs3.
Proof.
  apply Forall2_trans_on. intros x y z [? ?] [? ?].
  split; [congruence | by eapply AnalysisGrown_trans].
Qed.

(** Altering one element of a list relates the lists pointwise. *)
Lemma Forall2_alter_r {A} (R : A → A → Prop) (f : A → A) (i : nat) (l : list A) :
  (∀ x, R x x) → (∀ x, l !! i = Some x → R x (f x)) → Forall2 R l (alter f i l).
Proof.
  intros Hrefl. revert i. induction l as [|x l IH]; intros i Hf; [constructor|].
  destruct i as [|i]; simpl.
  - constructor; [by apply Hf | by apply Forall2_refl_on].
  - constructor; [done|]. apply IH. intros y Hy. by apply Hf.
Qed.

Lemma includeFn_grown fs r : FilesGrown fs (includeFn fs r).
Proof.
  unfold includeFn. apply Forall2_alter_r.
  - intros e. split; [done | apply AnalysisGrown_refl].
  - intros [k a] _. split; [done|]. repeat split; simpl;
      [|apply Forall2_refl_on, CallKept_refl].
    apply Forall2_alter_r; [apply FnGrown_refl|]. intros f _. apply FnGrown_setInclude.
Qed.

Lemma setCallResolved_grown fs resolved filePos k :
  FilesGrown fs (alter (alterCalls (alter (setCallResolved resolved) k)) filePos fs).
Proof.
  apply Forall2_alter_r.
  - intros e. split; [done | apply AnalysisGrown_refl].
  - intros [key a] _. split; [done|]. repeat split; simpl;
      [apply Forall2_refl_on, FnGrown_refl|].
    apply Forall2_alter_r; [apply CallKept_refl|]. intros c _. by repeat split.
Qed.

Lemma FilesGrown_okeys fs fs' : FilesGrown fs fs' → okeys fs' = okeys fs.
Proof. induction 1 as [|e e' fs fs' [He _] _ IH]; simpl; [done|]. by rewrite He, IH. Qed.

Lemma FilesGrown_length fs fs' : FilesGrown fs fs' → List.length fs' = List.length fs.
Proof. intros H. symmetry. by eapply Forall2_length. Qed.

(** A reference reads a grown record after growing. *)
Lemma FilesGrown_fnAt fs fs' r :
  FilesGrown fs fs' → option_Forall2 FnGrown (fnAt fs r) (fnAt fs' r).
Proof.
  intros H. unfold fnAt. destruct r as [i j]. simpl.
  pose proof (proj1 (Forall2_lookup _ _ _) H i) as Hi.
  destruct Hi as [[k a] [k' a'] [_ (_ & _ & Hf & _)]|]; simpl; [|constructor].
  apply (proj1 (Forall2_lookup _ _ _) Hf j).
Qed.

Lemma FilesGrown_idOf fs fs' r : FilesGrown fs fs' → idOf fs' r = idOf fs r.
Proof.
  intros H. unfold idOf. destruct (FilesGrown_fnAt fs fs' r H) as [f f' Hf|]; [|done].
  simpl. by apply FnGrown_fields in Hf as (-> & _).
Qed.

Lemma FilesGrown_included fs fs' r f :
  FilesGrown fs fs' → fnAt fs r = Some f → FunctionInfo.include f = true →
  ∃ f', fnAt fs' r = Some f' ∧ FunctionInfo.id f' = FunctionInfo.id f
        ∧ FunctionInfo.include f' = true.
Proof.
  intros H Hf Hi. pose proof (FilesGrown_fnAt fs fs' r H) as Hr. rewrite Hf in Hr.
  inversion Hr as [? f' Hg|]; subst. exists f'.
  apply FnGrown_fields in Hg as (-> & _ & _ & _ & _ & _ & _ & Hinc). auto.
Qed.

(** After marking, the record under the reference is included. *)
Lemma includeFn_fnAt fs r f :
  fnAt fs r = Some f → fnAt (includeFn fs r) r = Some (Analyzer.setInclude f).
Proof.
  unfold fnAt, includeFn. destruct r as [i j]. simpl.
  destruct (fs !! i) as [[k a]|] eqn:Hi; simpl; [|done]. intros Hj.
  rewrite list_lookup_alter_eq, Hi. simpl.
  by rewrite list_lookup_alter_eq, Hj.
Qed.

(** *** The function nodes *)

Lemma pushFunctionNode_fold (l : list FunctionInfo.t) nodes seen :
  seen = map FunctionNode.id nodes →
  let st := fold_left Pipeline.pushFunctionNode l (nodes, seen) in
  st.2 = map FunctionNode.id st.1
  ∧ (NoDup seen → NoDup st.2)
  ∧ ∀ x, x ∈ st.2 ↔
         x ∈ seen ∨ ∃ f, f ∈ l ∧ FunctionInfo.include f = true ∧ FunctionInfo.id f = x.
Proof.
  revert nodes seen. induction l as [|f l IH]; intros nodes seen Hseen; simpl.
  - split_and!; [done | done |]. intros x. split; [auto|].
    intros [?|(f & Hf & _)]; [done | by apply elem_of_nil in Hf].
  - unfold Pipeline.pushFunctionNode at 2.
    destruct (FunctionInfo.include f) eqn:Hinc; simpl.
    + case_bool_decide as Hin.
      * destruct (IH nodes seen Hseen) as (H1 & H2 & H3). split_and!; [done | done |].
        intros x. rewrite H3. split.
        -- intros [?|(g & Hg & ? & ?)]; [by left|]. right. exists g.
           split_and!; [by right | done | done].
        -- intros [?|(g & [->|Hg]%elem_of_cons & ? & <-)]; [by left | by left |].
           right. eauto.
      * destruct (IH (nodes ++ [FunctionNode.mk (FunctionInfo.id f)
                          (from_option (fun e => e) (FunctionInfo.name f)
                             (FunctionInfo.exportName f))
                          (FunctionInfo.filePath f) (FunctionInfo.exportName f)
                          (FunctionInfo.loc f)])
                    (seen ++ [FunctionInfo.id f])) as (H1 & H2 & H3).
        { rewrite map_app. simpl. by rewrite Hseen. }
        split_and!; [done | |].
        -- intros Hnd. apply H2. apply NoDup_app. split_and!; [done | | apply NoDup_singleton].
           intros y Hy ->%list_elem_of_singleton. done.
        -- intros x. rewrite H3, elem_of_app, list_elem_of_singleton. split.
           ++ intros [[?| ->]|(g & Hg & ? & ?)]; [by left | |].
              ** right. exists f. split_and!; [left | done | done].
              ** right. exists g. split_and!; [by right | done | done].
           ++ intros [?|(g & [->|Hg]%elem_of_cons & ? & <-)]; [by left; left | by left; right |].
              right. eauto.
    + destruct (IH nodes seen Hseen) as (H1 & H2 & H3). split_and!; [done | done |].
      intros x. rewrite H3. split.
      * intros [?|(g & Hg & ? & ?)]; [by left|]. right. exists g.
        split_and!; [by right | done | done].
      * intros [?|(g & [->|Hg]%elem_of_cons & Hg' & <-)]; [by left | congruence |].
        right. eauto.
Qed.

Lemma functionNodes_fold (as_ : list FileAnalysis.t) nodes seen :
  seen = map FunctionNode.id nodes →
  let st :=
    fold_left
      (fun st analysis =>
         fold_left Pipeline.pushFunctionNode (FileAnalysis.functions analysis) st)
      as_ (nodes, seen) in
  st.2 = map FunctionNode.id st.1
  ∧ (NoDup seen → NoDup st.2)
  ∧ ∀ x, x ∈ st.2 ↔
         x ∈ seen
         ∨ ∃ a f, a ∈ as_ ∧ f ∈ FileAnalysis.functions a
                  ∧ FunctionInfo.include f = true ∧ FunctionInfo.id f = x.
Proof.
  revert nodes seen. induction as_ as [|a as_ IH]; intros nodes seen Hseen; simpl.
  - split_and!; [done | done |]. intros x. split; [auto|].
    intros [?|(a & f & Ha & _)]; [done | by apply elem_of_nil in Ha].
  - destruct (pushFunctionNode_fold (FileAnalysis.functions a) nodes seen Hseen)
      as (H1 & H2 & H3).
    destruct (fold_left Pipeline.pushFunctionNode _ _) as [nodes1 seen1]. simpl in *.
    destruct (IH nodes1 seen1 H1) as (H4 & H5 & H6).
    split_and!; [done | auto |].
    intros x. rewrite H6, H3. split.
    + intros [[?|(f & ? & ? & ?)]|(b & f & ? & ? & ? & ?)]; [by left | |].
      * right. exists a, f. split_and!; [left | done | done | done].
      * right. exists b, f. split_and!; [by right | done | done | done].
    + intros [?|(b & f & [->|Hb]%elem_of_cons & ? & ? & ?)]; [by left; left | |].
      * left. right. eauto.
      * right. exists b, f. eauto.
Qed.

(** The identifiers of the function nodes: those of the included records,
    each once. *)
Lemma nodeIds_spec fs :
  NoDup (nodeIds fs)
  ∧ ∀ x, x ∈ nodeIds fs ↔
         ∃ e f, e ∈ fs ∧ f ∈ FileAnalysis.functions e.2
                ∧ FunctionInfo.include f = true ∧ FunctionInfo.id f = x.
Proof.
  unfold nodeIds, Pipeline.functionNodesOf.
  destruct (functionNodes_fold (ovalues fs) [] [] eq_refl) as (H1 & H2 & H3).
  rewrite <- H1. split; [apply H2; constructor|].
  intros x. rewrite H3. split.
  - intros [Hx|(a & f & (e & -> & He)%list_elem_of_fmap & ? & ? & ?)];
      [by apply elem_of_nil in Hx|]. eauto 10.
  - intros (e & f & He & ? & ? & ?). right. exists e.2, f. split_and!; try done.
    apply list_elem_of_fmap. eauto.
Qed.

Lemma included_is_node fs r f :
  fnAt fs r = Some f → FunctionInfo.include f = true → FunctionInfo.id f ∈ nodeIds fs.
Proof.
  intros Hf Hinc. apply nodeIds_spec. unfold fnAt in Hf.
  destruct (fs !! r.1) as [e|] eqn:He; simpl in Hf; [|done].
  exists e, f. split_and!; try done; by eapply list_elem_of_lookup_2.
Qed.

End FilesFacts.

Module EdgeClaims.
Import JsString Context EdgeSpec EdgeFacts EdgeRun Pipeline.

(** C3 (as the code has it). The edge tables are keyed by source and target:
    every pass that writes edges (import resolution, call-edge derivation, the
    merge of the language model's proposals) keeps one record per key and
    keeps every stored record under its key with its kind and provenance
    unchanged. The static passes change no other field either. Over a whole
    merge, a stored file edge can only get a missing confidence filled in, and
    a stored function edge can only get a missing confidence filled in and
    text put after its reason. The edges a run emits have distinct identifiers
    and distinct pairs of source and target. In particular a stored static
    edge from A to B without confidence, merged with a proposal for A and B
    that carries a confidence, is afterwards the only record under its key,
    still static and of kind imports, and carries that confidence. Insertion
    by insertion: one proposal for a stored file edge rewrites the record
    under its key, filling in the confidence when it was missing and nothing
    else; one proposal for a stored function edge does the same and, when it
    carries a reason that is not empty, puts it after the stored reason and a
    space, or sets it when no reason was stored. Neither adds a key, changes
    another key or counts as a new edge. *)
Theorem edge_tables_keyed_by_endpoints :
  (∀ fileSet paths ctx,
     Pass Untouched (fileEdges ctx)
       (fileEdges (Assembler.resolveImports fileSet paths ctx)))
  ∧ (∀ ctx,
       Pass Untouched (functionEdges ctx)
         (functionEdges (Assembler.collectFunctionEdges ctx)))
  ∧ (∀ ctx result,
       Pass ConfidenceBackfilled (fileEdges ctx)
         (fileEdges (Enrichment.mergeResult ctx result)))
  ∧ (∀ ctx result,
       Pass ReasonAppended (functionEdges ctx)
         (functionEdges (Enrichment.mergeResult ctx result)))
  ∧ (∀ host clock repo completion r,
       analyzeRepositoryGraph host clock repo completion = Returns r →
       NoDup (map GraphEdge.id (AnalyzeResponseBody.fileEdges r))
       ∧ NoDup (map (fun e => (GraphEdge.source e, GraphEdge.target e))
                  (AnalyzeResponseBody.fileEdges r))
       ∧ NoDup (map GraphEdge.id (AnalyzeResponseBody.functionEdges r))
       ∧ NoDup (map (fun e => (GraphEdge.source e, GraphEdge.target e))
                  (AnalyzeResponseBody.functionEdges r)))
  ∧ (∀ ctx A B label c,
       A ∈ okeys (files ctx) → B ∈ okeys (files ctx) →
       oget (fileEdges ctx) (A +:+ "->" +:+ B)
       = Some (EdgeRecord.mk A B file_imports static None None) →
       let ctx' :=
         Enrichment.mergeResult ctx
           (LLMRelationshipResult.mk
              [LLMRelationshipFileEdge.mk A B label (Some c)] [] []) in
       okeys (fileEdges ctx') = okeys (fileEdges ctx)
       ∧ oget (fileEdges ctx') (A +:+ "->" +:+ B)
         = Some (EdgeRecord.mk A B file_imports static (Some c) None))
  ∧ (∀ filePaths edges n p existing,
       LLMRelationshipFileEdge.source p ∈ filePaths →
       LLMRelationshipFileEdge.target p ∈ filePaths →
       let key :=
         LLMRelationshipFileEdge.source p +:+ "->" +:+ LLMRelationshipFileEdge.target p in
       oget edges key = Some existing →
       Rewritten (ConfidenceFilled (LLMRelationshipFileEdge.confidence p)) key existing
         edges (Enrichment.mergeFileEdge filePaths (edges, n) p).1
       ∧ (Enrichment.mergeFileEdge filePaths (edges, n) p).2 = n)
  ∧ (∀ functionLookup st p sourceFn targetFn existing,
       functionLookup !! (filePath (LLMRelationshipFunctionEdge.source p) +:+ ":"
                          +:+ symbol (LLMRelationshipFunctionEdge.source p)) = Some sourceFn →
       functionLookup !! (filePath (LLMRelationshipFunctionEdge.target p) +:+ ":"
                          +:+ symbol (LLMRelationshipFunctionEdge.target p)) = Some targetFn →
       let key :=
         idOf (Enrichment.fm_files st) sourceFn +:+ "->"
         +:+ idOf (Enrichment.fm_files st) targetFn in
       oget (Enrichment.fm_edges st) key = Some existing →
       Rewritten
         (ReasonJoined (LLMRelationshipFunctionEdge.confidence p)
            (LLMRelationshipFunctionEdge.reason p))
         key existing (Enrichment.fm_edges st)
         (Enrichment.fm_edges (Enrichment.mergeFunctionEdge functionLookup st p))
       ∧ Enrichment.fm_count (Enrichment.mergeFunctionEdge functionLookup st p)
         = Enrichment.fm_count st).
Proof.
  split_and!.
  - intros. apply resolveImports_Pass.
  - intros. apply collectFunctionEdges_Pass.
  - intros. apply mergeResult_file_Pass.
  - intros. apply mergeResult_function_Pass.
  - intros host clock repo completion r. unfold analyzeRepositoryGraph.
    destruct (decide _); [done|]. intros [= <-].
    destruct (run_tables host repo completion) as [[Hn1 Hk1] [Hn2 Hk2]].
    unfold respond. simpl.
    assert (NoDup (map GraphEdge.id (map edgeOut (ovalues (fileEdges
              (assemble host repo (extract repo completion (initialContext repo))))))))
      as H1 by (by rewrite edge_ids).
    assert (NoDup (map GraphEdge.id (map edgeOut (ovalues (functionEdges
              (assemble host repo (extract repo completion (initialContext repo))))))))
      as H2 by (by rewrite edge_ids).
    split_and!; [done | | done |]; apply NoDup_endpoints; auto using edgeOut_ids.
  - intros ctx A B label c HA HB Hget ctx'. unfold ctx'.
    rewrite mergeResult_fileEdges. simpl.
    rewrite !bool_decide_eq_true_2 by done. simpl. rewrite Hget. simpl.
    rewrite okeys_oset, oget_oset_eq, bool_decide_eq_true_2; [done|].
    apply oget_is_Some_key. by rewrite Hget.
  - intros filePaths edges n p existing Hs Ht key Hget.
    unfold Enrichment.mergeFileEdge. rewrite !bool_decide_eq_true_2 by done. simpl.
    fold key. rewrite Hget. simpl. split; [|done]. split_and!.
    + rewrite okeys_oset, bool_decide_eq_true_2; [done|].
      apply oget_is_Some_key. by rewrite Hget.
    + intros k' Hk'. by rewrite oget_oset_ne.
    + eexists. split; [apply oget_oset_eq|].
      unfold Enrichment.backfillConfidence.
      destruct (EdgeRecord.confidence existing) as [c0|] eqn:Hc;
        split_and!; simpl; try done; congruence.
  - intros functionLookup st p sourceFn targetFn existing Hs Ht key Hget.
    unfold Enrichment.mergeFunctionEdge. rewrite Hs, Ht.
    assert (FilesGrown_ids :
              ∀ r, idOf (includeFn (includeFn (Enrichment.fm_files st) sourceFn) targetFn) r
                   = idOf (Enrichment.fm_files st) r).
    { intros r. apply FilesFacts.FilesGrown_idOf.
      eapply FilesFacts.FilesGrown_trans; apply FilesFacts.includeFn_grown. }
    cbv zeta. rewrite !FilesGrown_ids. fold key. rewrite Hget. simpl.
    split; [|done]. split_and!.
    + rewrite okeys_oset, bool_decide_eq_true_2; [done|].
      apply oget_is_Some_key. by rewrite Hget.
    + intros k' Hk'. by rewrite oget_oset_ne.
    + eexists. split; [apply oget_oset_eq|].
      set (e0 := Enrichment.backfillConfidence existing
                   (LLMRelationshipFunctionEdge.confidence p)).
      assert (EdgeRecord.source e0 = EdgeRecord.source existing
              ∧ EdgeRecord.target e0 = EdgeRecord.target existing
              ∧ EdgeRecord.kind e0 = EdgeRecord.kind existing
              ∧ EdgeRecord.sourceType e0 = EdgeRecord.sourceType existing
              ∧ EdgeRecord.reason e0 = EdgeRecord.reason existing
              ∧ (∀ c0, EdgeRecord.confidence existing = Some c0 →
                       EdgeRecord.confidence e0 = Some c0)
              ∧ (EdgeRecord.confidence existing = None →
                 EdgeRecord.confidence e0 = LLMRelationshipFunctionEdge.confidence p))
        as (H1 & H2 & H3 & H4 & H5 & H6 & H7).
      { unfold e0, Enrichment.backfillConfidence.
        destruct (EdgeRecord.confidence existing) as [c0|] eqn:Hc;
          split_and!; simpl; try done; congruence. }
      clearbody e0. unfold Enrichment.mergeReason, truthy.
      destruct (LLMRelationshipFunctionEdge.reason p) as [new|] eqn:Hnew; simpl.
      * destruct (String.eqb_spec new "") as [->|Hne]; simpl.
        -- split_and!; try done. by intros new' [= <-] Hx.
        -- split_and!; simpl; try done.
           ++ intros new' [= <-] _. split.
              ** intros old Hold Hne'. rewrite H5, Hold. simpl.
                 by destruct (String.eqb_spec old "").
              ** intros [Hold|Hold]; by rewrite H5, Hold.
           ++ by intros [?|[= ?]].
      * split_and!; try done.
Qed.

Lemma edge_tables_keyed_by_endpoints_witness :
  oget (fileEdges StaticEdgeExample.context) "a.ts->b.ts"
  = Some (EdgeRecord.mk "a.ts" "b.ts" file_imports static None None)
  ∧ okeys (fileEdges
             (Enrichment.mergeResult StaticEdgeExample.context StaticEdgeExample.proposal))
    = ["a.ts->b.ts"]
  ∧ oget (fileEdges
            (Enrichment.mergeResult StaticEdgeExample.context StaticEdgeExample.proposal))
      "a.ts->b.ts"
    = Some (EdgeRecord.mk "a.ts" "b.ts" file_imports static (Some medium) None)
  ∧ ∃ e,
      oget (Enrichment.fm_edges
              (Enrichment.mergeFunctionEdge
                 (Enrichment.functionLookupOf (files MergeExamples.abContext))
                 MergeExamples.storedState MergeExamples.laterProposal))
        "a.ts::foo->a.ts::bar" = Some e
      ∧ EdgeRecord.kind e = fn_llm_reference
      ∧ EdgeRecord.sourceType e = llm
      ∧ EdgeRecord.confidence e = Some low
      ∧ EdgeRecord.reason e = Some "r1 r2".
Proof.
  destruct edge_tables_keyed_by_endpoints as (_ & _ & _ & _ & _ & H & _ & H').
  destruct (H StaticEdgeExample.context "a.ts" "b.ts" "uses" medium) as [Hk Hg];
    [apply (bool_decide_unpack _); by vm_compute
    | apply (bool_decide_unpack _); by vm_compute
    | by vm_compute |].
  split; [by vm_compute|]. split; [etrans; [exact Hk | by vm_compute]|].
  split; [exact Hg|].
  destruct (H' (Enrichment.functionLookupOf (files MergeExamples.abContext))
              MergeExamples.storedState MergeExamples.laterProposal (0, 0) (0, 2)
              (EdgeRecord.mk "a.ts::foo" "a.ts::bar" fn_llm_reference llm (Some low)
                 (Some "r1")))
    as [(_ & _ & e & He & _ & _ & Hkind & Hty & Hconf & _ & Hreason & _) _];
    [by vm_compute | by vm_compute | by vm_compute |].
  exists e. split; [exact He|]. split; [exact Hkind|]. split; [exact Hty|].
  split; [by apply Hconf|].
  destruct (Hreason "r2" eq_refl) as [Hr _]; [discriminate|].
  apply (Hr "r1"); [reflexivity | discriminate].
Defined.

(** C3, counterexample: a second proposal for a stored function edge changes
    a reason that was not missing. After one proposal with the reason r1 the
    edge holds r1; after a second proposal for the same pair with the reason
    r2 it holds both. *)
Lemma second_proposal_changes_reason :
  ∃ e e',
    oget (functionEdges (Enrichment.mergeResult MergeExamples.abContext
                           MergeExamples.oneReason)) "a.ts::foo->a.ts::bar" = Some e
    ∧ oget (functionEdges (Enrichment.mergeResult MergeExamples.abContext
                             MergeExamples.twoReasons)) "a.ts::foo->a.ts::bar" = Some e'
    ∧ EdgeRecord.reason e = Some "r1"
    ∧ EdgeRecord.reason e' = Some "r1 r2"
    ∧ ¬ OnlyFillsBlanks e e'.
Proof.
  eexists _, _. split; [by vm_compute|]. split; [by vm_compute|].
  split; [done|]. split; [done|].
  intros (_ & _ & _ & Hr). simpl in Hr. specialize (Hr (mk_is_Some _ _ eq_refl)).
  discriminate Hr.
Qed.

End EdgeClaims.

(** ** The edges the language model adds *)

Module ProposalFacts.
Import JsString Context EdgeSpec EdgeFacts FilesSpec FilesFacts ProposalSpec.

(** An invariant of a loop holds at its end. *)
Lemma fold_left_invariant {A B} (P : B → Prop) (f : B → A → B) (l : list A) (b : B) :
  P b → (∀ b x, x ∈ l → P b → P (f b x)) → P (fold_left f l b).
Proof.
  revert b. induction l as [|x l IH]; intros b Hb Hstep; simpl; [done|].
  apply IH.
  - apply Hstep; [left | done].
  - intros b' y Hy. apply Hstep. by right.
Qed.

Lemma mergeFileEdge_new proposals filePaths (initial : list (string * FileEdgeRecord)) st p :
  p ∈ proposals →
  (∀ k e, (k, e) ∈ st.1 → k ∉ okeys initial → FileProposal proposals filePaths e) →
  ∀ k e, (k, e) ∈ (Enrichment.mergeFileEdge filePaths st p).1 → k ∉ okeys initial →
         FileProposal proposals filePaths e.
Proof.
  intros Hp Hinv k e. unfold Enrichment.mergeFileEdge. destruct st as [edges n]. simpl in *.
  destruct (bool_decide (_ ∈ filePaths)) eqn:Hs; simpl; [|by eauto].
  destruct (bool_decide (LLMRelationshipFileEdge.target p ∈ filePaths)) eqn:Ht; simpl;
    [|by eauto].
  apply bool_decide_eq_true in Hs, Ht.
  destruct (oget edges _) as [existing|] eqn:Hex; simpl.
  - intros [[-> ->]|Hin]%elem_of_oset Hnew; [|by eauto].
    apply oget_Some_elem_of in Hex. specialize (Hinv _ _ Hex Hnew).
    unfold Enrichment.backfillConfidence. by destruct (EdgeRecord.confidence existing).
  - intros [[-> ->]|Hin]%elem_of_oset Hnew; [|by eauto].
    split; [done|]. exists p. by repeat split.
Qed.

Lemma mergeResult_new_file_edges ctx result k e :
  (k, e) ∈ fileEdges (Enrichment.mergeResult ctx result) →
  k ∉ okeys (fileEdges ctx) →
  FileProposal (LLMRelationshipResult.fileEdges result) (okeys (files ctx)) e.
Proof.
  rewrite mergeResult_fileEdges. revert k e.
  apply (fold_left_invariant
           (fun st => ∀ k e, (k, e) ∈ st.1 → k ∉ okeys (fileEdges ctx) →
              FileProposal (LLMRelationshipResult.fileEdges result) (okeys (files ctx)) e)).
  - simpl. intros k e Hin Hnot. exfalso. apply Hnot.
    apply list_elem_of_fmap. by exists (k, e).
  - intros st p Hp Hinv. by apply mergeFileEdge_new.
Qed.

Lemma elem_of_indexed {A} (l : list A) i x : (i, x) ∈ Assembler.indexed l → l !! i = Some x.
Proof.
  unfold Assembler.indexed. intros (i' & x' & [= -> ->] & H)%elem_of_lookup_imap. done.
Qed.

(** Every entry of [functionLookup] refers to a record of the file table. *)
Lemma functionLookupOf_valid fs key r :
  Enrichment.functionLookupOf fs !! key = Some r → is_Some (fnAt fs r).
Proof.
  unfold Enrichment.functionLookupOf. revert key r.
  apply (fold_left_invariant
           (fun m : gmap string FnRef => ∀ key r, m !! key = Some r → is_Some (fnAt fs r))).
  - intros key r. by rewrite lookup_empty.
  - intros m [i [k a]] Hi%elem_of_indexed Hm. unfold Enrichment.lookupFile. simpl.
    apply (fold_left_invariant
             (fun m : gmap string FnRef => ∀ key r, m !! key = Some r → is_Some (fnAt fs r)));
      [done|].
    intros m' [j fn] Hj%elem_of_indexed Hm'. unfold Enrichment.lookupFunction.
    assert (is_Some (fnAt fs (i, j))) as Hvalid.
    { unfold fnAt. simpl. rewrite Hi. simpl. by rewrite Hj. }
    assert (∀ (m0 : gmap string FnRef) key0,
              (∀ key r, m0 !! key = Some r → is_Some (fnAt fs r)) →
              ∀ key r, Enrichment.setIfAbsent key0 (i, j) m0 !! key = Some r →
                       is_Some (fnAt fs r)) as Hset.
    { intros m0 key0 H0 key r. unfold Enrichment.setIfAbsent.
      destruct (m0 !! key0); [apply H0|]. rewrite lookup_insert.
      case_decide; [by intros [= <-] | apply H0]. }
    assert (∀ key r,
              fold_left (fun m key => <[key := (i, j)]> m)
                (Enrichment.identifiersOf (FileAnalysis.path a) fn) m' !! key = Some r →
              is_Some (fnAt fs r)) as H1.
    { apply (fold_left_invariant
               (fun m : gmap string FnRef =>
                  ∀ key r, m !! key = Some r → is_Some (fnAt fs r))); [done|].
      intros m0 key0 _ H0 key r. rewrite lookup_insert.
      case_decide; [by intros [= <-] | apply H0]. }
    destruct (truthy _), (negb _); repeat (apply Hset); exact H1.
Qed.

Lemma mergeFunctionEdge_files functionLookup st p :
  FilesGrown (Enrichment.fm_files st)
    (Enrichment.fm_files (Enrichment.mergeFunctionEdge functionLookup st p)).
Proof.
  unfold Enrichment.mergeFunctionEdge.
  destruct (functionLookup !! _) as [sourceFn|]; [|apply FilesGrown_refl].
  destruct (functionLookup !! _) as [targetFn|]; [|apply FilesGrown_refl].
  assert (FilesGrown (Enrichment.fm_files st)
            (includeFn (includeFn (Enrichment.fm_files st) sourceFn) targetFn)).
  { eapply FilesGrown_trans; apply includeFn_grown. }
  by destruct (oget _ _).
Qed.

(** The invariant of the loop over the proposed function edges: the file
    table has only grown, every new edge was written for a proposal, and the
    records at both ends of every new edge are marked for inclusion. *)
Lemma mergeFunctionEdge_new proposals fs (initial : list (string * FunctionEdgeRecord)) st p :
  p ∈ proposals →
  FilesGrown fs (Enrichment.fm_files st) →
  (∀ k e, (k, e) ∈ Enrichment.fm_edges st → k ∉ okeys initial →
     FunctionProposal proposals fs e
     ∧ EdgeRecord.source e ∈ nodeIds (Enrichment.fm_files st)
     ∧ EdgeRecord.target e ∈ nodeIds (Enrichment.fm_files st)) →
  ∀ k e,
    (k, e) ∈ Enrichment.fm_edges
               (Enrichment.mergeFunctionEdge (Enrichment.functionLookupOf fs) st p) →
    k ∉ okeys initial →
    FunctionProposal proposals fs e
    ∧ EdgeRecord.source e
      ∈ nodeIds (Enrichment.fm_files
                   (Enrichment.mergeFunctionEdge (Enrichment.functionLookupOf fs) st p))
    ∧ EdgeRecord.target e
      ∈ nodeIds (Enrichment.fm_files
                   (Enrichment.mergeFunctionEdge (Enrichment.functionLookupOf fs) st p)).
Proof.
  intros Hp Hgrown Hinv.
  assert (∀ fs1 fs2 x, FilesGrown fs1 fs2 → x ∈ nodeIds fs1 → x ∈ nodeIds fs2) as Hmono.
  { intros fs1 fs2 x Hg (e & f & He & Hf & Hinc & <-)%nodeIds_spec.
    apply list_elem_of_lookup_1 in He as [i Hi]. apply list_elem_of_lookup_1 in Hf as [j Hj].
    destruct (FilesGrown_included fs1 fs2 (i, j) f Hg) as (f' & Hf' & <- & Hinc');
      [unfold fnAt; simpl; rewrite Hi; simpl; by rewrite Hj | done |].
    by eapply included_is_node. }
  pose proof (mergeFunctionEdge_files (Enrichment.functionLookupOf fs) st p) as Hstep.
  assert (∀ k e, (k, e) ∈ Enrichment.fm_edges st → k ∉ okeys initial →
            FunctionProposal proposals fs e
            ∧ EdgeRecord.source e
              ∈ nodeIds (Enrichment.fm_files
                   (Enrichment.mergeFunctionEdge (Enrichment.functionLookupOf fs) st p))
            ∧ EdgeRecord.target e
              ∈ nodeIds (Enrichment.fm_files
                   (Enrichment.mergeFunctionEdge (Enrichment.functionLookupOf fs) st p)))
    as Hold.
  { intros k e Hin Hnew. destruct (Hinv k e Hin Hnew) as (? & ? & ?). eauto. }
  revert Hstep Hold. unfold Enrichment.mergeFunctionEdge.
  destruct (Enrichment.functionLookupOf fs !! _) as [sourceFn|] eqn:Hs; [|auto].
  destruct (Enrichment.functionLookupOf fs !! (filePath (LLMRelationshipFunctionEdge.target p)
              +:+ _)) as [targetFn|] eqn:Ht; [|auto].
  set (fs' := includeFn (includeFn (Enrichment.fm_files st) sourceFn) targetFn).
  assert (FilesGrown (Enrichment.fm_files st) fs') as Hg'
    by (eapply FilesGrown_trans; apply includeFn_grown).
  assert (FilesGrown fs fs') as Hg by (by eapply FilesGrown_trans).
  assert (idOf fs' sourceFn ∈ nodeIds fs' ∧ idOf fs' targetFn ∈ nodeIds fs') as [Hsn Htn].
  { destruct (functionLookupOf_valid fs _ _ Hs) as [fsrc Hfsrc].
    destruct (functionLookupOf_valid fs _ _ Ht) as [ftgt Hftgt].
    pose proof (FilesGrown_fnAt _ _ sourceFn Hgrown) as H1. rewrite Hfsrc in H1.
    inversion H1 as [? fsrc1 _ Hx Hfsrc1|]; subst. symmetry in Hfsrc1.
    pose proof (includeFn_fnAt _ _ _ Hfsrc1) as H2.
    destruct (FilesGrown_included _ fs' sourceFn _ (includeFn_grown _ targetFn) H2 eq_refl)
      as (f1 & Hf1 & _ & Hinc1).
    pose proof (FilesGrown_fnAt _ _ targetFn
                  (FilesGrown_trans _ _ _ Hgrown (includeFn_grown _ sourceFn))) as H3.
    rewrite Hftgt in H3. inversion H3 as [? ftgt1 _ Hy Hftgt1|]; subst. symmetry in Hftgt1.
    pose proof (includeFn_fnAt _ _ _ Hftgt1) as H4. fold fs' in H4.
    split.
    - unfold idOf. rewrite Hf1. simpl. by eapply included_is_node.
    - unfold idOf. rewrite H4.
      eapply included_is_node; [exact H4 | done]. }
  destruct (oget (Enrichment.fm_edges st) _) as [existing|] eqn:Hex; simpl;
    intros Hstep Hold k e [[-> ->]|Hin]%elem_of_oset Hnew;
    try (eapply Hold; eassumption).
  - apply oget_Some_elem_of in Hex. destruct (Hold _ _ Hex Hnew) as (Hprop & Hsrc & Htgt).
    assert (∀ x, EdgeRecord.source x = EdgeRecord.source existing →
                 EdgeRecord.target x = EdgeRecord.target existing →
                 EdgeRecord.kind x = EdgeRecord.kind existing →
                 EdgeRecord.sourceType x = EdgeRecord.sourceType existing →
                 FunctionProposal proposals fs x
                 ∧ EdgeRecord.source x ∈ nodeIds fs' ∧ EdgeRecord.target x ∈ nodeIds fs')
      as Hsame.
    { intros x Hxs Hxt Hxk Hxp. unfold FunctionProposal. rewrite Hxs, Hxt, Hxk, Hxp.
      split; [exact Hprop | split; [exact Hsrc | exact Htgt]]. }
    apply Hsame; unfold Enrichment.mergeReason, Enrichment.backfillConfidence;
      by destruct (EdgeRecord.confidence existing), (truthy _).
  - split; [|split; [exact Hsn | exact Htn]]. split; [done|].
    exists p, sourceFn, targetFn. split_and!; try done; simpl; by apply FilesGrown_idOf.
Qed.

Lemma mergeResult_grown ctx result :
  FilesGrown (files ctx) (files (Enrichment.mergeResult ctx result)).
Proof.
  rewrite mergeResult_files.
  apply (fold_left_invariant (fun st => FilesGrown (files ctx) (Enrichment.fm_files st)));
    [apply FilesGrown_refl|].
  intros st p _ H. eapply FilesGrown_trans; [exact H | apply mergeFunctionEdge_files].
Qed.

Lemma mergeResult_new_function_edges ctx result k e :
  (k, e) ∈ functionEdges (Enrichment.mergeResult ctx result) →
  k ∉ okeys (functionEdges ctx) →
  FunctionProposal (LLMRelationshipResult.functionEdges result) (files ctx) e
  ∧ EdgeRecord.source e ∈ nodeIds (files (Enrichment.mergeResult ctx result))
  ∧ EdgeRecord.target e ∈ nodeIds (files (Enrichment.mergeResult ctx result)).
Proof.
  rewrite mergeResult_functionEdges, mergeResult_files. revert k e.
  apply (fold_left_invariant
           (fun st =>
              FilesGrown (files ctx) (Enrichment.fm_files st)
              ∧ ∀ k e, (k, e) ∈ Enrichment.fm_edges st → k ∉ okeys (functionEdges ctx) →
                  FunctionProposal (LLMRelationshipResult.functionEdges result) (files ctx) e
                  ∧ EdgeRecord.source e ∈ nodeIds (Enrichment.fm_files st)
                  ∧ EdgeRecord.target e ∈ nodeIds (Enrichment.fm_files st))).
  - simpl. split; [apply FilesGrown_refl|]. intros k e Hin Hnot. exfalso. apply Hnot.
    apply list_elem_of_fmap. by exists (k, e).
  - intros st p Hp [Hg Hinv]. split.
    + eapply FilesGrown_trans; [exact Hg | apply mergeFunctionEdge_files].
    + by apply mergeFunctionEdge_new.
Qed.

End ProposalFacts.

Module ProposalClaims.
Import JsString Context EdgeSpec FilesSpec ProposalSpec ProposalFacts.

(** C5 (as the code has it). Every edge that the merge adds for a proposal of
    the language model has the provenance llm, and its kind comes from the
    lower-cased label of a proposal for its own two ends, by one of two
    rules. For a file edge, whose ends are the two paths of the proposal: the
    label imports gives the kind imports, any other label gives
    llm-reference. For a function edge, whose ends are the identifiers of the
    two records that the symbols of the proposal look up: a label containing
    call or invoke gives the kind invokes, any other label gives
    llm-reference. *)
Theorem proposal_edge_kinds ctx result :
  (∀ k e,
     (k, e) ∈ fileEdges (Enrichment.mergeResult ctx result) →
     k ∉ okeys (fileEdges ctx) →
     EdgeRecord.sourceType e = llm
     ∧ ∃ p, p ∈ LLMRelationshipResult.fileEdges result
            ∧ EdgeRecord.source e = LLMRelationshipFileEdge.source p
            ∧ EdgeRecord.target e = LLMRelationshipFileEdge.target p
            ∧ EdgeRecord.kind e
              = if String.eqb (toLowerCase (LLMRelationshipFileEdge.relationship p)) "imports"
                then file_imports else file_llm_reference)
  ∧ (∀ k e,
       (k, e) ∈ functionEdges (Enrichment.mergeResult ctx result) →
       k ∉ okeys (functionEdges ctx) →
       EdgeRecord.sourceType e = llm
       ∧ ∃ p sourceFn targetFn,
           p ∈ LLMRelationshipResult.functionEdges result
           ∧ Enrichment.functionLookupOf (files ctx)
               !! (filePath (LLMRelationshipFunctionEdge.source p) +:+ ":"
                   +:+ symbol (LLMRelationshipFunctionEdge.source p)) = Some sourceFn
           ∧ Enrichment.functionLookupOf (files ctx)
               !! (filePath (LLMRelationshipFunctionEdge.target p) +:+ ":"
                   +:+ symbol (LLMRelationshipFunctionEdge.target p)) = Some targetFn
           ∧ EdgeRecord.source e = idOf (files ctx) sourceFn
           ∧ EdgeRecord.target e = idOf (files ctx) targetFn
           ∧ EdgeRecord.kind e
             = if includes (toLowerCase (LLMRelationshipFunctionEdge.relationship p)) "call"
                  || includes (toLowerCase (LLMRelationshipFunctionEdge.relationship p))
                       "invoke"
               then fn_invokes else fn_llm_reference).
Proof.
  split.
  - intros k e Hin Hnew.
    destruct (mergeResult_new_file_edges ctx result k e Hin Hnew)
      as (Hllm & p & Hp & Hs & Ht & _ & _ & Hk).
    split; [done|]. exists p. by repeat split.
  - intros k e Hin Hnew.
    destruct (mergeResult_new_function_edges ctx result k e Hin Hnew)
      as ((Hllm & p & s & t & Hp & Hs & Ht & Hse & Hte & Hk) & _).
    split; [done|]. exists p, s, t. by split_and!.
Qed.

Lemma proposal_edge_kinds_witness :
  (∃ e,
     oget (fileEdges (Enrichment.mergeResult MergeExamples.abContext
                        MergeExamples.callsFileEdge)) "a.ts->b.ts" = Some e
     ∧ EdgeRecord.sourceType e = llm
     ∧ EdgeRecord.kind e = file_llm_reference)
  ∧ (∃ e,
       oget (functionEdges (Enrichment.mergeResult MergeExamples.abContext
                              MergeExamples.importsFunctionEdge))
         "a.ts::foo->a.ts::bar" = Some e
       ∧ EdgeRecord.sourceType e = llm
       ∧ EdgeRecord.kind e = fn_llm_reference).
Proof.
  split.
  - eexists. split; [by vm_compute|].
    destruct (proposal_edge_kinds MergeExamples.abContext MergeExamples.callsFileEdge)
      as [H _].
    destruct (H "a.ts->b.ts"
                (EdgeRecord.mk "a.ts" "b.ts" file_llm_reference llm (Some high) None))
      as (Hllm & p & Hp & _).
    + apply oget_Some_elem_of. by vm_compute.
    + apply (bool_decide_unpack _). by vm_compute.
    + split; [exact Hllm | reflexivity].
  - eexists. split; [by vm_compute|].
    destruct (proposal_edge_kinds MergeExamples.abContext MergeExamples.importsFunctionEdge)
      as [_ H].
    destruct (H "a.ts::foo->a.ts::bar"
                (EdgeRecord.mk "a.ts::foo" "a.ts::bar" fn_llm_reference llm None None))
      as (Hllm & p & s & t & Hp & _).
    + apply oget_Some_elem_of. by vm_compute.
    + apply (bool_decide_unpack _). by vm_compute.
    + split; [exact Hllm | reflexivity].
Defined.

(** C5, counterexample: the two graphs do not follow one rule. An accepted
    file edge labelled calls gets the kind llm-reference, where the rule of
    the specification gives invokes; an accepted function edge labelled
    imports gets the kind llm-reference, where that rule gives imports. *)
Lemma labels_follow_two_rules :
  (∃ e,
     oget (fileEdges (Enrichment.mergeResult MergeExamples.abContext
                        MergeExamples.callsFileEdge)) "a.ts->b.ts" = Some e
     ∧ EdgeRecord.sourceType e = llm
     ∧ fileKindAsSpecified (EdgeRecord.kind e) = fn_llm_reference
     ∧ specifiedKind "calls" = fn_invokes
     ∧ fileKindAsSpecified (EdgeRecord.kind e) ≠ specifiedKind "calls")
  ∧ (∃ e,
       oget (functionEdges (Enrichment.mergeResult MergeExamples.abContext
                              MergeExamples.importsFunctionEdge))
         "a.ts::foo->a.ts::bar" = Some e
       ∧ EdgeRecord.sourceType e = llm
       ∧ EdgeRecord.kind e = fn_llm_reference
       ∧ specifiedKind "imports" = fn_imports
       ∧ EdgeRecord.kind e ≠ specifiedKind "imports").
Proof.
  split; eexists; (split; [by vm_compute|]); by repeat split.
Qed.

(** C6 (as the code has it). A file edge proposed by the language model is
    added only between two parsed files, the files that have file nodes. A
    function edge is added when the symbols of the proposal look up two
    function records of the file table, whether or not these records were
    marked as nodes before; the merge marks both, so that both ends of every
    added function edge are function nodes afterwards. The merge changes no
    key of the file table. *)
Theorem proposal_edge_endpoints ctx result :
  (∀ k e,
     (k, e) ∈ fileEdges (Enrichment.mergeResult ctx result) →
     k ∉ okeys (fileEdges ctx) →
     EdgeRecord.source e ∈ okeys (files ctx) ∧ EdgeRecord.target e ∈ okeys (files ctx))
  ∧ (∀ k e,
       (k, e) ∈ functionEdges (Enrichment.mergeResult ctx result) →
       k ∉ okeys (functionEdges ctx) →
       (∃ sourceFn targetFn,
          fnAt (files ctx) sourceFn.1 = Some sourceFn.2
          ∧ fnAt (files ctx) targetFn.1 = Some targetFn.2
          ∧ EdgeRecord.source e = FunctionInfo.id sourceFn.2
          ∧ EdgeRecord.target e = FunctionInfo.id targetFn.2)
       ∧ EdgeRecord.source e ∈ nodeIds (files (Enrichment.mergeResult ctx result))
       ∧ EdgeRecord.target e ∈ nodeIds (files (Enrichment.mergeResult ctx result)))
  ∧ okeys (files (Enrichment.mergeResult ctx result)) = okeys (files ctx).
Proof.
  split_and!.
  - intros k e Hin Hnew.
    by destruct (mergeResult_new_file_edges ctx result k e Hin Hnew)
      as (_ & p & _ & _ & _ & ? & ? & _).
  - intros k e Hin Hnew.
    destruct (mergeResult_new_function_edges ctx result k e Hin Hnew)
      as ((_ & p & s & t & _ & Hs & Ht & Hse & Hte & _) & Hsn & Htn).
    split; [|by split].
    destruct (functionLookupOf_valid _ _ _ Hs) as [fsrc Hfsrc].
    destruct (functionLookupOf_valid _ _ _ Ht) as [ftgt Hftgt].
    exists (s, fsrc), (t, ftgt). simpl. split_and!; [done | done | |].
    + rewrite Hse. unfold idOf. by rewrite Hfsrc.
    + rewrite Hte. unfold idOf. by rewrite Hftgt.
  - apply FilesFacts.FilesGrown_okeys, mergeResult_grown.
Qed.

Lemma proposal_edge_endpoints_witness :
  "a.ts::foo" ∈ nodeIds (files (Enrichment.mergeResult MergeExamples.abContext
                                     MergeExamples.importsFunctionEdge))
  ∧ "a.ts::bar" ∈ nodeIds (files (Enrichment.mergeResult MergeExamples.abContext
                                       MergeExamples.importsFunctionEdge)).
Proof.
  destruct (proposal_edge_endpoints MergeExamples.abContext
              MergeExamples.importsFunctionEdge) as (_ & H & _).
  destruct (H "a.ts::foo->a.ts::bar"
              (EdgeRecord.mk "a.ts::foo" "a.ts::bar" fn_llm_reference llm None None))
    as (_ & Hs & Ht).
  - apply oget_Some_elem_of. by vm_compute.
  - apply (bool_decide_unpack _). by vm_compute.
  - split; [exact Hs | exact Ht].
Defined.

(** C6, counterexample: an accepted function edge whose source was no node
    of the deterministic graph. The local function foo of a.ts is not
    exported and calls nothing, so it is no function node before enrichment;
    a proposal naming it is accepted, and makes it a node. *)
Lemma proposal_reaches_beyond_deterministic_nodes :
  nodeIds (files MergeExamples.abContext) = ["a.ts::bar"]
  ∧ ("a.ts::foo" ∉ nodeIds (files MergeExamples.abContext))
  ∧ oget (functionEdges (Enrichment.mergeResult MergeExamples.abContext
                           MergeExamples.importsFunctionEdge)) "a.ts::foo->a.ts::bar"
    = Some (EdgeRecord.mk "a.ts::foo" "a.ts::bar" fn_llm_reference llm None None)
  ∧ nodeIds (files (Enrichment.mergeResult MergeExamples.abContext
                      MergeExamples.importsFunctionEdge))
    = ["a.ts::foo"; "a.ts::bar"].
Proof.
  split_and!; try by vm_compute.
  apply (bool_decide_unpack _). by vm_compute.
Qed.

End ProposalClaims.

(** ** Import resolution *)

Module ResolveFacts.
Import JsString Context EdgeSpec EdgeFacts ResolverSpec ResolverFacts ResolveSpec.

Section WithResolver.
Variable fileSet : gset string.
Variable paths : list TsconfigPathsEntry.

(** One import: the memo table stays sound, and the edge table gets the
    edge of the accepted target, if there is one. *)
Lemma resolveBinding_spec relPath st binding :
  CacheSound fileSet (Assembler.rs_cache st) →
  let st' := (Assembler.resolveBinding fileSet paths relPath st binding).1 in
  CacheSound fileSet (Assembler.rs_cache st')
  ∧ Assembler.rs_fileEdges st'
    = match resolvedTarget fileSet paths relPath (ImportBinding.source binding) with
      | Some r =>
          oset (Assembler.rs_fileEdges st) (relPath +:+ "->" +:+ r)
            (Assembler.staticFileEdge
               (oget (Assembler.rs_fileEdges st) (relPath +:+ "->" +:+ r)) relPath r)
      | None => Assembler.rs_fileEdges st
      end.
Proof.
  intros Hc. unfold Assembler.resolveBinding, resolvedTarget.
  destruct (resolve_sound fileSet paths (Assembler.rs_cache st) relPath
              (ImportBinding.source binding) Hc) as [H1 H2].
  destruct (Resolver.resolve _ _ _ _ _) as [resolved cache]. simpl in H1, H2.
  rewrite <- H1. destruct resolved as [r|]; simpl.
  - destruct (String.eqb r ""); simpl; [|done].
    by destruct (negb _).
  - by destruct (negb _).
Qed.

Lemma resolveBinding_Resolved keys relPath st binding :
  relPath ∈ keys → Resolved fileSet keys st →
  Resolved fileSet keys (Assembler.resolveBinding fileSet paths relPath st binding).1.
Proof.
  intros Hrel [Hc Hs]. destruct (resolveBinding_spec relPath st binding Hc) as [H1 H2].
  split; [done|]. rewrite H2. unfold resolvedTarget.
  destruct (resolvePure _ _ _ _) as [r|] eqn:Hr; [|done].
  destruct (String.eqb r ""); [done|].
  intros k e [[-> ->]|Hin]%elem_of_oset Hstatic; [|by eauto].
  simpl. split; [done|]. by eapply resolvePure_elem_of.
Qed.

Lemma resolveBindings_Resolved keys relPath st bindings :
  relPath ∈ keys → Resolved fileSet keys st →
  Resolved fileSet keys (Assembler.resolveBindings fileSet paths relPath st bindings).1.
Proof.
  intros Hrel. revert st. induction bindings as [|b bindings IH]; intros st Hst; simpl;
    [done|].
  pose proof (resolveBinding_Resolved keys relPath st b Hrel Hst) as H1.
  destruct (Assembler.resolveBinding _ _ _ _ _) as [st1 b']. simpl in H1.
  pose proof (IH st1 H1) as H2.
  by destruct (Assembler.resolveBindings _ _ _ _ _) as [st2 rest'].
Qed.

Lemma resolveFiles_Resolved keys st entries :
  (∀ k, k ∈ okeys entries → k ∈ keys) → Resolved fileSet keys st →
  Resolved fileSet keys (Assembler.resolveFiles fileSet paths st entries).1.
Proof.
  revert st. induction entries as [|[relPath analysis] entries IH]; intros st Hk Hst; simpl;
    [done|].
  pose proof (resolveBindings_Resolved keys relPath st (FileAnalysis.imports analysis)
                (Hk _ (list_elem_of_here _ _)) Hst) as H1.
  destruct (Assembler.resolveBindings _ _ _ _ _) as [st1 imports']. simpl in H1.
  assert (∀ k, k ∈ okeys entries → k ∈ keys) as Hk' by (intros k ?; apply Hk; by right).
  pose proof (IH st1 Hk' H1) as H2.
  by destruct (Assembler.resolveFiles _ _ _ _) as [st2 rest'].
Qed.

(** Import resolution changes the imports of the file table only. *)
Lemma resolveFiles_files st entries :
  Forall2 (fun e e' =>
             e'.1 = e.1
             ∧ FileAnalysis.path e'.2 = FileAnalysis.path e.2
             ∧ FileAnalysis.functions e'.2 = FileAnalysis.functions e.2
             ∧ FileAnalysis.calls e'.2 = FileAnalysis.calls e.2)
    entries (Assembler.resolveFiles fileSet paths st entries).2.
Proof.
  revert st. induction entries as [|[relPath analysis] entries IH]; intros st; simpl;
    [constructor|].
  destruct (Assembler.resolveBindings _ _ _ _ _) as [st1 imports'].
  pose proof (IH st1) as H.
  destruct (Assembler.resolveFiles _ _ _ _) as [st2 rest']. simpl in *.
  constructor; [by repeat split | done].
Qed.

Lemma resolveImports_okeys ctx :
  okeys (files (Assembler.resolveImports fileSet paths ctx)) = okeys (files ctx).
Proof.
  unfold Assembler.resolveImports.
  pose proof (resolveFiles_files
                (Assembler.mkResolveState (candidateCache ctx) (fileEdges ctx) (unresolved ctx))
                (files ctx)) as H.
  destruct (Assembler.resolveFiles _ _ _ _) as [st entries]. simpl in *.
  induction H as [|e e' l l' (He & _) _ IH]; simpl; [done|]. by rewrite He, IH.
Qed.

Lemma resolveImports_StaticEnds ctx :
  CacheSound fileSet (candidateCache ctx) →
  StaticEnds (okeys (files ctx)) fileSet (fileEdges ctx) →
  StaticEnds (okeys (files ctx)) fileSet
    (fileEdges (Assembler.resolveImports fileSet paths ctx)).
Proof.
  intros Hc Hs. unfold Assembler.resolveImports.
  pose proof (resolveFiles_Resolved (okeys (files ctx))
                (Assembler.mkResolveState (candidateCache ctx) (fileEdges ctx) (unresolved ctx))
                (files ctx) (fun k H => H) (conj Hc Hs)) as [_ H].
  by destruct (Assembler.resolveFiles _ _ _ _) as [st entries].
Qed.

(** The keys of the edge table after the imports of one file. *)
Lemma resolveBindings_keys relPath st bindings :
  CacheSound fileSet (Assembler.rs_cache st) →
  let st' := (Assembler.resolveBindings fileSet paths relPath st bindings).1 in
  CacheSound fileSet (Assembler.rs_cache st')
  ∧ ∀ k, k ∈ okeys (Assembler.rs_fileEdges st') ↔
         k ∈ okeys (Assembler.rs_fileEdges st)
         ∨ ∃ binding r,
             binding ∈ bindings
             ∧ resolvedTarget fileSet paths relPath (ImportBinding.source binding) = Some r
             ∧ k = relPath +:+ "->" +:+ r.
Proof.
  revert st. induction bindings as [|b bindings IH]; intros st Hc; simpl.
  - split; [done|]. intros k. split; [auto|].
    intros [?|(b & r & Hb & _)]; [done | by apply elem_of_nil in Hb].
  - destruct (resolveBinding_spec relPath st b Hc) as [H1 H2].
    destruct (Assembler.resolveBinding _ _ _ _ _) as [st1 b']. simpl in H1, H2.
    destruct (IH st1 H1) as [H3 H4].
    destruct (Assembler.resolveBindings _ _ _ _ _) as [st2 rest']. simpl in *.
    split; [done|]. intros k. rewrite H4, H2. split.
    + intros [Hk|(b0 & r & Hb0 & Hr & ->)].
      * destruct (resolvedTarget _ _ _ _) as [r|] eqn:Hr; [|by left].
        apply elem_of_okeys_oset in Hk as [->|Hk]; [|by left].
        right. exists b, r. split_and!; [left | done | done].
      * right. exists b0, r. split_and!; [by right | done | done].
    + intros [Hk|(b0 & r & [->|Hb0]%elem_of_cons & Hr & ->)].
      * left. destruct (resolvedTarget _ _ _ _); [|done].
        apply elem_of_okeys_oset. by right.
      * left. rewrite Hr. apply elem_of_okeys_oset. by left.
      * right. eauto.
Qed.

(** The keys of the edge table after the imports of all files. *)
Lemma resolveFiles_keys st entries :
  CacheSound fileSet (Assembler.rs_cache st) →
  ∀ k, k ∈ okeys (Assembler.rs_fileEdges
                    (Assembler.resolveFiles fileSet paths st entries).1) ↔
       k ∈ okeys (Assembler.rs_fileEdges st) ∨ ImportKey fileSet paths entries k.
Proof.
  revert st. induction entries as [|[relPath analysis] entries IH]; intros st Hc k; simpl.
  - split; [auto|]. intros [?|(? & ? & ? & ? & He & _)]; [done | by apply elem_of_nil in He].
  - destruct (resolveBindings_keys relPath st (FileAnalysis.imports analysis) Hc) as [H1 H2].
    destruct (Assembler.resolveBindings _ _ _ _ _) as [st1 imports']. simpl in H1, H2.
    pose proof (IH st1 H1 k) as H3.
    destruct (Assembler.resolveFiles _ _ _ _) as [st2 rest']. simpl in *.
    rewrite H3, H2. unfold ImportKey. split.
    + intros [[?|(b & r & ? & ? & ->)]|(rel & a & b & r & ? & ? & ? & ->)]; [by left | |].
      * right. exists relPath, analysis, b, r. split_and!; [left | done | done | done].
      * right. exists rel, a, b, r. split_and!; [by right | done | done | done].
    + intros [?|(rel & a & b & r & [[= -> ->]|?]%elem_of_cons & ? & ? & ->)];
        [by left; left | |].
      * left. right. eauto.
      * right. exists rel, a, b, r. eauto.
Qed.

Lemma resolveImports_keys ctx :
  CacheSound fileSet (candidateCache ctx) →
  ∀ k, k ∈ okeys (fileEdges (Assembler.resolveImports fileSet paths ctx)) ↔
       k ∈ okeys (fileEdges ctx) ∨ ImportKey fileSet paths (files ctx) k.
Proof.
  intros Hc k. unfold Assembler.resolveImports.
  pose proof (resolveFiles_keys
                (Assembler.mkResolveState (candidateCache ctx) (fileEdges ctx) (unresolved ctx))
                (files ctx) Hc k) as H.
  by destruct (Assembler.resolveFiles _ _ _ _) as [st entries].
Qed.

End WithResolver.

End ResolveFacts.

(** ** The file table over a whole run *)

Module RunFacts.
Import JsString Context EdgeSpec EdgeFacts FilesSpec FilesFacts ExtractSpec Pipeline.

Lemma settle_files repo ctx rel :
  WellExtracted repo (files ctx) →
  WellExtracted repo (files (settle repo ctx rel))
  ∧ ∀ k, k ∈ okeys (files (settle repo ctx rel)) ↔
         k ∈ okeys (files ctx) ∨ (k = rel ∧ parsed repo rel).
Proof.
  intros [Hnd Hall]. unfold settle, parsed.
  destruct (outcomeOf repo rel) as [message|code visits] eqn:Hrel; simpl.
  - split; [done|]. intros k. split; [auto|]. intros [?|[_ (? & ? & ?)]]; [done|congruence].
  - split.
    + split; [by apply NoDup_okeys_oset|].
      intros k a [[-> ->]|Hin]%elem_of_oset; [eauto | by apply Hall].
    + intros k. rewrite elem_of_okeys_oset. split.
      * intros [->|?]; [right; eauto | by left].
      * intros [?|[-> _]]; auto.
Qed.

Lemma extract_files repo completion ctx :
  WellExtracted repo (files ctx) →
  WellExtracted repo (files (extract repo completion ctx))
  ∧ ∀ k, k ∈ okeys (files (extract repo completion ctx)) ↔
         k ∈ okeys (files ctx) ∨ (k ∈ completion ∧ parsed repo k).
Proof.
  unfold extract. revert ctx.
  induction completion as [|rel completion IH]; intros ctx Hw; simpl.
  - split; [done|]. intros k. split; [auto|].
    intros [?|[Hk _]]; [done | by apply elem_of_nil in Hk].
  - destruct (settle_files repo ctx rel Hw) as [H1 H2].
    destruct (IH _ H1) as [H3 H4]. split; [done|].
    intros k. rewrite H4, H2, elem_of_cons. naive_solver.
Qed.

Lemma WellExtracted_nil repo : WellExtracted repo [].
Proof. split; [constructor|]. intros k a Hin. by apply elem_of_nil in Hin. Qed.

(** The other fields after the parallel phase. *)
Lemma extract_rest repo completion ctx :
  unresolved (extract repo completion ctx) = unresolved ctx
  ∧ exportedFunctions (extract repo completion ctx) = exportedFunctions ctx
  ∧ candidateCache (extract repo completion ctx) = candidateCache ctx.
Proof.
  unfold extract. revert ctx.
  induction completion as [|rel completion IH]; intros ctx; simpl; [done|].
  destruct (IH (settle repo ctx rel)) as (-> & -> & ->).
  unfold settle. by destruct (outcomeOf repo rel).
Qed.

Lemma edgeForCall_grown filePos specifierMap ctx entry :
  FilesGrown (files ctx) (files (Assembler.edgeForCall filePos specifierMap ctx entry)).
Proof.
  unfold Assembler.edgeForCall. destruct entry as [k call].
  destruct (specifierMap !! _) as [spec|]; [|apply FilesGrown_refl].
  destruct (negb _); [apply FilesGrown_refl|].
  match goal with |- context [match ?t with Some _ => _ | None => _ end] =>
    destruct t as [targetFn|] end; [|apply FilesGrown_refl].
  destruct (Assembler.findCaller _ _) as [j|]; [|apply FilesGrown_refl].
  simpl. eapply FilesGrown_trans; [|apply setCallResolved_grown].
  eapply FilesGrown_trans; apply includeFn_grown.
Qed.

Lemma collectFunctionEdges_grown ctx :
  FilesGrown (files ctx) (files (Assembler.collectFunctionEdges ctx)).
Proof.
  unfold Assembler.collectFunctionEdges.
  generalize (Assembler.indexed (files ctx)). intros l.
  apply (ProposalFacts.fold_left_invariant
           (fun c => FilesGrown (files ctx) (files c))); [apply FilesGrown_refl|].
  intros c a _ Hc. unfold Assembler.edgesForFile.
  apply (ProposalFacts.fold_left_invariant
           (fun c => FilesGrown (files ctx) (files c))); [done|].
  intros c' a' _ Hc'. eapply FilesGrown_trans; [exact Hc' | apply edgeForCall_grown].
Qed.

Lemma collectUnresolvedWarnings_files ctx :
  files (collectUnresolvedWarnings ctx) = files ctx.
Proof.
  unfold collectUnresolvedWarnings.
  apply (ProposalFacts.fold_left_invariant (fun c => files c = files ctx)); [done|].
  by intros c [file specifiers] _ Hc.
Qed.

Lemma enrich_okeys host ctx :
  okeys (files (Enrichment.enrichRelationshipsWithLLM host ctx)) = okeys (files ctx).
Proof.
  unfold Enrichment.enrichRelationshipsWithLLM.
  destruct (Llm.inferRelationshipsWithLLM _ _) as [message|[result|]]; simpl; [done| |].
  - apply FilesGrown_okeys, ProposalFacts.mergeResult_grown.
  - by destruct (negb _).
Qed.

Lemma staticPasses_okeys repo ctx :
  okeys (files (staticPasses repo ctx)) = okeys (files ctx).
Proof.
  unfold staticPasses.
  rewrite (FilesGrown_okeys _ _ (collectFunctionEdges_grown _)).
  unfold Assembler.collectFunctionExports. simpl.
  rewrite ResolveFacts.resolveImports_okeys. by destruct (decide _).
Qed.

(** The keys of the file table at the end of a run are the parsed files of
    the schedule. *)
Lemma run_okeys host repo completion k :
  k ∈ okeys (files (assemble host repo (extract repo completion (initialContext repo)))) ↔
  k ∈ completion ∧ parsed repo k.
Proof.
  unfold assemble. rewrite collectUnresolvedWarnings_files, enrich_okeys, staticPasses_okeys.
  destruct (extract_files repo completion (initialContext repo) (WellExtracted_nil repo))
    as [_ H].
  rewrite H. simpl. split; [|auto]. intros [Hk|?]; [by apply elem_of_nil in Hk | done].
Qed.

End RunFacts.

(** ** Static file edges *)

Module StaticEdgeClaims.
Import JsString Context EdgeSpec EdgeFacts FilesSpec FilesFacts ExtractSpec ResolveSpec
  ResolverSpec Pipeline RunFacts.

Lemma mergeFileEdge_StaticEnds keys fileSet filePaths st p :
  StaticEnds keys fileSet st.1 →
  StaticEnds keys fileSet (Enrichment.mergeFileEdge filePaths st p).1.
Proof.
  intros Hs. unfold Enrichment.mergeFileEdge. destruct st as [edges n]. simpl in *.
  destruct (_ || _); [done|].
  destruct (oget edges _) as [existing|] eqn:Hex; simpl.
  - intros k e [[-> ->]|Hin]%elem_of_oset; [|by eauto].
    apply oget_Some_elem_of in Hex. specialize (Hs _ _ Hex).
    unfold Enrichment.backfillConfidence. by destruct (EdgeRecord.confidence existing).
  - intros k e [[-> ->]|Hin]%elem_of_oset; [done | by eauto].
Qed.

Lemma enrich_StaticEnds host keys fileSet ctx :
  StaticEnds keys fileSet (fileEdges ctx) →
  StaticEnds keys fileSet (fileEdges (Enrichment.enrichRelationshipsWithLLM host ctx)).
Proof.
  intros Hs. unfold Enrichment.enrichRelationshipsWithLLM.
  destruct (Llm.inferRelationshipsWithLLM _ _) as [message|[result|]]; simpl; [done| |].
  - rewrite mergeResult_fileEdges.
    apply (ProposalFacts.fold_left_invariant (fun st => StaticEnds keys fileSet st.1));
      [done|].
    intros st p _ H. by apply mergeFileEdge_StaticEnds.
  - by destruct (negb _).
Qed.

Lemma staticPasses_StaticEnds repo ctx :
  CacheSound (fileSetOf repo) (candidateCache ctx) →
  StaticEnds (okeys (files ctx)) (fileSetOf repo) (fileEdges ctx) →
  StaticEnds (okeys (files ctx)) (fileSetOf repo) (fileEdges (staticPasses repo ctx)).
Proof.
  intros Hc Hs. unfold staticPasses.
  rewrite collectFunctionEdges_fileEdges. unfold Assembler.collectFunctionExports. simpl.
  set (ctx0 := if decide (files ctx = []) then _ else ctx).
  assert (files ctx0 = files ctx ∧ fileEdges ctx0 = fileEdges ctx
          ∧ candidateCache ctx0 = candidateCache ctx) as (Hf & He & Hcc)
    by (unfold ctx0; by destruct (decide _)).
  rewrite <- Hf. apply ResolveFacts.resolveImports_StaticEnds; [by rewrite Hcc|].
  by rewrite Hf, He.
Qed.

(** The static file edges at the end of a run join a parsed file of the
    schedule to a listed file. *)
Lemma run_StaticEnds host repo completion k e :
  (k, e) ∈ fileEdges (assemble host repo (extract repo completion (initialContext repo))) →
  EdgeRecord.sourceType e = static →
  (EdgeRecord.source e ∈ completion ∧ parsed repo (EdgeRecord.source e))
  ∧ EdgeRecord.target e ∈ fileEntries repo.
Proof.
  unfold assemble.
  destruct (EdgeRun.collectUnresolvedWarnings_edges
              (Enrichment.enrichRelationshipsWithLLM host
                 (staticPasses repo (extract repo completion (initialContext repo)))))
    as [-> _].
  set (ctx0 := extract repo completion (initialContext repo)).
  destruct (extract_rest repo completion (initialContext repo)) as (_ & _ & Hcache).
  destruct (EdgeRun.extract_edges repo completion (initialContext repo)) as [Hedges _].
  fold ctx0 in Hcache, Hedges. simpl in Hcache, Hedges.
  assert (StaticEnds (okeys (files ctx0)) (fileSetOf repo)
            (fileEdges (Enrichment.enrichRelationshipsWithLLM host (staticPasses repo ctx0))))
    as Hs.
  { apply enrich_StaticEnds, staticPasses_StaticEnds.
    - rewrite Hcache. apply ResolverFacts.CacheSound_empty.
    - rewrite Hedges. intros k' e' Hin. by apply elem_of_nil in Hin. }
  intros Hin Hstatic. destruct (Hs k e Hin Hstatic) as [Hsrc Htgt]. split.
  - destruct (extract_files repo completion (initialContext repo) (WellExtracted_nil repo))
      as [_ H].
    fold ctx0 in H. apply H in Hsrc as [Hsrc|?]; [by apply elem_of_nil in Hsrc | done].
  - unfold fileSetOf in Htgt. by apply elem_of_list_to_set in Htgt.
Qed.

Lemma parseTargets_listed repo rel : rel ∈ parseTargets repo → rel ∈ fileEntries repo.
Proof. unfold parseTargets. by intros [_ ?]%list_elem_of_filter. Qed.

(** C10. Every static file edge that a run emits has as its source a file
    that was read and parsed, and this file has a file node in the emitted
    graph, while its target is only known to be a listed file. A target may
    have no node: a file a.ts that imports ./data, beside a file data.json, gets
    the static edge from a.ts to data.json, found by appending the extension
    .json, and data.json, which is not parsed, has no node. *)
Theorem static_file_edge_endpoints :
  (∀ host clock repo completion r e,
     schedule repo completion →
     analyzeRepositoryGraph host clock repo completion = Returns r →
     e ∈ AnalyzeResponseBody.fileEdges r →
     GraphEdge.sourceType e = static →
     parsed repo (GraphEdge.source e)
     ∧ fileNode repo (GraphEdge.source e) ∈ AnalyzeResponseBody.fileNodes r
     ∧ GraphEdge.target e ∈ fileEntries repo)
  ∧ (∃ r,
       analyzeRepositoryGraph Examples.offlineHost Examples.clock0 JsonExample.repo ["a.ts"]
       = Returns r
       ∧ schedule JsonExample.repo ["a.ts"]
       ∧ AnalyzeResponseBody.fileEdges r
         = [GraphEdge.mk "a.ts->data.json" "a.ts" "data.json" file_imports static None None]
       ∧ "data.json" ∈ fileEntries JsonExample.repo
       ∧ map FileNode.id (AnalyzeResponseBody.fileNodes r) = ["dir:."; "a.ts"]).
Proof.
  split.
  - intros host clock repo completion r e Hsched. unfold analyzeRepositoryGraph.
    destruct (decide _); [done|]. intros [= <-]. unfold respond. simpl.
    intros (e0 & -> & ([k e1] & -> & Hin)%list_elem_of_fmap)%list_elem_of_fmap Hstatic.
    simpl in *.
    destruct (run_StaticEnds host repo completion k e1 Hin Hstatic) as [[Hc Hp] Ht].
    split_and!; [done | | done].
    apply elem_of_app. right. apply list_elem_of_fmap. exists (EdgeRecord.source e1).
    split; [done|]. apply list_elem_of_filter. split.
    + by apply run_okeys.
    + apply parseTargets_listed. unfold schedule in Hsched. by rewrite <- Hsched.
  - eexists. split; [by vm_compute|]. split_and!; try done.
    + unfold schedule. by vm_compute.
    + apply (bool_decide_unpack _). by vm_compute.
Qed.

Lemma static_file_edge_endpoints_witness :
  ∃ r,
    analyzeRepositoryGraph Examples.offlineHost Examples.clock0 JsonExample.repo ["a.ts"]
    = Returns r
    ∧ parsed JsonExample.repo "a.ts"
    ∧ fileNode JsonExample.repo "a.ts" ∈ AnalyzeResponseBody.fileNodes r
    ∧ "data.json" ∈ fileEntries JsonExample.repo.
Proof.
  destruct static_file_edge_endpoints as [H _].
  eexists. split; [by vm_compute|].
  apply (H Examples.offlineHost Examples.clock0 JsonExample.repo ["a.ts"] _
           (GraphEdge.mk "a.ts->data.json" "a.ts" "data.json" file_imports static None None)).
  - unfold schedule. by vm_compute.
  - by vm_compute.
  - left.
  - done.
Defined.

End StaticEdgeClaims.

(** ** Inclusion of records: the visitor *)

Module AnalyzerFacts.
Import JsString IncludeSpec Analyzer.

Lemma Justified_more_calls calls calls' f :
  Justified calls f → (∀ c, c ∈ calls → c ∈ calls') → Justified calls' f.
Proof. intros [?|[?|(c & Hc & ?)]] Hsub; [by left | by right; left |]. right. right. eauto. Qed.

(** Appending a record that is included only if it is exported. *)
Lemma Coherent_push fns calls info :
  Coherent fns calls →
  (FunctionInfo.include info = FunctionInfo.isExported info) →
  Coherent (fns ++ [info]) calls.
Proof.
  intros (HE & HJ & HC) Hinfo. split_and!.
  - intros f [Hf| ->%list_elem_of_singleton]%elem_of_app; [by apply HE | congruence].
  - intros f [Hf| ->%list_elem_of_singleton]%elem_of_app Hinc; [by apply HJ|].
    left. congruence.
  - intros c Hc. destruct (HC c Hc) as (f & Hf & ? & ?). exists f.
    split_and!; [apply elem_of_app; by left | done | done].
Qed.

(** Updating a record in place, when the update keeps the identifier, keeps
    the record included, and leaves it coherent. *)
Lemma Coherent_alter fns calls g i :
  Coherent fns calls →
  (∀ f, FunctionInfo.id (g f) = FunctionInfo.id f) →
  (∀ f, FunctionInfo.include f = true → FunctionInfo.include (g f) = true) →
  (∀ f, fns !! i = Some f →
        (FunctionInfo.isExported (g f) = true → FunctionInfo.include (g f) = true)
        ∧ (FunctionInfo.include (g f) = true → Justified calls (g f))) →
  Coherent (alter g i fns) calls.
Proof.
  intros (HE & HJ & HC) Hid Hmono Hg.
  assert (∀ f', f' ∈ alter g i fns →
            f' ∈ fns ∨ ∃ f, fns !! i = Some f ∧ f' = g f) as Hcases.
  { intros f' (j & Hj)%list_elem_of_lookup_1. rewrite list_lookup_alter in Hj.
    case_decide as Hij.
    - subst j. destruct (fns !! i) as [f|] eqn:Hf; simpl in Hj; [|done].
      injection Hj as <-. right. eauto.
    - left. by eapply list_elem_of_lookup_2. }
  split_and!.
  - intros f' [Hf|(f & Hf & ->)]%Hcases; [by apply HE | by apply Hg].
  - intros f' [Hf|(f & Hf & ->)]%Hcases; [by apply HJ | by apply Hg].
  - intros c Hc. destruct (HC c Hc) as (f & (j & Hj)%list_elem_of_lookup_1 & Hfid & Hfinc).
    destruct (decide (i = j)) as [->|Hne].
    + exists (g f). split_and!; [|by rewrite Hid | by apply Hmono].
      apply list_elem_of_lookup. exists j. by rewrite list_lookup_alter_eq, Hj.
    + exists f. split_and!; [|done|done].
      apply list_elem_of_lookup. exists j. by rewrite list_lookup_alter_ne.
Qed.

(** What [registerFunction] does to the state. *)
Lemma registerFunction_spec relPath st node name kind exportName isExported loc :
  ∃ info counter,
    registerFunction relPath st node name kind exportName isExported loc
    = (List.length (functions st),
       mkState (imports st) (functions st ++ [info]) (calls st) (importSpecifierLookup st)
         (<[node := List.length (functions st)]> (functionNodeLookup st))
         (moduleInvoker st) counter)
    ∧ FunctionInfo.include info = isExported
    ∧ FunctionInfo.isExported info = isExported
    ∧ FunctionInfo.kind info = kind
    ∧ FunctionInfo.exportName info = exportName.
Proof.
  unfold registerFunction.
  destruct (String.eqb (from_option _ name exportName) "");
    destruct (negb (String.eqb name "")); try destruct (truthy exportName);
    eexists _, _; (split; [reflexivity|]); done.
Qed.

Lemma StateCoherent_register relPath st node name kind exportName isExported loc :
  StateCoherent st →
  StateCoherent (registerFunction relPath st node name kind exportName isExported loc).2.
Proof.
  intros [[Hl Hm] Hc].
  destruct (registerFunction_spec relPath st node name kind exportName isExported loc)
    as (info & counter & -> & Hinc & Hexp & _). simpl.
  split; [split|]; simpl.
  - intros n i. rewrite length_app, lookup_insert. simpl. case_decide.
    + intros [= <-]. lia.
    + intros Hi%Hl. lia.
  - intros i (f & Hf & ?)%Hm. exists f. split; [|done].
    rewrite lookup_app_l; [done | by eapply lookup_lt_Some].
  - apply Coherent_push; [done | congruence].
Qed.

(** The reference returned by [registerFunction] is valid afterwards. *)
Lemma registerFunction_index relPath st node name kind exportName isExported loc :
  (registerFunction relPath st node name kind exportName isExported loc).1
  < List.length (functions
       (registerFunction relPath st node name kind exportName isExported loc).2).
Proof.
  destruct (registerFunction_spec relPath st node name kind exportName isExported loc)
    as (info & counter & -> & _). simpl. rewrite length_app. simpl. lia.
Qed.

(** An in-place update of a record keeps the state coherent under the
    conditions of [Coherent_alter]. *)
Lemma StateCoherent_alter st g i :
  StateCoherent st →
  (∀ f, FunctionInfo.id (g f) = FunctionInfo.id f) →
  (∀ f, FunctionInfo.include f = true → FunctionInfo.include (g f) = true) →
  (∀ f, functions st !! i = Some f →
        (FunctionInfo.isExported (g f) = true → FunctionInfo.include (g f) = true)
        ∧ (FunctionInfo.include (g f) = true → Justified (calls st) (g f))) →
  StateCoherent (withFunctions st (alter g i (functions st))).
Proof.
  intros [[Hl Hm] Hc] Hid Hmono Hg. split; [split|]; simpl.
  - intros n j Hj%Hl. by rewrite length_alter.
  - intros j (f & Hf & Hinc)%Hm. rewrite list_lookup_alter. case_decide.
    + subst j. rewrite Hf. simpl. eauto.
    + eauto.
  - by apply Coherent_alter.
Qed.

Lemma StateCoherent_markExport st info exportName :
  StateCoherent st → StateCoherent (markExport st info exportName).
Proof.
  intros Hst. destruct info as [i|]; simpl; [|done].
  apply StateCoherent_alter; [done | done | done |].
  intros f _. split; [done|]. intros _. by left.
Qed.

Lemma markExport_lookups st info exportName :
  functionNodeLookup (markExport st info exportName) = functionNodeLookup st
  ∧ List.length (functions (markExport st info exportName)) = List.length (functions st).
Proof. destruct info as [i|]; simpl; [|done]. by rewrite length_alter. Qed.

Lemma StateCoherent_lookupOrRegister relPath st node name kind exportName loc :
  StateCoherent st →
  StateCoherent (lookupOrRegister relPath st node name kind exportName loc).2.
Proof.
  intros Hst. unfold lookupOrRegister.
  destruct (functionNodeLookup st !! node); [done|]. by apply StateCoherent_register.
Qed.

(** *** Calls *)

(** A call whose caller is the record at [i], newly marked. *)
Lemma Coherent_alter_caller fns calls i f call :
  Coherent fns calls →
  fns !! i = Some f →
  CallBinding.callerId call = FunctionInfo.id f →
  Coherent (alter setInclude i fns) (calls ++ [call]).
Proof.
  intros (HE & HJ & HC) Hf Hcall.
  assert (∀ f', f' ∈ alter setInclude i fns → f' ∈ fns ∨ f' = setInclude f) as Hcases.
  { intros f' (j & Hj)%list_elem_of_lookup_1. rewrite list_lookup_alter in Hj.
    case_decide as Hij.
    - subst j. rewrite Hf in Hj. injection Hj as <-. by right.
    - left. by eapply list_elem_of_lookup_2. }
  assert (setInclude f ∈ alter setInclude i fns) as Hin.
  { apply list_elem_of_lookup. exists i. by rewrite list_lookup_alter_eq, Hf. }
  split_and!.
  - intros f' [Hf'| ->]%Hcases; [by apply HE | done].
  - intros f' [Hf'| ->]%Hcases Hinc.
    + eapply Justified_more_calls; [by apply HJ|]. intros c ?. apply elem_of_app. by left.
    + right. right. exists call. split; [|done]. apply elem_of_app. right. left.
  - intros c [Hc| ->%list_elem_of_singleton]%elem_of_app.
    + destruct (HC c Hc) as (g & (j & Hj)%list_elem_of_lookup_1 & Hgid & Hginc).
      destruct (decide (i = j)) as [->|Hne].
      * exists (setInclude f). rewrite Hf in Hj. injection Hj as <-. by split_and!.
      * exists g. split_and!; [|done|done].
        apply list_elem_of_lookup. exists j. by rewrite list_lookup_alter_ne.
    + exists (setInclude f). by split_and!.
Qed.

(** A call whose caller is an included record. *)
Lemma Coherent_call fns calls f call :
  Coherent fns calls →
  f ∈ fns → FunctionInfo.include f = true →
  CallBinding.callerId call = FunctionInfo.id f →
  Coherent fns (calls ++ [call]).
Proof.
  intros (HE & HJ & HC) Hf Hinc Hcall. split_and!; [done| |].
  - intros g Hg Hginc. eapply Justified_more_calls; [by apply HJ|].
    intros c ?. apply elem_of_app. by left.
  - intros c [Hc| ->%list_elem_of_singleton]%elem_of_app; [by apply HC | eauto].
Qed.

(** A call whose caller is a record pushed for it. *)
Lemma Coherent_push_caller fns calls info call :
  Coherent fns calls →
  FunctionInfo.include info = true →
  CallBinding.callerId call = FunctionInfo.id info →
  Coherent (fns ++ [info]) (calls ++ [call]).
Proof.
  intros (HE & HJ & HC) Hinc Hcall. split_and!.
  - intros f [Hf| ->%list_elem_of_singleton]%elem_of_app; [by apply HE | done].
  - intros f [Hf| ->%list_elem_of_singleton]%elem_of_app Hfinc.
    + eapply Justified_more_calls; [by apply HJ|]. intros c ?. apply elem_of_app. by left.
    + right. right. exists call. split; [|done]. apply elem_of_app. right. left.
  - intros c [Hc| ->%list_elem_of_singleton]%elem_of_app.
    + destruct (HC c Hc) as (f & Hf & ? & ?). exists f.
      split_and!; [apply elem_of_app; by left | done | done].
    + exists info. split_and!; [|done|done]. apply elem_of_app. right. left.
Qed.

(** The state after [callerOf] and the push of the call. *)
Lemma StateCoherent_call relPath st funcParent local imported source :
  StateCoherent st →
  let r := callerOf relPath st funcParent in
  StateCoherent
    (mkState (imports r.2) (functions r.2)
       (calls r.2 ++ [CallBinding.mk local imported source (idAt (functions r.2) r.1) None])
       (importSpecifierLookup r.2) (functionNodeLookup r.2) (moduleInvoker r.2)
       (functionCounter r.2)).
Proof.
  intros Hst. unfold callerOf. destruct funcParent as [fp|].
  - assert (∀ st0 i, StateCoherent st0 → i < List.length (functions st0) →
              StateCoherent
                (mkState (imports st0) (alter setInclude i (functions st0))
                   (calls st0 ++ [CallBinding.mk local imported source
                                    (idAt (alter setInclude i (functions st0)) i) None])
                   (importSpecifierLookup st0) (functionNodeLookup st0) (moduleInvoker st0)
                   (functionCounter st0))) as Hmark.
    { intros st0 i [[Hl Hm] Hc] Hi.
      destruct (lookup_lt_is_Some_2 (functions st0) i Hi) as [f Hf].
      split; [split|]; simpl.
      - intros n j Hj%Hl. by rewrite length_alter.
      - intros j (g & Hg & Hinc)%Hm. rewrite list_lookup_alter. case_decide.
        + subst j. rewrite Hg. simpl. eauto.
        + eauto.
      - eapply Coherent_alter_caller; [done | done |]. simpl.
        unfold idAt. by rewrite list_lookup_alter_eq, Hf. }
    assert (∀ st0 name, StateCoherent st0 →
              let r := registerFunction relPath st0 (node fp) name
                         (inferFunctionKind (nodeType fp)) None false (nodeLoc fp) in
              StateCoherent
                (mkState (imports r.2) (alter setInclude r.1 (functions r.2))
                   (calls r.2 ++ [CallBinding.mk local imported source
                                    (idAt (alter setInclude r.1 (functions r.2)) r.1) None])
                   (importSpecifierLookup r.2) (functionNodeLookup r.2) (moduleInvoker r.2)
                   (functionCounter r.2))) as Hreg.
    { intros st0 name Hst0 r. apply Hmark.
      - by apply StateCoherent_register.
      - apply registerFunction_index. }
    destruct (functionNodeLookup st !! node fp) as [i|] eqn:Hi.
    + apply (Hmark st i Hst). destruct Hst as [[Hl _] _]. by eapply Hl.
    + destruct (inferFunctionName fp) as [n|].
      * pose proof (Hreg st n Hst) as H. cbv beta iota zeta in H |- *.
        by destruct (registerFunction _ _ _ _ _ _ _ _) as [i st1].
      * pose proof (Hreg (withCounter st (S (functionCounter st)))
                      ("anonymous_" +:+ ofNat (functionCounter st))) as H.
        specialize (H Hst). cbv beta iota zeta in H |- *.
        by destruct (registerFunction _ _ _ _ _ _ _ _) as [i st1].
  - unfold ensureModuleInvoker. destruct Hst as [[Hl Hm] Hc].
    destruct (moduleInvoker st) as [i|] eqn:Hmi; simpl.
    + destruct (Hm i eq_refl) as (f & Hf & Hinc).
      split; [split|]; simpl; [done | by rewrite Hmi |].
      eapply Coherent_call; [done | by eapply list_elem_of_lookup_2 | done |].
      simpl. unfold idAt. by rewrite Hf.
    + split; [split|]; simpl.
      * intros n j Hj%Hl. rewrite length_app. lia.
      * intros j [= <-]. eexists. split; [by apply list_lookup_middle | done].
      * apply Coherent_push_caller; [done | done |]. simpl.
        unfold idAt. by rewrite list_lookup_middle.
Qed.


(** *** The handlers *)

Ltac step_register Hst H :=
  match goal with
  | |- context [registerFunction ?a ?b ?c ?d ?e ?f ?g ?h] =>
      let i := fresh "info" in
      let st1 := fresh "st" in
      pose proof (StateCoherent_register a b c d e f g h Hst) as H;
      destruct (registerFunction a b c d e f g h) as [i st1]; simpl in H
  | |- context [lookupOrRegister ?a ?b ?c ?d ?e ?f ?g] =>
      let i := fresh "info" in
      let st1 := fresh "st" in
      pose proof (StateCoherent_lookupOrRegister a b c d e f g Hst) as H;
      destruct (lookupOrRegister a b c d e f g) as [i st1]; simpl in H
  end.

Lemma StateCoherent_visitCallExpression relPath st callee funcParent :
  StateCoherent st → StateCoherent (visitCallExpression relPath st callee funcParent).
Proof.
  intros Hst. unfold visitCallExpression.
  destruct callee as [name [[[] importParent]|]|]; try done.
  destruct (importSpecifierLookup st !! name) as [specifier|]; [|done].
  pose proof (StateCoherent_call relPath st funcParent
                (ImportSpecifierBinding.local specifier)
                (ImportSpecifierBinding.imported specifier)
                (from_option (fun s => s) "" importParent) Hst) as H.
  cbv beta iota zeta in H.
  destruct (ImportSpecifierBinding.type specifier); try done;
    by destruct (callerOf relPath st funcParent) as [caller st1].
Qed.

Lemma StateCoherent_visitClassMethod relPath st node key loc parentClass :
  StateCoherent st → StateCoherent (visitClassMethod relPath st node key loc parentClass).
Proof.
  intros Hst. unfold visitClassMethod. destruct key as [keyName|]; [|done].
  pose proof (StateCoherent_register relPath st node keyName method None false loc Hst) as H.
  destruct (registerFunction_spec relPath st node keyName method None false loc)
    as (info & counter & E & Hinc & Hexp & Hkind & _).
  rewrite E in H |- *. simpl in H.
  destruct parentClass as [[[className|] []]|]; try done.
  apply (StateCoherent_alter _ _ _ H); [done | done |]. simpl.
  intros f Hf. rewrite list_lookup_middle in Hf; [|done]. injection Hf as <-.
  split; [simpl; congruence|]. intros _. right. left. simpl. split; [done | by eexists].
Qed.

Lemma StateCoherent_exportDeclarator relPath st decl :
  StateCoherent st → StateCoherent (exportDeclarator relPath st decl).
Proof.
  intros Hst. unfold exportDeclarator. destruct decl as [[idName|] []]; try done;
    step_register Hst H; by apply StateCoherent_markExport.
Qed.

Lemma StateCoherent_visit relPath st v :
  StateCoherent st → StateCoherent (visit relPath st v).
Proof.
  intros Hst. destruct v as [specifiers source|callee fp|p e|p e|p e|node key loc c|d|d]; simpl.
  - destruct Hst as [[Hl Hm] Hc]. by split; [split|].
  - by apply StateCoherent_visitCallExpression.
  - unfold visitFunctionDeclaration. destruct (nodeId p) as [idName|]; [|done].
    step_register Hst H. destruct e; [by apply StateCoherent_markExport | done].
  - unfold visitArrowFunctionExpression. step_register Hst H.
    destruct e as [[]|], (inferArrowFunctionName p) as [n|]; try done;
      try destruct (String.eqb n ""); try done;
      repeat apply StateCoherent_markExport; done.
  - unfold visitFunctionExpression. step_register Hst H.
    destruct e; [by apply StateCoherent_markExport | done].
  - by apply StateCoherent_visitClassMethod.
  - unfold visitExportNamedDeclaration. destruct d as [[node [idName|] loc|ds|node [idName|] loc|]|];
      try done.
    + step_register Hst H. by apply StateCoherent_markExport.
    + revert st Hst. induction ds as [|d ds IH]; intros st Hst; [done|].
      simpl. apply IH. by apply StateCoherent_exportDeclarator.
    + step_register Hst H. by apply StateCoherent_markExport.
  - unfold visitExportDefaultDeclaration. destruct d; try done;
      try (step_register Hst H); by apply StateCoherent_markExport.
Qed.

Lemma StateCoherent_initial : StateCoherent initial.
Proof.
  split; [split|]; simpl.
  - intros n i. by rewrite lookup_empty.
  - done.
  - split_and!; intros ? []%elem_of_nil.
Qed.

Lemma StateCoherent_traverse relPath visits : StateCoherent (traverse relPath visits).
Proof.
  unfold traverse. generalize StateCoherent_initial. generalize initial.
  induction visits as [|v visits IH]; intros st Hst; [done|].
  simpl. apply IH. by apply StateCoherent_visit.
Qed.

(** The records and calls of an analysed file agree. *)
Lemma analyzeFile_Coherent relPath code visits :
  Coherent (FileAnalysis.functions (analyzeFile relPath code visits))
           (FileAnalysis.calls (analyzeFile relPath code visits)).
Proof. apply StateCoherent_traverse. Qed.

End AnalyzerFacts.
(** ** Inclusion of records: the passes *)

Module IncludeFacts.
Import Context FilesSpec IncludeSpec ExtractSpec Pipeline.

Lemma Justified_setInclude calls f :
  Justified calls f → Justified calls (Analyzer.setInclude f).
Proof. by intros [?|[?|?]]; [left | right; left | right; right]. Qed.

Lemma elem_of_alter {A} (g : A → A) (i : nat) (l : list A) x :
  x ∈ alter g i l → x ∈ l ∨ ∃ y, l !! i = Some y ∧ x = g y.
Proof.
  intros (j & Hj)%list_elem_of_lookup_1. rewrite list_lookup_alter in Hj.
  case_decide as Hij.
  - subst j. destruct (l !! i) as [y|] eqn:Hy; simpl in Hj; [|done].
    injection Hj as <-. right. eauto.
  - left. by eapply list_elem_of_lookup_2.
Qed.

(** Marking a record that has grounds. *)
Lemma includeFn_Coherent fs r :
  FilesCoherent fs →
  (∀ e f, fs !! r.1 = Some e → FileAnalysis.functions e.2 !! r.2 = Some f →
          Justified (FileAnalysis.calls e.2) f) →
  FilesCoherent (includeFn fs r).
Proof.
  intros Hfs Hr e' [He'|(e & He & ->)]%elem_of_alter; [by apply Hfs|].
  simpl. apply AnalyzerFacts.Coherent_alter; [|done|done|].
  - apply Hfs. by eapply list_elem_of_lookup_2.
  - intros f Hf. split; [done|]. intros _. apply Justified_setInclude. by eapply Hr.
Qed.

(** Filling in the resolved target of a call. *)
Lemma setCallResolved_Coherent fs resolved filePos k :
  FilesCoherent fs →
  FilesCoherent (alter (alterCalls (alter (setCallResolved resolved) k)) filePos fs).
Proof.
  intros Hfs e' [He'|(e & He & ->)]%elem_of_alter; [by apply Hfs|].
  simpl. destruct (Hfs e) as (HE & HJ & HC); [by eapply list_elem_of_lookup_2|].
  split; [done|]. split.
  - intros f Hf Hinc. destruct (HJ f Hf Hinc) as [?|[?|(c & (j & Hj)%list_elem_of_lookup_1 & Hc)]];
      [by left | by right; left |]. right. right.
    destruct (decide (k = j)) as [->|Hne].
    + exists (setCallResolved resolved c). split; [|done].
      apply list_elem_of_lookup. exists j. by rewrite list_lookup_alter_eq, Hj.
    + exists c. split; [|done].
      apply list_elem_of_lookup. exists j. by rewrite list_lookup_alter_ne.
  - intros c' [Hc'|(c & Hc & ->)]%elem_of_alter; [by apply HC|].
    apply (HC c). by eapply list_elem_of_lookup_2.
Qed.

Lemma nodeIds_grown fs fs' x : FilesGrown fs fs' → x ∈ nodeIds fs → x ∈ nodeIds fs'.
Proof.
  intros Hg (e & f & (i & Hi)%list_elem_of_lookup_1 & (j & Hj)%list_elem_of_lookup_1
             & Hinc & <-)%FilesFacts.nodeIds_spec.
  destruct (FilesFacts.FilesGrown_included fs fs' (i, j) f Hg) as (f' & Hf' & <- & Hinc');
    [unfold fnAt; simpl; by rewrite Hi | done |].
  by eapply FilesFacts.included_is_node.
Qed.

Lemma ExportsValid_grown fs fs' m : FilesGrown fs fs' → ExportsValid fs m → ExportsValid fs' m.
Proof.
  intros Hg Hm key r Hr. destruct (Hm key r Hr) as (f & Hf & Hexp).
  pose proof (FilesFacts.FilesGrown_fnAt fs fs' r Hg) as H. rewrite Hf in H.
  inversion H as [? f' Hff|]; subst. exists f'. split; [done|].
  by apply FilesFacts.FnGrown_fields in Hff as (_ & _ & _ & _ & _ & _ & -> & _).
Qed.

Lemma EndpointsIncluded_grown fs fs' edges :
  FilesGrown fs fs' → EndpointsIncluded fs edges → EndpointsIncluded fs' edges.
Proof.
  intros Hg He k edge Hin. destruct (He k edge Hin). split; by eapply nodeIds_grown.
Qed.

Lemma findCaller_Some fns callerId j :
  Assembler.findCaller fns callerId = Some j →
  ∃ f, fns !! j = Some f ∧ FunctionInfo.id f = callerId.
Proof.
  unfold Assembler.findCaller. destruct (list_find _ fns) as [[i f]|] eqn:E; [|done].
  intros [= <-]. apply list_find_Some in E as (? & ? & _). eauto.
Qed.

(** One call of [collectFunctionEdges], for a call that is recorded in the
    current table under the same caller. *)
Lemma edgeForCall_Coherent filePos specifierMap ctx k call :
  ContextCoherent ctx →
  (∀ e, files ctx !! filePos = Some e →
        ∃ c, FileAnalysis.calls e.2 !! k = Some c
             ∧ CallBinding.callerId c = CallBinding.callerId call) →
  ContextCoherent (Assembler.edgeForCall filePos specifierMap ctx (k, call)).
Proof.
  intros (Hfs & Hex & Hed) Hcall. unfold Assembler.edgeForCall.
  destruct (specifierMap !! _) as [spec|]; [|done].
  destruct (negb _); [done|].
  match goal with |- context [match ?t with Some _ => _ | None => _ end] =>
    destruct t as [targetFn|] eqn:Htarget end; [|done].
  assert (∃ ft, fnAt (files ctx) targetFn = Some ft ∧ FunctionInfo.isExported ft = true)
    as (ft & Hft & Hftexp).
  { destruct (exportedFunctions ctx !! _) as [r|] eqn:E.
    - injection Htarget as <-. by eapply Hex.
    - by eapply Hex. }
  destruct (files ctx !! filePos) as [e|] eqn:He; simpl; [|done].
  destruct (Assembler.findCaller _ _) as [j|] eqn:Hj; [|done].
  apply findCaller_Some in Hj as (fc & Hfc & Hfcid).
  destruct (Hcall e eq_refl) as (c & Hc & Hcid).
  set (caller := (filePos, j)).
  set (fs1 := includeFn (files ctx) caller).
  set (fs2 := includeFn fs1 targetFn).
  set (fs3 := alter _ filePos fs2).
  assert (FilesGrown (files ctx) fs1) as G1 by apply FilesFacts.includeFn_grown.
  assert (FilesGrown fs1 fs2) as G2 by apply FilesFacts.includeFn_grown.
  assert (FilesGrown fs2 fs3) as G3 by apply FilesFacts.setCallResolved_grown.
  assert (FilesGrown (files ctx) fs3) as G.
  { eapply FilesFacts.FilesGrown_trans; [|exact G3].
    eapply FilesFacts.FilesGrown_trans; [exact G1 | exact G2]. }
  assert (fnAt (files ctx) caller = Some fc) as Hcaller.
  { unfold fnAt, caller. simpl. by rewrite He. }
  assert (FilesCoherent fs1) as C1.
  { apply includeFn_Coherent; [done|]. simpl. intros e' f' He' Hf'.
    rewrite He in He'. injection He' as <-. rewrite Hfc in Hf'. injection Hf' as <-.
    right. right. exists c. split; [by eapply list_elem_of_lookup_2 | congruence]. }
  assert (FilesCoherent fs2) as C2.
  { apply includeFn_Coherent; [done|]. intros e' f' He' Hf'.
    pose proof (FilesFacts.FilesGrown_fnAt _ _ targetFn G1) as H. rewrite Hft in H.
    unfold fnAt in H. rewrite He' in H. simpl in H. rewrite Hf' in H.
    inversion H as [? ? Hff|]; subst.
    left. by apply FilesFacts.FnGrown_fields in Hff as (_ & _ & _ & _ & _ & _ & -> & _). }
  assert (idOf fs3 caller ∈ nodeIds fs3) as Ncaller.
  { destruct (FilesFacts.FilesGrown_included fs1 fs3 caller (Analyzer.setInclude fc))
      as (f' & Hf' & Hid & Hinc); [| by apply FilesFacts.includeFn_fnAt | done |].
    - eapply FilesFacts.FilesGrown_trans; [exact G2 | exact G3].
    - unfold idOf. rewrite Hf'. simpl. by eapply FilesFacts.included_is_node. }
  assert (idOf fs3 targetFn ∈ nodeIds fs3) as Ntarget.
  { pose proof (FilesFacts.FilesGrown_fnAt _ _ targetFn G1) as H. rewrite Hft in H.
    inversion H as [? f1 Hff Heq1 Heq2|]; subst. symmetry in Heq2.
    destruct (FilesFacts.FilesGrown_included fs2 fs3 targetFn (Analyzer.setInclude f1))
      as (f' & Hf' & Hid & Hinc); [done | by apply FilesFacts.includeFn_fnAt | done |].
    unfold idOf. rewrite Hf'. simpl. by eapply FilesFacts.included_is_node. }
  split; [|split]; simpl.
  - by apply setCallResolved_Coherent.
  - by eapply ExportsValid_grown.
  - intros key edge [[-> ->]|Hin]%EdgeFacts.elem_of_oset; [done|].
    eapply EndpointsIncluded_grown; [exact G | exact Hed | exact Hin].
Qed.

Lemma collectFunctionEdges_Coherent ctx :
  ContextCoherent ctx → ContextCoherent (Assembler.collectFunctionEdges ctx).
Proof.
  intros Hctx. unfold Assembler.collectFunctionEdges.
  apply (ProposalFacts.fold_left_invariant
           (fun c => FilesGrown (files ctx) (files c) ∧ ContextCoherent c));
    [split; [apply FilesFacts.FilesGrown_refl | done]|].
  intros c [filePos [key a]] Hin%ProposalFacts.elem_of_indexed Hc.
  unfold Assembler.edgesForFile. simpl.
  apply (ProposalFacts.fold_left_invariant
           (fun c => FilesGrown (files ctx) (files c) ∧ ContextCoherent c)); [done|].
  intros c' [k call] Hk%ProposalFacts.elem_of_indexed [Hg Hc']. split.
  - eapply FilesFacts.FilesGrown_trans; [exact Hg | apply RunFacts.edgeForCall_grown].
  - apply edgeForCall_Coherent; [done|]. intros e He.
    pose proof (proj1 (Forall2_lookup _ _ _) Hg filePos) as H. rewrite Hin, He in H.
    inversion H as [? ? [_ (_ & _ & _ & Hcalls)]|]; subst. simpl in Hcalls.
    pose proof (proj1 (Forall2_lookup _ _ _) Hcalls k) as H'. rewrite Hk in H'.
    inversion H' as [? c0 (_ & _ & _ & Hid)|]; subst. eauto.
Qed.

(** The export index built by [collectFunctionExports] refers to exported
    records. *)
Lemma collectFunctionExports_Coherent ctx :
  ContextCoherent ctx → ContextCoherent (Assembler.collectFunctionExports ctx).
Proof.
  intros (Hfs & Hex & Hed). split; [done|]. split; [|done]. simpl.
  apply (ProposalFacts.fold_left_invariant (ExportsValid (files ctx))); [done|].
  intros m [filePos [key a]] Hin%ProposalFacts.elem_of_indexed Hm.
  unfold Assembler.exportFile. simpl.
  apply (ProposalFacts.fold_left_invariant (ExportsValid (files ctx))); [done|].
  intros m' [j f] Hj%ProposalFacts.elem_of_indexed Hm'. unfold Assembler.exportFunction. simpl.
  destruct (FunctionInfo.isExported f) eqn:Hexp; simpl; [|done].
  destruct (truthy _); [|done].
  intros key' r. rewrite lookup_insert. case_decide; [|by apply Hm'].
  intros [= <-]. exists f. split; [|done]. unfold fnAt. simpl. by rewrite Hin.
Qed.

(** *** The context of the deterministic passes *)

Lemma extract_Coherent repo completion :
  ContextCoherent (extract repo completion (initialContext repo)).
Proof.
  destruct (RunFacts.extract_files repo completion (initialContext repo)
              (RunFacts.WellExtracted_nil repo)) as [[_ Hall] _].
  destruct (RunFacts.extract_rest repo completion (initialContext repo)) as (_ & Hex & _).
  destruct (EdgeRun.extract_edges repo completion (initialContext repo)) as [_ Hed].
  split; [|split].
  - intros [k a] Hin. destruct (Hall k a Hin) as (code & visits & _ & ->).
    apply AnalyzerFacts.analyzeFile_Coherent.
  - rewrite Hex. intros key r. simpl. by rewrite lookup_empty.
  - rewrite Hed. intros k edge Hin. by apply elem_of_nil in Hin.
Qed.

Lemma resolveImports_Coherent fileSet paths ctx :
  functionEdges ctx = [] → exportedFunctions ctx = ∅ →
  FilesCoherent (files ctx) →
  ContextCoherent (Assembler.resolveImports fileSet paths ctx).
Proof.
  intros Hed Hex Hfs. unfold Assembler.resolveImports.
  pose proof (ResolveFacts.resolveFiles_files fileSet paths
                (Assembler.mkResolveState (candidateCache ctx) (fileEdges ctx) (unresolved ctx))
                (files ctx)) as H.
  destruct (Assembler.resolveFiles _ _ _ _) as [st entries]. simpl in H.
  split; [|split]; simpl.
  - intros e' (i & Hi)%list_elem_of_lookup_1.
    pose proof (proj1 (Forall2_lookup _ _ _) H i) as Hl. rewrite Hi in Hl.
    inversion Hl as [e y Hrel He Hy|]; subst. destruct Hrel as (_ & _ & Hf & Hc).
    rewrite Hf, Hc. apply Hfs. eapply list_elem_of_lookup_2. by symmetry.
  - rewrite Hex. intros key r. by rewrite lookup_empty.
  - rewrite Hed. intros k edge Hin. by apply elem_of_nil in Hin.
Qed.

Lemma staticContext_Coherent repo completion :
  ContextCoherent (staticContext repo completion).
Proof.
  unfold staticContext, staticPasses.
  destruct (extract_Coherent repo completion) as (Hfs & _ & _).
  destruct (RunFacts.extract_rest repo completion (initialContext repo)) as (_ & Hex & _).
  destruct (EdgeRun.extract_edges repo completion (initialContext repo)) as [_ Hed].
  apply collectFunctionEdges_Coherent,
    collectFunctionExports_Coherent, resolveImports_Coherent.
  - by case_decide.
  - by case_decide.
  - by case_decide.
Qed.

End IncludeFacts.
(** ** Runs without enrichment *)

Module DeterminismFacts.
Import Context FilesSpec IncludeSpec ExtractSpec ResolveSpec Pipeline.

(** Without a credential, enrichment leaves files and edges alone. *)
Lemma enrich_offline host ctx :
  truthy (OPENAI_API_KEY host) = false →
  files (Enrichment.enrichRelationshipsWithLLM host ctx) = files ctx
  ∧ fileEdges (Enrichment.enrichRelationshipsWithLLM host ctx) = fileEdges ctx
  ∧ functionEdges (Enrichment.enrichRelationshipsWithLLM host ctx) = functionEdges ctx.
Proof.
  intros Hkey. unfold Enrichment.enrichRelationshipsWithLLM, Llm.inferRelationshipsWithLLM.
  by rewrite Hkey.
Qed.

Lemma assemble_offline host repo ctx :
  truthy (OPENAI_API_KEY host) = false →
  files (assemble host repo ctx) = files (staticPasses repo ctx)
  ∧ fileEdges (assemble host repo ctx) = fileEdges (staticPasses repo ctx)
  ∧ functionEdges (assemble host repo ctx) = functionEdges (staticPasses repo ctx).
Proof.
  intros Hkey. unfold assemble.
  destruct (EdgeRun.collectUnresolvedWarnings_edges
              (Enrichment.enrichRelationshipsWithLLM host (staticPasses repo ctx))) as [-> ->].
  rewrite RunFacts.collectUnresolvedWarnings_files.
  by destruct (enrich_offline host (staticPasses repo ctx) Hkey) as (-> & -> & ->).
Qed.

(** *** The file table after the parallel phase *)

Lemma elem_of_okeys {V} (m : list (string * V)) k : k ∈ okeys m ↔ ∃ v, (k, v) ∈ m.
Proof.
  unfold okeys. rewrite list_elem_of_fmap. split.
  - intros ([k' v] & -> & Hin). eauto.
  - intros [v Hin]. by exists (k, v).
Qed.

(** The entries of the file table are the analyses of the parsed files of
    the schedule. *)
Lemma extract_entries repo completion k a :
  (k, a) ∈ files (extract repo completion (initialContext repo)) ↔
  k ∈ completion
  ∧ ∃ code visits, outcomeOf repo k = Parsed code visits
                   ∧ a = Analyzer.analyzeFile k code visits.
Proof.
  destruct (RunFacts.extract_files repo completion (initialContext repo)
              (RunFacts.WellExtracted_nil repo)) as [[_ Hall] Hkeys].
  split.
  - intros Hin. split; [|by apply Hall].
    assert (k ∈ okeys (files (extract repo completion (initialContext repo)))) as Hk
      by (apply elem_of_okeys; eauto).
    apply Hkeys in Hk as [Hk|[? _]]; [by apply elem_of_nil in Hk | done].
  - intros [Hk (code & visits & Hout & ->)].
    assert (k ∈ okeys (files (extract repo completion (initialContext repo)))) as Hin.
    { apply Hkeys. right. split; [done|]. by exists code, visits. }
    apply elem_of_okeys in Hin as [a Hin].
    destruct (Hall k a Hin) as (code' & visits' & Hout' & ->).
    rewrite Hout in Hout'. by injection Hout' as <- <-.
Qed.

(** Two schedules of the same files give the same entries. *)
Lemma extract_entries_schedule repo c1 c2 e :
  c1 ≡ₚ c2 →
  e ∈ files (extract repo c1 (initialContext repo)) →
  e ∈ files (extract repo c2 (initialContext repo)).
Proof.
  intros Hp. destruct e as [k a]. rewrite !extract_entries. intros [Hk ?]. split; [|done].
  by rewrite <- Hp.
Qed.

(** *** File nodes *)

Lemma fileNodes_schedule host clock1 clock2 repo c1 c2 :
  c1 ≡ₚ c2 →
  AnalyzeResponseBody.fileNodes
    (respond repo clock1 (assemble host repo (extract repo c1 (initialContext repo))))
  = AnalyzeResponseBody.fileNodes
      (respond repo clock2 (assemble host repo (extract repo c2 (initialContext repo)))).
Proof.
  intros Hp. simpl. f_equal. f_equal. apply list_filter_iff. intros rel.
  rewrite !RunFacts.run_okeys. by rewrite Hp.
Qed.

(** *** File edges *)

Lemma staticPasses_fileEdge_keys repo completion k :
  k ∈ okeys (fileEdges (staticContext repo completion)) ↔
  ImportKey (fileSetOf repo) (tsconfigPaths repo)
    (files (extract repo completion (initialContext repo))) k.
Proof.
  unfold staticContext, staticPasses.
  rewrite EdgeFacts.collectFunctionEdges_fileEdges.
  unfold Assembler.collectFunctionExports. simpl.
  set (ctx0 := extract repo completion (initialContext repo)).
  set (ctx1 := if decide (files ctx0 = []) then _ else ctx0).
  assert (files ctx1 = files ctx0 ∧ fileEdges ctx1 = fileEdges ctx0
          ∧ candidateCache ctx1 = candidateCache ctx0) as (Hf & He & Hcc)
    by (unfold ctx1; by destruct (decide _)).
  destruct (RunFacts.extract_rest repo completion (initialContext repo)) as (_ & _ & Hcache).
  destruct (EdgeRun.extract_edges repo completion (initialContext repo)) as [Hedges _].
  fold ctx0 in Hcache, Hedges. simpl in Hcache, Hedges.
  rewrite ResolveFacts.resolveImports_keys;
    [|rewrite Hcc, Hcache; apply ResolverFacts.CacheSound_empty].
  rewrite Hf, He, Hedges. simpl. split; [|auto].
  intros [Hk|?]; [by apply elem_of_nil in Hk | done].
Qed.

Lemma ImportKey_subset fileSet paths fs fs' k :
  (∀ e, e ∈ fs → e ∈ fs') → ImportKey fileSet paths fs k → ImportKey fileSet paths fs' k.
Proof.
  intros Hsub (relPath & analysis & binding & r & Hin & ? & ? & ->).
  exists relPath, analysis, binding, r. split_and!; try done. by apply Hsub.
Qed.

Lemma fileEdge_ids_schedule host clock1 clock2 repo c1 c2 :
  truthy (OPENAI_API_KEY host) = false →
  c1 ≡ₚ c2 →
  map GraphEdge.id
    (AnalyzeResponseBody.fileEdges
       (respond repo clock1 (assemble host repo (extract repo c1 (initialContext repo)))))
  ≡ₚ map GraphEdge.id
       (AnalyzeResponseBody.fileEdges
          (respond repo clock2 (assemble host repo (extract repo c2 (initialContext repo))))).
Proof.
  intros Hkey Hp. simpl.
  destruct (EdgeRun.run_tables host repo c1) as [[Hn1 Hk1] _].
  destruct (EdgeRun.run_tables host repo c2) as [[Hn2 Hk2] _].
  simpl in Hn1, Hk1, Hn2, Hk2.
  rewrite !EdgeRun.edge_ids by done.
  apply NoDup_Permutation; [done | done |]. intros k.
  destruct (assemble_offline host repo (extract repo c1 (initialContext repo)) Hkey)
    as (_ & -> & _).
  destruct (assemble_offline host repo (extract repo c2 (initialContext repo)) Hkey)
    as (_ & -> & _).
  pose proof (staticPasses_fileEdge_keys repo c1 k) as H1.
  pose proof (staticPasses_fileEdge_keys repo c2 k) as H2.
  unfold staticContext in H1, H2. rewrite H1, H2.
  split; apply ImportKey_subset; intros e; by apply extract_entries_schedule.
Qed.

(** *** Function nodes *)

(** Marking a record whose identifier is already that of a node adds no
    node. *)
Lemma includeFn_nodeIds fs r x :
  (∀ f, fnAt fs r = Some f → FunctionInfo.id f ∈ nodeIds fs) →
  x ∈ nodeIds (includeFn fs r) → x ∈ nodeIds fs.
Proof.
  intros Hr (e' & f' & He' & Hf' & Hinc & <-)%FilesFacts.nodeIds_spec.
  apply IncludeFacts.elem_of_alter in He' as [He'|(e & He & ->)].
  { apply FilesFacts.nodeIds_spec. eauto 10. }
  simpl in Hf'. apply IncludeFacts.elem_of_alter in Hf' as [Hf'|(f & Hf & ->)].
  - apply FilesFacts.nodeIds_spec. exists e, f'. split_and!; try done.
    by eapply list_elem_of_lookup_2.
  - simpl. apply Hr. unfold fnAt. by rewrite He.
Qed.

Lemma setCallResolved_nodeIds fs resolved filePos k x :
  x ∈ nodeIds (alter (alterCalls (alter (setCallResolved resolved) k)) filePos fs) →
  x ∈ nodeIds fs.
Proof.
  intros (e' & f' & He' & Hf' & Hinc & <-)%FilesFacts.nodeIds_spec.
  apply FilesFacts.nodeIds_spec.
  apply IncludeFacts.elem_of_alter in He' as [He'|(e & He & ->)]; [eauto 10|].
  exists e, f'. split_and!; try done. by eapply list_elem_of_lookup_2.
Qed.

(** One call of [collectFunctionEdges] adds no node. *)
Lemma edgeForCall_nodeIds filePos specifierMap ctx k call x :
  ContextCoherent ctx →
  (∀ e, files ctx !! filePos = Some e →
        ∃ c, FileAnalysis.calls e.2 !! k = Some c
             ∧ CallBinding.callerId c = CallBinding.callerId call) →
  x ∈ nodeIds (files (Assembler.edgeForCall filePos specifierMap ctx (k, call))) →
  x ∈ nodeIds (files ctx).
Proof.
  intros (Hfs & Hex & Hed) Hcall. unfold Assembler.edgeForCall.
  destruct (specifierMap !! _) as [spec|]; [|done].
  destruct (negb _); [done|].
  match goal with |- context [match ?t with Some _ => _ | None => _ end] =>
    destruct t as [targetFn|] eqn:Htarget end; [|done].
  assert (∃ ft, fnAt (files ctx) targetFn = Some ft ∧ FunctionInfo.isExported ft = true)
    as (ft & Hft & Hftexp).
  { destruct (exportedFunctions ctx !! _) as [r|] eqn:E.
    - injection Htarget as <-. by eapply Hex.
    - by eapply Hex. }
  destruct (files ctx !! filePos) as [e|] eqn:He; simpl; [|done].
  destruct (Assembler.findCaller _ _) as [j|] eqn:Hj; [|done].
  apply IncludeFacts.findCaller_Some in Hj as (fc & Hfc & Hfcid).
  destruct (Hcall e eq_refl) as (c & Hc & Hcid).
  simpl. intros Hx%setCallResolved_nodeIds.
  apply includeFn_nodeIds in Hx.
  - apply includeFn_nodeIds in Hx; [done|]. intros f. unfold fnAt. simpl. rewrite He. simpl.
    rewrite Hfc. intros [= <-].
    destruct (Hfs e) as (_ & _ & HC); [by eapply list_elem_of_lookup_2|].
    destruct (HC c) as (g & Hg & Hgid & Hginc); [by eapply list_elem_of_lookup_2|].
    apply FilesFacts.nodeIds_spec. exists e, g. split_and!; try done.
    + by eapply list_elem_of_lookup_2.
    + congruence.
  - intros f Hf.
    pose proof (FilesFacts.FilesGrown_fnAt _ _ targetFn
                  (FilesFacts.includeFn_grown (files ctx) (filePos, j))) as H.
    rewrite Hft, Hf in H. inversion H as [? ? Hff|]; subst.
    apply FilesFacts.FnGrown_fields in Hff as (-> & _).
    eapply IncludeFacts.nodeIds_grown; [apply FilesFacts.includeFn_grown|].
    eapply FilesFacts.included_is_node; [exact Hft|].
    unfold fnAt in Hft. destruct (files ctx !! targetFn.1) as [et|] eqn:Het; [|done].
    simpl in Hft. destruct (Hfs et) as (HE & _); [by eapply list_elem_of_lookup_2|].
    apply HE; [by eapply list_elem_of_lookup_2 | done].
Qed.

Lemma collectFunctionEdges_nodeIds ctx x :
  ContextCoherent ctx →
  x ∈ nodeIds (files (Assembler.collectFunctionEdges ctx)) ↔ x ∈ nodeIds (files ctx).
Proof.
  intros Hctx. split;
    [|apply IncludeFacts.nodeIds_grown, RunFacts.collectFunctionEdges_grown].
  unfold Assembler.collectFunctionEdges.
  apply (ProposalFacts.fold_left_invariant
           (fun c => (FilesGrown (files ctx) (files c) ∧ ContextCoherent c)
                     ∧ (x ∈ nodeIds (files c) → x ∈ nodeIds (files ctx))));
    [split; [split; [apply FilesFacts.FilesGrown_refl | done] | done]|].
  intros c [filePos [key a]] Hin%ProposalFacts.elem_of_indexed Hc.
  unfold Assembler.edgesForFile. simpl.
  apply (ProposalFacts.fold_left_invariant
           (fun c => (FilesGrown (files ctx) (files c) ∧ ContextCoherent c)
                     ∧ (x ∈ nodeIds (files c) → x ∈ nodeIds (files ctx)))); [done|].
  intros c' [k call] Hk%ProposalFacts.elem_of_indexed [[Hg Hc'] Hx].
  assert (∀ e, files c' !! filePos = Some e →
               ∃ c0, FileAnalysis.calls e.2 !! k = Some c0
                     ∧ CallBinding.callerId c0 = CallBinding.callerId call) as Hcall.
  { intros e He.
    pose proof (proj1 (Forall2_lookup _ _ _) Hg filePos) as H. rewrite Hin, He in H.
    inversion H as [? ? [_ (_ & _ & _ & Hcalls)]|]; subst. simpl in Hcalls.
    pose proof (proj1 (Forall2_lookup _ _ _) Hcalls k) as H'. rewrite Hk in H'.
    inversion H' as [? c0 (_ & _ & _ & Hid)|]; subst. eauto. }
  split; [split|].
  - eapply FilesFacts.FilesGrown_trans; [exact Hg | apply RunFacts.edgeForCall_grown].
  - by apply IncludeFacts.edgeForCall_Coherent.
  - intros Hx'. by eapply Hx, edgeForCall_nodeIds.
Qed.

(** Import resolution changes no record. *)
Lemma resolveImports_nodeIds fileSet paths ctx x :
  x ∈ nodeIds (files (Assembler.resolveImports fileSet paths ctx)) ↔ x ∈ nodeIds (files ctx).
Proof.
  unfold Assembler.resolveImports.
  pose proof (ResolveFacts.resolveFiles_files fileSet paths
                (Assembler.mkResolveState (candidateCache ctx) (fileEdges ctx) (unresolved ctx))
                (files ctx)) as H.
  destruct (Assembler.resolveFiles _ _ _ _) as [st entries]. simpl in *.
  rewrite !(proj2 (FilesFacts.nodeIds_spec _)). split.
  - intros (e' & f & (i & Hi)%list_elem_of_lookup_1 & Hf & Hinc & <-).
    pose proof (proj1 (Forall2_lookup _ _ _) H i) as Hl. rewrite Hi in Hl.
    inversion Hl as [e y Hrel He Hy|]; subst. destruct Hrel as (_ & _ & Hfn & _).
    exists e, f. rewrite <- Hfn. split_and!; try done.
    eapply list_elem_of_lookup_2. by symmetry.
  - intros (e & f & (i & Hi)%list_elem_of_lookup_1 & Hf & Hinc & <-).
    pose proof (proj1 (Forall2_lookup _ _ _) H i) as Hl. rewrite Hi in Hl.
    inversion Hl as [? e' Hrel He Hy|]; subst. destruct Hrel as (_ & _ & Hfn & _).
    exists e', f. rewrite Hfn. split_and!; try done.
    eapply list_elem_of_lookup_2. by symmetry.
Qed.

(** The function nodes of the deterministic passes are the records that
    the visitor marked. *)
Lemma staticContext_nodeIds repo completion x :
  x ∈ nodeIds (files (staticContext repo completion)) ↔
  x ∈ nodeIds (files (extract repo completion (initialContext repo))).
Proof.
  pose proof (IncludeFacts.extract_Coherent repo completion) as (Hfs & _ & _).
  destruct (RunFacts.extract_rest repo completion (initialContext repo)) as (_ & Hex & _).
  destruct (EdgeRun.extract_edges repo completion (initialContext repo)) as [_ Hed].
  unfold staticContext, staticPasses.
  rewrite collectFunctionEdges_nodeIds.
  - unfold Assembler.collectFunctionExports. simpl. rewrite resolveImports_nodeIds.
    by case_decide.
  - apply IncludeFacts.collectFunctionExports_Coherent, IncludeFacts.resolveImports_Coherent;
      by case_decide.
Qed.

Lemma respond_functionNode_ids repo clock ctx :
  map FunctionNode.id (AnalyzeResponseBody.functionNodes (respond repo clock ctx))
  = nodeIds (files ctx).
Proof. done. Qed.

Lemma functionNode_ids_schedule host clock1 clock2 repo c1 c2 :
  truthy (OPENAI_API_KEY host) = false →
  c1 ≡ₚ c2 →
  map FunctionNode.id
    (AnalyzeResponseBody.functionNodes
       (respond repo clock1 (assemble host repo (extract repo c1 (initialContext repo)))))
  ≡ₚ map FunctionNode.id
       (AnalyzeResponseBody.functionNodes
          (respond repo clock2 (assemble host repo (extract repo c2 (initialContext repo))))).
Proof.
  intros Hkey Hp. rewrite !respond_functionNode_ids.
  destruct (assemble_offline host repo (extract repo c1 (initialContext repo)) Hkey)
    as (-> & _ & _).
  destruct (assemble_offline host repo (extract repo c2 (initialContext repo)) Hkey)
    as (-> & _ & _).
  apply NoDup_Permutation; [apply FilesFacts.nodeIds_spec | apply FilesFacts.nodeIds_spec |].
  intros x.
  pose proof (staticContext_nodeIds repo c1 x) as H1.
  pose proof (staticContext_nodeIds repo c2 x) as H2.
  unfold staticContext in H1, H2.
  rewrite H1, H2, !(proj2 (FilesFacts.nodeIds_spec _)).
  split; intros (e & f & He & ?); exists e, f; (split; [|done]);
    by eapply extract_entries_schedule.
Qed.

End DeterminismFacts.
(** ** Calls across files *)

Module CallEdgeFacts.
Import JsString Context Pipeline Examples CallEdgeExample FilesSpec CallSpec Analyzer.



End CallEdgeFacts.

(** ** The parser of responses *)

Module LlmFacts.
Import JsString Llm FenceSpec.
Local Open Scope nat_scope.

Lemma chars_unchars l : chars (unchars l) = l.
Proof. apply list_ascii_of_string_of_list_ascii. Qed.

(** *** White space *)

Lemma dropSpaces_head l c : head l = Some c → isSpace c = false → dropSpaces l = l.
Proof. destruct l as [|a l]; [done|]. simpl. intros [= ->] ->. done. Qed.

Lemma dropSpaces_allSpaces l t : allSpaces l = true → dropSpaces (l ++ t) = dropSpaces t.
Proof.
  induction l as [|c l IH]; simpl; [done|].
  intros [Hc Hl]%andb_true_iff. rewrite Hc. auto.
Qed.

Lemma takeSpaces_allSpaces l c t :
  allSpaces l = true → isSpace c = false → takeSpaces (l ++ c :: t) = l.
Proof.
  intros Hl Hc. induction l as [|a l IH]; simpl.
  - by rewrite Hc.
  - simpl in Hl. apply andb_true_iff in Hl as [Ha Hl]. rewrite Ha. by rewrite IH.
Qed.

Lemma head_rev {A} (l : list A) : head (rev l) = last l.
Proof.
  induction l as [|a l IH] using rev_ind; [done|].
  by rewrite rev_app_distr, last_snoc.
Qed.

(** [trim] leaves alone a text that neither starts nor ends with white
    space. *)
Lemma trim_id l c d :
  head l = Some c → isSpace c = false → last l = Some d → isSpace d = false → trim l = l.
Proof.
  intros Hc Hcs Hd Hds. unfold trim. rewrite (dropSpaces_head l c) by done.
  rewrite (dropSpaces_head (rev l) d); [apply rev_involutive | by rewrite head_rev | done].
Qed.

(** *** The code fence *)

Lemma stripPrefix_app p l : stripPrefix p (p ++ l) = Some l.
Proof. induction p as [|a p IH]; simpl; [done|]. by rewrite Ascii.eqb_refl. Qed.

Lemma stripPrefix_head_ne a p b l : a ≠ b → stripPrefix (a :: p) (b :: l) = None.
Proof. intros Hne. simpl. by destruct (Ascii.eqb_spec a b). Qed.

Lemma lastClose_no_brace l : rbrace ∉ l → lastClose l = None.
Proof.
  induction l as [|c l IH]; [done|]. intros Hin. simpl.
  rewrite IH by (intros H; apply Hin; by right).
  destruct (Ascii.eqb_spec c rbrace) as [->|_]; [|done]. exfalso. apply Hin. left.
Qed.

(** The greedy match runs to the last brace of the body when only white
    space and the closing fence follow. *)
Lemma lastClose_body body after :
  last body = Some rbrace → allSpaces after = true →
  lastClose (body ++ after ++ fence) = Some body.
Proof.
  intros Hlast Hafter.
  assert (rbrace ∉ after ++ fence) as Htail.
  { intros [Hin|Hin]%elem_of_app.
    - clear -Hafter Hin. induction after as [|c after IH]; [by apply elem_of_nil in Hin|].
      simpl in Hafter. apply andb_true_iff in Hafter as [Hc Ha].
      apply elem_of_cons in Hin as [<-|Hin]; [done | auto].
    - unfold fence in Hin. set_solver. }
  induction body as [|c body IH]; [done|]. simpl.
  destruct body as [|c' body].
  - simpl in *. injection Hlast as ->. rewrite (lastClose_no_brace _ Htail).
    unfold fenceFollows. rewrite dropSpaces_allSpaces by done.
    reflexivity.
  - rewrite IH; [done|]. by rewrite last_cons_cons in Hlast.
Qed.

Lemma fenceMatch_fenced tag before after body :
  allSpaces before = true → allSpaces after = true →
  last body = Some rbrace →
  fenceMatch (fenced tag before after (lbrace :: body)) = Some (lbrace :: body).
Proof.
  intros Hb Ha Hlast.
  assert (fenceAt (fenced tag before after (lbrace :: body)) = Some (lbrace :: body)) as H.
  { unfold fenceAt, fenced. rewrite stripPrefix_app.
    assert (match stripPrefix (chars "json")
                    ((if tag then chars "json" else []) ++ before ++
                       (lbrace :: body) ++ after ++ fence) with
            | Some r' => dropSpaces r'
            | None => dropSpaces ((if tag then chars "json" else []) ++ before ++
                                    (lbrace :: body) ++ after ++ fence)
            end = lbrace :: body ++ after ++ fence) as Hd.
    { destruct tag.
      - rewrite stripPrefix_app. by rewrite dropSpaces_allSpaces.
      - change (if false then chars "json" else []) with (@nil ascii).
        rewrite !app_nil_l. destruct before as [|s before].
        + done.
        + simpl in Hb. apply andb_true_iff in Hb as [Hs Hb].
          assert (stripPrefix (chars "json") ((s :: before) ++ (lbrace :: body) ++ after ++ fence)
                  = None) as ->.
          { change (chars "json") with ("j"%char :: chars "son").
            apply stripPrefix_head_ne. intros <-. discriminate Hs. }
          simpl. rewrite Hs. by rewrite dropSpaces_allSpaces. }
    destruct (stripPrefix (chars "json") _) as [r'|]; rewrite Hd;
      simpl; by rewrite lastClose_body. }
  destruct (fenced tag before after (lbrace :: body)) as [|x l]; [discriminate H|].
  change (fenceMatch (x :: l))
    with (match fenceAt (x :: l) with Some g => Some g | None => fenceMatch l end).
  by rewrite H.
Qed.

Lemma fenceMatch_no_backtick l : backtick ∉ l → fenceMatch l = None.
Proof.
  induction l as [|c l IH]; [done|]. intros Hin. simpl.
  assert (fenceAt (c :: l) = None) as ->.
  { unfold fenceAt. change fence with (backtick :: [backtick; backtick]).
    rewrite stripPrefix_head_ne; [done|]. intros <-. apply Hin. left. }
  apply IH. intros H. apply Hin. by right.
Qed.

(** *** Control characters *)

Lemma stripControl_clean l : Forall (fun c => isControl c = false) (stripControl l).
Proof. apply Forall_forall. intros c [? _]%list_elem_of_filter. done. Qed.

Lemma replaceCRLF_clean l : Forall (fun c => isControl c = false) l → replaceCRLF l = l.
Proof.
  induction 1 as [|a l Ha Hl IH]; [done|]. destruct l as [|b l']; [done|].
  change (replaceCRLF (a :: b :: l'))
    with (if Ascii.eqb a "013"%char && Ascii.eqb b "010"%char
          then space :: replaceCRLF l' else a :: replaceCRLF (b :: l')).
  destruct (Ascii.eqb_spec a "013"%char) as [->|_]; [discriminate Ha|].
  rewrite andb_false_l. by rewrite IH.
Qed.

Lemma replaceChar_clean c l :
  isControl c = true → Forall (fun a => isControl a = false) l → replaceChar c l = l.
Proof.
  intros Hc. induction 1 as [|a l Ha Hl IH]; [done|].
  change (replaceChar c (a :: l))
    with ((if Ascii.eqb a c then space else a) :: replaceChar c l).
  rewrite IH. destruct (Ascii.eqb_spec a c) as [->|_]; [congruence | done].
Qed.

(** The replacements of line breaks and tabs find nothing to replace: the
    first pass has removed them. *)
Lemma removeControlCharacters_stripControl l : removeControlCharacters l = stripControl l.
Proof.
  unfold removeControlCharacters.
  rewrite (replaceCRLF_clean _ (stripControl_clean l)).
  rewrite (replaceChar_clean "010"%char) by (done || apply stripControl_clean).
  rewrite (replaceChar_clean "013"%char) by (done || apply stripControl_clean).
  by rewrite (replaceChar_clean "009"%char) by (done || apply stripControl_clean).
Qed.

Lemma stripControl_app l k : stripControl (l ++ k) = stripControl l ++ stripControl k.
Proof. apply filter_app. Qed.

Lemma stripControl_cons c l :
  isControl c = false → stripControl (c :: l) = c :: stripControl l.
Proof. intros Hc. unfold stripControl. by rewrite filter_cons_True. Qed.

Lemma stripControl_allSpaces l : allSpaces l = true → allSpaces (stripControl l) = true.
Proof.
  induction l as [|c l IH]; [done|]. simpl. intros [Hc Hl]%andb_true_iff.
  unfold stripControl. rewrite filter_cons. case_decide; simpl; [|by apply IH].
  rewrite Hc. by apply IH.
Qed.

Lemma stripControl_last l c :
  last l = Some c → isControl c = false → last (stripControl l) = Some c.
Proof.
  intros Hl Hc. induction l as [|a l IH] using rev_ind; [done|].
  rewrite last_snoc in Hl. injection Hl as ->.
  unfold stripControl. rewrite filter_app, filter_cons_True by done.
  rewrite filter_nil. by rewrite last_snoc.
Qed.

(** *** The outermost braces *)

Lemma lastIndexOf_last c l : last l = Some c → lastIndexOf c l = Some (List.length l - 1).
Proof.
  induction l as [|a l IH]; [done|]. destruct l as [|b l'].
  - simpl. intros [= ->]. by rewrite Ascii.eqb_refl.
  - rewrite last_cons_cons. intros Hl. specialize (IH Hl).
    change (lastIndexOf c (a :: b :: l'))
      with (match lastIndexOf c (b :: l') with
            | Some i => Some (S i)
            | None => if Ascii.eqb a c then Some 0 else None
            end).
    rewrite IH. simpl. f_equal. lia.
Qed.

Lemma outermostBraces_object l :
  head l = Some lbrace → last l = Some rbrace → outermostBraces l = l.
Proof.
  intros Hh Hl. unfold outermostBraces. rewrite (lastIndexOf_last _ _ Hl).
  destruct l as [|a l]; [done|]. simpl in Hh. injection Hh as ->. simpl.
  case_decide; [|done]. rewrite Nat.sub_0_r. f_equal. apply take_ge. lia.
Qed.


(** *** Global replacement *)

(** Enough fuel is as good as any. *)
Lemma replaceAll_fuel step :
  Consumes step →
  ∀ f1 f2 l, List.length l ≤ f1 → List.length l ≤ f2 →
             replaceAll f1 step l = replaceAll f2 step l.
Proof.
  intros Hstep. induction f1 as [|f1 IH]; intros f2 l H1 H2.
  - destruct l; [|simpl in H1; lia]. destruct f2 as [|f2]; [done|]. simpl.
    destruct (step []) as [[out rest]|] eqn:E; [|done].
    apply Hstep in E. simpl in E. lia.
  - destruct f2 as [|f2].
    + destruct l; [|simpl in H2; lia]. simpl.
      destruct (step []) as [[out rest]|] eqn:E; [|done].
      apply Hstep in E. simpl in E. lia.
    + simpl. destruct (step l) as [[out rest]|] eqn:E.
      * apply Hstep in E. f_equal. apply IH; lia.
      * destruct l as [|c r]; [done|]. f_equal. simpl in H1, H2. apply IH; lia.
Qed.

Lemma dropSpaces_length l : List.length (dropSpaces l) ≤ List.length l.
Proof. induction l as [|c l IH]; simpl; [done|]. destruct (isSpace c); simpl; lia. Qed.

Lemma trailingCommaStep_Consumes : Consumes trailingCommaStep.
Proof.
  intros [|c r] out rest; [done|]. simpl.
  destruct (Ascii.eqb c comma); [|done].
  pose proof (dropSpaces_length r) as Hlen.
  destruct (dropSpaces r) as [|d rest'] eqn:E; [done|].
  destruct (isCloser d); [|done]. intros [= _ <-]. simpl in Hlen. lia.
Qed.

(** What follows a text matters to the white space at its end only. *)
Lemma dropSpaces_app l t d rest :
  dropSpaces l = d :: rest → dropSpaces (l ++ t) = d :: rest ++ t.
Proof.
  induction l as [|c l IH]; simpl; [done|].
  destruct (isSpace c); [done|]. by intros [= -> ->].
Qed.

Lemma takeSpaces_app l t d rest :
  dropSpaces l = d :: rest → takeSpaces (l ++ t) = takeSpaces l.
Proof.
  induction l as [|c l IH]; simpl; [done|].
  destruct (isSpace c); [|done]. intros H. by rewrite IH.
Qed.

Lemma dropSpaces_nil_allSpaces l : dropSpaces l = [] → allSpaces l = true.
Proof.
  induction l as [|c l IH]; simpl; [done|].
  destruct (isSpace c); [by auto | done].
Qed.

Lemma allSpaces_dropSpaces l : allSpaces l = true → dropSpaces l = [].
Proof.
  induction l as [|c l IH]; simpl; [done|].
  intros [-> Hl]%andb_true_iff. auto.
Qed.

Lemma allSpaces_rev l : allSpaces l = true → allSpaces (rev l) = true.
Proof.
  induction l as [|c l IH]; simpl; [done|]. intros [Hc Hl]%andb_true_iff.
  clear IH. induction (rev l) as [|a k IHk] eqn:E in l, Hl |- *.
  - simpl. by rewrite Hc.
  - assert (allSpaces (a :: k) = true) as Hak.
    { rewrite <- E. clear -Hl. induction l as [|x l IH]; [done|]. simpl in *.
      apply andb_true_iff in Hl as [Hx Hl]. specialize (IH Hl).
      clear -Hx IH. induction (rev l) as [|y m IHm]; simpl in *; [by rewrite Hx|].
      apply andb_true_iff in IH as [-> Hm]. simpl. auto. }
    simpl in *. apply andb_true_iff in Hak as [-> Hk]. simpl.
    clear -Hk Hc. induction k as [|y m IHm]; simpl in *; [by rewrite Hc|].
    apply andb_true_iff in Hk as [-> Hm]. simpl. auto.
Qed.

(** A text that does not end in a comma has no comma with white space
    only after it, and so has each of its ends. *)
Lemma endsInComma_suffix p s : endsInComma (p ++ s) = false → endsInComma s = false.
Proof.
  unfold endsInComma. rewrite rev_app_distr.
  destruct (dropSpaces (rev s)) as [|c k] eqn:E; [done|].
  by rewrite (dropSpaces_app _ _ _ _ E).
Qed.

Lemma endsInComma_comma r : endsInComma (comma :: r) = false → ∃ d rest, dropSpaces r = d :: rest.
Proof.
  unfold endsInComma. simpl. intros H.
  destruct (dropSpaces r) as [|d rest] eqn:E; [|eauto].
  apply dropSpaces_nil_allSpaces, allSpaces_rev, allSpaces_dropSpaces in E.
  rewrite (dropSpaces_allSpaces _ _ (dropSpaces_nil_allSpaces _ E)) in H.
  done.
Qed.

Lemma dropSpaces_suffix l : ∃ p, l = p ++ dropSpaces l.
Proof.
  induction l as [|c l [p IH]]; [by exists []|]. simpl.
  destruct (isSpace c); [|by exists []]. exists (c :: p). simpl. by rewrite <- IH.
Qed.

(** The removal of trailing commas goes through a text that does not end
    in a comma without looking at what follows it. *)
Lemma trailingComma_app n :
  ∀ a t f1 f2 f3,
    List.length a ≤ n → endsInComma a = false →
    List.length (a ++ t) ≤ f1 → List.length a ≤ f2 → List.length t ≤ f3 →
    replaceAll f1 trailingCommaStep (a ++ t)
    = replaceAll f2 trailingCommaStep a ++ replaceAll f3 trailingCommaStep t.
Proof.
  induction n as [|n IH]; intros a t f1 f2 f3 Hn Ha H1 H2 H3.
  - destruct a; [|simpl in Hn; lia]. simpl.
    assert (replaceAll f2 trailingCommaStep [] = []) as -> by by destruct f2.
    apply (replaceAll_fuel _ trailingCommaStep_Consumes); [done | lia].
  - destruct a as [|c r].
    { simpl. assert (replaceAll f2 trailingCommaStep [] = []) as -> by by destruct f2.
      apply (replaceAll_fuel _ trailingCommaStep_Consumes); [done | lia]. }
    simpl in Hn, H1, H2. destruct f1 as [|f1]; [lia|]. destruct f2 as [|f2]; [lia|].
    assert (endsInComma r = false) as Hr by apply (endsInComma_suffix [c] r Ha).
    change ((c :: r) ++ t) with (c :: (r ++ t)).
    cbn [replaceAll trailingCommaStep].
    destruct (Ascii.eqb_spec c comma) as [->|Hc].
    + destruct (endsInComma_comma r Ha) as (d & rest & Hd).
      rewrite (dropSpaces_app _ t _ _ Hd), Hd, (takeSpaces_app _ t _ _ Hd).
      pose proof (dropSpaces_length r) as Hlen. rewrite Hd in Hlen. simpl in Hlen.
      destruct (isCloser d).
      * rewrite (IH rest t f1 f2 f3); [by rewrite !app_assoc | lia | | | lia | lia].
        -- destruct (dropSpaces_suffix r) as [p Hp]. rewrite Hd in Hp.
           apply (endsInComma_suffix (p ++ [d]) rest). rewrite <- app_assoc. simpl.
           by rewrite <- Hp.
        -- rewrite length_app in *. lia.
      * rewrite (IH r t f1 f2 f3); [done | lia | done | lia | lia | lia].
    + rewrite (IH r t f1 f2 f3); [done | lia | done | lia | lia | lia].
Qed.

Lemma allSpaces_not_comma c : isSpace c = true → Ascii.eqb c comma = false.
Proof. intros Hc. destruct (Ascii.eqb_spec c comma) as [->|]; [discriminate Hc | done]. Qed.

Lemma isCloser_facts d :
  isCloser d = true →
  isSpace d = false ∧ isControl d = false ∧ Ascii.eqb d comma = false ∧ d ≠ backtick.
Proof.
  unfold isCloser. intros [->%Ascii.eqb_eq| ->%Ascii.eqb_eq]%orb_true_iff; by repeat split.
Qed.

(** White space then a closing character is copied as it is. *)
Lemma trailingComma_gap f gap d rest :
  allSpaces gap = true → isCloser d = true →
  List.length (gap ++ d :: rest) ≤ f →
  replaceAll f trailingCommaStep (gap ++ d :: rest)
  = gap ++ d :: replaceAll (List.length rest) trailingCommaStep rest.
Proof.
  intros Hgap Hd. destruct (isCloser_facts d Hd) as (_ & _ & Hdc & _). revert f.
  induction gap as [|c gap IH]; intros f Hf.
  - simpl in *. destruct f as [|f]; [lia|]. cbn [replaceAll trailingCommaStep].
    rewrite Hdc. f_equal. apply (replaceAll_fuel _ trailingCommaStep_Consumes); lia.
  - simpl in Hgap. apply andb_true_iff in Hgap as [Hc Hgap].
    simpl in Hf. destruct f as [|f]; [lia|].
    change ((c :: gap) ++ d :: rest) with (c :: (gap ++ d :: rest)).
    cbn [replaceAll trailingCommaStep]. rewrite (allSpaces_not_comma c Hc).
    simpl. f_equal. apply IH; [done | lia].
Qed.

(** The trailing comma goes, and the text is as if it had never been
    there. *)
Lemma trailingComma_removed start gap d rest :
  endsInComma start = false → allSpaces gap = true → isCloser d = true →
  replaceWith trailingCommaStep (start ++ comma :: gap ++ d :: rest)
  = replaceWith trailingCommaStep (start ++ gap ++ d :: rest).
Proof.
  intros Hstart Hgap Hd. destruct (isCloser_facts d Hd) as (Hds & _ & _ & _).
  unfold replaceWith.
  rewrite (trailingComma_app (List.length start) start (comma :: gap ++ d :: rest)
             _ (List.length start) (S (List.length (gap ++ d :: rest))))
    by (done || simpl; lia).
  rewrite (trailingComma_app (List.length start) start (gap ++ d :: rest)
             _ (List.length start) (List.length (gap ++ d :: rest)))
    by (done || simpl; lia).
  f_equal. cbn [replaceAll trailingCommaStep]. rewrite Ascii.eqb_refl.
  rewrite (dropSpaces_allSpaces gap (d :: rest) Hgap). simpl dropSpaces. rewrite Hds, Hd.
  rewrite (takeSpaces_allSpaces gap d rest Hgap Hds).
  rewrite (trailingComma_gap _ gap d rest Hgap Hd) by done.
  rewrite <- app_assoc. simpl. do 2 f_equal.
  apply (replaceAll_fuel _ trailingCommaStep_Consumes); rewrite ?length_app; simpl; lia.
Qed.


(** *** The cleaned text *)

Lemma unchars_not_empty c l : unchars (c :: l) ≠ "".
Proof. done. Qed.

(** The text handed to the parser is the same for a response in a code
    fence with a trailing comma and for the response without them. *)
Lemma cleaned_alike tag before after start gap closer rest :
  allSpaces before = true → allSpaces after = true →
  TrailingCommaSite start gap closer rest →
  cleanJsonText
    (unchars (fenced tag before after (start ++ comma :: gap ++ closer :: rest)))
  = cleanJsonText (unchars (start ++ gap ++ closer :: rest)).
Proof.
  intros Hb Ha (Hhead & Hgap & Hcloser & Hlast & Htick & Hcomma).
  destruct (isCloser_facts closer Hcloser) as (Hcs & Hcc & _ & _).
  destruct start as [|c start']; [done|]. simpl in Hhead. injection Hhead as ->.
  unfold cleanJsonText. rewrite !chars_unchars.
  (* the fenced response *)
  rewrite (trim_id (fenced _ _ _ _) backtick backtick); [|done|done| |done].
  2:{ unfold fenced. rewrite !app_assoc. unfold fence. by rewrite last_app_cons. }
  change ((lbrace :: start') ++ comma :: gap ++ closer :: rest)
    with (lbrace :: (start' ++ comma :: gap ++ closer :: rest)).
  rewrite fenceMatch_fenced; [|done|done|].
  2:{ rewrite last_app_cons. change (comma :: gap ++ closer :: rest)
        with ([comma] ++ gap ++ closer :: rest). by rewrite app_assoc, last_app_cons. }
  (* the plain response *)
  rewrite (trim_id ((lbrace :: start') ++ gap ++ closer :: rest) lbrace rbrace);
    [|done|done| |done].
  2:{ by rewrite app_assoc, last_app_cons. }
  rewrite (fenceMatch_no_backtick _ Htick).
  (* the control characters *)
  rewrite !removeControlCharacters_stripControl.
  rewrite removeControlCharacters_stripControl in Hcomma.
  change (lbrace :: start' ++ comma :: gap ++ closer :: rest)
    with ((lbrace :: start') ++ [comma] ++ gap ++ closer :: rest).
  rewrite !stripControl_app, (stripControl_cons comma [] eq_refl).
  change (stripControl []) with (@nil ascii).
  rewrite (stripControl_cons closer rest Hcc).
  assert (head (stripControl (lbrace :: start')) = Some lbrace) as Hh
    by by rewrite stripControl_cons.
  assert (last (closer :: stripControl rest) = Some rbrace) as Hl.
  { rewrite <- (stripControl_cons closer rest Hcc). by apply stripControl_last. }
  pose proof (stripControl_allSpaces gap Hgap) as Hg.
  set (S := stripControl (lbrace :: start')) in *.
  set (G := stripControl gap) in *. set (R := stripControl rest) in *.
  (* the outermost braces *)
  rewrite (outermostBraces_object (S ++ [comma] ++ G ++ closer :: R)).
  2:{ by destruct S. }
  2:{ change ([comma] ++ G ++ closer :: R) with (comma :: G ++ closer :: R).
      rewrite last_app_cons. change (comma :: G ++ closer :: R)
        with ([comma] ++ G ++ closer :: R). by rewrite app_assoc, last_app_cons. }
  rewrite (outermostBraces_object (S ++ G ++ closer :: R)).
  2:{ by destruct S. }
  2:{ by rewrite app_assoc, last_app_cons. }
  (* the repairs *)
  unfold fixCommonIssues.
  change (S ++ [comma] ++ G ++ closer :: R) with (S ++ comma :: G ++ closer :: R).
  by rewrite trailingComma_removed.
Qed.

(** The result depends on the response through the cleaned text only. *)
Lemma parseContent_cleaned host s1 s2 :
  s1 ≠ "" → s2 ≠ "" → cleanJsonText s1 = cleanJsonText s2 →
  parseContent host (Some s1) = parseContent host (Some s2).
Proof.
  intros H1%String.eqb_neq H2%String.eqb_neq Hc. unfold parseContent, truthy.
  rewrite H1, H2. cbn [negb from_option]. by rewrite Hc.
Qed.

Lemma parseContent_returns host content :
  content ≠ "" → ∃ r, parseContent host (Some content) = Returns r.
Proof.
  intros H%String.eqb_neq. unfold parseContent, truthy. rewrite H. cbn [negb from_option].
  destruct (JSON_parse host _); [eauto|].
  destruct (partialMatch _); [|eauto]. destruct (JSON_parse host _); eauto.
Qed.

Lemma parseContent_unrecoverable host content :
  content ≠ "" →
  JSON_parse host (cleanJsonText content) = None →
  (∀ m, partialMatch (chars (cleanJsonText content)) = Some m →
        JSON_parse host (unchars m) = None) →
  parseContent host (Some content) = Returns emptyResult.
Proof.
  intros H%String.eqb_neq H1 H2. unfold parseContent, truthy. rewrite H.
  cbn [negb from_option]. rewrite H1. destruct (partialMatch _) as [m|] eqn:E; [|done]. by rewrite (H2 m).
Qed.

End LlmFacts.

Module LlmClaims.
Import JsString Llm FenceSpec.

(** C8 (amended): take a response that reads as an object, without a code
    fence in it, and put a comma before one of its closing brackets or
    braces, where no comma stands already; wrap the result in a code fence,
    with or without the language tag. The parser cleans the wrapped text to
    the same text as the response itself and returns the same result for
    both. For every response text that is not empty the parser returns a
    result; and when neither the cleaned text nor the object found in it by
    the fallback can be parsed, the result is the empty one. *)
Theorem fenced_trailing_comma_parses_alike host tag before after start gap closer rest :
  allSpaces before = true → allSpaces after = true →
  TrailingCommaSite start gap closer rest →
  (cleanJsonText
     (unchars (fenced tag before after (start ++ comma :: gap ++ closer :: rest)))
   = cleanJsonText (unchars (start ++ gap ++ closer :: rest))
   ∧ ∃ r,
       parseContent host
         (Some (unchars (fenced tag before after (start ++ comma :: gap ++ closer :: rest))))
       = Returns r
       ∧ parseContent host (Some (unchars (start ++ gap ++ closer :: rest))) = Returns r)
  ∧ (∀ content, content ≠ "" → ∃ r, parseContent host (Some content) = Returns r)
  ∧ (∀ content,
       content ≠ "" →
       JSON_parse host (cleanJsonText content) = None →
       (∀ m, partialMatch (chars (cleanJsonText content)) = Some m →
             JSON_parse host (unchars m) = None) →
       parseContent host (Some content) = Returns emptyResult).
Proof.
  intros Hb Ha Hsite.
  pose proof (LlmFacts.cleaned_alike tag before after start gap closer rest Hb Ha Hsite)
    as Hclean.
  split; [split; [done|]|split].
  - destruct Hsite as (Hhead & _).
    destruct start as [|c start']; [done|].
    destruct (LlmFacts.parseContent_returns host
                (unchars ((c :: start') ++ gap ++ closer :: rest))) as [r Hr]; [done|].
    exists r. split; [|done]. rewrite <- Hr.
    apply LlmFacts.parseContent_cleaned; done.
  - apply LlmFacts.parseContent_returns.
  - apply LlmFacts.parseContent_unrecoverable.
Qed.

Lemma fenced_trailing_comma_parses_alike_witness :
  (cleanJsonText
     (unchars (fenced true ["010"%char] ["010"%char]
                 (notesStart ++ comma :: [space] ++ rbracket :: [rbrace])))
   = cleanJsonText (unchars (notesStart ++ [space] ++ rbracket :: [rbrace]))
   ∧ ∃ r,
       parseContent notesHost
         (Some (unchars (fenced true ["010"%char] ["010"%char]
                           (notesStart ++ comma :: [space] ++ rbracket :: [rbrace]))))
       = Returns r
       ∧ parseContent notesHost
           (Some (unchars (notesStart ++ [space] ++ rbracket :: [rbrace]))) = Returns r)
  ∧ (∀ content, content ≠ "" → ∃ r, parseContent notesHost (Some content) = Returns r)
  ∧ (∀ content,
       content ≠ "" →
       JSON_parse notesHost (cleanJsonText content) = None →
       (∀ m, partialMatch (chars (cleanJsonText content)) = Some m →
             JSON_parse notesHost (unchars m) = None) →
       parseContent notesHost (Some content) = Returns emptyResult).
Proof.
  apply (fenced_trailing_comma_parses_alike notesHost true ["010"%char] ["010"%char]
           notesStart [space] rbracket [rbrace]).
  - reflexivity.
  - reflexivity.
  - unfold TrailingCommaSite. repeat split; try reflexivity.
    apply (bool_decide_unpack _). vm_compute. exact I.
Defined.

(** C8 (as stated) fails: on a response whose text is empty the parser
    throws, and so does [inferRelationshipsWithLLM]. *)
Lemma empty_content_throws :
  parseContent notesHost (Some "") = Throws "No response content from OpenAI API"
  ∧ parseContent notesHost None = Throws "No response content from OpenAI API"
  ∧ inferRelationshipsWithLLM notesHost
      [{| digest_filePath := "a.ts"; digest_size := 0; digest_preview := "";
          digest_imports := []; digest_exports := []; digest_calls := [] |}]
    = Throws "No response content from OpenAI API".
Proof. split_and!; by vm_compute. Qed.

End LlmClaims.

(** * Further properties of the run *)

Module GraphFacts.
Import Context FilesSpec IncludeSpec ExtractSpec RunSpec Pipeline.

Lemma run_returns host clock repo completion :
  fileEntries repo ≠ [] →
  analyzeRepositoryGraph host clock repo completion
  = Returns (respond repo clock (finalContext host repo completion)).
Proof. intros H. unfold analyzeRepositoryGraph. by destruct (decide _). Qed.

(** *** The file table at the end of a run *)

Lemma enrich_grown host ctx :
  FilesGrown (files ctx) (files (Enrichment.enrichRelationshipsWithLLM host ctx)).
Proof.
  unfold Enrichment.enrichRelationshipsWithLLM.
  destruct (Llm.inferRelationshipsWithLLM _ _) as [message|[result|]]; simpl.
  - apply FilesFacts.FilesGrown_refl.
  - apply ProposalFacts.mergeResult_grown.
  - destruct (negb _); apply FilesFacts.FilesGrown_refl.
Qed.

Lemma final_grown host repo completion :
  FilesGrown (files (staticContext repo completion))
    (files (finalContext host repo completion)).
Proof.
  unfold finalContext, assemble. rewrite RunFacts.collectUnresolvedWarnings_files.
  apply enrich_grown.
Qed.

Lemma RecordsAt_grown P fs fs' :
  Stable P → FilesGrown fs fs' → RecordsAt P fs → RecordsAt P fs'.
Proof.
  intros HP Hg Hfs e' f' (i & Hi)%list_elem_of_lookup_1 (j & Hj)%list_elem_of_lookup_1.
  pose proof (proj1 (Forall2_lookup _ _ _) Hg i) as H. rewrite Hi in H.
  inversion H as [e ? [Hk (_ & _ & Hfns & _)] He|]; subst.
  pose proof (proj1 (Forall2_lookup _ _ _) Hfns j) as H'. rewrite Hj in H'.
  inversion H' as [f ? Hf Hf0|]; subst. rewrite Hk.
  assert (P e.1 f) as Hpf.
  { apply Hfs; eapply list_elem_of_lookup_2; by symmetry. }
  destruct Hf as [->| ->]; [done | by apply HP].
Qed.

(** A property that the analysis of every file gives to its records, and
    that does not look at the inclusion mark, holds of every record at the
    end of a run. *)
Lemma run_records P host repo completion :
  Stable P →
  (∀ rel code visits f,
     outcomeOf repo rel = Parsed code visits →
     f ∈ FileAnalysis.functions (Analyzer.analyzeFile rel code visits) → P rel f) →
  RecordsAt P (files (finalContext host repo completion)).
Proof.
  intros HP Hfile. eapply RecordsAt_grown; [done | apply final_grown|].
  unfold staticContext, staticPasses.
  eapply RecordsAt_grown; [done | apply RunFacts.collectFunctionEdges_grown|].
  unfold Assembler.collectFunctionExports. simpl.
  set (ctx0 := extract repo completion (initialContext repo)).
  set (ctx1 := if decide (files ctx0 = []) then _ else ctx0).
  assert (files ctx1 = files ctx0) as Hf by (unfold ctx1; by destruct (decide _)).
  unfold Assembler.resolveImports.
  pose proof (ResolveFacts.resolveFiles_files (fileSetOf repo) (tsconfigPaths repo)
                (Assembler.mkResolveState (candidateCache ctx1) (fileEdges ctx1)
                   (unresolved ctx1)) (files ctx1)) as H.
  destruct (Assembler.resolveFiles _ _ _ _) as [st entries]. simpl in *.
  intros e' f (i & Hi)%list_elem_of_lookup_1 Hf'.
  pose proof (proj1 (Forall2_lookup _ _ _) H i) as Hl. rewrite Hi in Hl.
  inversion Hl as [e y Hrel He Hy|]; subst. destruct Hrel as (Hk & _ & Hfn & _).
  rewrite Hfn in Hf'. rewrite Hk. symmetry in He. rewrite Hf in He.
  apply list_elem_of_lookup_2 in He. destruct e as [k a].
  apply DeterminismFacts.extract_entries in He as [_ (code & visits & Hout & ->)].
  by eapply Hfile.
Qed.

(** *** Function edges join function nodes *)

Lemma mergeFunctionEdge_EndpointsIncluded fs st p :
  FilesGrown fs (Enrichment.fm_files st) →
  EndpointsIncluded (Enrichment.fm_files st) (Enrichment.fm_edges st) →
  EndpointsIncluded
    (Enrichment.fm_files (Enrichment.mergeFunctionEdge (Enrichment.functionLookupOf fs) st p))
    (Enrichment.fm_edges (Enrichment.mergeFunctionEdge (Enrichment.functionLookupOf fs) st p)).
Proof.
  intros Hgrown Hinv. unfold Enrichment.mergeFunctionEdge.
  destruct (Enrichment.functionLookupOf fs !! _) as [sourceFn|] eqn:Hs; [|done].
  destruct (Enrichment.functionLookupOf fs !! (filePath (LLMRelationshipFunctionEdge.target p)
              +:+ _)) as [targetFn|] eqn:Ht; [|done].
  set (fs' := includeFn (includeFn (Enrichment.fm_files st) sourceFn) targetFn).
  assert (FilesGrown (Enrichment.fm_files st) fs') as Hg'
    by (eapply FilesFacts.FilesGrown_trans; apply FilesFacts.includeFn_grown).
  assert (idOf fs' sourceFn ∈ nodeIds fs' ∧ idOf fs' targetFn ∈ nodeIds fs') as [Hsn Htn].
  { destruct (ProposalFacts.functionLookupOf_valid fs _ _ Hs) as [fsrc Hfsrc].
    destruct (ProposalFacts.functionLookupOf_valid fs _ _ Ht) as [ftgt Hftgt].
    pose proof (FilesFacts.FilesGrown_fnAt _ _ sourceFn Hgrown) as H1. rewrite Hfsrc in H1.
    inversion H1 as [? fsrc1 _ Hx Hfsrc1|]; subst. symmetry in Hfsrc1.
    pose proof (FilesFacts.includeFn_fnAt _ _ _ Hfsrc1) as H2.
    destruct (FilesFacts.FilesGrown_included _ fs' sourceFn _
                (FilesFacts.includeFn_grown _ targetFn) H2 eq_refl)
      as (f1 & Hf1 & _ & Hinc1).
    pose proof (FilesFacts.FilesGrown_fnAt _ _ targetFn
                  (FilesFacts.FilesGrown_trans _ _ _ Hgrown
                     (FilesFacts.includeFn_grown _ sourceFn))) as H3.
    rewrite Hftgt in H3. inversion H3 as [? ftgt1 _ Hy Hftgt1|]; subst. symmetry in Hftgt1.
    pose proof (FilesFacts.includeFn_fnAt _ _ _ Hftgt1) as H4. fold fs' in H4.
    split.
    - unfold idOf. rewrite Hf1. simpl. by eapply FilesFacts.included_is_node.
    - unfold idOf. rewrite H4. eapply FilesFacts.included_is_node; [exact H4 | done]. }
  pose proof (IncludeFacts.EndpointsIncluded_grown _ _ _ Hg' Hinv) as Hold.
  destruct (oget (Enrichment.fm_edges st) _) as [existing|] eqn:Hex; simpl;
    intros k e [[-> ->]|Hin]%EdgeFacts.elem_of_oset; try (by eapply Hold).
  - apply oget_Some_elem_of in Hex. destruct (Hold _ _ Hex) as [Hsrc Htgt].
    unfold Enrichment.mergeReason, Enrichment.backfillConfidence.
    by destruct (EdgeRecord.confidence existing), (truthy _).
  - done.
Qed.

Lemma mergeResult_EndpointsIncluded ctx result :
  EndpointsIncluded (files ctx) (functionEdges ctx) →
  EndpointsIncluded (files (Enrichment.mergeResult ctx result))
    (functionEdges (Enrichment.mergeResult ctx result)).
Proof.
  intros H. rewrite EdgeFacts.mergeResult_functionEdges, EdgeFacts.mergeResult_files.
  apply (ProposalFacts.fold_left_invariant
           (fun st => FilesGrown (files ctx) (Enrichment.fm_files st)
                      ∧ EndpointsIncluded (Enrichment.fm_files st) (Enrichment.fm_edges st))).
  - split; [apply FilesFacts.FilesGrown_refl | done].
  - intros st p _ [Hg Hinv]. split.
    + eapply FilesFacts.FilesGrown_trans; [exact Hg | apply ProposalFacts.mergeFunctionEdge_files].
    + by apply mergeFunctionEdge_EndpointsIncluded.
Qed.

Lemma final_EndpointsIncluded host repo completion :
  EndpointsIncluded (files (finalContext host repo completion))
    (functionEdges (finalContext host repo completion)).
Proof.
  unfold finalContext, assemble.
  destruct (EdgeRun.collectUnresolvedWarnings_edges
              (Enrichment.enrichRelationshipsWithLLM host
                 (staticPasses repo (extract repo completion (initialContext repo)))))
    as [_ ->].
  rewrite RunFacts.collectUnresolvedWarnings_files.
  destruct (IncludeFacts.staticContext_Coherent repo completion) as (_ & _ & Hed).
  unfold staticContext in Hed. unfold Enrichment.enrichRelationshipsWithLLM.
  destruct (Llm.inferRelationshipsWithLLM _ _) as [message|[result|]]; simpl; [done| |].
  - by apply mergeResult_EndpointsIncluded.
  - by destruct (negb _).
Qed.

(** *** Function nodes come from records *)

Lemma functionNodes_records fs n :
  n ∈ functionNodesOf fs →
  ∃ e f, e ∈ fs ∧ f ∈ FileAnalysis.functions e.2
         ∧ FunctionInfo.include f = true
         ∧ FunctionNode.id n = FunctionInfo.id f
         ∧ FunctionNode.filePath n = FunctionInfo.filePath f
         ∧ FunctionNode.label n
           = from_option (fun e => e) (FunctionInfo.name f) (FunctionInfo.exportName f)
         ∧ FunctionNode.exportName n = FunctionInfo.exportName f.
Proof.
  unfold functionNodesOf. revert n.
  apply (ProposalFacts.fold_left_invariant
           (fun st : list FunctionNode.t * list string =>
              ∀ n, n ∈ st.1 →
                ∃ e f, e ∈ fs ∧ f ∈ FileAnalysis.functions e.2
                       ∧ FunctionInfo.include f = true
                       ∧ FunctionNode.id n = FunctionInfo.id f
                       ∧ FunctionNode.filePath n = FunctionInfo.filePath f
                       ∧ FunctionNode.label n
                         = from_option (fun e => e) (FunctionInfo.name f)
                             (FunctionInfo.exportName f)
                       ∧ FunctionNode.exportName n = FunctionInfo.exportName f)).
  - intros n Hn. by apply elem_of_nil in Hn.
  - intros st a (e & -> & He)%list_elem_of_fmap Hst.
    apply (ProposalFacts.fold_left_invariant
             (fun st : list FunctionNode.t * list string =>
                ∀ n, n ∈ st.1 →
                  ∃ e f, e ∈ fs ∧ f ∈ FileAnalysis.functions e.2
                         ∧ FunctionInfo.include f = true
                         ∧ FunctionNode.id n = FunctionInfo.id f
                         ∧ FunctionNode.filePath n = FunctionInfo.filePath f
                         ∧ FunctionNode.label n
                           = from_option (fun e => e) (FunctionInfo.name f)
                               (FunctionInfo.exportName f)
                         ∧ FunctionNode.exportName n = FunctionInfo.exportName f)); [done|].
    intros [nodes seen] f Hf Hnodes. unfold pushFunctionNode.
    destruct (FunctionInfo.include f) eqn:Hinc; simpl; [|done].
    case_bool_decide; [done|]. simpl.
    intros n [Hn| ->%list_elem_of_singleton]%elem_of_app; [by apply Hnodes|].
    exists e, f. by split_and!.
Qed.

End GraphFacts.

(** ** What holds of every record of an analysed file *)

Module RecordFacts.
Import JsString Analyzer.

Lemma registerFunction_record relPath st node name kind exportName isExported loc :
  ∃ tail shown counter,
    registerFunction relPath st node name kind exportName isExported loc
    = (List.length (functions st),
       mkState (imports st)
         (functions st ++
            [FunctionInfo.mk (relPath +:+ "::" +:+ tail) shown relPath kind loc exportName
               isExported isExported])
         (calls st) (importSpecifierLookup st)
         (<[node := List.length (functions st)]> (functionNodeLookup st))
         (moduleInvoker st) counter).
Proof.
  unfold registerFunction.
  destruct (String.eqb (from_option _ name exportName) "");
    destruct (negb (String.eqb name "")); try destruct (truthy exportName);
    by eexists _, _, _.
Qed.

Lemma inferFunctionKind_not_anonymous ty : inferFunctionKind ty ≠ anonymous.
Proof. by destruct ty. Qed.

Section PerRecord.
  Variable relPath : string.
  Variable P : FunctionInfo.t → Prop.
  Hypothesis Hreg :
    ∀ tail shown kind loc exportName isExported,
      kind ≠ anonymous →
      P (FunctionInfo.mk (relPath +:+ "::" +:+ tail) shown relPath kind loc exportName
           isExported isExported).
  Hypothesis Hmod :
    P (FunctionInfo.mk (relPath +:+ "::(module)") "(module)" relPath anonymous None None
         false true).
  Hypothesis Hinc : ∀ f, P f → P (setInclude f).
  Hypothesis Hexp : ∀ n f, P f → P (setExport n f).
  Hypothesis Hmeth : ∀ n f, P f → P (setMethodExport n f).

Lemma Forall_alter_pres (g : FunctionInfo.t → FunctionInfo.t) i l :
  (∀ f, P f → P (g f)) → Forall P l → Forall P (alter g i l).
Proof.
  intros Hg Hl. apply Forall_forall. intros x [Hx|(y & Hy & ->)]%IncludeFacts.elem_of_alter.
  - by eapply Forall_forall.
  - apply Hg. eapply Forall_forall; [exact Hl|]. by eapply list_elem_of_lookup_2.
Qed.

Lemma register_pres st node name kind exportName isExported loc :
  kind ≠ anonymous →
  Forall P (functions st) →
  Forall P (functions (registerFunction relPath st node name kind exportName isExported loc).2).
Proof.
  intros Hk Hst.
  destruct (registerFunction_record relPath st node name kind exportName isExported loc)
    as (tail & shown & counter & ->). simpl.
  apply Forall_app. split; [done|]. apply Forall_singleton. by apply Hreg.
Qed.

Lemma markExport_pres st info exportName :
  Forall P (functions st) → Forall P (functions (markExport st info exportName)).
Proof.
  intros Hst. destruct info as [i|]; simpl; [|done]. apply Forall_alter_pres; [|done].
  intros f. apply Hexp.
Qed.

Lemma lookupOrRegister_pres st node name kind exportName loc :
  kind ≠ anonymous →
  Forall P (functions st) →
  Forall P (functions (lookupOrRegister relPath st node name kind exportName loc).2).
Proof.
  intros Hk Hst. unfold lookupOrRegister.
  destruct (functionNodeLookup st !! node); [done|]. by apply register_pres.
Qed.

Lemma callerOf_pres st funcParent :
  Forall P (functions st) → Forall P (functions (callerOf relPath st funcParent).2).
Proof.
  intros Hst. unfold callerOf. destruct funcParent as [fp|].
  - destruct (functionNodeLookup st !! node fp) as [i|].
    + simpl. by apply Forall_alter_pres.
    + destruct (inferFunctionName fp) as [n|].
      * pose proof (register_pres st (node fp) n (inferFunctionKind (nodeType fp)) None false
                      (nodeLoc fp) (inferFunctionKind_not_anonymous _) Hst) as H.
        destruct (registerFunction _ _ _ _ _ _ _ _) as [i st1]. simpl in *.
        by apply Forall_alter_pres.
      * pose proof (register_pres (withCounter st (S (functionCounter st))) (node fp)
                      ("anonymous_" +:+ ofNat (functionCounter st))
                      (inferFunctionKind (nodeType fp)) None false
                      (nodeLoc fp) (inferFunctionKind_not_anonymous _) Hst) as H.
        destruct (registerFunction _ _ _ _ _ _ _ _) as [i st1]. simpl in *.
        by apply Forall_alter_pres.
  - unfold ensureModuleInvoker. destruct (moduleInvoker st); simpl; [done|].
    apply Forall_app. split; [done|]. by apply Forall_singleton.
Qed.

Ltac step_pres Hst H :=
  match goal with
  | |- context [registerFunction ?a ?b ?c ?d ?e ?f ?g ?h] =>
      let i := fresh "info" in
      let st1 := fresh "st" in
      pose proof (register_pres b c d e f g h ltac:(done) Hst) as H;
      destruct (registerFunction a b c d e f g h) as [i st1]; simpl in H
  | |- context [lookupOrRegister ?a ?b ?c ?d ?e ?f ?g] =>
      let i := fresh "info" in
      let st1 := fresh "st" in
      pose proof (lookupOrRegister_pres b c d e f g ltac:(done) Hst) as H;
      destruct (lookupOrRegister a b c d e f g) as [i st1]; simpl in H
  end.

Lemma visit_pres st v :
  Forall P (functions st) → Forall P (functions (visit relPath st v)).
Proof.
  intros Hst. destruct v as [specifiers source|callee fp|p e|p e|p e|node key loc c|d|d]; simpl.
  - done.
  - unfold visitCallExpression.
    destruct callee as [name [[[] importParent]|]|]; try done.
    destruct (importSpecifierLookup st !! name) as [specifier|]; [|done].
    pose proof (callerOf_pres st fp Hst) as H.
    destruct (ImportSpecifierBinding.type specifier); try done;
      by destruct (callerOf relPath st fp) as [caller st1].
  - unfold visitFunctionDeclaration. destruct (nodeId p) as [idName|]; [|done].
    step_pres Hst H. destruct e; [by apply markExport_pres | done].
  - unfold visitArrowFunctionExpression. step_pres Hst H.
    destruct e as [[]|], (inferArrowFunctionName p) as [n|]; try done;
      try destruct (String.eqb n ""); try done;
      repeat apply markExport_pres; done.
  - unfold visitFunctionExpression. step_pres Hst H.
    destruct e; [by apply markExport_pres | done].
  - unfold visitClassMethod. destruct key as [keyName|]; [|done].
    step_pres Hst H. destruct c as [[[className|] []]|]; try done.
    simpl. apply Forall_alter_pres; [|done]. intros f. apply Hmeth.
  - unfold visitExportNamedDeclaration.
    destruct d as [[node [idName|] loc|ds|node [idName|] loc|]|]; try done.
    + step_pres Hst H. by apply markExport_pres.
    + revert st Hst. induction ds as [|d ds IH]; intros st Hst; [done|].
      simpl. apply IH. unfold exportDeclarator. destruct d as [[idName|] []]; try done;
        step_pres Hst H; by apply markExport_pres.
    + step_pres Hst H. by apply markExport_pres.
  - unfold visitExportDefaultDeclaration. destruct d; try done;
      try (step_pres Hst H); by apply markExport_pres.
Qed.

Lemma traverse_pres visits : Forall P (functions (traverse relPath visits)).
Proof.
  unfold traverse. assert (Forall P (functions initial)) as H by constructor.
  revert H. generalize initial.
  induction visits as [|v visits IH]; intros st Hst; [done|].
  simpl. apply IH. by apply visit_pres.
Qed.

End PerRecord.

(** Every record of a file names that file and carries an identifier made
    of the path of the file. *)
Lemma analyzeFile_records relPath code visits f :
  f ∈ FileAnalysis.functions (analyzeFile relPath code visits) →
  FunctionInfo.filePath f = relPath
  ∧ ∃ tail, FunctionInfo.id f = relPath +:+ "::" +:+ tail.
Proof.
  intros Hf. simpl in Hf.
  eapply (proj1 (Forall_forall _ _) (traverse_pres relPath
            (fun f => FunctionInfo.filePath f = relPath
                      ∧ ∃ tail, FunctionInfo.id f = relPath +:+ "::" +:+ tail)
            _ _ _ _ _ visits)); [exact Hf].
  Unshelve.
  - intros. simpl. eauto.
  - simpl. eauto.
  - by intros f0 [? ?].
  - by intros n f0 [? ?].
  - by intros n f0 [? ?].
Qed.

End RecordFacts.

(** ** Inclusion of records: the grounds *)

Module MethodFacts.
Import JsString IncludeSpec Analyzer.

Lemma NamedByClass_more seen seen' f :
  (∀ v, v ∈ seen → v ∈ seen') → NamedByClass seen f → NamedByClass seen' f.
Proof.
  intros Hsub H Hexp Hname. destruct (H Hexp Hname) as (Hk & node & key & loc & c & Hin & He).
  split; [done|]. exists node, key, loc, c. split; [by apply Hsub | done].
Qed.

Section Step.
Variable relPath : string.
Variable seen : list Visit.
Abbreviation Inv := (Forall (NamedByClass seen)).

Lemma alter_named (g : FunctionInfo.t → FunctionInfo.t) i l :
  (∀ f, NamedByClass seen f → NamedByClass seen (g f)) → Inv l → Inv (alter g i l).
Proof.
  intros Hg Hl. apply Forall_forall. intros x [Hx|(y & Hy & ->)]%IncludeFacts.elem_of_alter.
  - by eapply Forall_forall.
  - apply Hg. eapply Forall_forall; [exact Hl|]. by eapply list_elem_of_lookup_2.
Qed.

Lemma setInclude_named f : NamedByClass seen f → NamedByClass seen (setInclude f).
Proof. done. Qed.

Lemma setExport_named n f : NamedByClass seen f → NamedByClass seen (setExport n f).
Proof. by intros _ Hexp. Qed.

Lemma register_named st node name kind exportName isExported loc :
  exportName = None ∨ isExported = true →
  Inv (functions st) →
  Inv (functions (registerFunction relPath st node name kind exportName isExported loc).2).
Proof.
  intros Hcase Hst.
  destruct (AnalyzerFacts.registerFunction_spec relPath st node name kind exportName
              isExported loc) as (info & counter & -> & _ & Hexp & _ & Hname). simpl.
  apply Forall_app. split; [done|]. apply Forall_singleton.
  intros Hinfo [n Hn]. destruct Hcase as [->| ->]; congruence.
Qed.

Lemma markExport_named st info exportName :
  Inv (functions st) → Inv (functions (markExport st info exportName)).
Proof.
  intros Hst. destruct info as [i|]; simpl; [|done]. apply alter_named; [|done].
  intros f. apply setExport_named.
Qed.

Lemma lookupOrRegister_named st node name kind exportName loc :
  Inv (functions st) →
  Inv (functions (lookupOrRegister relPath st node name kind exportName loc).2).
Proof.
  intros Hst. unfold lookupOrRegister.
  destruct (functionNodeLookup st !! node); [done|]. apply register_named; auto.
Qed.

Lemma callerOf_named st funcParent :
  Inv (functions st) → Inv (functions (callerOf relPath st funcParent).2).
Proof.
  intros Hst. unfold callerOf. destruct funcParent as [fp|].
  - destruct (functionNodeLookup st !! node fp) as [i|].
    + simpl. by apply alter_named.
    + destruct (inferFunctionName fp) as [n|].
      * pose proof (register_named st (node fp) n (inferFunctionKind (nodeType fp)) None false
                      (nodeLoc fp) (or_introl eq_refl) Hst) as H.
        destruct (registerFunction _ _ _ _ _ _ _ _) as [i st1]. simpl in *.
        by apply alter_named.
      * pose proof (register_named (withCounter st (S (functionCounter st))) (node fp)
                      ("anonymous_" +:+ ofNat (functionCounter st))
                      (inferFunctionKind (nodeType fp)) None false
                      (nodeLoc fp) (or_introl eq_refl) Hst) as H.
        destruct (registerFunction _ _ _ _ _ _ _ _) as [i st1]. simpl in *.
        by apply alter_named.
  - unfold ensureModuleInvoker. destruct (moduleInvoker st); simpl; [done|].
    apply Forall_app. split; [done|]. apply Forall_singleton. by intros _ [? ?].
Qed.

Ltac step_named Hst H :=
  match goal with
  | |- context [registerFunction ?a ?b ?c ?d ?e ?f ?g ?h] =>
      let i := fresh "info" in
      let st1 := fresh "st" in
      pose proof (register_named b c d e f g h ltac:(auto) Hst) as H;
      destruct (registerFunction a b c d e f g h) as [i st1]; simpl in H
  | |- context [lookupOrRegister ?a ?b ?c ?d ?e ?f ?g] =>
      let i := fresh "info" in
      let st1 := fresh "st" in
      pose proof (lookupOrRegister_named b c d e f g Hst) as H;
      destruct (lookupOrRegister a b c d e f g) as [i st1]; simpl in H
  end.

(** A visit that is among the visits seen keeps the invariant. *)
Lemma visit_named st v :
  v ∈ seen → Inv (functions st) → Inv (functions (visit relPath st v)).
Proof.
  intros Hv Hst.
  destruct v as [specifiers source|callee fp|p e|p e|p e|node key loc c|d|d]; simpl.
  - done.
  - unfold visitCallExpression.
    destruct callee as [name [[[] importParent]|]|]; try done.
    destruct (importSpecifierLookup st !! name) as [specifier|]; [|done].
    pose proof (callerOf_named st fp Hst) as H.
    destruct (ImportSpecifierBinding.type specifier); try done;
      by destruct (callerOf relPath st fp) as [caller st1].
  - unfold visitFunctionDeclaration. destruct (nodeId p) as [idName|]; [|done].
    step_named Hst H. destruct e; [by apply markExport_named | done].
  - unfold visitArrowFunctionExpression.
    pose proof (register_named st (node p) (from_option (fun n => n) "" (inferArrowFunctionName p))
                  arrow
                  (match e with Some ExportDefaultAncestor => Some "default" | _ => None end)
                  (match e with Some _ => true | None => false end) (nodeLoc p)) as H.
    lapply H; [clear H; intros H; specialize (H Hst)|by destruct e as [[]|]; auto].
    destruct (registerFunction _ _ _ _ _ _ _ _) as [info st1]. simpl in H.
    destruct e as [[]|], (inferArrowFunctionName p) as [n|]; try done;
      try destruct (String.eqb n ""); try done;
      repeat apply markExport_named; done.
  - unfold visitFunctionExpression.
    pose proof (register_named st (node p) (from_option (fun n => n) "" (inferFunctionName p))
                  function (if e then Some "default" else None) e (nodeLoc p)) as H.
    lapply H; [clear H; intros H; specialize (H Hst)|by destruct e; auto].
    destruct (registerFunction _ _ _ _ _ _ _ _) as [info st1]. simpl in H.
    destruct e; [by apply markExport_named | done].
  - unfold visitClassMethod. destruct key as [keyName|]; [|done].
    pose proof (register_named st node keyName method None false loc (or_introl eq_refl) Hst)
      as H.
    destruct (AnalyzerFacts.registerFunction_spec relPath st node keyName method None false loc)
      as (info & counter & E & _ & Hexp & Hkind & Hname).
    rewrite E in H |- *. simpl in H.
    destruct c as [[[className|] []]|]; try done. simpl.
    apply Forall_forall.
    intros x [Hx|(y & Hy & ->)]%IncludeFacts.elem_of_alter;
      [by eapply Forall_forall|].
    rewrite list_lookup_middle in Hy by done. injection Hy as <-.
    intros _ _. split; [done|]. exists node, keyName, loc, className. by split.
  - unfold visitExportNamedDeclaration.
    destruct d as [[node [idName|] loc|ds|node [idName|] loc|]|]; try done.
    + step_named Hst H. by apply markExport_named.
    + clear Hv. revert st Hst. induction ds as [|d ds IH]; intros st Hst; [done|].
      simpl. apply IH. unfold exportDeclarator. destruct d as [[idName|] []]; try done;
        step_named Hst H; by apply markExport_named.
    + step_named Hst H. by apply markExport_named.
  - unfold visitExportDefaultDeclaration. destruct d; try done;
      try (step_named Hst H); by apply markExport_named.
Qed.

Lemma visits_named visits st :
  (∀ v, v ∈ visits → v ∈ seen) →
  Inv (functions st) → Inv (functions (fold_left (visit relPath) visits st)).
Proof.
  revert st. induction visits as [|v visits IH]; intros st Hsub Hst; [done|].
  simpl. apply IH; [intros v' ?; apply Hsub; by right|].
  apply visit_named; [apply Hsub; left | done].
Qed.

End Step.

(** Every record of an analysed file that carries an export name without
    being exported is a method of an exported class. *)
Lemma analyzeFile_named relPath code visits f :
  f ∈ FileAnalysis.functions (analyzeFile relPath code visits) → NamedByClass visits f.
Proof.
  intros Hf. simpl in Hf.
  eapply (proj1 (Forall_forall _ _)); [|exact Hf].
  unfold traverse. apply visits_named; [done | constructor].
Qed.

End MethodFacts.

Module StaticRecordFacts.
Import Context FilesSpec IncludeSpec ExtractSpec RunSpec Pipeline.

(** A property that the analysis of every file gives to its records, and
    that does not look at the inclusion mark, holds of every record after the
    deterministic passes. *)
Lemma static_records P repo completion :
  Stable P →
  (∀ rel code visits f,
     outcomeOf repo rel = Parsed code visits →
     f ∈ FileAnalysis.functions (Analyzer.analyzeFile rel code visits) → P rel f) →
  RecordsAt P (files (staticContext repo completion)).
Proof.
  intros HP Hfile. unfold staticContext, staticPasses.
  eapply GraphFacts.RecordsAt_grown; [done | apply RunFacts.collectFunctionEdges_grown|].
  unfold Assembler.collectFunctionExports. simpl.
  set (ctx0 := extract repo completion (initialContext repo)).
  set (ctx1 := if decide (files ctx0 = []) then _ else ctx0).
  assert (files ctx1 = files ctx0) as Hf by (unfold ctx1; by destruct (decide _)).
  unfold Assembler.resolveImports.
  pose proof (ResolveFacts.resolveFiles_files (fileSetOf repo) (tsconfigPaths repo)
                (Assembler.mkResolveState (candidateCache ctx1) (fileEdges ctx1)
                   (unresolved ctx1)) (files ctx1)) as H.
  destruct (Assembler.resolveFiles _ _ _ _) as [st entries]. simpl in *.
  intros e' f (i & Hi)%list_elem_of_lookup_1 Hf'.
  pose proof (proj1 (Forall2_lookup _ _ _) H i) as Hl. rewrite Hi in Hl.
  inversion Hl as [e y Hrel He Hy|]; subst. destruct Hrel as (Hk & _ & Hfn & _).
  rewrite Hfn in Hf'. rewrite Hk. symmetry in He. rewrite Hf in He.
  apply list_elem_of_lookup_2 in He. destruct e as [k a].
  apply DeterminismFacts.extract_entries in He as [_ (code & visits & Hout & ->)].
  by eapply Hfile.
Qed.

End StaticRecordFacts.

Module IncludeClaims.
Import Context FilesSpec IncludeSpec ExtractSpec RunSpec Pipeline.

(** C4 (amended): in the context built by the deterministic passes, for
    whatever order the files finished in, an exported record is included; an
    included record is exported, or is a method that was given the export
    name [Class.method] because the traversal found its class directly under
    an [export] declaration, or carries the identifier of the caller of a
    recorded call to a name bound by an import, resolved or not. Identifiers
    are not unique in a file, and call-edge derivation marks the first record
    that carries the identifier of the caller, so the last ground is told by
    the identifier. The caller of every recorded call is the identifier of an
    included record of the file, and both ends of every function edge are
    function nodes. *)
Theorem inclusion_has_grounds repo completion :
  (∀ e f, e ∈ files (staticContext repo completion) →
          f ∈ FileAnalysis.functions e.2 →
          (FunctionInfo.isExported f = true → FunctionInfo.include f = true)
          ∧ (FunctionInfo.include f = true →
             Grounds (visitsOf repo e.1) (FileAnalysis.calls e.2) f))
  ∧ (∀ e c, e ∈ files (staticContext repo completion) →
            c ∈ FileAnalysis.calls e.2 →
            ∃ f, f ∈ FileAnalysis.functions e.2
                 ∧ FunctionInfo.id f = CallBinding.callerId c
                 ∧ FunctionInfo.include f = true)
  ∧ (∀ k edge, (k, edge) ∈ functionEdges (staticContext repo completion) →
               EdgeRecord.source edge ∈ nodeIds (files (staticContext repo completion))
               ∧ EdgeRecord.target edge ∈ nodeIds (files (staticContext repo completion))).
Proof.
  destruct (IncludeFacts.staticContext_Coherent repo completion) as (Hfs & _ & Hed).
  assert (RecordsAt (fun rel f => NamedByClass (visitsOf repo rel) f)
            (files (staticContext repo completion))) as Hnamed.
  { apply StaticRecordFacts.static_records; [by intros k f H|].
    intros rel code visits f Hout Hf. unfold visitsOf. rewrite Hout.
    by eapply MethodFacts.analyzeFile_named. }
  split; [|split].
  - intros e f He Hf. destruct (Hfs e He) as (HE & HJ & _). split; [by apply HE|].
    intros Hinc. destruct (HJ f Hf Hinc) as [Hexp|[[Hkind Hname]|Hcall]].
    + by left.
    + destruct (FunctionInfo.isExported f) eqn:Hexp; [by left|].
      right. left. split; [done|]. by apply (Hnamed e f He Hf).
    + by right; right.
  - intros e c He Hc. destruct (Hfs e He) as (_ & _ & HC). by apply HC.
  - exact Hed.
Qed.

(** C4 (as stated) fails: a file that calls, at top level, a name imported
    from a package outside the repository gets an included module
    pseudo-record, which is not exported and takes part in no edge. *)
Lemma unresolved_call_includes_caller :
  (∃ e f, e ∈ files ExternalCallExample.context
          ∧ f ∈ FileAnalysis.functions e.2
          ∧ FunctionInfo.id f = "main.ts::(module)"
          ∧ FunctionInfo.include f = true
          ∧ FunctionInfo.isExported f = false)
  ∧ functionEdges ExternalCallExample.context = []
  ∧ ¬ IncludedIffExportedOrInEdge ExternalCallExample.context.
Proof.
  assert (∃ e f, files ExternalCallExample.context = [e]
                 ∧ FileAnalysis.functions e.2 = [f]
                 ∧ FunctionInfo.id f = "main.ts::(module)"
                 ∧ FunctionInfo.include f = true
                 ∧ FunctionInfo.isExported f = false) as (e & f & He & Hf & Hid & Hinc & Hexp).
  { eexists _, _. split_and!; by vm_compute. }
  assert (functionEdges ExternalCallExample.context = []) as Hed by by vm_compute.
  split; [|split; [done|]].
  - exists e, f. rewrite He, Hf. split_and!; try done; by left.
  - intros H. destruct (proj1 (H e f ltac:(rewrite He; by left) ltac:(rewrite Hf; by left)) Hinc)
      as [?|(k & edge & Hin & _)]; [congruence|].
    rewrite Hed in Hin. by apply elem_of_nil in Hin.
Qed.

End IncludeClaims.

(** ** Edges, warnings, directories and counts *)

Module ShapeFacts.
Import JsString Context FilesSpec IncludeSpec ExtractSpec RunSpec KindSpec Pipeline.

(** *** An invariant of import resolution *)

Lemma resolveFiles_invariant fileSet paths (I : Assembler.ResolveState → Prop) st entries :
  (∀ relPath st binding,
     I st → I (Assembler.resolveBinding fileSet paths relPath st binding).1) →
  I st → I (Assembler.resolveFiles fileSet paths st entries).1.
Proof.
  intros Hstep. revert st.
  induction entries as [|[relPath analysis] entries IH]; intros st Hst; simpl; [done|].
  assert (I (Assembler.resolveBindings fileSet paths relPath st
               (FileAnalysis.imports analysis)).1) as H1.
  { clear IH. revert st Hst. generalize (FileAnalysis.imports analysis).
    intros bindings. induction bindings as [|b bindings IHb]; intros st Hst; simpl; [done|].
    pose proof (Hstep relPath st b Hst) as Hb.
    destruct (Assembler.resolveBinding _ _ _ _ _) as [st1 b']. simpl in Hb.
    pose proof (IHb st1 Hb) as Hrest.
    by destruct (Assembler.resolveBindings _ _ _ _ _) as [st2 rest']. }
  destruct (Assembler.resolveBindings _ _ _ _ _) as [st1 imports']. simpl in H1.
  pose proof (IH st1 H1) as H2.
  by destruct (Assembler.resolveFiles _ _ _ _) as [st2 rest'].
Qed.

(** *** The shape of file edges *)

Lemma resolveImports_FileEdgeShape fileSet paths ctx :
  (∀ k e, (k, e) ∈ fileEdges ctx → FileEdgeShape e) →
  ∀ k e, (k, e) ∈ fileEdges (Assembler.resolveImports fileSet paths ctx) → FileEdgeShape e.
Proof.
  intros H. unfold Assembler.resolveImports.
  pose proof (resolveFiles_invariant fileSet paths
                (fun st => ∀ k e, (k, e) ∈ Assembler.rs_fileEdges st → FileEdgeShape e)
                (Assembler.mkResolveState (candidateCache ctx) (fileEdges ctx) (unresolved ctx))
                (files ctx)) as Hinv.
  destruct (Assembler.resolveFiles _ _ _ _) as [st entries]. simpl in *.
  apply Hinv; [|done]. clear. intros relPath st binding Hst.
  unfold Assembler.resolveBinding.
  destruct (Resolver.resolve _ _ _ _ _) as [resolved cache].
  destruct (truthy resolved); simpl.
  - intros k e [[-> ->]|Hin]%EdgeFacts.elem_of_oset; [|by eapply Hst].
    destruct (oget _ _) as [existing|] eqn:Hex; simpl; [|done].
    apply oget_Some_elem_of in Hex. by apply Hst in Hex.
  - by destruct (negb _).
Qed.

Lemma mergeResult_FileEdgeShape ctx result :
  (∀ k e, (k, e) ∈ fileEdges ctx → FileEdgeShape e) →
  ∀ k e, (k, e) ∈ fileEdges (Enrichment.mergeResult ctx result) → FileEdgeShape e.
Proof.
  intros H. rewrite EdgeFacts.mergeResult_fileEdges.
  apply (ProposalFacts.fold_left_invariant
           (fun st : list (string * FileEdgeRecord) * nat =>
              ∀ k e, (k, e) ∈ st.1 → FileEdgeShape e)); [done|].
  intros [edges n] p _ Hst. unfold Enrichment.mergeFileEdge.
  destruct (_ || _); [done|].
  destruct (oget edges _) as [existing|] eqn:Hex; simpl in *;
    intros k e [[-> ->]|Hin]%EdgeFacts.elem_of_oset; try (by eapply Hst).
  - apply oget_Some_elem_of in Hex. apply Hst in Hex.
    unfold Enrichment.backfillConfidence. by destruct (EdgeRecord.confidence existing).
  - by split.
Qed.

Lemma final_FileEdgeShape host repo completion k e :
  (k, e) ∈ fileEdges (finalContext host repo completion) → FileEdgeShape e.
Proof.
  unfold finalContext, assemble.
  destruct (EdgeRun.collectUnresolvedWarnings_edges
              (Enrichment.enrichRelationshipsWithLLM host
                 (staticPasses repo (extract repo completion (initialContext repo)))))
    as [-> _].
  assert (∀ k e, (k, e) ∈ fileEdges (staticPasses repo
                                       (extract repo completion (initialContext repo))) →
                 FileEdgeShape e) as Hstatic.
  { unfold staticPasses. rewrite EdgeFacts.collectFunctionEdges_fileEdges.
    unfold Assembler.collectFunctionExports. simpl.
    apply resolveImports_FileEdgeShape.
    destruct (EdgeRun.extract_edges repo completion (initialContext repo)) as [He _].
    intros k' e'. case_decide; simpl; rewrite He; simpl; intros Hin;
      by apply elem_of_nil in Hin. }
  revert k e. unfold Enrichment.enrichRelationshipsWithLLM.
  destruct (Llm.inferRelationshipsWithLLM _ _) as [message|[result|]]; simpl; [done| |].
  - by apply mergeResult_FileEdgeShape.
  - by destruct (negb _).
Qed.

(** *** The shape of function edges *)

Lemma edgeForCall_FunctionEdgeShape filePos specifierMap ctx entry :
  (∀ k e, (k, e) ∈ functionEdges ctx → FunctionEdgeShape e) →
  ∀ k e, (k, e) ∈ functionEdges (Assembler.edgeForCall filePos specifierMap ctx entry) →
         FunctionEdgeShape e.
Proof.
  intros H. unfold Assembler.edgeForCall. destruct entry as [i call].
  destruct (specifierMap !! _) as [spec|]; [|done].
  destruct (negb _); [done|].
  match goal with |- context [match ?t with Some _ => _ | None => _ end] =>
    destruct t as [targetFn|] end; [|done].
  destruct (Assembler.findCaller _ _) as [j|]; [|done].
  simpl. intros k e [[-> ->]|Hin]%EdgeFacts.elem_of_oset; [|by eapply H].
  destruct (oget _ _) as [existing|] eqn:Hex; simpl; [|by split].
  apply oget_Some_elem_of in Hex. by apply H in Hex.
Qed.

Lemma collectFunctionEdges_FunctionEdgeShape ctx :
  (∀ k e, (k, e) ∈ functionEdges ctx → FunctionEdgeShape e) →
  ∀ k e, (k, e) ∈ functionEdges (Assembler.collectFunctionEdges ctx) → FunctionEdgeShape e.
Proof.
  intros H. unfold Assembler.collectFunctionEdges.
  apply (ProposalFacts.fold_left_invariant
           (fun c => ∀ k e, (k, e) ∈ functionEdges c → FunctionEdgeShape e)); [done|].
  intros c a _ Hc. unfold Assembler.edgesForFile.
  apply (ProposalFacts.fold_left_invariant
           (fun c => ∀ k e, (k, e) ∈ functionEdges c → FunctionEdgeShape e)); [done|].
  intros c' a' _ Hc'. by apply edgeForCall_FunctionEdgeShape.
Qed.

Lemma functionEdgeKindOf_cases relationship :
  Enrichment.functionEdgeKindOf relationship = fn_invokes
  ∨ Enrichment.functionEdgeKindOf relationship = fn_llm_reference.
Proof. unfold Enrichment.functionEdgeKindOf. destruct (_ || _); auto. Qed.

Lemma mergeResult_FunctionEdgeShape ctx result :
  (∀ k e, (k, e) ∈ functionEdges ctx → FunctionEdgeShape e) →
  ∀ k e, (k, e) ∈ functionEdges (Enrichment.mergeResult ctx result) → FunctionEdgeShape e.
Proof.
  intros H. rewrite EdgeFacts.mergeResult_functionEdges.
  apply (ProposalFacts.fold_left_invariant
           (fun st => ∀ k e, (k, e) ∈ Enrichment.fm_edges st → FunctionEdgeShape e)); [done|].
  intros st p _ Hst. unfold Enrichment.mergeFunctionEdge.
  destruct (_ !! _) as [sourceFn|]; [|done].
  destruct (_ !! _) as [targetFn|]; [|done].
  destruct (oget _ _) as [existing|] eqn:Hex; simpl;
    intros k e [[-> ->]|Hin]%EdgeFacts.elem_of_oset; try (by eapply Hst).
  - apply oget_Some_elem_of in Hex. apply Hst in Hex.
    unfold Enrichment.mergeReason, Enrichment.backfillConfidence.
    by destruct (EdgeRecord.confidence existing), (truthy _).
  - split; simpl; [done|]. intros _. apply functionEdgeKindOf_cases.
Qed.

Lemma final_FunctionEdgeShape host repo completion k e :
  (k, e) ∈ functionEdges (finalContext host repo completion) → FunctionEdgeShape e.
Proof.
  unfold finalContext, assemble.
  destruct (EdgeRun.collectUnresolvedWarnings_edges
              (Enrichment.enrichRelationshipsWithLLM host
                 (staticPasses repo (extract repo completion (initialContext repo)))))
    as [_ ->].
  assert (∀ k e, (k, e) ∈ functionEdges (staticPasses repo
                                           (extract repo completion (initialContext repo))) →
                 FunctionEdgeShape e) as Hstatic.
  { unfold staticPasses. apply collectFunctionEdges_FunctionEdgeShape.
    unfold Assembler.collectFunctionExports. simpl.
    intros k' e'. rewrite EdgeFacts.resolveImports_functionEdges.
    destruct (EdgeRun.extract_edges repo completion (initialContext repo)) as [_ He].
    case_decide; simpl; rewrite He; simpl; intros Hin; by apply elem_of_nil in Hin. }
  revert k e. unfold Enrichment.enrichRelationshipsWithLLM.
  destruct (Llm.inferRelationshipsWithLLM _ _) as [message|[result|]]; simpl; [done| |].
  - by apply mergeResult_FunctionEdgeShape.
  - by destruct (negb _).
Qed.

Lemma elem_of_ovalues {V} (m : list (string * V)) v : v ∈ ovalues m → ∃ k, (k, v) ∈ m.
Proof.
  unfold ovalues. intros ([k v'] & -> & Hin)%list_elem_of_fmap. eauto.
Qed.

(** *** Warnings are only added *)

Lemma settle_warnings repo ctx rel :
  warnings ctx `prefix_of` warnings (settle repo ctx rel).
Proof.
  unfold settle. destruct (outcomeOf repo rel); simpl; [by apply prefix_app_r | done].
Qed.

Lemma extract_warnings repo completion ctx :
  warnings ctx `prefix_of` warnings (extract repo completion ctx).
Proof.
  unfold extract. revert ctx.
  induction completion as [|rel completion IH]; intros ctx; simpl; [done|].
  etrans; [apply settle_warnings | apply IH].
Qed.

Lemma extract_failure repo completion ctx rel message :
  rel ∈ completion → outcomeOf repo rel = AnalysisFails message →
  ("Failed to analyze " +:+ rel +:+ ": " +:+ message) ∈ warnings (extract repo completion ctx).
Proof.
  unfold extract. revert ctx.
  induction completion as [|x completion IH]; intros ctx Hin Hout;
    [by apply elem_of_nil in Hin|].
  simpl. apply elem_of_cons in Hin as [<-|Hin]; [|by apply IH].
  destruct (extract_warnings repo completion (settle repo ctx rel)) as [k Hk].
  unfold extract in Hk. rewrite Hk. apply elem_of_app. left.
  unfold settle. rewrite Hout. simpl. apply elem_of_app. right. left.
Qed.

Lemma edgeForCall_warnings filePos specifierMap ctx entry :
  warnings (Assembler.edgeForCall filePos specifierMap ctx entry) = warnings ctx.
Proof.
  unfold Assembler.edgeForCall. destruct entry as [k call].
  destruct (specifierMap !! _) as [spec|]; [|done].
  destruct (negb _); [done|].
  match goal with |- context [match ?t with Some _ => _ | None => _ end] =>
    destruct t as [targetFn|] end; [|done].
  by destruct (Assembler.findCaller _ _) as [j|].
Qed.

Lemma collectFunctionEdges_warnings ctx :
  warnings (Assembler.collectFunctionEdges ctx) = warnings ctx.
Proof.
  unfold Assembler.collectFunctionEdges.
  apply (ProposalFacts.fold_left_invariant (fun c => warnings c = warnings ctx)); [done|].
  intros c a _ Hc. unfold Assembler.edgesForFile.
  apply (ProposalFacts.fold_left_invariant (fun c => warnings c = warnings ctx)); [done|].
  intros c' a' _ Hc'. by rewrite edgeForCall_warnings.
Qed.

Lemma staticPasses_warnings repo ctx :
  warnings ctx `prefix_of` warnings (staticPasses repo ctx).
Proof.
  unfold staticPasses. rewrite collectFunctionEdges_warnings.
  unfold Assembler.collectFunctionExports, Assembler.resolveImports. simpl.
  destruct (Assembler.resolveFiles _ _ _ _) as [st entries]. simpl.
  case_decide; simpl; [by apply prefix_app_r | done].
Qed.

Lemma enrich_warnings host ctx :
  warnings ctx `prefix_of` warnings (Enrichment.enrichRelationshipsWithLLM host ctx).
Proof.
  unfold Enrichment.enrichRelationshipsWithLLM.
  destruct (Llm.inferRelationshipsWithLLM _ _) as [message|[result|]]; simpl.
  - by apply prefix_app_r.
  - unfold Enrichment.mergeResult. destruct (fold_left _ _ _) as [es n]. simpl.
    destruct (_ || _); [rewrite <- app_assoc|]; by apply prefix_app_r.
  - destruct (negb _); simpl; [by apply prefix_app_r | done].
Qed.

Lemma collectUnresolvedWarnings_warnings ctx :
  warnings ctx `prefix_of` warnings (collectUnresolvedWarnings ctx)
  ∧ List.length (warnings (collectUnresolvedWarnings ctx))
    = List.length (warnings ctx) + List.length (unresolved ctx).
Proof.
  unfold collectUnresolvedWarnings. generalize (unresolved ctx). intros l. revert ctx.
  induction l as [|[file specifiers] l IH]; intros ctx; simpl; [split; [done|lia]|].
  match goal with |- context [fold_left ?f l ?c] => destruct (IH c) as [H1 H2] end.
  split.
  - etrans; [|exact H1]. by apply prefix_app_r.
  - rewrite H2. simpl. rewrite length_app. simpl. lia.
Qed.

Lemma final_warnings host repo completion :
  warnings (extract repo completion (initialContext repo))
  `prefix_of` warnings (finalContext host repo completion).
Proof.
  unfold finalContext, assemble.
  etrans; [apply staticPasses_warnings|].
  etrans; [apply enrich_warnings|]. apply collectUnresolvedWarnings_warnings.
Qed.

(** *** Directories *)

Lemma setAdd_fold (l s : list string) :
  NoDup s →
  NoDup (fold_left setAdd l s)
  ∧ ∀ x, x ∈ fold_left setAdd l s ↔ x ∈ s ∨ x ∈ l.
Proof.
  revert s. induction l as [|a l IH]; intros s Hs; simpl.
  - split; [done|]. intros x. split; [auto|]. intros [?|H]; [done | by apply elem_of_nil in H].
  - unfold setAdd at 2 4. case_bool_decide as Ha.
    + destruct (IH s Hs) as [H1 H2]. split; [done|]. intros x. rewrite H2, elem_of_cons.
      split; [intros [?|?]; auto|]. intros [?|[->|?]]; auto.
    + destruct (IH (s ++ [a])) as [H1 H2].
      { apply NoDup_app. split_and!; [done | | apply NoDup_singleton].
        intros y Hy ->%list_elem_of_singleton. done. }
      split; [done|]. intros x. rewrite H2, elem_of_app, list_elem_of_singleton, elem_of_cons.
      tauto.
Qed.

Lemma directoriesOf_spec repo :
  NoDup (directoriesOf repo)
  ∧ "." ∈ directoriesOf repo
  ∧ "" ∉ directoriesOf repo.
Proof.
  unfold directoriesOf.
  destruct (setAdd_fold
              (map (fun rel => if String.eqb rel "" then "." else rel) (directoryEntries repo)
               ++ ["."]) [] (NoDup_nil_2)) as [H1 H2].
  split; [done|]. split.
  - apply H2. right. apply elem_of_app. right. left.
  - intros [H|[H|H]%elem_of_app]%H2.
    + by apply elem_of_nil in H.
    + apply list_elem_of_fmap in H as (rel & Hrel & _).
      destruct (String.eqb_spec rel ""); [done | by subst].
    + by apply list_elem_of_singleton in H.
Qed.

Lemma directoryNode_id repo relPath :
  relPath ≠ "" → FileNode.id (directoryNode repo relPath) = "dir:" +:+ relPath.
Proof.
  intros Hne. unfold directoryNode. simpl.
  destruct (String.eqb_spec relPath ".") as [->|_]; simpl; [done|].
  by destruct (String.eqb_spec relPath "").
Qed.

Lemma directoryNode_ids repo :
  NoDup (map FileNode.id (map (directoryNode repo) (directoriesOf repo))).
Proof.
  destruct (directoriesOf_spec repo) as (Hnd & _ & Hne).
  induction (directoriesOf repo) as [|d ds IH]; [constructor|].
  apply NoDup_cons in Hnd as [Hd Hds]. cbn [map]. apply NoDup_cons. split.
  - intros (n & Hid & (d' & -> & Hd')%list_elem_of_fmap)%list_elem_of_fmap.
    rewrite (directoryNode_id repo d), (directoryNode_id repo d') in Hid.
    + injection Hid as Hid. change (d = d') in Hid. by subst.
    + intros ->. apply Hne. by right.
    + intros ->. apply Hne. left.
  - apply IH; [done|]. intros H. apply Hne. by right.
Qed.

(** *** Counting the parsed files *)

Lemma final_okeys host repo completion :
  okeys (files (finalContext host repo completion))
  = okeys (files (extract repo completion (initialContext repo))).
Proof.
  unfold finalContext, assemble.
  by rewrite RunFacts.collectUnresolvedWarnings_files, RunFacts.enrich_okeys,
    RunFacts.staticPasses_okeys.
Qed.

Lemma scheduled_is_listed repo completion rel :
  schedule repo completion → rel ∈ completion → rel ∈ fileEntries repo.
Proof.
  unfold schedule, parseTargets. intros Hs Hrel. rewrite Hs in Hrel.
  by apply list_elem_of_filter in Hrel as [_ ?].
Qed.

Lemma parsed_file_nodes host repo completion :
  schedule repo completion → NoDup (fileEntries repo) →
  filter (fun rel => rel ∈ okeys (files (finalContext host repo completion)))
    (fileEntries repo)
  ≡ₚ okeys (files (finalContext host repo completion)).
Proof.
  intros Hs Hnd. apply NoDup_Permutation.
  - by apply NoDup_filter.
  - rewrite final_okeys.
    by destruct (RunFacts.extract_files repo completion (initialContext repo)
                   (RunFacts.WellExtracted_nil repo)) as [[? _] _].
  - intros rel. rewrite list_elem_of_filter. split; [by intros [? _]|].
    intros Hrel. split; [done|].
    apply (RunFacts.run_okeys host repo completion rel) in Hrel as [Hrel _].
    by eapply scheduled_is_listed.
Qed.

End ShapeFacts.

Module RunProperties.
Import JsString Context FilesSpec IncludeSpec ExtractSpec RunSpec KindSpec Pipeline.

(** X1: the function graph of a response is closed: the identifiers of the
    function nodes are distinct, and both ends of every function edge,
    static or proposed by the model, are identifiers of function nodes. *)
Theorem function_graph_is_closed host clock repo completion :
  fileEntries repo ≠ [] →
  ∃ r, analyzeRepositoryGraph host clock repo completion = Returns r
       ∧ NoDup (map FunctionNode.id (AnalyzeResponseBody.functionNodes r))
       ∧ ∀ e, e ∈ AnalyzeResponseBody.functionEdges r →
              GraphEdge.source e ∈ map FunctionNode.id (AnalyzeResponseBody.functionNodes r)
              ∧ GraphEdge.target e
                ∈ map FunctionNode.id (AnalyzeResponseBody.functionNodes r).
Proof.
  intros Hfiles. eexists. split; [by apply GraphFacts.run_returns|].
  rewrite DeterminismFacts.respond_functionNode_ids. split.
  - apply FilesFacts.nodeIds_spec.
  - intros e (rec & -> & (k & Hin)%ShapeFacts.elem_of_ovalues)%list_elem_of_fmap.
    simpl. by eapply GraphFacts.final_EndpointsIncluded.
Qed.

Lemma function_graph_is_closed_witness :
  ∃ r, analyzeRepositoryGraph Examples.offlineHost Examples.clock0 ScheduleExample.repo
         ScheduleExample.second = Returns r
       ∧ NoDup (map FunctionNode.id (AnalyzeResponseBody.functionNodes r))
       ∧ ∀ e, e ∈ AnalyzeResponseBody.functionEdges r →
              GraphEdge.source e ∈ map FunctionNode.id (AnalyzeResponseBody.functionNodes r)
              ∧ GraphEdge.target e
                ∈ map FunctionNode.id (AnalyzeResponseBody.functionNodes r).
Proof.
  apply (function_graph_is_closed Examples.offlineHost Examples.clock0 ScheduleExample.repo
           ScheduleExample.second).
  discriminate.
Defined.

(** X2: every function node belongs to a file node: when the files of the
    parallel phase are the supported files of the listing, the [filePath] of
    each function node is the identifier of a node of kind [file] of the
    file graph, and the identifier of the function node starts with that
    path and two colons. *)
Theorem function_nodes_belong_to_file_nodes host clock repo completion :
  fileEntries repo ≠ [] →
  schedule repo completion →
  ∃ r, analyzeRepositoryGraph host clock repo completion = Returns r
       ∧ ∀ n, n ∈ AnalyzeResponseBody.functionNodes r →
              (∃ fileNode, fileNode ∈ AnalyzeResponseBody.fileNodes r
                           ∧ FileNode.id fileNode = FunctionNode.filePath n
                           ∧ FileNode.kind fileNode = kind_file)
              ∧ ∃ tail, FunctionNode.id n = FunctionNode.filePath n +:+ "::" +:+ tail.
Proof.
  intros Hfiles Hs. eexists. split; [by apply GraphFacts.run_returns|].
  intros n Hn. simpl in Hn.
  apply GraphFacts.functionNodes_records in Hn
    as (e & f & He & Hf & _ & Hid & Hpath & _).
  assert (FunctionInfo.filePath f = e.1
          ∧ ∃ tail, FunctionInfo.id f = e.1 +:+ "::" +:+ tail) as [Hfp Htail].
  { apply (GraphFacts.run_records
             (fun k f => FunctionInfo.filePath f = k
                         ∧ ∃ tail, FunctionInfo.id f = k +:+ "::" +:+ tail)
             host repo completion); [by intros k g [? ?] | | done | done].
    intros rel code visits g _ Hg. by eapply RecordFacts.analyzeFile_records. }
  rewrite Hid, Hpath, Hfp. split; [|done].
  exists (fileNode repo e.1). split; [|done].
  simpl. apply elem_of_app. right. apply list_elem_of_fmap. exists e.1. split; [done|].
  assert (e.1 ∈ okeys (files (finalContext host repo completion))) as Hk.
  { apply list_elem_of_fmap. by exists e. }
  apply list_elem_of_filter. split; [done|].
  apply (RunFacts.run_okeys host repo completion) in Hk as [Hk _].
  by eapply ShapeFacts.scheduled_is_listed.
Qed.

Lemma function_nodes_belong_to_file_nodes_witness :
  ∃ r, analyzeRepositoryGraph failingHost Examples.clock0 ScheduleExample.repo
         ScheduleExample.first = Returns r
       ∧ ∀ n, n ∈ AnalyzeResponseBody.functionNodes r →
              (∃ fileNode, fileNode ∈ AnalyzeResponseBody.fileNodes r
                           ∧ FileNode.id fileNode = FunctionNode.filePath n
                           ∧ FileNode.kind fileNode = kind_file)
              ∧ ∃ tail, FunctionNode.id n = FunctionNode.filePath n +:+ "::" +:+ tail.
Proof.
  apply (function_nodes_belong_to_file_nodes failingHost Examples.clock0
           ScheduleExample.repo ScheduleExample.first).
  - discriminate.
  - unfold schedule.
    assert (parseTargets ScheduleExample.repo = ScheduleExample.first) as ->
      by (vm_compute; reflexivity).
    reflexivity.
Defined.

(** X3: the kinds of the edges of a response. No file edge carries a
    reason, and a static file edge has the kind [imports]. A static function
    edge has the kind [imports] as well: the kind [invokes] is given to edges
    proposed by the model only, and no edge has the kind [reexports]. *)
Theorem edge_kinds_of_a_run host clock repo completion :
  fileEntries repo ≠ [] →
  ∃ r, analyzeRepositoryGraph host clock repo completion = Returns r
       ∧ (∀ e, e ∈ AnalyzeResponseBody.fileEdges r →
               GraphEdge.reason e = None
               ∧ (GraphEdge.sourceType e = static → GraphEdge.kind e = file_imports))
       ∧ (∀ e, e ∈ AnalyzeResponseBody.functionEdges r →
               GraphEdge.kind e ≠ fn_reexports
               ∧ (GraphEdge.sourceType e = static → GraphEdge.kind e = fn_imports)
               ∧ (GraphEdge.kind e = fn_invokes → GraphEdge.sourceType e = llm)).
Proof.
  intros Hfiles. eexists. split; [by apply GraphFacts.run_returns|]. split.
  - intros e (rec & -> & (k & Hin)%ShapeFacts.elem_of_ovalues)%list_elem_of_fmap.
    simpl. by apply (ShapeFacts.final_FileEdgeShape host repo completion k).
  - intros e (rec & -> & (k & Hin)%ShapeFacts.elem_of_ovalues)%list_elem_of_fmap.
    simpl. destruct (ShapeFacts.final_FunctionEdgeShape host repo completion k rec Hin)
      as [Hstatic Hllm].
    destruct (EdgeRecord.sourceType rec) eqn:Hst.
    + rewrite (Hstatic eq_refl). by split_and!.
    + destruct (Hllm eq_refl) as [-> | ->]; by split_and!.
Qed.

Lemma edge_kinds_of_a_run_witness :
  ∃ r, analyzeRepositoryGraph Examples.offlineHost Examples.clock0 ScheduleExample.repo
         ScheduleExample.first = Returns r
       ∧ (∀ e, e ∈ AnalyzeResponseBody.fileEdges r →
               GraphEdge.reason e = None
               ∧ (GraphEdge.sourceType e = static → GraphEdge.kind e = file_imports))
       ∧ (∀ e, e ∈ AnalyzeResponseBody.functionEdges r →
               GraphEdge.kind e ≠ fn_reexports
               ∧ (GraphEdge.sourceType e = static → GraphEdge.kind e = fn_imports)
               ∧ (GraphEdge.kind e = fn_invokes → GraphEdge.sourceType e = llm)).
Proof.
  apply (edge_kinds_of_a_run Examples.offlineHost Examples.clock0 ScheduleExample.repo
           ScheduleExample.first).
  discriminate.
Defined.

(** X4: the counts of a response agree with its graphs. When the listing
    holds no path twice and the files of the parallel phase are its
    supported files, the file graph has [directoryCount] nodes of kind
    [directory] followed by [fileCount] nodes of kind [file], and
    [functionCount] is the number of function nodes. *)
Theorem counts_agree_with_graphs host clock repo completion :
  fileEntries repo ≠ [] →
  NoDup (fileEntries repo) →
  schedule repo completion →
  ∃ r, analyzeRepositoryGraph host clock repo completion = Returns r
       ∧ List.length (AnalyzeResponseBody.fileNodes r)
         = directoryCount (AnalyzeResponseBody.stats r)
           + fileCount (AnalyzeResponseBody.stats r)
       ∧ Forall (fun n => FileNode.kind n = kind_directory)
           (take (directoryCount (AnalyzeResponseBody.stats r))
              (AnalyzeResponseBody.fileNodes r))
       ∧ Forall (fun n => FileNode.kind n = kind_file)
           (drop (directoryCount (AnalyzeResponseBody.stats r))
              (AnalyzeResponseBody.fileNodes r))
       ∧ List.length (AnalyzeResponseBody.functionNodes r)
         = functionCount (AnalyzeResponseBody.stats r).
Proof.
  intros Hfiles Hnd Hs. eexists. split; [by apply GraphFacts.run_returns|].
  fold (finalContext host repo completion). simpl.
  split_and!.
  - rewrite length_app, !length_map. f_equal.
    by rewrite (ShapeFacts.parsed_file_nodes host repo completion Hs Hnd).
  - rewrite take_app_length'; [|done].
    apply Forall_forall. by intros n (d & -> & _)%list_elem_of_fmap.
  - rewrite drop_app_length'; [|done].
    apply Forall_forall. by intros n (d & -> & _)%list_elem_of_fmap.
  - done.
Qed.

Lemma counts_agree_with_graphs_witness :
  ∃ r, analyzeRepositoryGraph failingHost Examples.clock0 brokenRepo
         ["src/bad.ts"; "src/ok.ts"] = Returns r
       ∧ List.length (AnalyzeResponseBody.fileNodes r)
         = directoryCount (AnalyzeResponseBody.stats r)
           + fileCount (AnalyzeResponseBody.stats r)
       ∧ Forall (fun n => FileNode.kind n = kind_directory)
           (take (directoryCount (AnalyzeResponseBody.stats r))
              (AnalyzeResponseBody.fileNodes r))
       ∧ Forall (fun n => FileNode.kind n = kind_file)
           (drop (directoryCount (AnalyzeResponseBody.stats r))
              (AnalyzeResponseBody.fileNodes r))
       ∧ List.length (AnalyzeResponseBody.functionNodes r)
         = functionCount (AnalyzeResponseBody.stats r).
Proof.
  apply (counts_agree_with_graphs failingHost Examples.clock0 brokenRepo
           ["src/bad.ts"; "src/ok.ts"]).
  - discriminate.
  - apply (bool_decide_unpack _). vm_compute. exact I.
  - unfold schedule.
    assert (parseTargets brokenRepo = ["src/ok.ts"; "src/bad.ts"]) as ->
      by (vm_compute; reflexivity).
    apply perm_swap.
Defined.

(** X5: the directory nodes of a response have distinct identifiers, none
    of them made of an empty path, and the node of the root, [dir:.], is
    always among them, labelled with the name of the repository. *)
Theorem directory_nodes_of_a_run host clock repo completion :
  fileEntries repo ≠ [] →
  ∃ r, analyzeRepositoryGraph host clock repo completion = Returns r
       ∧ NoDup (map FileNode.id
                  (take (directoryCount (AnalyzeResponseBody.stats r))
                     (AnalyzeResponseBody.fileNodes r)))
       ∧ FileNode.mk "dir:." (repoLabel repo +:+ "/") "." kind_directory
         ∈ take (directoryCount (AnalyzeResponseBody.stats r))
             (AnalyzeResponseBody.fileNodes r)
       ∧ "dir:" ∉ map FileNode.id
                    (take (directoryCount (AnalyzeResponseBody.stats r))
                       (AnalyzeResponseBody.fileNodes r)).
Proof.
  intros Hfiles. eexists. split; [by apply GraphFacts.run_returns|]. simpl.
  rewrite take_app_length'; [|by rewrite length_map].
  destruct (ShapeFacts.directoriesOf_spec repo) as (_ & Hroot & Hempty).
  split_and!.
  - apply ShapeFacts.directoryNode_ids.
  - apply list_elem_of_fmap. by exists ".".
  - intros (n & Hid & (d & -> & Hd)%list_elem_of_fmap)%list_elem_of_fmap.
    rewrite ShapeFacts.directoryNode_id in Hid; [|by intros ->].
    injection Hid as Hid. change ("" = d) in Hid. by subst.
Qed.

Lemma directory_nodes_of_a_run_witness :
  ∃ r, analyzeRepositoryGraph failingHost Examples.clock0 brokenRepo
         ["src/bad.ts"; "src/ok.ts"] = Returns r
       ∧ NoDup (map FileNode.id
                  (take (directoryCount (AnalyzeResponseBody.stats r))
                     (AnalyzeResponseBody.fileNodes r)))
       ∧ FileNode.mk "dir:." (repoLabel brokenRepo +:+ "/") "." kind_directory
         ∈ take (directoryCount (AnalyzeResponseBody.stats r))
             (AnalyzeResponseBody.fileNodes r)
       ∧ "dir:" ∉ map FileNode.id
                    (take (directoryCount (AnalyzeResponseBody.stats r))
                       (AnalyzeResponseBody.fileNodes r)).
Proof.
  apply (directory_nodes_of_a_run failingHost Examples.clock0 brokenRepo
           ["src/bad.ts"; "src/ok.ts"]).
  discriminate.
Defined.

(** X6: a file that cannot be read or parsed does not stop the run: the
    response carries the warning [Failed to analyze <path>: <message>] for
    it, the file has no node of kind [file], and for a repository that was
    cloned the first warning is the notice of the clone. *)
Theorem failed_files_are_reported host clock repo completion rel message :
  fileEntries repo ≠ [] →
  rel ∈ completion →
  outcomeOf repo rel = AnalysisFails message →
  ∃ r, analyzeRepositoryGraph host clock repo completion = Returns r
       ∧ ("Failed to analyze " +:+ rel +:+ ": " +:+ message)
         ∈ AnalyzeResponseBody.warnings r
       ∧ (FileNode.mk rel
            (if String.eqb (PosixPath.basename rel) "" then repoLabel repo
             else PosixPath.basename rel) rel kind_file
          ∉ AnalyzeResponseBody.fileNodes r)
       ∧ (isRemote repo = true →
          head (AnalyzeResponseBody.warnings r)
          = Some "Repository cloned into local cache (.gitweb-cache/repos).").
Proof.
  intros Hfiles Hrel Hout. eexists. split; [by apply GraphFacts.run_returns|].
  fold (finalContext host repo completion). simpl.
  destruct (ShapeFacts.final_warnings host repo completion) as [added ->].
  split_and!.
  - apply elem_of_app. left. by apply ShapeFacts.extract_failure.
  - intros [Hin|Hin]%elem_of_app.
    + apply list_elem_of_fmap in Hin as (d & Hd & _). discriminate Hd.
    + apply list_elem_of_fmap in Hin as (x & [= <-] & Hx).
      apply list_elem_of_filter in Hx as [Hx _].
      apply (RunFacts.run_okeys host repo completion) in Hx as [_ (code & visits & Hp)].
      congruence.
  - intros Hremote.
    destruct (ShapeFacts.extract_warnings repo completion (initialContext repo)) as [k ->].
    simpl. by rewrite Hremote.
Qed.

Lemma failed_files_are_reported_witness :
  ∃ r, analyzeRepositoryGraph failingHost Examples.clock0 brokenRepo
         ["src/bad.ts"; "src/ok.ts"] = Returns r
       ∧ ("Failed to analyze " +:+ "src/bad.ts" +:+ ": " +:+ "Unexpected token (1:0)")
         ∈ AnalyzeResponseBody.warnings r
       ∧ (FileNode.mk "src/bad.ts"
            (if String.eqb (PosixPath.basename "src/bad.ts") "" then repoLabel brokenRepo
             else PosixPath.basename "src/bad.ts") "src/bad.ts" kind_file
          ∉ AnalyzeResponseBody.fileNodes r)
       ∧ (isRemote brokenRepo = true →
          head (AnalyzeResponseBody.warnings r)
          = Some "Repository cloned into local cache (.gitweb-cache/repos).").
Proof.
  apply (failed_files_are_reported failingHost Examples.clock0 brokenRepo
           ["src/bad.ts"; "src/ok.ts"] "src/bad.ts" "Unexpected token (1:0)").
  - discriminate.
  - left.
  - reflexivity.
Defined.

(** X7: a failure of the enrichment is not fatal. When the request to the
    model throws, the run returns the graphs of the static analysis as they
    are, and the warnings end with the message of the failure followed by
    the warnings about unresolved imports. *)
Theorem enrichment_failure_is_not_fatal host clock repo completion message :
  fileEntries repo ≠ [] →
  Llm.inferRelationshipsWithLLM host
    (map Enrichment.digestOf (ovalues (files (staticContext repo completion))))
  = Throws message →
  ∃ r, analyzeRepositoryGraph host clock repo completion = Returns r
       ∧ AnalyzeResponseBody.fileEdges r
         = map edgeOut (ovalues (fileEdges (staticContext repo completion)))
       ∧ AnalyzeResponseBody.functionEdges r
         = map edgeOut (ovalues (functionEdges (staticContext repo completion)))
       ∧ AnalyzeResponseBody.functionNodes r
         = functionNodesOf (files (staticContext repo completion))
       ∧ ∃ unresolvedWarnings,
           AnalyzeResponseBody.warnings r
           = warnings (staticContext repo completion)
             ++ ["LLM relationship inference failed: " +:+ message]
             ++ unresolvedWarnings
           ∧ List.length unresolvedWarnings
             = List.length (unresolved (staticContext repo completion)).
Proof.
  intros Hfiles Hthrows. eexists. split; [by apply GraphFacts.run_returns|].
  set (ctx := pushWarning (staticContext repo completion)
                ("LLM relationship inference failed: " +:+ message)).
  assert (finalContext host repo completion = collectUnresolvedWarnings ctx) as ->.
  { unfold finalContext, assemble, Enrichment.enrichRelationshipsWithLLM.
    unfold staticContext in Hthrows. by rewrite Hthrows. }
  destruct (EdgeRun.collectUnresolvedWarnings_edges ctx) as [He1 He2].
  pose proof (RunFacts.collectUnresolvedWarnings_files ctx) as Hf.
  destruct (ShapeFacts.collectUnresolvedWarnings_warnings ctx) as [[k Hk] Hlen].
  unfold respond.
  cbn [AnalyzeResponseBody.fileEdges AnalyzeResponseBody.functionEdges
       AnalyzeResponseBody.functionNodes AnalyzeResponseBody.warnings].
  rewrite He1, He2, Hf. split_and!; try done.
  exists k. rewrite Hk. split.
  - unfold ctx, pushWarning. simpl. by rewrite <- app_assoc.
  - rewrite Hk, length_app in Hlen. unfold ctx in Hlen. simpl in Hlen. lia.
Qed.

Lemma enrichment_failure_is_not_fatal_witness :
  ∃ r, analyzeRepositoryGraph failingHost Examples.clock0 brokenRepo
         ["src/bad.ts"; "src/ok.ts"] = Returns r
       ∧ AnalyzeResponseBody.fileEdges r
         = map edgeOut
             (ovalues (fileEdges (staticContext brokenRepo ["src/bad.ts"; "src/ok.ts"])))
       ∧ AnalyzeResponseBody.functionEdges r
         = map edgeOut
             (ovalues (functionEdges (staticContext brokenRepo ["src/bad.ts"; "src/ok.ts"])))
       ∧ AnalyzeResponseBody.functionNodes r
         = functionNodesOf (files (staticContext brokenRepo ["src/bad.ts"; "src/ok.ts"]))
       ∧ ∃ unresolvedWarnings,
           AnalyzeResponseBody.warnings r
           = warnings (staticContext brokenRepo ["src/bad.ts"; "src/ok.ts"])
             ++ ["LLM relationship inference failed: "
                 +:+ "OpenAI API error: 500 Internal Server Error"]
             ++ unresolvedWarnings
           ∧ List.length unresolvedWarnings
             = List.length (unresolved (staticContext brokenRepo ["src/bad.ts"; "src/ok.ts"])).
Proof.
  apply (enrichment_failure_is_not_fatal failingHost Examples.clock0 brokenRepo
           ["src/bad.ts"; "src/ok.ts"] "OpenAI API error: 500 Internal Server Error").
  - discriminate.
  - vm_compute. reflexivity.
Defined.

End RunProperties.

(** ** Imports and calls of one file *)

Module ImportFacts.
Import JsString Analyzer Context ImportSpec ResolverSpec ResolveSpec ExtractSpec RunSpec Pipeline.

Lemma ImportsKept_refl st : ImportsKept st st.
Proof. done. Qed.

Lemma ImportsKept_trans st1 st2 st3 :
  ImportsKept st1 st2 → ImportsKept st2 st3 → ImportsKept st1 st3.
Proof. intros (? & ? & ?) (? & ? & ?). repeat split; congruence. Qed.

Lemma register_kept relPath st node name kind exportName isExported loc :
  ImportsKept st (registerFunction relPath st node name kind exportName isExported loc).2.
Proof.
  destruct (RecordFacts.registerFunction_record relPath st node name kind exportName
              isExported loc) as (tail & shown & counter & ->).
  done.
Qed.

Lemma markExport_kept st info exportName : ImportsKept st (markExport st info exportName).
Proof. by destruct info. Qed.

Lemma lookupOrRegister_kept relPath st node name kind exportName loc :
  ImportsKept st (lookupOrRegister relPath st node name kind exportName loc).2.
Proof.
  unfold lookupOrRegister. destruct (functionNodeLookup st !! node); [done|].
  apply register_kept.
Qed.

Lemma callerOf_kept relPath st funcParent :
  ImportsKept st (callerOf relPath st funcParent).2.
Proof.
  unfold callerOf. destruct funcParent as [fp|].
  - destruct (functionNodeLookup st !! node fp) as [i|]; [done|].
    destruct (inferFunctionName fp) as [n|].
    + pose proof (register_kept relPath st (node fp) n (inferFunctionKind (nodeType fp))
                    None false (nodeLoc fp)) as H.
      by destruct (registerFunction _ _ _ _ _ _ _ _) as [i st1].
    + pose proof (register_kept relPath (withCounter st (S (functionCounter st))) (node fp)
                    ("anonymous_" +:+ ofNat (functionCounter st))
                    (inferFunctionKind (nodeType fp)) None false (nodeLoc fp)) as H.
      by destruct (registerFunction _ _ _ _ _ _ _ _) as [i st1].
  - unfold ensureModuleInvoker. by destruct (moduleInvoker st).
Qed.

Ltac step_kept H :=
  match goal with
  | |- context [registerFunction ?a ?b ?c ?d ?e ?f ?g ?h] =>
      let i := fresh "info" in
      let st1 := fresh "st" in
      pose proof (register_kept a b c d e f g h) as H;
      destruct (registerFunction a b c d e f g h) as [i st1]; simpl in H
  | |- context [lookupOrRegister ?a ?b ?c ?d ?e ?f ?g] =>
      let i := fresh "info" in
      let st1 := fresh "st" in
      pose proof (lookupOrRegister_kept a b c d e f g) as H;
      destruct (lookupOrRegister a b c d e f g) as [i st1]; simpl in H
  end.

Ltac kept_export H :=
  eapply ImportsKept_trans; [exact H | apply markExport_kept].

(** A visit of a declaration leaves imports, calls and the table of import
    specifiers alone. *)
Lemma visit_kept relPath st v :
  match v with
  | VisitImportDeclaration _ _ | VisitCallExpression _ _ => True
  | _ => ImportsKept st (visit relPath st v)
  end.
Proof.
  destruct v as [specifiers source|callee fp|p e|p e|p e|node key loc c|d|d]; simpl;
    try done.
  - unfold visitFunctionDeclaration. destruct (nodeId p) as [idName|]; [|done].
    step_kept H. destruct e; [kept_export H | done].
  - unfold visitArrowFunctionExpression. step_kept H.
    destruct e as [[]|], (inferArrowFunctionName p) as [n|]; try done;
      try destruct (String.eqb n ""); try done;
      repeat (eapply ImportsKept_trans; [|apply markExport_kept]); done.
  - unfold visitFunctionExpression. step_kept H.
    destruct e; [kept_export H | done].
  - unfold visitClassMethod. destruct key as [keyName|]; [|done].
    step_kept H. by destruct c as [[[className|] []]|].
  - unfold visitExportNamedDeclaration.
    destruct d as [[node [idName|] loc|ds|node [idName|] loc|]|]; try done.
    + step_kept H. kept_export H.
    + revert st. induction ds as [|d ds IH]; intros st; [done|].
      simpl. eapply ImportsKept_trans; [|apply IH].
      unfold exportDeclarator. destruct d as [[idName|] []]; try done;
        step_kept H; kept_export H.
    + step_kept H. kept_export H.
  - unfold visitExportDefaultDeclaration. destruct d; try done;
      try (step_kept H; kept_export H). apply markExport_kept.
Qed.

Lemma visitCallExpression_imports relPath st callee fp :
  imports (visitCallExpression relPath st callee fp) = imports st
  ∧ importSpecifierLookup (visitCallExpression relPath st callee fp)
    = importSpecifierLookup st.
Proof.
  unfold visitCallExpression.
  destruct callee as [name [[[] importParent]|]|]; try done.
  destruct (importSpecifierLookup st !! name) as [specifier|]; [|done].
  pose proof (callerOf_kept relPath st fp) as (H1 & H2 & H3).
  destruct (ImportSpecifierBinding.type specifier); try done;
    by destruct (callerOf relPath st fp) as [caller st1].
Qed.

(** Only import declarations change the imports of a file. *)
Lemma visit_imports relPath st v :
  imports (visit relPath st v) = imports st ++ importOf v.
Proof.
  pose proof (visit_kept relPath st v) as H.
  destruct v; simpl in *; try (destruct H as (-> & _); by rewrite app_nil_r).
  - done.
  - rewrite app_nil_r. apply visitCallExpression_imports.
Qed.

Lemma traverse_imports relPath visits :
  imports (traverse relPath visits) = flat_map importOf visits.
Proof.
  unfold traverse. change (flat_map importOf visits) with (imports initial ++ flat_map importOf visits).
  generalize initial. induction visits as [|v visits IH]; intros st; simpl.
  - by rewrite app_nil_r.
  - rewrite IH, visit_imports. by rewrite <- app_assoc.
Qed.

Lemma NamesImport_more l l' c : l `prefix_of` l' → NamesImport l c → NamesImport l' c.
Proof.
  intros [k ->] (b & s & Hb & H). exists b, s. split; [|done]. apply elem_of_app. by left.
Qed.

Lemma KnownImports_kept st st' : ImportsKept st st' → KnownImports st → KnownImports st'.
Proof. intros (Hi & Hc & Hl) [H1 H2]. split; rewrite ?Hi, ?Hc, ?Hl; done. Qed.

Lemma KnownImports_import st specifiers source :
  KnownImports st → KnownImports (visitImportDeclaration st specifiers source).
Proof.
  intros [H1 H2]. unfold visitImportDeclaration. split; simpl.
  - set (b := ImportBinding.mk source None es (map importRecord specifiers)).
    assert (∀ (records : list ImportSpecifierBinding.t) (m : gmap string ImportSpecifierBinding.t),
              (∀ name spec, m !! name = Some spec →
                 ImportSpecifierBinding.local spec = name
                 ∧ ∃ b', b' ∈ imports st ++ [b] ∧ spec ∈ ImportBinding.specifiers b') →
              (∀ r, r ∈ records → r ∈ ImportBinding.specifiers b) →
              ∀ name spec,
                fold_left (fun m r => <[ImportSpecifierBinding.local r := r]> m) records m
                  !! name = Some spec →
                ImportSpecifierBinding.local spec = name
                ∧ ∃ b', b' ∈ imports st ++ [b] ∧ spec ∈ ImportBinding.specifiers b') as Hfold.
    { induction records as [|r records IH]; intros m Hm Hr; simpl; [done|].
      apply IH.
      - intros name spec. destruct (decide (ImportSpecifierBinding.local r = name)) as [<-|Hne].
        + rewrite lookup_insert_eq. intros [= <-]. split; [done|]. exists b. split.
          * apply elem_of_app. right. by apply list_elem_of_singleton.
          * apply Hr. left.
        + rewrite lookup_insert_ne by done. apply Hm.
      - intros r' Hr'. apply Hr. by right. }
    apply Hfold; [|done].
    intros name spec Hs. destruct (H1 name spec Hs) as (? & b' & ? & ?). split; [done|].
    exists b'. split; [|done]. apply elem_of_app. by left.
  - intros c Hc. eapply NamesImport_more; [|by apply H2]. by apply prefix_app_r.
Qed.

Lemma KnownImports_call relPath st callee fp :
  KnownImports st → KnownImports (visitCallExpression relPath st callee fp).
Proof.
  intros [H1 H2]. unfold visitCallExpression.
  destruct callee as [name [[[] importParent]|]|]; try done.
  destruct (importSpecifierLookup st !! name) as [specifier|] eqn:Hs; [|done].
  destruct (H1 name specifier Hs) as (Hlocal & b & Hb & Hin).
  pose proof (callerOf_kept relPath st fp) as (Hi & Hc & Hl).
  destruct (ImportSpecifierBinding.type specifier) eqn:Hty; try done;
    destruct (callerOf relPath st fp) as [caller st1]; simpl in *;
    (split; simpl; rewrite ?Hi, ?Hl; [done|]);
    intros c [Hin'| ->%list_elem_of_singleton]%elem_of_app;
    try (rewrite Hc in Hin'; by apply H2);
    exists b, specifier; split_and!; try done; by rewrite Hty.
Qed.

Lemma KnownImports_visit relPath st v :
  KnownImports st → KnownImports (visit relPath st v).
Proof.
  intros Hst. pose proof (visit_kept relPath st v) as H.
  destruct v; try (by eapply KnownImports_kept; [exact H|]).
  - by apply KnownImports_import.
  - by apply KnownImports_call.
Qed.

Lemma KnownImports_traverse relPath visits : KnownImports (traverse relPath visits).
Proof.
  unfold traverse.
  apply (ProposalFacts.fold_left_invariant KnownImports).
  - split; [intros name spec H; simpl in H; by rewrite lookup_empty in H|].
    intros c Hc. by apply elem_of_nil in Hc.
  - intros st v _ Hst. by apply KnownImports_visit.
Qed.

End ImportFacts.

(** ** Imports that resolve to no file *)

Module UnresolvedFacts.
Import JsString Context ImportSpec ResolverSpec ResolverFacts ResolveSpec ExtractSpec RunSpec
  Pipeline.




Section WithResolver.
Variable fileSet : gset string.
Variable paths : list TsconfigPathsEntry.






End WithResolver.






End UnresolvedFacts.

(** ** Properties of the imports of a run *)

Module ImportProperties.
Import JsString Context ImportSpec ResolveSpec ExtractSpec RunSpec Pipeline.

(** X8: the imports of a file are its import declarations, in the order
    of the traversal and with no resolved target, and every recorded call
    goes through a named or default specifier of one of them: a call
    through a namespace import is never recorded. *)
Theorem calls_go_through_imports relPath code visits :
  FileAnalysis.imports (Analyzer.analyzeFile relPath code visits) = flat_map importOf visits
  ∧ ∀ c, c ∈ FileAnalysis.calls (Analyzer.analyzeFile relPath code visits) →
         NamesImport (flat_map importOf visits) c.
Proof.
  simpl. rewrite <- (ImportFacts.traverse_imports relPath). split; [done|].
  apply ImportFacts.KnownImports_traverse.
Qed.



End ImportProperties.

(** ** The cleaning of a response, step by step *)

Module CleaningFacts.
Import JsString Llm.
Local Open Scope nat_scope.

Lemma elem_of_rev_iff {A} (x : A) (l : list A) : x ∈ rev l ↔ x ∈ l.
Proof. rewrite !list_elem_of_In. symmetry. apply in_rev. Qed.

Lemma elem_of_dropSpaces x l : x ∈ l → isSpace x = false → x ∈ dropSpaces l.
Proof.
  induction l as [|c l IH]; [done|]. intros [->|Hin]%elem_of_cons Hx; simpl.
  - rewrite Hx. left.
  - destruct (isSpace c); [by apply IH | by right].
Qed.

Lemma elem_of_trim x l : x ∈ l → isSpace x = false → x ∈ trim l.
Proof.
  intros Hin Hx. unfold trim. apply elem_of_rev_iff, elem_of_dropSpaces; [|done].
  apply elem_of_rev_iff. by apply elem_of_dropSpaces.
Qed.

Lemma takeSpaces_dropSpaces l : takeSpaces l ++ dropSpaces l = l.
Proof. induction l as [|c l IH]; [done|]. simpl. destruct (isSpace c); simpl; congruence. Qed.

(** *** The code fence *)

Lemma lastClose_last l p : lastClose l = Some p → last p = Some rbrace.
Proof.
  revert p. induction l as [|c l IH]; intros p; [done|]. simpl.
  destruct (lastClose l) as [p'|].
  - intros [= <-]. specialize (IH p' eq_refl). destruct p' as [|d p']; [done|].
    by rewrite last_cons_cons.
  - destruct (Ascii.eqb_spec c rbrace) as [->|]; [|done].
    destruct (fenceFollows l); [|done]. by intros [= <-].
Qed.

Lemma fenceAt_last l g : fenceAt l = Some g → last g = Some rbrace.
Proof.
  unfold fenceAt. destruct (stripPrefix fence l) as [r|]; [|done].
  match goal with |- context [dropSpaces ?t] => destruct (dropSpaces t) as [|c body] end;
    [done|].
  destruct (Ascii.eqb c lbrace); [|done].
  destruct (lastClose body) as [p|] eqn:Hp; [|done]. simpl. intros [= <-].
  apply lastClose_last in Hp. destruct p as [|d p]; [done|]. by rewrite last_cons_cons.
Qed.

Lemma fenceMatch_last l g : fenceMatch l = Some g → last g = Some rbrace.
Proof.
  induction l as [|c l IH].
  - done.
  - change (fenceMatch (c :: l))
      with (match fenceAt (c :: l) with Some g => Some g | None => fenceMatch l end).
    destruct (fenceAt (c :: l)) as [g'|] eqn:E; [|done]. intros [= <-].
    by apply fenceAt_last in E.
Qed.

(** *** The outermost braces *)

Lemma lastIndexOf_lookup c l i : lastIndexOf c l = Some i → l !! i = Some c.
Proof.
  revert i. induction l as [|a l IH]; intros i; [done|]. simpl.
  destruct (lastIndexOf c l) as [j|].
  - intros [= <-]. by apply IH.
  - destruct (Ascii.eqb_spec a c) as [->|]; [|done]. by intros [= <-].
Qed.

Lemma lastIndexOf_elem_of c l : c ∈ l → is_Some (lastIndexOf c l).
Proof.
  induction l as [|a l IH]; [by intros ?%elem_of_nil|].
  intros [->|Hin]%elem_of_cons; simpl.
  - destruct (lastIndexOf a l); [done|]. by rewrite Ascii.eqb_refl.
  - destruct (IH Hin) as [j ->]. done.
Qed.

Lemma outermostBraces_keeps l : rbrace ∈ l → rbrace ∈ outermostBraces l.
Proof.
  intros Hin. unfold outermostBraces.
  destruct (indexOf lbrace l) as [jsonStart|]; [|done].
  destruct (lastIndexOf rbrace l) as [jsonEnd|] eqn:He; [|done].
  case_decide as Hlt; [|done].
  apply lastIndexOf_lookup in He.
  apply (list_elem_of_lookup_2 _ (jsonEnd - jsonStart)).
  rewrite lookup_take_lt by lia. rewrite lookup_drop.
  by replace (jsonStart + (jsonEnd - jsonStart)) with jsonEnd by lia.
Qed.

(** *** The repairs *)

Lemma replaceAll_keeps x step fuel l :
  (∀ l out rest, step l = Some (out, rest) → x ∈ l → x ∈ out ∨ x ∈ rest) →
  x ∈ l → x ∈ replaceAll fuel step l.
Proof.
  intros Hstep. revert l. induction fuel as [|fuel IH]; intros l Hin; [done|]. simpl.
  destruct (step l) as [[out rest]|] eqn:E.
  - apply elem_of_app. destruct (Hstep _ _ _ E Hin); [by left | right; by apply IH].
  - destruct l as [|c r]; [done|].
    apply elem_of_cons in Hin as [->|Hin]; [left | right; by apply IH].
Qed.

Lemma trailingCommaStep_keeps x l out rest :
  x ≠ comma → trailingCommaStep l = Some (out, rest) → x ∈ l → x ∈ out ∨ x ∈ rest.
Proof.
  intros Hx. unfold trailingCommaStep. destruct l as [|c r]; [done|].
  destruct (Ascii.eqb_spec c comma) as [->|]; [|done].
  destruct (dropSpaces r) as [|d rest'] eqn:Hd; [done|].
  destruct (isCloser d); [|done]. intros [= <- <-].
  intros [->|Hin]%elem_of_cons; [done|].
  rewrite <- (takeSpaces_dropSpaces r), Hd in Hin.
  apply elem_of_app in Hin as [Hin|[->|Hin]%elem_of_cons].
  - left. apply elem_of_app. by left.
  - left. apply elem_of_app. right. left.
  - by right.
Qed.

Lemma missingCommaQuoteStep_keeps closer x l out rest :
  missingCommaQuoteStep closer l = Some (out, rest) → x ∈ l → x ∈ out ∨ x ∈ rest.
Proof.
  unfold missingCommaQuoteStep. destruct l as [|c r]; [done|].
  destruct (Ascii.eqb_spec c closer) as [->|]; [|done].
  destruct (dropSpaces r) as [|q [|b rest']] eqn:Hd; [done..|].
  destruct (Ascii.eqb_spec q quote) as [->|]; [|done].
  destruct (Ascii.eqb_spec b lbrace) as [->|]; [|done]. simpl.
  intros [= <- <-].
  intros [->|Hin]%elem_of_cons; [left; left|].
  rewrite <- (takeSpaces_dropSpaces r), Hd in Hin.
  apply elem_of_app in Hin as [Hin|[->|[->|Hin]%elem_of_cons]%elem_of_cons].
  - left. right. right. apply elem_of_app. by left.
  - left. right. right. apply elem_of_app. right. left.
  - left. right. right. apply elem_of_app. right. right. left.
  - by right.
Qed.

Lemma missingCommaWordStep_keeps closer x l out rest :
  missingCommaWordStep closer l = Some (out, rest) → x ∈ l → x ∈ out ∨ x ∈ rest.
Proof.
  unfold missingCommaWordStep. destruct l as [|c r]; [done|].
  destruct (Ascii.eqb_spec c closer) as [->|]; [|done].
  destruct (dropSpaces r) as [|w rest'] eqn:Hd; [done|].
  destruct (isWord w); [|done]. intros [= <- <-].
  intros [->|Hin]%elem_of_cons; [left; left|].
  rewrite <- (takeSpaces_dropSpaces r), Hd in Hin.
  apply elem_of_app in Hin as [Hin|[->|Hin]%elem_of_cons].
  - left. right. right. apply elem_of_app. by left.
  - left. right. right. apply elem_of_app. right. left.
  - by right.
Qed.

Lemma dropAfterLastBrace_last l : rbrace ∈ l → last (dropAfterLastBrace l) = Some rbrace.
Proof.
  intros Hin. unfold dropAfterLastBrace.
  destruct (lastIndexOf_elem_of _ _ Hin) as [i Hi]. rewrite Hi.
  apply lastIndexOf_lookup in Hi.
  assert (i < List.length l) by (by eapply lookup_lt_Some).
  rewrite last_lookup, length_take, Nat.min_l by lia. simpl.
  by rewrite lookup_take_lt by lia.
Qed.

(** The last replacement: what follows the part of the text that is
    kept is a run of closing braces and white space, and two closing
    braces are written in its place. *)
Lemma closeBraces_two l :
  last l = Some rbrace →
  ∃ p s, l = p ++ s ∧ s ≠ [] ∧ bracesThenSpaces s = true
         ∧ closeBraces l = p ++ [rbrace; rbrace] ∧ last p ≠ Some rbrace.
Proof.
  induction l as [|c r IH]; [done|]. intros Hl.
  change (closeBraces (c :: r))
    with (if bracesThenSpaces (c :: r) then [rbrace; rbrace] else c :: closeBraces r).
  destruct (bracesThenSpaces (c :: r)) eqn:Hb.
  - exists [], (c :: r). by split_and!.
  - destruct r as [|d r'].
    { simpl in Hl. injection Hl as ->. simpl in Hb. discriminate Hb. }
    rewrite last_cons_cons in Hl.
    destruct (IH Hl) as (p & s & Hr & Hs & Hbs & Hc & Hp).
    exists (c :: p), s. rewrite Hc, Hr. split_and!; try done.
    destruct p as [|e p']; [|by rewrite last_cons_cons].
    simpl. intros [= ->]. simpl in Hr. rewrite Hr in Hb.
    change (bracesThenSpaces (rbrace :: s)) with (bracesThenSpaces s) in Hb. congruence.
Qed.

(** *** The fallback match *)

Lemma partialScan_piece inner l m :
  partialScan inner l = Some m → ∃ after, l = m ++ after ∧ last m = Some rbrace.
Proof.
  revert inner m. induction l as [|c r IH]; intros inner m; [done|]. simpl.
  assert (∀ inner', cons c <$> partialScan inner' r = Some m →
                    ∃ after, c :: r = m ++ after ∧ last m = Some rbrace) as Hgo.
  { intros inner' H. destruct (partialScan inner' r) as [m'|] eqn:E; [|done].
    injection H as <-. destruct (IH _ _ E) as (after & -> & Hl). exists after.
    split; [done|]. destruct m' as [|d m']; [done|]. by rewrite last_cons_cons. }
  destruct (Ascii.eqb c lbrace).
  - destruct inner; [done|]. apply Hgo.
  - destruct (Ascii.eqb_spec c rbrace) as [->|].
    + destruct inner; [apply Hgo|]. intros [= <-]. by exists r.
    + apply Hgo.
Qed.

End CleaningFacts.

(** ** Properties of the exchange with the model *)

Module ExchangeProperties.
Import JsString Context Llm ResolverSpec.
Local Open Scope nat_scope.

(** X10: when the response holds a closing brace, the text handed to the
    first [JSON.parse] ends in exactly two closing braces: whatever run of
    closing braces and white space ends the repaired text is replaced by
    two braces. *)
Theorem cleaned_text_ends_in_two_braces (content : string) :
  rbrace ∈ chars content →
  ∃ p, chars (cleanJsonText content) = p ++ [rbrace; rbrace] ∧ last p ≠ Some rbrace.
Proof.
  intros Hin. unfold cleanJsonText. rewrite LlmFacts.chars_unchars.
  set (trimmed := trim (chars content)).
  set (unfenced := match fenceMatch trimmed with Some g => g | None => trimmed end).
  assert (rbrace ∈ unfenced) as H1.
  { unfold unfenced. destruct (fenceMatch trimmed) as [g|] eqn:E.
    - eapply last_Some_elem_of, CleaningFacts.fenceMatch_last, E.
    - by apply CleaningFacts.elem_of_trim. }
  assert (rbrace ∈ outermostBraces (removeControlCharacters unfenced)) as H2.
  { apply CleaningFacts.outermostBraces_keeps.
    rewrite LlmFacts.removeControlCharacters_stripControl.
    by apply list_elem_of_filter. }
  unfold fixCommonIssues.
  match goal with |- context [closeBraces (dropAfterLastBrace ?t)] =>
    assert (rbrace ∈ t) as H3 end.
  { unfold replaceWith.
    apply CleaningFacts.replaceAll_keeps;
      [intros ???; apply CleaningFacts.missingCommaWordStep_keeps|].
    apply CleaningFacts.replaceAll_keeps;
      [intros ???; apply CleaningFacts.missingCommaWordStep_keeps|].
    apply CleaningFacts.replaceAll_keeps;
      [intros ???; apply CleaningFacts.missingCommaQuoteStep_keeps|].
    apply CleaningFacts.replaceAll_keeps;
      [intros ???; apply CleaningFacts.missingCommaQuoteStep_keeps|].
    apply CleaningFacts.replaceAll_keeps;
      [intros ???; by apply CleaningFacts.trailingCommaStep_keeps|].
    done. }
  apply CleaningFacts.dropAfterLastBrace_last in H3.
  destruct (CleaningFacts.closeBraces_two _ H3) as (p & s & _ & _ & _ & Hc & Hp).
  by exists p.
Qed.

Lemma cleaned_text_ends_in_two_braces_witness :
  ∃ p, chars (cleanJsonText "{}") = p ++ [rbrace; rbrace] ∧ last p ≠ Some rbrace.
Proof.
  apply (cleaned_text_ends_in_two_braces "{}").
  right. left.
Defined.

(** X11: the fallback parses a piece of the cleaned text: what the second
    regular expression matches is a contiguous part of the text that opens
    with a brace and closes with a brace. *)
Theorem fallback_match_is_a_piece (l m : list ascii) :
  partialMatch l = Some m →
  ∃ before after, l = before ++ m ++ after
                  ∧ head m = Some lbrace ∧ last m = Some rbrace.
Proof.
  induction l as [|c r IH]; [done|]. simpl.
  destruct (Ascii.eqb_spec c lbrace) as [->|].
  - destruct (partialScan false r) as [m'|] eqn:E; simpl.
    + intros [= <-]. destruct (CleaningFacts.partialScan_piece _ _ _ E) as (after & -> & Hl).
      exists [], after. split_and!; [done..|].
      destruct m' as [|d m']; [done|]. by rewrite last_cons_cons.
    + intros H. destruct (IH H) as (before & after & -> & ? & ?).
      by exists (lbrace :: before), after.
  - intros H. destruct (IH H) as (before & after & -> & ? & ?).
    by exists (c :: before), after.
Qed.

Lemma fallback_match_is_a_piece_witness :
  ∃ before after,
    chars "{}}" = before ++ chars "{}" ++ after
    ∧ head (chars "{}") = Some lbrace ∧ last (chars "{}") = Some rbrace.
Proof.
  apply (fallback_match_is_a_piece (chars "{}}") (chars "{}")).
  reflexivity.
Defined.

(** X12: line breaks and tabs are deleted, not replaced by spaces. The
    first replacement removes every control character, so the four
    replacements that follow it find nothing: the result is the text without
    its control characters, and no space is written. *)
Theorem line_breaks_are_deleted (l : list ascii) :
  removeControlCharacters l = filter (fun c => isControl c = false) l
  ∧ isControl "010"%char = true ∧ isControl "013"%char = true
  ∧ isControl "009"%char = true
  ∧ ∀ c, c ∈ removeControlCharacters l → c ∈ l ∧ isControl c = false.
Proof.
  rewrite LlmFacts.removeControlCharacters_stripControl. split_and!; try done.
  intros c Hc. by apply list_elem_of_filter in Hc as [? ?].
Qed.

End ExchangeProperties.

(** ** What the model is told, and the memo table of the resolver *)

Module RequestProperties.
Import JsString Context Llm Resolver ResolverSpec.
Local Open Scope nat_scope.

Lemma parseContent_host host host' content :
  (∀ text, JSON_parse host text = JSON_parse host' text) →
  parseContent host content = parseContent host' content.
Proof.
  intros Hparse. unfold parseContent. destruct (negb (truthy content)); [done|].
  rewrite Hparse. destruct (JSON_parse host' _); [done|].
  destruct (partialMatch _) as [m|]; [|done]. by rewrite Hparse.
Qed.

(** X13: the model is told about the first twenty files of the file table
    at most. The enrichment depends on the completion endpoint only through
    its answer to the digests of these files: two hosts with the same
    credential and the same [JSON.parse] that answer this one request alike
    leave the same context. *)
Theorem request_holds_twenty_digests host host' ctx :
  OPENAI_API_KEY host = OPENAI_API_KEY host' →
  (∀ text, JSON_parse host text = JSON_parse host' text) →
  chatCompletion host (map Enrichment.digestOf (take 20 (ovalues (files ctx))))
  = chatCompletion host' (map Enrichment.digestOf (take 20 (ovalues (files ctx)))) →
  Enrichment.enrichRelationshipsWithLLM host ctx
  = Enrichment.enrichRelationshipsWithLLM host' ctx
  ∧ List.length (map Enrichment.digestOf (take 20 (ovalues (files ctx)))) ≤ 20.
Proof.
  intros Hkey Hparse Hchat. split.
  - unfold Enrichment.enrichRelationshipsWithLLM, inferRelationshipsWithLLM.
    rewrite <- Hkey. destruct (negb (truthy (OPENAI_API_KEY host)) || _); [done|].
    rewrite firstn_map, <- Hchat.
    destruct (chatCompletion host _) as [message|status statusText|content]; [done..|].
    by rewrite (parseContent_host host host' content Hparse).
  - rewrite length_map, length_take. lia.
Qed.

Lemma request_holds_twenty_digests_witness :
  Enrichment.enrichRelationshipsWithLLM RunSpec.failingHost
    (Pipeline.staticContext ScheduleExample.repo ScheduleExample.first)
  = Enrichment.enrichRelationshipsWithLLM RequestSpec.strictHost
      (Pipeline.staticContext ScheduleExample.repo ScheduleExample.first)
  ∧ List.length
      (map Enrichment.digestOf
         (take 20 (ovalues (files (Pipeline.staticContext ScheduleExample.repo
                                     ScheduleExample.first))))) ≤ 20.
Proof.
  apply (request_holds_twenty_digests RunSpec.failingHost RequestSpec.strictHost
           (Pipeline.staticContext ScheduleExample.repo ScheduleExample.first)).
  - reflexivity.
  - reflexivity.
  - vm_compute. reflexivity.
Defined.

(** X14: the memo table of the resolver is transparent. With a table that
    holds only what probing would find, the resolver answers as it does with
    an empty table, the answer is a file of the listing, the table it leaves
    is again of that kind, and asking again gives the same answer. *)
Theorem memo_table_is_transparent fileSet paths cache fromPath specifier :
  CacheSound fileSet cache →
  let found := (resolve fileSet paths cache fromPath specifier).1 in
  let cache' := (resolve fileSet paths cache fromPath specifier).2 in
  found = (resolve fileSet paths ∅ fromPath specifier).1
  ∧ (∀ r, found = Some r → r ∈ fileSet)
  ∧ CacheSound fileSet cache'
  ∧ (resolve fileSet paths cache' fromPath specifier).1 = found.
Proof.
  intros Hc found cache'.
  destruct (ResolverFacts.resolve_sound fileSet paths cache fromPath specifier Hc)
    as [H1 H2].
  destruct (ResolverFacts.resolve_sound fileSet paths ∅ fromPath specifier
              (ResolverFacts.CacheSound_empty _)) as [H3 _].
  destruct (ResolverFacts.resolve_sound fileSet paths cache' fromPath specifier H2)
    as [H4 _].
  unfold found. split_and!; [congruence| |done|congruence].
  intros r Hr. rewrite H1 in Hr. by eapply ResolverFacts.resolvePure_elem_of.
Qed.

Lemma memo_table_is_transparent_witness :
  let found := (resolve {["a/b.ts"; "a/b/index.ts"]} [] ∅ "a/x.ts" "./b").1 in
  let cache' := (resolve {["a/b.ts"; "a/b/index.ts"]} [] ∅ "a/x.ts" "./b").2 in
  found = (resolve {["a/b.ts"; "a/b/index.ts"]} [] ∅ "a/x.ts" "./b").1
  ∧ (∀ r, found = Some r → r ∈ ({["a/b.ts"; "a/b/index.ts"]} : gset string))
  ∧ CacheSound {["a/b.ts"; "a/b/index.ts"]} cache'
  ∧ (resolve {["a/b.ts"; "a/b/index.ts"]} [] cache' "a/x.ts" "./b").1 = found.
Proof.
  apply (memo_table_is_transparent {["a/b.ts"; "a/b/index.ts"]} [] ∅ "a/x.ts" "./b").
  intros normBase hit H. by rewrite lookup_empty in H.
Defined.

End RequestProperties.

(** ** Path aliases *)

Module AliasFacts.
Import JsString Tsconfig Resolver AliasSpec.
Local Open Scope nat_scope.

Lemma substring_0_app p x : String.substring 0 (String.length p) (p +:+ x) = p.
Proof. induction p as [|a p IH]; simpl; [by destruct x | by rewrite IH]. Qed.

Lemma substring_0_all s : String.substring 0 (String.length s) s = s.
Proof. induction s as [|a s IH]; simpl; [done | by rewrite IH]. Qed.

Lemma substring_skip p x n :
  String.substring (String.length p) n (p +:+ x) = String.substring 0 n x.
Proof. induction p as [|a p IH]; simpl; [done | apply IH]. Qed.

Lemma substring_after p c x n :
  String.substring (S (String.length p)) n (p +:+ String c x) = String.substring 0 n x.
Proof. induction p as [|a p IH]; simpl; [done | apply IH]. Qed.

Lemma length_append (a b : string) :
  String.length (a +:+ b) = String.length a + String.length b.
Proof. induction a as [|c a IH]; simpl; [done | by rewrite IH]. Qed.

Lemma indexOf_split c s i :
  indexOf c s = Some i →
  ∃ p x, s = p +:+ String c x ∧ String.length p = i ∧ ¬ holds c p.
Proof.
  revert i. induction s as [|a s IH]; intros i; [done|]. simpl.
  destruct (Ascii.eqb_spec a c) as [->|Hne].
  - intros [= <-]. exists "", s. split_and!; [done..|]. by intros ?%elem_of_nil.
  - destruct (indexOf c s) as [j|]; [|done]. intros [= <-].
    destruct (IH j eq_refl) as (p & x & -> & Hp & Hnot).
    exists (String a p), x. split_and!; [done|by simpl; rewrite Hp|].
    intros [?|?]%elem_of_cons; [congruence | done].
Qed.

Lemma indexOf_None c s : indexOf c s = None → ¬ holds c s.
Proof.
  induction s as [|a s IH]; [by intros _ ?%elem_of_nil|]. simpl.
  destruct (Ascii.eqb_spec a c) as [->|Hne]; [done|].
  destruct (indexOf c s) as [j|]; [done|]. intros _ [?|?]%elem_of_cons; [congruence|].
  by apply IH.
Qed.

Lemma indexOf_app c p x : ¬ holds c p → indexOf c (p +:+ String c x) = Some (String.length p).
Proof.
  induction p as [|a p IH]; intros Hnot; simpl.
  - by rewrite Ascii.eqb_refl.
  - destruct (Ascii.eqb_spec a c) as [->|Hne]; [exfalso; apply Hnot; left|].
    rewrite IH; [done|]. intros ?. apply Hnot. by right.
Qed.

(** The prefix and the suffix of an entry are the two sides of the first
    star of its key. *)
Lemma entryOf_key key values e :
  entryOf key values = Some (Some e) →
  (¬ holds star key → prefix e = key ∧ suffix e = "")
  ∧ ∀ p s, key = p +:+ String star s → ¬ holds star p → prefix e = p ∧ suffix e = s.
Proof.
  unfold entryOf. destruct values as [| | | |[|v items]|]; try done.
  destruct (mapM targetOf (v :: items)) as [ts|]; [|done]. intros [= <-]. simpl. split.
  - intros Hnot. destruct (indexOf star key) as [i|] eqn:E; [|done].
    apply indexOf_split in E as (p & x & -> & _ & _). exfalso. apply Hnot.
    unfold holds, chars. clear. induction p as [|a p IH]; simpl; [left | by right].
  - intros p s -> Hnot. rewrite (indexOf_app _ _ _ Hnot). split.
    + unfold slice.
      assert ((Z.of_nat (String.length p) <? 0)%Z = false) as -> by (apply Z.ltb_ge; lia).
      rewrite Z.min_l by (rewrite length_append; lia).
      rewrite Nat2Z.id, Nat.sub_0_r. apply substring_0_app.
    + unfold sliceFrom. rewrite substring_after, length_append. simpl.
      replace (String.length p + S (String.length s) - S (String.length p))
        with (String.length s) by lia.
      apply substring_0_all.
Qed.

End AliasFacts.

Module AliasRemainderFacts.
Import JsString Tsconfig Resolver AliasSpec AliasFacts.
Local Open Scope nat_scope.

Lemma substring_none n s : String.substring n 0 s = "".
Proof.
  revert s. induction n as [|n IH]; intros s; destruct s as [|a s]; simpl; try done.
Qed.

Lemma prefix_append p x : String.prefix p (p +:+ x) = true.
Proof.
  induction p as [|a p IH]; simpl; [by destruct x|].
  by destruct (ascii_dec a a).
Qed.

(** The remainder of a specifier that starts with the prefix of an entry:
    what follows the prefix, cut by the length of the suffix. *)
Lemma aliasRemainder_cut e rest :
  String.length (suffix e) ≤ String.length rest →
  aliasRemainder (prefix e +:+ rest) e
  = String.substring 0 (String.length rest - String.length (suffix e)) rest.
Proof.
  intros Hlen. unfold aliasRemainder, sliceFrom, slice. rewrite !length_append.
  case_decide as Heq.
  - assert (String.length rest = 0) as Hr by lia. rewrite Hr.
    replace (String.length (prefix e) + 0 - String.length (prefix e)) with 0 by lia.
    by rewrite !substring_none.
  - assert ((Z.of_nat (String.length (prefix e) + String.length rest)
             - Z.of_nat (String.length (suffix e)) <? 0)%Z = false) as ->
      by (apply Z.ltb_ge; lia).
    rewrite Z.min_l by lia.
    replace (Z.to_nat (Z.of_nat (String.length (prefix e) + String.length rest)
                       - Z.of_nat (String.length (suffix e)))
             - String.length (prefix e))
      with (String.length rest - String.length (suffix e)) by lia.
    apply substring_skip.
Qed.

Lemma targetOf_Some v t : targetOf v = Some t → ∃ s, v = JString s.
Proof. destruct v; try done. eauto. Qed.

Lemma mapM_targetOf_None items v :
  v ∈ items → (∀ s, v ≠ JString s) → mapM targetOf items = None.
Proof.
  intros Hin Hv. destruct (mapM targetOf items) as [ts|] eqn:E; [|done].
  apply mapM_Some in E.
  apply list_elem_of_lookup_1 in Hin as [i Hi].
  destruct (Forall2_lookup_l _ _ _ _ _ E Hi) as (t & _ & Ht).
  apply targetOf_Some in Ht as [s ->]. by destruct (Hv s).
Qed.

(** One target that is not a string makes the whole loop throw. *)
Lemma pathsEntries_throws pairs key items v :
  (key, JArray items) ∈ pairs → v ∈ items → (∀ s, v ≠ JString s) →
  pathsEntries pairs = None.
Proof.
  intros Hin Hv Hns. induction pairs as [|[k vs] pairs IH]; [by apply elem_of_nil in Hin|].
  simpl. apply elem_of_cons in Hin as [[= <- <-]|Hin].
  - unfold entryOf. destruct items as [|w items]; [by apply elem_of_nil in Hv|].
    by rewrite (mapM_targetOf_None _ _ Hv Hns).
  - rewrite (IH Hin). by destruct (entryOf k vs).
Qed.

End AliasRemainderFacts.

(** ** Properties of the path aliases *)

Module AliasProperties.
Import JsString Tsconfig Resolver AliasSpec.
Local Open Scope nat_scope.

(** X15: an alias pattern and the specifiers it matches. The entry built
    from a key with a star has the text before the first star as its prefix
    and the text after it as its suffix; a specifier made of the prefix, a
    middle part and the suffix matches the entry and leaves the middle part
    as the remainder that is joined to the targets. The suffix is never
    compared: any ending of the same length gives the same remainder. *)
Theorem alias_pattern_round_trip key values e p s mid :
  entryOf key values = Some (Some e) →
  key = p +:+ String star s →
  ¬ holds star p →
  prefix e = p ∧ suffix e = s
  ∧ startsWith (p +:+ mid +:+ s) (prefix e) = true
  ∧ aliasRemainder (p +:+ mid +:+ s) e = mid
  ∧ ∀ ending, String.length ending = String.length s →
              aliasRemainder (p +:+ mid +:+ ending) e = mid.
Proof.
  intros He Hkey Hp.
  destruct (AliasFacts.entryOf_key key values e He) as [_ H].
  destruct (H p s Hkey Hp) as [Hpre Hsuf].
  assert (∀ ending, String.length ending = String.length s →
                    aliasRemainder (p +:+ mid +:+ ending) e = mid) as Hcut.
  { intros ending Hlen. rewrite <- Hpre at 1.
    rewrite AliasRemainderFacts.aliasRemainder_cut; rewrite Hsuf, AliasFacts.length_append; [|lia].
    replace (String.length mid + String.length ending - String.length s)
      with (String.length mid) by lia.
    apply AliasFacts.substring_0_app. }
  split_and!; [done|done| |by apply Hcut|done].
  rewrite Hpre. apply AliasRemainderFacts.prefix_append.
Qed.

Lemma alias_pattern_round_trip_witness :
  let e := {| prefix := "@app/"; suffix := ".js"; targets := ["src/"] |} in
  prefix e = "@app/" ∧ suffix e = ".js"
  ∧ startsWith ("@app/" +:+ "util" +:+ ".js") (prefix e) = true
  ∧ aliasRemainder ("@app/" +:+ "util" +:+ ".js") e = "util"
  ∧ ∀ ending, String.length ending = String.length ".js" →
              aliasRemainder ("@app/" +:+ "util" +:+ ending) e = "util".
Proof.
  apply (alias_pattern_round_trip "@app/*.js" (JArray [JString "./src/*"])
           {| prefix := "@app/"; suffix := ".js"; targets := ["src/"] |}
           "@app/" ".js" "util").
  - reflexivity.
  - reflexivity.
  - unfold holds. intros H. apply (bool_decide_pack _) in H. vm_compute in H. exact H.
Defined.

(** X16: a configuration file gives all of its aliases or none. When one
    target of [tsconfig.json] is not a string, the aliases already built from
    that file are dropped with the error: the aliases of the run are those
    that [jsconfig.json] alone gives, and there is none when that file has no
    paths. *)
Theorem malformed_config_is_skipped pairs key items v jsconfig :
  (key, JArray items) ∈ pairs →
  v ∈ items →
  (∀ s, v ≠ JString s) →
  loadTsconfigPaths (ConfigPaths pairs) jsconfig = loadTsconfigPaths ConfigThrows jsconfig
  ∧ loadTsconfigPaths (ConfigPaths pairs) ConfigWithoutPaths = []
  ∧ loadTsconfigPaths (ConfigPaths pairs) ConfigThrows = [].
Proof.
  intros Hin Hv Hns. unfold loadTsconfigPaths. simpl.
  by rewrite (AliasRemainderFacts.pathsEntries_throws pairs key items v Hin Hv Hns).
Qed.

Lemma malformed_config_is_skipped_witness :
  loadTsconfigPaths brokenAlias atSrc = loadTsconfigPaths ConfigThrows atSrc
  ∧ loadTsconfigPaths brokenAlias ConfigWithoutPaths = []
  ∧ loadTsconfigPaths brokenAlias ConfigThrows = [].
Proof.
  apply (malformed_config_is_skipped
           [("@/*", JArray [JString "./src/*"]); ("~/*", JArray [JNumber "1"])]
           "~/*" [JNumber "1"] (JNumber "1") atSrc).
  - right. left.
  - left.
  - discriminate.
Defined.

End AliasProperties.

(** ** The rate limiter *)

Module RateLimitFacts.
Import RateLimit RateLimitSpec.
Local Open Scope Z_scope.

Lemma noUser_Some user : user ≠ "" → noUser (Some user) = false.
Proof. intros H. unfold noUser. simpl. apply String.eqb_neq in H. by rewrite H. Qed.

Lemma noUser_false userId : noUser userId = false → ∃ user, userId = Some user ∧ user ≠ "".
Proof.
  unfold noUser. destruct userId as [user|]; [|done]. simpl.
  destruct (String.eqb_spec user ""); [done|]. eauto.
Qed.

Ltac run_queries :=
  unfold tryCatch, findStats, createStats, findHistory, createHistory, upsertStats,
    query, mbind, Prisma_bind, mret, Prisma_ret; simpl.

(** The outcomes of a check, by the answers of the database. *)
Lemma checkRateLimit_denied cal userId repoUrl now nowAtCatch w :
  allowed (checkRateLimit cal userId repoUrl now nowAtCatch w).1 = false →
  ∃ user stats,
    userId = Some user ∧ user ≠ ""
    ∧ userDailyStats (db w) !! (user, startOfDay cal now) = Some stats
    ∧ 10 ≤ newRequestsUsed stats
    ∧ userRequestHistory (db w) !! (user, repoUrl) = None
    ∧ db (checkRateLimit cal userId repoUrl now nowAtCatch w).2 = db w.
Proof.
  unfold checkRateLimit. destruct userId as [user|]; [|done].
  destruct (noUser (Some user)) eqn:Hu; [done|].
  apply noUser_false in Hu as (? & [= <-] & Hu).
  destruct w as [d outs]. run_queries.
  destruct outs as [|[] [|[] [|[] outs]]]; simpl; try done;
    destruct (userDailyStats d !! (user, startOfDay cal now)) as [stats|] eqn:Hs;
    simpl; try done;
    try rewrite lookup_insert_eq;
    destruct (userRequestHistory d !! (user, repoUrl)) as [name|] eqn:Hh;
    simpl; try done;
    try (destruct (10 <=? newRequestsUsed stats) eqn:Hle; simpl; try done;
         intros _; exists user, stats; split_and!; try done; by apply Z.leb_le).
Qed.

Ltac settle_queries Hs Hh :=
  repeat (progress (rewrite ?Hs, ?Hh, ?lookup_insert_eq; simpl)).

(** A check against a database that answers. *)
Lemma checkRateLimit_quiet cal user repoUrl now nowAtCatch d :
  user ≠ "" →
  let today := startOfDay cal now in
  let old := userDailyStats d !! (user, today) in
  let used := from_option newRequestsUsed 0 old in
  let known := bool_decide (is_Some (userRequestHistory d !! (user, repoUrl))) in
  checkRateLimit cal (Some user) repoUrl now nowAtCatch {| db := d; outages := [] |}
  = (if negb known && (10 <=? used) then
       {| allowed := false; remainingNewRequests := 0;
          resetTime := plusOneDay cal today;
          error :=
            Some "Daily limit of 10 new repositories reached. Try again tomorrow." |}
     else
       {| allowed := true;
          remainingNewRequests :=
            if known then Z.max 0 (10 - used) else Z.max 0 (10 - used) - 1;
          resetTime := today + DAY_MS; error := None |},
     {| db :=
          match old with
          | Some _ => d
          | None =>
              {| userDailyStats :=
                   <[(user, today) := {| newRequestsUsed := 0; totalRequests := 0 |}]>
                     (userDailyStats d);
                 userRequestHistory := userRequestHistory d |}
          end;
        outages := [] |}).
Proof.
  intros Hu today old used known. unfold checkRateLimit. rewrite (noUser_Some _ Hu).
  unfold used, known, old, today. run_queries.
  destruct (userDailyStats d !! (user, startOfDay cal now)) as [stats|] eqn:Hs; simpl;
    destruct (userRequestHistory d !! (user, repoUrl)) as [name|] eqn:Hh; simpl;
    settle_queries Hs Hh; try done.
  by destruct (10 <=? newRequestsUsed stats).
Qed.

(** A recording against a database that answers. *)
Lemma recordRequest_quiet cal user repoUrl repoName now d :
  user ≠ "" →
  let today := startOfDay cal now in
  let old := userDailyStats d !! (user, today) in
  let known := bool_decide (is_Some (userRequestHistory d !! (user, repoUrl))) in
  recordRequest cal (Some user) repoUrl repoName now {| db := d; outages := [] |}
  = {| db :=
         {| userDailyStats :=
              <[(user, today) :=
                  {| newRequestsUsed :=
                       from_option newRequestsUsed 0 old + (if known then 0 else 1);
                     totalRequests := from_option totalRequests 0 old + 1 |}]>
                (userDailyStats d);
            userRequestHistory :=
              if known then userRequestHistory d
              else <[(user, repoUrl) := repoName]> (userRequestHistory d) |};
       outages := [] |}.
Proof.
  intros Hu today old known. unfold recordRequest. rewrite (noUser_Some _ Hu).
  unfold known, old, today. run_queries.
  destruct (userDailyStats d !! (user, startOfDay cal now)) as [stats|] eqn:Hs; simpl;
    destruct (userRequestHistory d !! (user, repoUrl)) as [name|] eqn:Hh; simpl;
    settle_queries Hs Hh; repeat f_equal; lia.
Qed.

Lemma getUserStats_quiet cal user now nowAtCatch d :
  user ≠ "" →
  getUserStats cal (Some user) now nowAtCatch {| db := d; outages := [] |}
  = (Some {| stats_remainingNewRequests :=
               Z.max 0 (10 - from_option newRequestsUsed 0
                                 (userDailyStats d !! (user, startOfDay cal now)));
             stats_resetTime := plusOneDay cal (startOfDay cal now) |},
     {| db := d; outages := [] |}).
Proof.
  intros Hu. unfold getUserStats. rewrite (noUser_Some _ Hu). by run_queries.
Qed.

End RateLimitFacts.

(** ** Properties of the rate limiter *)

Module RateLimitProperties.
Import RateLimit RateLimitSpec RateLimitFacts.
Local Open Scope Z_scope.

Ltac run_queries :=
  unfold tryCatch, findStats, createStats, findHistory, createHistory, upsertStats,
    query, mbind, Prisma_bind, mret, Prisma_ret; simpl.

(** X17: a request is refused only on evidence. When [checkRateLimit]
    refuses, the caller is signed in, the database holds the row of the day
    with ten or more new repositories used, and the history does not know the
    repository; the answer then carries no remaining request, the next day as
    reset time and the message of the limit, and the database is as it was. An
    anonymous caller, a repository of the history and a database that rejects
    a query are never refused. *)
Theorem denial_needs_evidence cal userId repoUrl now nowAtCatch w :
  allowed (checkRateLimit cal userId repoUrl now nowAtCatch w).1 = false →
  ∃ user stats,
    userId = Some user ∧ user ≠ ""
    ∧ userDailyStats (db w) !! (user, startOfDay cal now) = Some stats
    ∧ 10 ≤ newRequestsUsed stats
    ∧ userRequestHistory (db w) !! (user, repoUrl) = None
    ∧ (checkRateLimit cal userId repoUrl now nowAtCatch w).1
      = {| allowed := false; remainingNewRequests := 0;
           resetTime := plusOneDay cal (startOfDay cal now);
           error :=
             Some "Daily limit of 10 new repositories reached. Try again tomorrow." |}
    ∧ db (checkRateLimit cal userId repoUrl now nowAtCatch w).2 = db w.
Proof.
  intros Hdenied.
  destruct (checkRateLimit_denied _ _ _ _ _ _ Hdenied)
    as (user & stats & -> & Hu & Hs & Hle & Hh & Hdb).
  exists user, stats. split_and!; try done.
  revert Hdenied. unfold checkRateLimit. rewrite (noUser_Some _ Hu).
  destruct w as [d outs]. simpl in Hs, Hh. run_queries.
  apply Z.leb_le in Hle.
  destruct outs as [|[] [|[] outs]]; simpl; try done;
    rewrite Hs; simpl; try done; rewrite Hh; simpl; by rewrite Hle.
Qed.

Lemma denial_needs_evidence_witness :
  ∃ user stats,
    Some "ada" = Some user ∧ user ≠ ""
    ∧ userDailyStats (db (spentWorld "ada")) !! (user, startOfDay utc 5) = Some stats
    ∧ 10 ≤ newRequestsUsed stats
    ∧ userRequestHistory (db (spentWorld "ada")) !! (user, "https://github.com/o/r") = None
    ∧ (checkRateLimit utc (Some "ada") "https://github.com/o/r" 5 6 (spentWorld "ada")).1
      = {| allowed := false; remainingNewRequests := 0;
           resetTime := plusOneDay utc (startOfDay utc 5);
           error :=
             Some "Daily limit of 10 new repositories reached. Try again tomorrow." |}
    ∧ db (checkRateLimit utc (Some "ada") "https://github.com/o/r" 5 6 (spentWorld "ada")).2
      = db (spentWorld "ada").
Proof.
  apply (denial_needs_evidence utc (Some "ada") "https://github.com/o/r" 5 6
           (spentWorld "ada")).
  vm_compute. reflexivity.
Defined.

(** X18: a check never changes a counter or the history. The history is
    left as it is, every row of the daily statistics keeps its values, and
    the only row that a check can add is the row of the caller for the day,
    with both counters at zero. *)
Theorem check_leaves_counters cal userId repoUrl now nowAtCatch w :
  let w' := (checkRateLimit cal userId repoUrl now nowAtCatch w).2 in
  userRequestHistory (db w') = userRequestHistory (db w)
  ∧ (∀ key stats, userDailyStats (db w) !! key = Some stats →
                  userDailyStats (db w') !! key = Some stats)
  ∧ (∀ key stats, userDailyStats (db w') !! key = Some stats →
       userDailyStats (db w) !! key = Some stats
       ∨ (stats = {| newRequestsUsed := 0; totalRequests := 0 |}
          ∧ userDailyStats (db w) !! key = None
          ∧ ∃ user, userId = Some user ∧ key = (user, startOfDay cal now))).
Proof.
  unfold checkRateLimit. destruct userId as [user|]; [|by auto].
  destruct (noUser (Some user)); [by auto|].
  destruct w as [d outs]. run_queries.
  assert (∀ key stats,
            userDailyStats d !! (user, startOfDay cal now) = None →
            <[(user, startOfDay cal now) := {| newRequestsUsed := 0; totalRequests := 0 |}]>
              (userDailyStats d) !! key = Some stats →
            userDailyStats d !! key = Some stats
            ∨ (stats = {| newRequestsUsed := 0; totalRequests := 0 |}
               ∧ userDailyStats d !! key = None
               ∧ ∃ user0, Some user = Some user0 ∧ key = (user0, startOfDay cal now)))
    as Hnew.
  { intros key stats Hnone. destruct (decide (key = (user, startOfDay cal now))) as [->|Hne].
    - rewrite lookup_insert_eq. intros [= <-]. right. eauto.
    - rewrite lookup_insert_ne by done. auto. }
  assert (∀ key (stats : DailyStats),
            userDailyStats d !! (user, startOfDay cal now) = None →
            userDailyStats d !! key = Some stats →
            <[(user, startOfDay cal now) := {| newRequestsUsed := 0; totalRequests := 0 |}]>
              (userDailyStats d) !! key = Some stats) as Hold.
  { intros key stats Hnone Hk. rewrite lookup_insert_ne; [done|]. congruence. }
  destruct outs as [|[] [|[] [|[] outs]]]; simpl;
    destruct (userDailyStats d !! (user, startOfDay cal now)) as [stats0|] eqn:Hs; simpl;
    repeat case_match; simplify_eq/=; split_and!; eauto.
Qed.

(** X19: the quota that a check reports is the quota that is left once
    the request is recorded. With a database that answers, when a check allows
    a request and the request is recorded on the same day, [getUserStats]
    reports the number of remaining requests that the check announced, and the
    history knows the repository. *)
Theorem reported_quota_is_quota_left cal user repoUrl repoName now nowAtCatch
    recordedAt askedAt askedAtCatch w :
  user ≠ "" →
  outages w = [] →
  startOfDay cal recordedAt = startOfDay cal now →
  startOfDay cal askedAt = startOfDay cal now →
  allowed (checkRateLimit cal (Some user) repoUrl now nowAtCatch w).1 = true →
  let r := (checkRateLimit cal (Some user) repoUrl now nowAtCatch w).1 in
  let w1 := (checkRateLimit cal (Some user) repoUrl now nowAtCatch w).2 in
  let w2 := recordRequest cal (Some user) repoUrl repoName recordedAt w1 in
  getUserStats cal (Some user) askedAt askedAtCatch w2
  = (Some {| stats_remainingNewRequests := remainingNewRequests r;
             stats_resetTime := plusOneDay cal (startOfDay cal now) |}, w2)
  ∧ is_Some (userRequestHistory (db w2) !! (user, repoUrl)).
Proof.
  intros Hu Hout Hrec Hasked. destruct w as [d outs]. simpl in Hout. subst outs.
  rewrite (checkRateLimit_quiet cal user repoUrl now nowAtCatch d Hu).
  cbv zeta. cbn [fst snd].
  rewrite (recordRequest_quiet cal user repoUrl repoName recordedAt _ Hu).
  rewrite (getUserStats_quiet cal user askedAt askedAtCatch _ Hu).
  rewrite Hrec, Hasked. simpl. rewrite lookup_insert_eq. simpl.
  destruct (userDailyStats d !! (user, startOfDay cal now)) as [stats|] eqn:Hs; simpl;
    destruct (userRequestHistory d !! (user, repoUrl)) as [name|] eqn:Hh; simpl;
    rewrite ?Hs, ?Hh, ?lookup_insert_eq; simpl;
    try (destruct (10 <=? newRequestsUsed stats) eqn:Hle; simpl; [done|];
         apply Z.leb_gt in Hle);
    intros _; (split; [|done]); repeat f_equal; lia.
Qed.

Lemma reported_quota_is_quota_left_witness :
  let r := (checkRateLimit utc (Some "ada") "https://github.com/o/r" 5 6 emptyWorld).1 in
  let w1 := (checkRateLimit utc (Some "ada") "https://github.com/o/r" 5 6 emptyWorld).2 in
  let w2 := recordRequest utc (Some "ada") "https://github.com/o/r" "r" 7 w1 in
  getUserStats utc (Some "ada") 8 9 w2
  = (Some {| stats_remainingNewRequests := remainingNewRequests r;
             stats_resetTime := plusOneDay utc (startOfDay utc 5) |}, w2)
  ∧ is_Some (userRequestHistory (db w2) !! ("ada", "https://github.com/o/r")).
Proof.
  apply (reported_quota_is_quota_left utc "ada" "https://github.com/o/r" "r" 5 6 7 8 9
           emptyWorld).
  - discriminate.
  - reflexivity.
  - reflexivity.
  - reflexivity.
  - reflexivity.
Defined.

(** X20: a request that is recorded straight after its check, on the
    database as the check left it, keeps the counter within the limit. With a
    database that answers, recording a request that the check allowed, on the
    day of the check and with no other request in between, adds one to the
    counter of new repositories when the history did not know the repository
    and leaves it as it is otherwise, and one to the counter of requests; a
    counter of new repositories that was at most ten before the check is
    still at most ten after the recording. *)
Theorem allowed_request_keeps_quota cal user repoUrl repoName now nowAtCatch recordedAt w :
  user ≠ "" →
  outages w = [] →
  startOfDay cal recordedAt = startOfDay cal now →
  allowed (checkRateLimit cal (Some user) repoUrl now nowAtCatch w).1 = true →
  let old := userDailyStats (db w) !! (user, startOfDay cal now) in
  let known := bool_decide (is_Some (userRequestHistory (db w) !! (user, repoUrl))) in
  let w1 := (checkRateLimit cal (Some user) repoUrl now nowAtCatch w).2 in
  let w2 := recordRequest cal (Some user) repoUrl repoName recordedAt w1 in
  userDailyStats (db w2) !! (user, startOfDay cal now)
  = Some {| newRequestsUsed :=
              from_option newRequestsUsed 0 old + (if known then 0 else 1);
            totalRequests := from_option totalRequests 0 old + 1 |}
  ∧ (from_option newRequestsUsed 0 old ≤ 10 →
     from_option newRequestsUsed 0 old + (if known then 0 else 1) ≤ 10).
Proof.
  intros Hu Hout Hrec. destruct w as [d outs]. simpl in Hout. subst outs.
  rewrite (checkRateLimit_quiet cal user repoUrl now nowAtCatch d Hu).
  cbv zeta. cbn [fst snd].
  rewrite (recordRequest_quiet cal user repoUrl repoName recordedAt _ Hu).
  rewrite Hrec. simpl. rewrite lookup_insert_eq.
  destruct (userDailyStats d !! (user, startOfDay cal now)) as [stats|] eqn:Hs; simpl;
    destruct (userRequestHistory d !! (user, repoUrl)) as [name|] eqn:Hh; simpl;
    rewrite ?Hs, ?Hh, ?lookup_insert_eq; simpl;
    try (destruct (10 <=? newRequestsUsed stats) eqn:Hle; simpl; [done|];
         apply Z.leb_gt in Hle);
    intros _; (split; [repeat f_equal; lia | lia]).
Qed.

Lemma allowed_request_keeps_quota_witness :
  let old := userDailyStats (db emptyWorld) !! ("ada", startOfDay utc 5) in
  let known :=
    bool_decide (is_Some (userRequestHistory (db emptyWorld)
                            !! ("ada", "https://github.com/o/r"))) in
  let w1 := (checkRateLimit utc (Some "ada") "https://github.com/o/r" 5 6 emptyWorld).2 in
  let w2 := recordRequest utc (Some "ada") "https://github.com/o/r" "r" 7 w1 in
  userDailyStats (db w2) !! ("ada", startOfDay utc 5)
  = Some {| newRequestsUsed :=
              from_option newRequestsUsed 0 old + (if known then 0 else 1);
            totalRequests := from_option totalRequests 0 old + 1 |}
  ∧ (from_option newRequestsUsed 0 old ≤ 10 →
     from_option newRequestsUsed 0 old + (if known then 0 else 1) ≤ 10).
Proof.
  apply (allowed_request_keeps_quota utc "ada" "https://github.com/o/r" "r" 5 6 7
           emptyWorld).
  - discriminate.
  - reflexivity.
  - reflexivity.
  - reflexivity.
Defined.

(** X21: recording is not atomic, and a failure in its second half gives
    the repository for free. When the history does not know the repository
    and the database rejects the reading or the writing of the counters after
    the history has been written, the history knows the repository and the
    counters are as they were; from then on no check refuses this repository
    to this user, whatever the counters say. *)
Theorem failed_counting_frees_repository cal user repoUrl repoName now later w :
  user ≠ "" →
  userRequestHistory (db w) !! (user, repoUrl) = None →
  outages w = false :: false :: true :: later
  ∨ outages w = false :: false :: false :: true :: later →
  let w' := recordRequest cal (Some user) repoUrl repoName now w in
  userRequestHistory (db w') !! (user, repoUrl) = Some repoName
  ∧ userDailyStats (db w') = userDailyStats (db w)
  ∧ ∀ cal' at_ atCatch w'',
      db w'' = db w' →
      allowed (checkRateLimit cal' (Some user) repoUrl at_ atCatch w'').1 = true.
Proof.
  intros Hu Hh Hout w'.
  assert (userRequestHistory (db w') !! (user, repoUrl) = Some repoName
          ∧ userDailyStats (db w') = userDailyStats (db w)) as [H1 H2].
  { unfold w', recordRequest. rewrite (noUser_Some _ Hu).
    destruct w as [d outs]. simpl in Hh, Hout. run_queries.
    destruct Hout as [-> | ->]; simpl; rewrite Hh; simpl;
      by rewrite lookup_insert_eq. }
  split_and!; [done..|].
  intros cal' at_ atCatch w'' Hdb.
  destruct (allowed (checkRateLimit cal' (Some user) repoUrl at_ atCatch w'').1) eqn:Ha;
    [done|].
  apply checkRateLimit_denied in Ha as (user' & stats & [= <-] & _ & _ & _ & Hnone & _).
  rewrite Hdb in Hnone. congruence.
Qed.

Lemma failed_counting_frees_repository_witness :
  let w' := recordRequest utc (Some "ada") "https://github.com/o/r" "r" 5 failingUpsert in
  userRequestHistory (db w') !! ("ada", "https://github.com/o/r") = Some "r"
  ∧ userDailyStats (db w') = userDailyStats (db failingUpsert)
  ∧ ∀ cal' at_ atCatch w'',
      db w'' = db w' →
      allowed (checkRateLimit cal' (Some "ada") "https://github.com/o/r" at_ atCatch w'').1
      = true.
Proof.
  apply (failed_counting_frees_repository utc "ada" "https://github.com/o/r" "r" 5 []
           failingUpsert).
  - discriminate.
  - reflexivity.
  - right. reflexivity.
Defined.

(** X22: the three functions fail open, each in its own way. When the
    database rejects one of the first two queries of a check, the request is
    allowed and the number of remaining requests is reported as -1; a
    recording that meets a rejection among its first three queries leaves the
    counters as they were; and when the query of [getUserStats] is rejected,
    the full quota of ten is reported. *)
Theorem outage_fails_open cal user repoUrl repoName now nowAtCatch w :
  user ≠ "" →
  true ∈ take 2 (outages w) →
  (checkRateLimit cal (Some user) repoUrl now nowAtCatch w).1
  = {| allowed := true; remainingNewRequests := -1;
       resetTime := nowAtCatch + DAY_MS; error := None |}
  ∧ userDailyStats (db (recordRequest cal (Some user) repoUrl repoName now w))
    = userDailyStats (db w)
  ∧ (head (outages w) = Some true →
     (getUserStats cal (Some user) now nowAtCatch w).1
     = Some {| stats_remainingNewRequests := 10;
               stats_resetTime := plusOneDay cal nowAtCatch |}).
Proof.
  intros Hu Hout. unfold checkRateLimit, recordRequest, getUserStats.
  rewrite (noUser_Some _ Hu). destruct w as [d outs]. simpl in Hout. run_queries.
  destruct outs as [|[] [|[] outs]]; simpl in *;
    try (by apply elem_of_nil in Hout);
    try (by repeat (apply elem_of_cons in Hout as [Hout|Hout]; [done|]);
            apply elem_of_nil in Hout);
    split_and!; try done; repeat case_match; simplify_eq/=; done.
Qed.

Lemma outage_fails_open_witness :
  (checkRateLimit utc (Some "ada") "https://github.com/o/r" 5 6 downWorld).1
  = {| allowed := true; remainingNewRequests := -1;
       resetTime := 6 + DAY_MS; error := None |}
  ∧ userDailyStats (db (recordRequest utc (Some "ada") "https://github.com/o/r" "r" 5
                          downWorld))
    = userDailyStats (db downWorld)
  ∧ (head (outages downWorld) = Some true →
     (getUserStats utc (Some "ada") 5 6 downWorld).1
     = Some {| stats_remainingNewRequests := 10;
               stats_resetTime := plusOneDay utc 6 |}).
Proof.
  apply (outage_fails_open utc "ada" "https://github.com/o/r" "r" 5 6 downWorld).
  - discriminate.
  - left.
Defined.

(** X29: checking and recording are separate steps, and nothing holds
    them together. When two requests of one user, for two repositories that
    the history does not know, are both checked before either is recorded,
    both are allowed as long as the counter of new repositories is below ten,
    and the two recordings add two to it: from nine the counter goes to
    eleven, past the limit of ten. *)
Theorem checks_in_flight_pass_the_limit cal user url1 url2 name1 name2
    check1 check2 record1 record2 catch1 catch2 d stats :
  user ≠ "" →
  url1 ≠ url2 →
  let today := startOfDay cal check1 in
  startOfDay cal check2 = today →
  startOfDay cal record1 = today →
  startOfDay cal record2 = today →
  userDailyStats d !! (user, today) = Some stats →
  newRequestsUsed stats < 10 →
  userRequestHistory d !! (user, url1) = None →
  userRequestHistory d !! (user, url2) = None →
  let first := checkRateLimit cal (Some user) url1 check1 catch1 {| db := d; outages := [] |} in
  let second := checkRateLimit cal (Some user) url2 check2 catch2 first.2 in
  let w := recordRequest cal (Some user) url2 name2 record2
             (recordRequest cal (Some user) url1 name1 record1 second.2) in
  allowed first.1 = true
  ∧ allowed second.1 = true
  ∧ userDailyStats (db w) !! (user, today)
    = Some {| newRequestsUsed := newRequestsUsed stats + 2;
              totalRequests := totalRequests stats + 2 |}
  ∧ (newRequestsUsed stats = 9 →
     ∃ after, userDailyStats (db w) !! (user, today) = Some after
              ∧ 10 < newRequestsUsed after).
Proof.
  intros Hu Hne today H2 H3 H4 Hs Hlt Hh1 Hh2 first second w.
  assert (first = ({| allowed := true;
                      remainingNewRequests := Z.max 0 (10 - newRequestsUsed stats) - 1;
                      resetTime := today + DAY_MS; error := None |},
                   {| db := d; outages := [] |})) as Hfirst.
  { unfold first. rewrite (checkRateLimit_quiet cal user url1 check1 catch1 d Hu).
    fold today. rewrite Hs, Hh1. simpl.
    destruct (10 <=? newRequestsUsed stats) eqn:Hle; [apply Z.leb_le in Hle; lia | done]. }
  assert (second = ({| allowed := true;
                       remainingNewRequests := Z.max 0 (10 - newRequestsUsed stats) - 1;
                       resetTime := today + DAY_MS; error := None |},
                    {| db := d; outages := [] |})) as Hsecond.
  { unfold second. rewrite Hfirst. cbn [snd].
    rewrite (checkRateLimit_quiet cal user url2 check2 catch2 d Hu).
    rewrite H2, Hs, Hh2. simpl.
    destruct (10 <=? newRequestsUsed stats) eqn:Hle; [apply Z.leb_le in Hle; lia | done]. }
  assert (userDailyStats (db w) !! (user, today)
          = Some {| newRequestsUsed := newRequestsUsed stats + 2;
                    totalRequests := totalRequests stats + 2 |}) as Hw.
  { unfold w. rewrite Hsecond. cbn [snd].
    rewrite (recordRequest_quiet cal user url1 name1 record1 d Hu).
    rewrite (recordRequest_quiet cal user url2 name2 record2 _ Hu).
    rewrite H3, H4, Hs, Hh1. simpl. rewrite !lookup_insert_eq. simpl.
    rewrite lookup_insert_ne by congruence. rewrite Hh2. simpl.
    f_equal. f_equal; lia. }
  rewrite Hfirst, Hsecond. split_and!; try done.
  intros H9. eexists. split; [exact Hw|]. simpl. lia.
Qed.

Lemma checks_in_flight_pass_the_limit_witness :
  let first :=
    checkRateLimit utc (Some "ada") "https://github.com/o/a" 5 6 (nearlySpentWorld "ada") in
  let second := checkRateLimit utc (Some "ada") "https://github.com/o/b" 7 8 first.2 in
  let w := recordRequest utc (Some "ada") "https://github.com/o/b" "b" 10
             (recordRequest utc (Some "ada") "https://github.com/o/a" "a" 9 second.2) in
  allowed first.1 = true
  ∧ allowed second.1 = true
  ∧ userDailyStats (db w) !! ("ada", startOfDay utc 5)
    = Some {| newRequestsUsed := 9 + 2; totalRequests := 9 + 2 |}
  ∧ (9 = 9 →
     ∃ after, userDailyStats (db w) !! ("ada", startOfDay utc 5) = Some after
              ∧ 10 < newRequestsUsed after).
Proof.
  apply (checks_in_flight_pass_the_limit utc "ada" "https://github.com/o/a"
           "https://github.com/o/b" "a" "b" 5 7 9 10 6 8
           (db (nearlySpentWorld "ada")) {| newRequestsUsed := 9; totalRequests := 9 |}).
  - discriminate.
  - discriminate.
  - reflexivity.
  - reflexivity.
  - reflexivity.
  - reflexivity.
  - simpl. lia.
  - reflexivity.
  - reflexivity.
Defined.

End RateLimitProperties.

(** ** The repository scanner *)

Module ScannerFacts.
Import JsString RepoScanner ScannerSpec.

Lemma stripPrefix_Some p l r : Llm.stripPrefix p l = Some r → l = p ++ r.
Proof.
  revert l. induction p as [|a p IH]; intros l; simpl; [by intros [= ->]|].
  destruct l as [|b l]; [done|]. destruct (Ascii.eqb_spec a b) as [->|]; [|done].
  intros H. by rewrite (IH _ H).
Qed.

Lemma isRemoteRepository_scheme url : isRemoteRepository url = true → RemoteScheme url.
Proof.
  unfold isRemoteRepository, afterHttp, startsWithSsh, RemoteScheme.
  destruct (Llm.stripPrefix (chars "https://") (chars url)) as [r|] eqn:E1.
  { intros _. exists "https://", r. split; [set_solver|]. by apply stripPrefix_Some. }
  destruct (Llm.stripPrefix (chars "http://") (chars url)) as [r|] eqn:E2.
  { intros _. exists "http://", r. split; [set_solver|]. by apply stripPrefix_Some. }
  destruct (Llm.stripPrefix (chars "git@") (chars url)) as [r|] eqn:E3.
  { intros _. exists "git@", r. split; [set_solver|]. by apply stripPrefix_Some. }
  destruct (Llm.stripPrefix (chars "ssh://") (chars url)) as [r|] eqn:E4; [|done].
  intros _. exists "ssh://", r. split; [set_solver|]. by apply stripPrefix_Some.
Qed.

(** *** The commands of a computation *)

Section Commands.
Variable P : Command → Prop.

Lemma Runs_ret {A} (a : A) : Runs P (mret a).
Proof. intros trace. exists []. by rewrite app_nil_r. Qed.

Lemma Runs_throw {A} e : Runs P (@throw A e).
Proof. intros trace. exists []. by rewrite app_nil_r. Qed.

Lemma Runs_bind {A B} (m : Scan A) (f : A → Scan B) :
  Runs P m → (∀ a, Runs P (f a)) → Runs P (m ≫= f).
Proof.
  intros Hm Hf trace. unfold mbind, Scan_bind.
  destruct (Hm trace) as (added & Ht & Hadded).
  destruct (m trace) as [[e|a] trace']; simpl in Ht; subst trace'.
  - by exists added.
  - destruct (Hf a (trace ++ added)) as (added' & -> & Hadded').
    exists (added ++ added'). rewrite app_assoc. split; [done|]. by apply Forall_app.
Qed.

Lemma Runs_catch {A} (m handler : Scan A) : Runs P m → Runs P handler → Runs P (catch m handler).
Proof.
  intros Hm Hh trace. unfold catch.
  destruct (Hm trace) as (added & Ht & Hadded).
  destruct (m trace) as [[e|a] trace']; simpl in Ht; subst trace'.
  - destruct (Hh (trace ++ added)) as (added' & -> & Hadded').
    exists (added ++ added'). rewrite app_assoc. split; [done|]. by apply Forall_app.
  - by exists added.
Qed.

Lemma Runs_one {A} (m : Scan A) c :
  P c → (∀ trace, (m trace).2 = trace ++ [c]) → Runs P m.
Proof. intros Hc Hm trace. exists [c]. split; [apply Hm|]. by constructor. Qed.

End Commands.

(** *** One call of [git] *)

Lemma execGit_trace host args contextMessage trace :
  (execGit host args contextMessage trace).2 = trace ++ [Git args].
Proof. done. Qed.

Lemma execGit_outcome host args contextMessage trace :
  contextMessage ≠ "" →
  match (execGit host args contextMessage trace).1 with
  | Done _ => git host trace args = GitOk
  | Fails (ScannerError e) =>
      (status e = 501
       ∧ message e
         = "Git is required to clone remote repositories. Install git and try again.")
      ∨ (status e = 502 ∧ ∃ detail, message e = contextMessage +:+ ": " +:+ detail)
  | Fails OtherError => False
  end.
Proof.
  intros Hctx. apply String.eqb_neq in Hctx. unfold execGit. cbn [fst].
  destruct (git host trace args) as [| |stderr errorMessage]; [done|by left|].
  cbn [status message]. rewrite Hctx. right. split; [done|]. eauto.
Qed.

(** The removal of the directory followed by the clone. *)
Lemma clone_outcome host url contextMessage trace :
  contextMessage ≠ "" →
  let localPath := localPathOf host url in
  match (fsRm host localPath ≫= fun _ => execGit host (cloneArgs url localPath) contextMessage)
          trace with
  | (Done _, trace') =>
      ∃ before, trace' = before ++ [Git (cloneArgs url localPath)]
                ∧ git host before (cloneArgs url localPath) = GitOk
  | (Fails (ScannerError e), trace') =>
      ∃ before,
        trace' = before ++ [Git (cloneArgs url localPath)]
        ∧ ((status e = 501
            ∧ message e
              = "Git is required to clone remote repositories. Install git and try again.")
           ∨ (status e = 502 ∧ ∃ detail, message e = contextMessage +:+ ": " +:+ detail))
  | (Fails OtherError, trace') =>
      ∃ before, trace' = before ++ [Rm localPath] ∧ rm host before localPath = false
  end.
Proof.
  intros Hctx localPath. unfold mbind, Scan_bind, fsRm.
  destruct (rm host trace localPath) eqn:Hrm; [|by exists trace].
  pose proof (execGit_outcome host (cloneArgs url localPath) contextMessage
                (trace ++ [Rm localPath]) Hctx) as H.
  pose proof (execGit_trace host (cloneArgs url localPath) contextMessage
                (trace ++ [Rm localPath])) as Ht.
  destruct (execGit host (cloneArgs url localPath) contextMessage (trace ++ [Rm localPath]))
    as [[[e|]|[]] trace']; simpl in H, Ht; subst trace'; [|done|]; by eexists.
Qed.

End ScannerFacts.

(** ** Properties of the repository scanner *)

Module ScannerProperties.
Import JsString RepoScanner ScannerSpec ScannerFacts.

Lemma ensureRemoteRepository_Runs host url :
  Runs (Expected host url) (ensureRemoteRepository host url).
Proof.
  unfold ensureRemoteRepository. fold (localPathOf host url).
  assert (∀ contextMessage,
            Runs (Expected host url)
              (fsRm host (localPathOf host url) ≫= fun _ =>
               execGit host (cloneArgs url (localPathOf host url)) contextMessage))
    as Hclone.
  { intros contextMessage. apply Runs_bind.
    - apply (Runs_one _ _ (Rm (localPathOf host url))); [|done]. unfold Expected. auto.
    - intros _. apply (Runs_one _ _ (Git (cloneArgs url (localPathOf host url)))); [|done].
      unfold Expected. auto. }
  apply Runs_bind.
  { apply (Runs_one _ _ (Mkdir (REMOTE_REPOS_ROOT host))); [|done]. unfold Expected. auto. }
  intros _. apply Runs_bind.
  { apply (Runs_one _ _ (Stat (pathJoin host (localPathOf host url) ".git"))); [|done].
    unfold Expected. auto. }
  intros stats. apply Runs_bind; [|intros _; apply Runs_ret].
  destruct (match stats with Some isDirectory => negb isDirectory | None => true end).
  - apply Hclone.
  - apply Runs_catch; [|apply Hclone]. apply Runs_bind.
    + apply (Runs_one _ _ (Git (fetchArgs (localPathOf host url)))); [|done].
      unfold Expected. auto 7.
    + intros _. apply (Runs_one _ _ (Git (resetArgs (localPathOf host url)))); [|done].
      unfold Expected. auto 7.
Qed.

(** X23: the commands that resolving a repository runs. For an input that
    names a remote repository, the text given to [git] opens with [https://],
    [http://], [git@] or [ssh://], and every command is one of six: the
    creation of the cache directory, the inspection of the clone, its removal,
    and the three [git] commands, all on the directory named by the digest of
    the URL. For any other input nothing is run but one inspection of the
    resolved path: no directory is removed and [git] is not called. *)
Theorem commands_of_a_resolve host input trace :
  let url := unchars (Llm.trim (chars input)) in
  ∃ added,
    (resolveRepository host input trace).2 = trace ++ added
    ∧ if isRemoteRepository url
      then RemoteScheme url ∧ Forall (Expected host url) added
      else added = [] ∨ added = [Stat (pathResolve host url)].
Proof.
  intros url. unfold resolveRepository. fold url.
  destruct (String.eqb_spec url "") as [Hempty|Hne].
  { exists []. rewrite app_nil_r. split; [done|]. rewrite Hempty. by left. }
  destruct (isRemoteRepository url) eqn:Hremote.
  - apply isRemoteRepository_scheme in Hremote.
    destruct (ensureRemotePathSegments host url) as [e|].
    { exists []. rewrite app_nil_r. by split. }
    assert (Runs (Expected host url)
              (ensureRemoteRepository host url ≫= fun '(localPath, name) =>
               mret {| path := localPath; displayName := name; isRemote := true |}))
      as Hruns.
    { apply Runs_bind; [apply ensureRemoteRepository_Runs|]. intros [localPath name].
      apply Runs_ret. }
    destruct (Hruns trace) as (added & Ht & Hadded). by exists added.
  - exists [Stat (pathResolve host url)]. split; [|by right].
    unfold mbind, Scan_bind, fsStat, throw, mret, Scan_ret.
    by destruct (stat host trace (pathResolve host url)) as [[]|].
Qed.

Lemma ensureRemoteRepository_outcome host url trace :
  match ensureRemoteRepository host url trace with
  | (Done result, trace') =>
      result = (localPathOf host url, displayNameOf url)
      ∧ ∃ before args,
          trace' = before ++ [Git args] ∧ git host before args = GitOk
          ∧ (args = cloneArgs url (localPathOf host url)
             ∨ args = resetArgs (localPathOf host url))
  | (Fails (ScannerError e), trace') =>
      ∃ before,
        trace' = before ++ [Git (cloneArgs url (localPathOf host url))]
        ∧ ((status e = 501
            ∧ message e
              = "Git is required to clone remote repositories. Install git and try again.")
           ∨ (status e = 502
              ∧ ∃ contextMessage detail,
                  (contextMessage = "Failed to clone repository from " +:+ url
                   ∨ contextMessage = "Failed to refresh repository from " +:+ url)
                  ∧ message e = contextMessage +:+ ": " +:+ detail))
  | (Fails OtherError, trace') =>
      ∃ before,
        (trace' = before ++ [Mkdir (REMOTE_REPOS_ROOT host)]
         ∧ mkdir host before (REMOTE_REPOS_ROOT host) = false)
        ∨ (trace' = before ++ [Rm (localPathOf host url)]
           ∧ rm host before (localPathOf host url) = false)
  end.
Proof.
  unfold ensureRemoteRepository. fold (localPathOf host url).
  set (localPath := localPathOf host url).
  set (clone := fun contextMessage =>
         fsRm host localPath ≫= fun _ =>
         execGit host (cloneArgs url localPath) contextMessage).
  assert (∀ contextMessage t,
            contextMessage = "Failed to clone repository from " +:+ url
            ∨ contextMessage = "Failed to refresh repository from " +:+ url →
            match clone contextMessage t with
            | (Done _, trace') =>
                ∃ before, trace' = before ++ [Git (cloneArgs url localPath)]
                          ∧ git host before (cloneArgs url localPath) = GitOk
            | (Fails (ScannerError e), trace') =>
                ∃ before,
                  trace' = before ++ [Git (cloneArgs url localPath)]
                  ∧ ((status e = 501
                      ∧ message e
                        = "Git is required to clone remote repositories. Install git and try again.")
                     ∨ (status e = 502
                        ∧ ∃ contextMessage detail,
                            (contextMessage = "Failed to clone repository from " +:+ url
                             ∨ contextMessage
                               = "Failed to refresh repository from " +:+ url)
                            ∧ message e = contextMessage +:+ ": " +:+ detail))
            | (Fails OtherError, trace') =>
                ∃ before, trace' = before ++ [Rm localPath] ∧ rm host before localPath = false
            end) as Hclone.
  { intros contextMessage t Hctx.
    assert (contextMessage ≠ "") as Hne' by (by destruct Hctx as [-> | ->]).
    pose proof (clone_outcome host url contextMessage t Hne') as H. fold localPath in H.
    cbv zeta in H. fold (clone contextMessage) in H.
    destruct (clone contextMessage t) as [[[e|]|[]] trace']; try done.
    destruct H as (before & -> & [H|(Hs & detail & Hm)]); exists before; split; try done.
    - by left.
    - right. split; [done|]. by exists contextMessage, detail. }
  unfold mbind at 1, Scan_bind at 1. unfold fsMkdir at 1.
  destruct (mkdir host trace (REMOTE_REPOS_ROOT host)) eqn:Hmk; cbv beta iota.
  2:{ exists trace. by left. }
  unfold mbind at 1, Scan_bind at 1. unfold fsStat at 1. cbv beta iota.
  set (t2 := (trace ++ [Mkdir (REMOTE_REPOS_ROOT host)]) ++ [Stat _]).
  destruct (stat host _ _) as [[]|]; cbn [negb]; cbv beta iota.
  - (* a cached clone: update, and clone again when that fails *)
    unfold mbind at 1, Scan_bind at 1. unfold catch.
    unfold mbind at 1, Scan_bind at 1.
    pose proof (execGit_trace host (fetchArgs localPath)
                  ("Failed to update repository " +:+ url) t2) as Hft.
    unfold fetchArgs in Hft.
    destruct (execGit host _ ("Failed to update repository " +:+ url) t2)
      as [[f|[]] t3]; simpl in Hft; subst t3.
    + specialize (Hclone ("Failed to refresh repository from " +:+ url)
                    (t2 ++ [Git (fetchArgs localPath)]) (or_intror eq_refl)).
      fold (clone ("Failed to refresh repository from " +:+ url)).
      destruct (clone _ _) as [[[e|]|[]] t4]; simpl.
      * done.
      * destruct Hclone as (before & ? & ?). exists before. by right.
      * unfold mret, Scan_ret. split; [done|].
        destruct Hclone as (before & ? & ?). exists before, (cloneArgs url localPath).
        auto.
    + pose proof (execGit_trace host (resetArgs localPath)
                    ("Failed to sync repository " +:+ url)
                    (t2 ++ [Git (fetchArgs localPath)])) as Hrt.
      pose proof (execGit_outcome host (resetArgs localPath)
                    ("Failed to sync repository " +:+ url)
                    (t2 ++ [Git (fetchArgs localPath)]) ltac:(done)) as Hro.
      unfold fetchArgs, resetArgs in Hrt, Hro.
      destruct (execGit host _ ("Failed to sync repository " +:+ url) _)
        as [[f|[]] t4]; simpl in Hrt, Hro; subst t4.
      * specialize (Hclone ("Failed to refresh repository from " +:+ url)
                      ((t2 ++ [Git (fetchArgs localPath)]) ++ [Git (resetArgs localPath)])
                      (or_intror eq_refl)).
        fold (clone ("Failed to refresh repository from " +:+ url)).
        destruct (clone _ _) as [[[e|]|[]] t5]; simpl.
        -- done.
        -- destruct Hclone as (before & ? & ?). exists before. by right.
        -- unfold mret, Scan_ret. split; [done|].
           destruct Hclone as (before & ? & ?). exists before, (cloneArgs url localPath).
           auto.
      * simpl. unfold mret, Scan_ret. split; [done|].
        eexists _, _. split; [reflexivity|]. split; [exact Hro|]. by right.
  - (* the directory is there but is no clone *)
    specialize (Hclone ("Failed to clone repository from " +:+ url) t2 (or_introl eq_refl)).
    fold (clone ("Failed to clone repository from " +:+ url)).
    unfold mbind at 1, Scan_bind at 1.
    destruct (clone _ _) as [[[e|]|[]] t3]; simpl.
    + done.
    + destruct Hclone as (before & ? & ?). exists before. by right.
    + unfold mret, Scan_ret. split; [done|].
      destruct Hclone as (before & ? & ?). exists before, (cloneArgs url localPath). auto.
  - (* no clone yet *)
    specialize (Hclone ("Failed to clone repository from " +:+ url) t2 (or_introl eq_refl)).
    fold (clone ("Failed to clone repository from " +:+ url)).
    unfold mbind at 1, Scan_bind at 1.
    destruct (clone _ _) as [[[e|]|[]] t3]; simpl.
    + done.
    + destruct Hclone as (before & ? & ?). exists before. by right.
    + unfold mret, Scan_ret. split; [done|].
      destruct Hclone as (before & ? & ?). exists before, (cloneArgs url localPath). auto.
Qed.

(** X24: how resolving a remote repository ends. It returns the cache
    directory of the URL only after a [git clone] or a [git reset] that
    succeeded as the last command. It throws a [RepoScannerError] with status
    400 before any command when the URL lacks an owner or a name, with status
    501 when [git] cannot be started for the clone, and with status 502 and a
    message about cloning or refreshing when the clone fails: a failure to
    update or to sync a cached clone is never reported, the clone is made
    again. Any other error comes from creating the cache directory or from
    removing the clone. *)
Theorem outcome_of_a_remote_resolve host input trace :
  let url := unchars (Llm.trim (chars input)) in
  isRemoteRepository url = true →
  match resolveRepository host input trace with
  | (Done repo, trace') =>
      repo = {| path := localPathOf host url; displayName := displayNameOf url;
                isRemote := true |}
      ∧ ∃ before args,
          trace' = before ++ [Git args] ∧ git host before args = GitOk
          ∧ (args = cloneArgs url (localPathOf host url)
             ∨ args = resetArgs (localPathOf host url))
  | (Fails (ScannerError e), trace') =>
      (status e = 400 ∧ message e = segmentsMessage ∧ trace' = trace)
      ∨ (∃ before,
           trace' = before ++ [Git (cloneArgs url (localPathOf host url))]
           ∧ ((status e = 501
               ∧ message e
                 = "Git is required to clone remote repositories. Install git and try again.")
              ∨ (status e = 502
                 ∧ ∃ contextMessage detail,
                     (contextMessage = "Failed to clone repository from " +:+ url
                      ∨ contextMessage = "Failed to refresh repository from " +:+ url)
                     ∧ message e = contextMessage +:+ ": " +:+ detail)))
  | (Fails OtherError, trace') =>
      ∃ before,
        (trace' = before ++ [Mkdir (REMOTE_REPOS_ROOT host)]
         ∧ mkdir host before (REMOTE_REPOS_ROOT host) = false)
        ∨ (trace' = before ++ [Rm (localPathOf host url)]
           ∧ rm host before (localPathOf host url) = false)
  end.
Proof.
  intros url Hremote. unfold resolveRepository. fold url.
  destruct (String.eqb_spec url "") as [Hempty|Hne].
  { rewrite Hempty in Hremote. discriminate Hremote. }
  rewrite Hremote.
  assert (∀ e, ensureRemotePathSegments host url = Some e → e = badRequest segmentsMessage)
    as Hbad.
  { unfold ensureRemotePathSegments. intros e. repeat case_match; congruence. }
  destruct (ensureRemotePathSegments host url) as [e|] eqn:He.
  { rewrite (Hbad e eq_refl). simpl. by left. }
  pose proof (ensureRemoteRepository_outcome host url trace) as H.
  unfold mbind, Scan_bind.
  destruct (ensureRemoteRepository host url trace) as [[[e|]|[localPath name]] trace'].
  - by right.
  - done.
  - destruct H as [[= -> ->] H]. by split.
Qed.

Lemma outcome_of_a_remote_resolve_witness :
  match resolveRepository freshHost "https://github.com/owner/repo" [] with
  | (Done repo, trace') =>
      repo = {| path := localPathOf freshHost "https://github.com/owner/repo";
                displayName := displayNameOf "https://github.com/owner/repo";
                isRemote := true |}
      ∧ ∃ before args,
          trace' = before ++ [Git args] ∧ git freshHost before args = GitOk
          ∧ (args = cloneArgs "https://github.com/owner/repo"
                      (localPathOf freshHost "https://github.com/owner/repo")
             ∨ args = resetArgs (localPathOf freshHost "https://github.com/owner/repo"))
  | (Fails (ScannerError e), trace') =>
      (status e = 400 ∧ message e = segmentsMessage ∧ trace' = [])
      ∨ (∃ before,
           trace' = before ++ [Git (cloneArgs "https://github.com/owner/repo"
                                      (localPathOf freshHost "https://github.com/owner/repo"))]
           ∧ ((status e = 501
               ∧ message e
                 = "Git is required to clone remote repositories. Install git and try again.")
              ∨ (status e = 502
                 ∧ ∃ contextMessage detail,
                     (contextMessage
                      = "Failed to clone repository from " +:+ "https://github.com/owner/repo"
                      ∨ contextMessage
                        = "Failed to refresh repository from "
                            +:+ "https://github.com/owner/repo")
                     ∧ message e = contextMessage +:+ ": " +:+ detail)))
  | (Fails OtherError, trace') =>
      ∃ before,
        (trace' = before ++ [Mkdir (REMOTE_REPOS_ROOT freshHost)]
         ∧ mkdir freshHost before (REMOTE_REPOS_ROOT freshHost) = false)
        ∨ (trace' = before ++ [Rm (localPathOf freshHost "https://github.com/owner/repo")]
           ∧ rm freshHost before (localPathOf freshHost "https://github.com/owner/repo")
             = false)
  end.
Proof.
  apply (outcome_of_a_remote_resolve freshHost "https://github.com/owner/repo" []).
  reflexivity.
Defined.

End ScannerProperties.

(** ** The display name of a remote repository *)

Module DisplayNameFacts.
Import JsString RepoScanner ScannerSpec ScannerFacts.

Lemma splitOn_not_nil sep l : splitOn sep l ≠ [].
Proof.
  induction l as [|c r IH]; simpl; [done|]. destruct (sep c); [done|].
  by destruct (splitOn sep r).
Qed.

Lemma splitOn_app_sep sep a s b :
  sep s = true → splitOn sep (a ++ s :: b) = splitOn sep a ++ splitOn sep b.
Proof.
  intros Hs. induction a as [|c a IH]; simpl.
  - by rewrite Hs.
  - destruct (sep c); [by rewrite IH|]. rewrite IH.
    pose proof (splitOn_not_nil sep a). by destruct (splitOn sep a).
Qed.

Lemma splitOn_plain sep l : Forall (fun c => sep c = false) l → splitOn sep l = [l].
Proof.
  induction 1 as [|c l Hc _ IH]; simpl; [done|]. by rewrite Hc, IH.
Qed.

Lemma splitOn_separators sep l :
  Forall (fun c => sep c = true) l →
  filter (fun s => nonEmpty s = true) (splitOn sep l) = [].
Proof.
  induction 1 as [|c l Hc _ IH]; simpl; [done|]. rewrite Hc.
  by rewrite filter_cons_False.
Qed.

(** The last piece is what [split], [filter] and [pop] give. *)
Lemma LastPiece_last sep l name :
  LastPiece sep l name →
  last (filter (fun s => nonEmpty s = true) (splitOn sep l)) = Some name.
Proof.
  intros (before & after & -> & Hne & Hname & Hafter & Hbefore).
  assert (filter (fun s => nonEmpty s = true) (splitOn sep (name ++ after)) = [name]) as Htail.
  { destruct Hafter as [|s after Hs Hafter].
    - rewrite app_nil_r, splitOn_plain by done. rewrite filter_cons_True; [done|].
      by destruct name.
    - rewrite splitOn_app_sep, splitOn_plain by done. simpl.
      rewrite filter_cons_True by (by destruct name).
      by rewrite splitOn_separators. }
  destruct Hbefore as [->|(b & s & -> & Hs)]; simpl.
  - by rewrite Htail.
  - rewrite <- app_assoc. simpl. rewrite splitOn_app_sep by done.
    rewrite filter_app, Htail. apply last_snoc.
Qed.

(** A text that holds a character other than a separator has a last
    piece. *)
Lemma LastPiece_exists sep l :
  Exists (fun c => sep c = false) l → ∃ name, LastPiece sep l name.
Proof.
  induction l as [|c r IH]; intros Hex; [by apply Exists_nil in Hex|].
  destruct (decide (Exists (fun c => sep c = false) r)) as [Hr|Hr].
  - destruct (IH Hr) as (name & before & after & -> & Hne & Hname & Hafter & Hbefore).
    destruct Hbefore as [->|(b & s & -> & Hs)].
    + destruct (sep c) eqn:Hc.
      * exists name, [c], after. split_and!; try done. right. by exists [], c.
      * exists (c :: name), [], after. split_and!; try done; [by constructor | by left].
    + exists name, (c :: b ++ [s]), after. split_and!; try done. right. by exists (c :: b), s.
  - apply Exists_cons in Hex as [Hc|Hex]; [|done].
    exists [c], [], r. split_and!; try done; [by constructor | | by left].
    apply Forall_forall. intros x Hx. destruct (sep x) eqn:E; [done|].
    exfalso. apply Hr. apply Exists_exists. eauto.
Qed.

(** Without such a character there is no piece. *)
Lemma no_piece sep l :
  Forall (fun c => sep c = true) l →
  last (filter (fun s => nonEmpty s = true) (splitOn sep l)) = None.
Proof. intros H. by rewrite splitOn_separators. Qed.

Lemma stripGit_head l c :
  head l = Some c → c ≠ "."%char → head (stripGit l) = Some c.
Proof.
  intros Hl Hc. unfold stripGit.
  destruct (rev l) as [|t [|i [|g [|d before]]]] eqn:E; try done.
  destruct (_ && _) eqn:Hcond; [|done].
  apply andb_true_iff in Hcond as [_ Hd]. apply Ascii.eqb_eq in Hd. subst d.
  assert (l = rev before ++ ["."%char; g; i; t]) as ->.
  { rewrite <- (rev_involutive l), E. simpl. by rewrite <- !app_assoc. }
  destruct (rev before) as [|x xs]; simpl in *; congruence.
Qed.

Lemma RemoteScheme_head url :
  RemoteScheme url →
  ∃ c r, chars url = c :: r ∧ c ≠ "."%char ∧ nameSeparator c = false.
Proof.
  intros (scheme & rest & Hin & ->).
  repeat (apply elem_of_cons in Hin as [->|Hin]); [..|by apply elem_of_nil in Hin];
    by eexists _, _.
Qed.

End DisplayNameFacts.

Module DisplayNameProperties.
Import JsString RepoScanner ScannerSpec.

(** X25: the display name of a remote repository is the last piece of the
    URL, cut of a final [.git], between colons and slashes that is not empty:
    the URL without [.git] reads [before ++ name ++ after], where [name] is
    not empty and holds neither a colon nor a slash, [after] holds colons and
    slashes only, and [before] is empty or ends with a colon or a slash. A
    remote URL always has such a piece, so the default name [repository] is
    not used for it; a text has that name when it holds colons and slashes
    only. *)
Theorem display_name_of_a_remote url :
  isRemoteRepository url = true →
  (∃ name,
     LastPiece nameSeparator (stripGit (chars url)) name
     ∧ displayNameOf url = unchars name)
  ∧ (∀ text, Forall (fun c => nameSeparator c = true) (stripGit (chars text)) →
             displayNameOf text = "repository").
Proof.
  intros Hremote. split.
  - apply ScannerFacts.isRemoteRepository_scheme in Hremote.
    destruct (DisplayNameFacts.RemoteScheme_head url Hremote) as (c & r & Hurl & Hdot & Hsep).
    assert (head (stripGit (chars url)) = Some c) as Hhead
      by (apply DisplayNameFacts.stripGit_head; [by rewrite Hurl | done]).
    destruct (DisplayNameFacts.LastPiece_exists nameSeparator (stripGit (chars url)))
      as [name Hname].
    { destruct (stripGit (chars url)) as [|c' r']; [done|]. injection Hhead as ->.
      by apply Exists_cons_hd. }
    exists name. split; [done|]. unfold displayNameOf.
    fold nameSeparator. by rewrite (DisplayNameFacts.LastPiece_last _ _ _ Hname).
  - intros text Htext. unfold displayNameOf. fold nameSeparator.
    by rewrite DisplayNameFacts.no_piece.
Qed.

Lemma display_name_of_a_remote_witness :
  (∃ name,
     LastPiece nameSeparator (stripGit (chars "git@github.com:owner/repo.git")) name
     ∧ displayNameOf "git@github.com:owner/repo.git" = unchars name)
  ∧ (∀ text, Forall (fun c => nameSeparator c = true) (stripGit (chars text)) →
             displayNameOf text = "repository").
Proof.
  apply (display_name_of_a_remote "git@github.com:owner/repo.git").
  reflexivity.
Defined.
End DisplayNameProperties.

(** ** The file graph of the second analyzer *)

Module CodeFilesFacts.
Import JsString CodeFiles CodeFilesSpec.

Lemma firstMatching_id normalized allFiles t :
  firstMatching normalized allFiles = Some t → t ∈ map id allFiles.
Proof.
  induction allFiles as [|f rest IH]; [done|]. simpl. case_bool_decide.
  - intros [= <-]. left.
  - intros Hrest. right. by apply IH.
Qed.

Lemma findFileForFunction_key functionName fileFunctions t :
  findFileForFunction functionName fileFunctions = Some t → t ∈ okeys fileFunctions.
Proof.
  induction fileFunctions as [|[f fs] rest IH]; [done|]. simpl. case_bool_decide.
  - intros [= <-]. left.
  - intros Hrest. right. by apply IH.
Qed.

(** *** The tables *)

Lemma collect_nodes host tables entry :
  map id (fileNodes (collect host tables entry))
  = map id (fileNodes tables) ++ parsedEntries [entry].
Proof.
  destruct entry as [fileId [analysis|]]; simpl.
  - by rewrite map_app.
  - by rewrite app_nil_r.
Qed.

Lemma collect_all_nodes host entries tables :
  map id (fileNodes (fold_left (collect host) entries tables))
  = map id (fileNodes tables) ++ parsedEntries entries.
Proof.
  revert tables. induction entries as [|entry entries IH]; intros tables; simpl.
  - by rewrite app_nil_r.
  - rewrite IH, collect_nodes. rewrite <- app_assoc. f_equal.
    unfold parsedEntries. simpl. by destruct (entry.2).
Qed.

Lemma KeysAmong_oset ids table k v :
  k ∈ ids → KeysAmong ids table → KeysAmong ids (oset table k v).
Proof.
  intros Hk Ht k' [->|Hin]%elem_of_okeys_oset; [done | by apply Ht].
Qed.

Lemma KeysAmong_more ids ids' table :
  (∀ k, k ∈ ids → k ∈ ids') → KeysAmong ids table → KeysAmong ids' table.
Proof. intros Hsub Ht k Hk. by apply Hsub, Ht. Qed.

Lemma collect_keys host tables entry :
  let ids := map id (fileNodes tables) in
  let ids' := map id (fileNodes (collect host tables entry)) in
  KeysAmong ids (fileImports tables) ∧ KeysAmong ids (fileFunctions tables)
  ∧ KeysAmong ids (functionCalls tables) →
  KeysAmong ids' (fileImports (collect host tables entry))
  ∧ KeysAmong ids' (fileFunctions (collect host tables entry))
  ∧ KeysAmong ids' (functionCalls (collect host tables entry)).
Proof.
  intros ids ids' (H1 & H2 & H3). unfold ids'.
  destruct entry as [fileId [analysis|]]; [|done]. simpl. rewrite map_app. simpl.
  assert (∀ k, k ∈ ids → k ∈ ids ++ [fileId]) as Hsub
    by (intros k Hk; apply elem_of_app; by left).
  assert (fileId ∈ ids ++ [fileId]) as Hin
    by (apply elem_of_app; right; by apply list_elem_of_singleton).
  fold ids. split_and!.
  - destruct (imports analysis); [by eapply KeysAmong_more|].
    apply KeysAmong_oset; [done | by eapply KeysAmong_more].
  - destruct (functions analysis); [by eapply KeysAmong_more|].
    apply KeysAmong_oset; [done | by eapply KeysAmong_more].
  - destruct (functions analysis); [by eapply KeysAmong_more|].
    destruct (fold_left _ _ _); [by eapply KeysAmong_more|].
    apply KeysAmong_oset; [done | by eapply KeysAmong_more].
Qed.

Lemma collect_all_keys host entries tables :
  let ids := map id (fileNodes tables) in
  let tables' := fold_left (collect host) entries tables in
  let ids' := map id (fileNodes tables') in
  KeysAmong ids (fileImports tables) ∧ KeysAmong ids (fileFunctions tables)
  ∧ KeysAmong ids (functionCalls tables) →
  KeysAmong ids' (fileImports tables') ∧ KeysAmong ids' (fileFunctions tables')
  ∧ KeysAmong ids' (functionCalls tables').
Proof.
  revert tables. induction entries as [|entry entries IH]; intros tables; simpl; [done|].
  intros H. apply IH. by apply collect_keys.
Qed.

(** *** The edges *)

Lemma elem_of_okeys_pair {V} (m : list (string * V)) k v : (k, v) ∈ m → k ∈ okeys m.
Proof. intros Hin. apply list_elem_of_fmap. by exists (k, v). Qed.

Lemma importEdges_good ids nodes edges entry :
  map id nodes = ids → entry.1 ∈ ids →
  Forall (GoodEdge ids) edges → Forall (GoodEdge ids) (importEdges nodes edges entry).
Proof.
  intros Hids Hsrc. destruct entry as [sourceFile paths]. simpl in *.
  revert edges. induction paths as [|importPath paths IH]; intros edges Hedges; [done|].
  simpl. apply IH.
  destruct (resolveImport sourceFile importPath nodes) as [targetFile|] eqn:E; [|done].
  destruct (negb (String.eqb targetFile "")); [|done].
  destruct (String.eqb_spec targetFile sourceFile) as [|Hne]; [done|]. simpl.
  apply Forall_app. split; [done|]. apply Forall_singleton. split_and!; simpl; [done| |done].
  rewrite <- Hids. by eapply firstMatching_id.
Qed.

Lemma callEdges_good ids fileFunctions edges entry :
  KeysAmong ids fileFunctions → entry.1 ∈ ids →
  Forall (GoodEdge ids) edges → Forall (GoodEdge ids) (callEdges fileFunctions edges entry).
Proof.
  intros Hkeys Hsrc. destruct entry as [sourceFile calls]. simpl in *.
  revert edges. induction calls as [|call calls IH]; intros edges Hedges; [done|].
  simpl. apply IH.
  destruct (findFileForFunction call fileFunctions) as [targetFile|] eqn:E; [|done].
  destruct (negb (String.eqb targetFile "")); [|done].
  destruct (String.eqb_spec targetFile sourceFile) as [|Hne]; [done|]. simpl.
  apply Forall_app. split; [done|]. apply Forall_singleton. split_and!; simpl; [done| |done].
  by eapply Hkeys, findFileForFunction_key.
Qed.

Lemma fold_good {A} ids (step : list Edge → A → list Edge) (l : list A) edges :
  (∀ edges a, a ∈ l → Forall (GoodEdge ids) edges → Forall (GoodEdge ids) (step edges a)) →
  Forall (GoodEdge ids) edges → Forall (GoodEdge ids) (fold_left step l edges).
Proof.
  revert edges. induction l as [|a l IH]; intros edges Hstep Hedges; [done|].
  simpl. apply IH.
  - intros e b Hb. apply Hstep. by right.
  - apply Hstep; [left | done].
Qed.

Lemma sameDirEdges_good host ids nodes edges :
  NoDup (map id nodes) → (∀ n, n ∈ nodes → id n ∈ ids) →
  Forall (GoodEdge ids) edges → Forall (GoodEdge ids) (sameDirEdges host nodes edges).
Proof.
  revert edges. induction nodes as [|node rest IH]; intros edges Hnd Hids Hedges; [done|].
  simpl in *. apply NoDup_cons in Hnd as [Hnotin Hnd].
  apply IH; [done | by intros n Hn; apply Hids; right |].
  apply fold_good; [|done]. intros es other Hother Hes. unfold sameDirEdge.
  destruct (_ && _); [|done]. apply Forall_app. split; [done|].
  apply Forall_singleton. split_and!; simpl.
  - apply Hids. left.
  - apply Hids. by right.
  - intros Heq. apply Hnotin. rewrite Heq. apply list_elem_of_fmap. by exists other.
Qed.

Lemma parsedEntries_sublist entries : parsedEntries entries `sublist_of` map fst entries.
Proof.
  induction entries as [|[k [a|]] entries IH]; simpl; [done|..].
  - by apply sublist_skip.
  - by apply sublist_cons.
Qed.

Lemma stripLeadingDots_dotsOnly l :
  Forall (fun c => c = "."%char ∨ c = "/"%char) l → stripLeadingDots l = [].
Proof. induction 1 as [|c l [-> | ->] _ IH]; simpl; done. Qed.

End CodeFilesFacts.

(** ** Properties of the file graph of the second analyzer *)

Module CodeFilesProperties.
Import JsString CodeFiles CodeFilesSpec CodeFilesFacts.
Local Open Scope nat_scope.

(** X26: the file graph that [analyzeCodeFromFiles] returns is well
    formed. Its nodes are the files that the parser read without an error
    among the first hundred entries of the map, in the order of the map and
    under pairwise different identifiers; and every edge, whether it comes
    from an import, from a call or from a shared directory, joins two
    different nodes of the graph. *)
Theorem code_file_graph_is_well_formed host files :
  NoDup (map fst files) →
  let nodes := (analyzeCodeFromFiles host files).1 in
  let edges := (analyzeCodeFromFiles host files).2 in
  map id nodes = parsedEntries (take 100 files)
  ∧ List.length nodes ≤ 100
  ∧ NoDup (map id nodes)
  ∧ Forall (GoodEdge (map id nodes)) edges.
Proof.
  intros Hnd nodes edges. unfold nodes, edges, analyzeCodeFromFiles.
  destruct (take 100 files) as [|entry entries] eqn:Htake.
  { simpl. split_and!; [done|lia|constructor|constructor]. }
  rewrite <- Htake. clear entry entries Htake.
  set (start := {| fileNodes := []; fileImports := []; fileFunctions := [];
                   functionCalls := [] |}).
  set (tables := fold_left (collect host) (take 100 files) start).
  assert (map id (fileNodes tables) = parsedEntries (take 100 files)) as Hids
    by apply (collect_all_nodes host (take 100 files) start).
  destruct (collect_all_keys host (take 100 files) start) as (Hk1 & Hk2 & Hk3).
  { split_and!; intros k Hk; by apply elem_of_nil in Hk. }
  fold tables in Hk1, Hk2, Hk3.
  assert (NoDup (map id (fileNodes tables))) as Hnodup.
  { rewrite Hids. eapply sublist_NoDup; [|apply parsedEntries_sublist].
    eapply sublist_NoDup; [exact Hnd|]. apply (fmap_sublist fst), sublist_take. }
  cbn [fst snd]. split_and!; [done| |done|].
  - rewrite <- (length_map id), Hids.
    etrans; [apply sublist_length, parsedEntries_sublist|].
    rewrite length_map, length_take. lia.
  - apply sameDirEdges_good; [done| |].
    { intros n Hn. apply list_elem_of_fmap. by exists n. }
    apply fold_good.
    { intros es [sourceFile calls] Hin Hes. apply callEdges_good; [done| |done].
      simpl. by eapply Hk3, elem_of_okeys_pair. }
    apply fold_good; [|constructor].
    intros es [sourceFile paths] Hin Hes. apply importEdges_good; [done| |done].
    simpl. by eapply Hk1, elem_of_okeys_pair.
Qed.

Lemma code_file_graph_is_well_formed_witness :
  let nodes := (analyzeCodeFromFiles posixHost twoFiles).1 in
  let edges := (analyzeCodeFromFiles posixHost twoFiles).2 in
  map id nodes = parsedEntries (take 100 twoFiles)
  ∧ List.length nodes ≤ 100
  ∧ NoDup (map id nodes)
  ∧ Forall (GoodEdge (map id nodes)) edges.
Proof.
  apply (code_file_graph_is_well_formed posixHost twoFiles).
  apply (bool_decide_unpack _). vm_compute. reflexivity.
Defined.

(** X27: an import path of dots and slashes resolves to the first file.
    [resolveImport] does not look at the importing file; it removes the
    leading dots and slashes of the path and takes the first file whose
    identifier, without its extension, ends with what is left. For a path
    such as [.], [..] or [./] nothing is left, and the first file of the
    list is the answer, whatever it is. *)
Theorem dots_resolve_to_first_file sourceFile importPath node rest :
  dotsOnly importPath →
  resolveImport sourceFile importPath (node :: rest) = Some (id node)
  ∧ ∀ otherSource, resolveImport otherSource importPath (node :: rest) = Some (id node).
Proof.
  intros Hdots.
  assert (∀ s, resolveImport s importPath (node :: rest) = Some (id node)) as H.
  { intros s. unfold resolveImport. rewrite (stripLeadingDots_dotsOnly _ Hdots).
    change (stripExtension []) with (@nil ascii). cbn [firstMatching].
    rewrite bool_decide_eq_true_2; [done|]. apply suffix_nil. }
  split; [apply H | intros s; apply H].
Qed.

Lemma dots_resolve_to_first_file_witness :
  resolveImport "src/deep/a.ts" ".."
    [{| id := "README.md"; label := "README.md"; file := "README.md" |}]
  = Some "README.md"
  ∧ ∀ otherSource,
      resolveImport otherSource ".."
        [{| id := "README.md"; label := "README.md"; file := "README.md" |}]
      = Some "README.md".
Proof.
  apply (dots_resolve_to_first_file "src/deep/a.ts" ".."
           {| id := "README.md"; label := "README.md"; file := "README.md" |} []).
  repeat constructor.
Defined.

End CodeFilesProperties.

(** ** The file nodes of a run *)

Module FileNodeProperties.
Import JsString Context ExtractSpec RunSpec FileNodeSpec Pipeline.

Lemma filter_members {A} (P Q : A → Prop) `{∀ x, Decision (P x)} `{∀ x, Decision (Q x)}
    (l : list A) :
  (∀ x, x ∈ l → (P x ↔ Q x)) → filter P l = filter Q l.
Proof.
  induction l as [|a l IH]; intros Hl; [done|].
  rewrite !filter_cons. rewrite IH by (intros x Hx; apply Hl; by right).
  assert (P a ↔ Q a) as Ha by (apply Hl; left).
  destruct (decide (P a)) as [Hp|Hp], (decide (Q a)) as [Hq|Hq]; tauto.
Qed.

(** X28: the file nodes of a response can be told from the listing. When
    the files of the parallel phase are the supported files of the listing,
    the file graph holds the directory nodes and then, in the order of the
    listing, one node for each listed file whose extension, in lower case, is
    one of the six supported ones and that was read and parsed without an
    error: whatever the order in which the files finished and whatever the
    model answered. *)
Theorem file_nodes_are_the_parsed_sources host clock repo completion :
  fileEntries repo ≠ [] →
  schedule repo completion →
  ∃ r, analyzeRepositoryGraph host clock repo completion = Returns r
       ∧ AnalyzeResponseBody.fileNodes r
         = map (directoryNode repo) (directoriesOf repo)
           ++ map (fileNode repo)
                (filter (fun rel => parses repo rel = true)
                   (filter (fun rel => extOf rel ∈ SUPPORTED_EXTENSIONS)
                      (fileEntries repo))).
Proof.
  intros Hfiles Hs. eexists. split; [by apply GraphFacts.run_returns|].
  simpl. f_equal. f_equal. rewrite list_filter_filter.
  apply filter_members. intros rel Hrel.
  rewrite (RunFacts.run_okeys host repo completion rel).
  unfold schedule, parseTargets in Hs. rewrite Hs, list_elem_of_filter.
  unfold parsed, parses. destruct (outcomeOf repo rel) as [message|code visits].
  - split; [by intros [_ (? & ? & ?)] | by intros [? _]].
  - split; [by intros [[? ?] _] | intros [_ ?]; eauto].
Qed.

Lemma file_nodes_are_the_parsed_sources_witness :
  ∃ r, analyzeRepositoryGraph failingHost Examples.clock0 brokenRepo
         ["src/bad.ts"; "src/ok.ts"] = Returns r
       ∧ AnalyzeResponseBody.fileNodes r
         = map (directoryNode brokenRepo) (directoriesOf brokenRepo)
           ++ map (fileNode brokenRepo)
                (filter (fun rel => parses brokenRepo rel = true)
                   (filter (fun rel => extOf rel ∈ SUPPORTED_EXTENSIONS)
                      (fileEntries brokenRepo))).
Proof.
  apply (file_nodes_are_the_parsed_sources failingHost Examples.clock0 brokenRepo
           ["src/bad.ts"; "src/ok.ts"]).
  - discriminate.
  - unfold schedule. vm_compute. apply perm_swap.
Defined.

End FileNodeProperties.

(** ** The deterministic passes in closed form *)

Module NameFacts.
Import JsString NameSpec.

Lemma append_cons x (a b : string) : String x a +:+ b = String x (a +:+ b).
Proof. done. Qed.

(** A text is cut in one way at the first occurrence of a character. *)
Lemma cut_unique c s1 t1 s2 t2 :
  holds c s1 = false → holds c s2 = false →
  s1 +:+ String c t1 = s2 +:+ String c t2 → s1 = s2 ∧ t1 = t2.
Proof.
  revert s2. induction s1 as [|x s1 IH]; intros [|y s2]; simpl.
  - by intros _ _ [= ->].
  - intros _ [Hy _]%orb_false_iff [= <- _]. by rewrite Ascii.eqb_refl in Hy.
  - intros [Hx _]%orb_false_iff _ [= -> _]. by rewrite Ascii.eqb_refl in Hx.
  - intros [_ H1]%orb_false_iff [_ H2]%orb_false_iff [= -> H].
    destruct (IH s2 H1 H2 H) as [-> ->]. done.
Qed.

Lemma holds_append c (a b : string) : holds c (a +:+ b) = holds c a || holds c b.
Proof.
  induction a as [|x a IH]; simpl; [done|]. by rewrite IH, orb_assoc.
Qed.

Lemma append_dash_inj (s1 s2 : string) : s1 +:+ "-" = s2 +:+ "-" → s1 = s2.
Proof.
  revert s2. induction s1 as [|x s1 IH]; intros [|y s2]; simpl; try done.
  - intros [= _ H]. by destruct s2.
  - intros [= _ H]. by destruct s1.
  - intros [= -> H]. by rewrite (IH s2 H).
Qed.

(** The key of an edge tells its ends, when the source holds no
    greater-than sign. *)
Lemma arrow_unique s1 t1 s2 t2 :
  holds ">"%char s1 = false → holds ">"%char s2 = false →
  s1 +:+ "->" +:+ t1 = s2 +:+ "->" +:+ t2 → s1 = s2 ∧ t1 = t2.
Proof.
  intros H1 H2 H.
  assert (∀ (s t : string), s +:+ "->" +:+ t = (s +:+ "-") +:+ String ">"%char t) as E.
  { intros s t. by rewrite EdgeFacts.append_assoc. }
  rewrite !E in H. apply cut_unique in H as [Hs ->].
  - split; [by apply append_dash_inj | done].
  - rewrite holds_append. simpl. by rewrite H1.
  - rewrite holds_append. simpl. by rewrite H2.
Qed.

(** The key of an export tells its file, when the path holds no colon. *)
Lemma colon_unique p1 n1 p2 n2 :
  holds ":"%char p1 = false → holds ":"%char p2 = false →
  p1 +:+ ":" +:+ n1 = p2 +:+ ":" +:+ n2 → p1 = p2 ∧ n1 = n2.
Proof. intros H1 H2 H. by apply (cut_unique ":"%char). Qed.

Lemma plainNames_paths repo rel :
  plainNames repo = true → rel ∈ fileEntries repo →
  holds ":"%char rel = false ∧ holds ">"%char rel = false.
Proof.
  intros [H _]%andb_true_iff Hrel%list_elem_of_In.
  rewrite forallb_forall in H. specialize (H rel Hrel).
  apply andb_true_iff in H as [H1 H2]. by destruct (holds ":" rel), (holds ">" rel).
Qed.

Lemma plainNames_ids repo rel code visits f :
  plainNames repo = true → rel ∈ fileEntries repo →
  outcomeOf repo rel = Parsed code visits →
  f ∈ FileAnalysis.functions (Analyzer.analyzeFile rel code visits) →
  holds ">"%char (FunctionInfo.id f) = false.
Proof.
  intros [_ H]%andb_true_iff Hrel%list_elem_of_In Hout Hf.
  rewrite forallb_forall in H. specialize (H rel Hrel).
  rewrite forallb_forall in H. unfold idsOf in H. rewrite Hout in H.
  specialize (H (FunctionInfo.id f)).
  destruct (holds ">" (FunctionInfo.id f)); [|done].
  exfalso. assert (negb true = true) as Hc; [|done].
  apply H. apply list_elem_of_In, list_elem_of_fmap. by exists f.
Qed.

End NameFacts.

Module ResolveClosed.
Import JsString Context ResolverSpec ResolverFacts ResolveSpec StaticSpec.

Section WithResolver.
Variable fileSet : gset string.
Variable paths : list TsconfigPathsEntry.

Lemma resolveBinding_binding relPath st binding :
  CacheSound fileSet (Assembler.rs_cache st) →
  (Assembler.resolveBinding fileSet paths relPath st binding).2
  = resolvedBinding fileSet paths relPath binding.
Proof.
  intros Hc. unfold Assembler.resolveBinding, resolvedBinding, resolvedTarget.
  destruct (resolve_sound fileSet paths (Assembler.rs_cache st) relPath
              (ImportBinding.source binding) Hc) as [H1 H2].
  destruct (Resolver.resolve _ _ _ _ _) as [resolved cache]. simpl in H1, H2.
  rewrite <- H1. destruct resolved as [r|]; simpl.
  - destruct (String.eqb r ""); simpl; [|done]. by destruct (negb _).
  - by destruct (negb _).
Qed.

Lemma resolveBindings_bindings relPath st bindings :
  CacheSound fileSet (Assembler.rs_cache st) →
  CacheSound fileSet
    (Assembler.rs_cache (Assembler.resolveBindings fileSet paths relPath st bindings).1)
  ∧ (Assembler.resolveBindings fileSet paths relPath st bindings).2
    = map (resolvedBinding fileSet paths relPath) bindings.
Proof.
  revert st. induction bindings as [|b bindings IH]; intros st Hc; simpl; [done|].
  pose proof (resolveBinding_binding relPath st b Hc) as Hb.
  destruct (ResolveFacts.resolveBinding_spec fileSet paths relPath st b Hc) as [H1 _].
  destruct (Assembler.resolveBinding _ _ _ _ _) as [st1 b']. simpl in *.
  destruct (IH st1 H1) as [H2 H3].
  destruct (Assembler.resolveBindings _ _ _ _ _) as [st2 rest']. simpl in *.
  split; [done|]. by rewrite Hb, H3.
Qed.

Lemma resolveFiles_entries st entries :
  CacheSound fileSet (Assembler.rs_cache st) →
  (Assembler.resolveFiles fileSet paths st entries).2
  = map (resolvedEntry fileSet paths) entries.
Proof.
  revert st. induction entries as [|[relPath analysis] entries IH]; intros st Hc; simpl;
    [done|].
  destruct (resolveBindings_bindings relPath st (FileAnalysis.imports analysis) Hc)
    as [H1 H2].
  destruct (Assembler.resolveBindings _ _ _ _ _) as [st1 imports']. simpl in *.
  pose proof (IH st1 H1) as H3.
  destruct (Assembler.resolveFiles _ _ _ _) as [st2 rest']. simpl in *.
  by rewrite H2, H3.
Qed.

(** Import resolution in closed form: every entry of the file table gets
    its imports resolved, each on its own. *)
Lemma resolveImports_files ctx :
  CacheSound fileSet (candidateCache ctx) →
  files (Assembler.resolveImports fileSet paths ctx)
  = map (resolvedEntry fileSet paths) (files ctx).
Proof.
  intros Hc. unfold Assembler.resolveImports.
  pose proof (resolveFiles_entries
                (Assembler.mkResolveState (candidateCache ctx) (fileEdges ctx) (unresolved ctx))
                (files ctx) Hc) as H.
  by destruct (Assembler.resolveFiles _ _ _ _) as [st entries].
Qed.

End WithResolver.
End ResolveClosed.

Module ExportFacts.
Import JsString Context StaticSpec.

Lemma lastMatch_snoc {A} (P : A → bool) (l : list A) x :
  lastMatch P (l ++ [x]) = if P x then Some (List.length l) else lastMatch P l.
Proof.
  induction l as [|y l IH]; simpl; [by destruct (P x)|].
  rewrite IH. by destruct (P x), (lastMatch P l).
Qed.

Lemma lastMatch_Some {A} (P : A → bool) (l : list A) j :
  lastMatch P l = Some j → ∃ x, l !! j = Some x ∧ P x = true.
Proof.
  revert j. induction l as [|y l IH]; intros j; simpl; [done|].
  destruct (lastMatch P l) as [j'|].
  - intros [= <-]. simpl. by apply IH.
  - destruct (P y) eqn:Hy; [|done]. intros [= <-]. eauto.
Qed.


Lemma indexed_snoc {A} (l : list A) x :
  Assembler.indexed (l ++ [x]) = Assembler.indexed l ++ [(List.length l, x)].
Proof.
  unfold Assembler.indexed. rewrite imap_app. simpl. by rewrite Nat.add_0_r.
Qed.

(** The loop over the records of one file. *)
Lemma exportFunctions_lookup path pos fns (m : gmap string FnRef) key :
  fold_left (Assembler.exportFunction path pos) (Assembler.indexed fns) m !! key
  = match lastMatch (entersUnder path key) fns with
    | Some j => Some (pos, j)
    | None => m !! key
    end.
Proof.
  induction fns as [|f fns IH] using rev_ind; [done|].
  rewrite indexed_snoc, fold_left_app, lastMatch_snoc. simpl.
  unfold Assembler.exportFunction at 1. unfold entersUnder at 1, exportKeyOf. simpl.
  destruct (FunctionInfo.isExported f && truthy (FunctionInfo.exportName f)).
  - rewrite lookup_insert. case_decide as Hk.
    + by rewrite bool_decide_eq_true_2 by by rewrite Hk.
    + rewrite bool_decide_eq_false_2 by congruence. apply IH.
  - rewrite bool_decide_eq_false_2 by done. apply IH.
Qed.

Lemma exportsOf_snoc fs e key :
  exportsOf (fs ++ [e]) !! key
  = match exportOf key e with
    | Some j => Some (List.length fs, j)
    | None => exportsOf fs !! key
    end.
Proof.
  unfold exportsOf. rewrite indexed_snoc, fold_left_app. simpl.
  unfold Assembler.exportFile at 1. simpl. apply exportFunctions_lookup.
Qed.

(** No file enters a record under the key. *)
Lemma exportsOf_None fs key :
  (∀ e, e ∈ fs → exportOf key e = None) → exportsOf fs !! key = None.
Proof.
  induction fs as [|e fs IH] using rev_ind; intros H; [done|].
  rewrite exportsOf_snoc, H by (apply elem_of_app; right; left).
  apply IH. intros e' He'. apply H. apply elem_of_app. by left.
Qed.

(** An entry of the index is the last record that some file enters under
    the key. *)
Lemma exportsOf_Some fs key pos j :
  exportsOf fs !! key = Some (pos, j) →
  ∃ e, fs !! pos = Some e ∧ exportOf key e = Some j.
Proof.
  induction fs as [|e fs IH] using rev_ind; [done|].
  rewrite exportsOf_snoc. destruct (exportOf key e) as [j'|] eqn:He.
  - intros [= <- <-]. exists e. by rewrite list_lookup_middle.
  - intros (e' & He' & Hj)%IH. exists e'. split; [|done].
    by apply lookup_app_l_Some.
Qed.

(** When one file alone enters records under the key, the index holds the
    last of them. *)
Lemma exportsOf_owner fs key pos e :
  fs !! pos = Some e →
  (∀ pos' e', pos' ≠ pos → fs !! pos' = Some e' → exportOf key e' = None) →
  exportsOf fs !! key = (fun j => (pos, j)) <$> exportOf key e.
Proof.
  revert pos e. induction fs as [|x fs IH] using rev_ind; intros pos e Hpos Hother; [done|].
  rewrite exportsOf_snoc.
  destruct (decide (pos = List.length fs)) as [->|Hne].
  - rewrite list_lookup_middle in Hpos by done. injection Hpos as ->.
    destruct (exportOf key e) as [j|]; [done|]. simpl.
    apply exportsOf_None. intros e' (i & Hi)%list_elem_of_lookup_1.
    apply (Hother i).
    + apply lookup_lt_Some in Hi. lia.
    + by apply lookup_app_l_Some.
  - assert (pos < List.length fs) as Hlt.
    { apply lookup_lt_Some in Hpos. rewrite length_app in Hpos. simpl in Hpos. lia. }
    rewrite lookup_app_l in Hpos by done.
    rewrite (Hother (List.length fs) x) by (done || by rewrite list_lookup_middle).
    apply IH; [done|]. intros pos' e' Hne' He'. apply (Hother pos'); [done|].
    by apply lookup_app_l_Some.
Qed.

End ExportFacts.

Module CallStepFacts.
Import JsString Context FilesSpec IncludeSpec StaticSpec.

Lemma alter_insert {A} (g : A → A) i (l : list A) x :
  l !! i = Some x → alter g i l = <[i := g x]> l.
Proof.
  intros Hx. apply list_eq. intros j. rewrite list_lookup_alter, list_lookup_insert.
  assert (i < List.length l) by by eapply lookup_lt_Some.
  case_decide as Hij.
  - subst j. rewrite Hx. simpl. by rewrite decide_True by done.
  - by rewrite decide_False by naive_solver.
Qed.

Lemma setInclude_included f :
  FunctionInfo.include f = true → Analyzer.setInclude f = f.
Proof. destruct f. simpl. by intros ->. Qed.

(** Marking a record that is marked changes nothing. *)
Lemma includeFn_included fs r f :
  fnAt fs r = Some f → FunctionInfo.include f = true → includeFn fs r = fs.
Proof.
  unfold fnAt, includeFn. destruct (fs !! r.1) as [[k a]|] eqn:He; [|done]. simpl.
  intros Hf Hinc. rewrite (alter_insert _ _ _ _ He). apply list_insert_id.
  rewrite He. f_equal. unfold alterFunctions. simpl.
  rewrite (alter_insert _ _ _ _ Hf), setInclude_included, list_insert_id by done.
  by destruct a.
Qed.

Lemma findCaller_is_Some fns callerId f :
  f ∈ fns → FunctionInfo.id f = callerId → is_Some (Assembler.findCaller fns callerId).
Proof.
  intros Hf Hid. unfold Assembler.findCaller.
  destruct (list_find_elem_of (fun fn => FunctionInfo.id fn = callerId) fns f Hf Hid)
    as [[j g] ->]. by eexists.
Qed.

(** One call, in closed form. *)
Lemma edgeForCall_closed pos specifierMap c k a kIdx call :
  ContextCoherent c →
  files c !! pos = Some (k, a) →
  (∃ c0, FileAnalysis.calls a !! kIdx = Some c0
         ∧ CallBinding.callerId c0 = CallBinding.callerId call) →
  let c' := Assembler.edgeForCall pos specifierMap c (kIdx, call) in
  files c' = <[pos := (k, callStep (exportedFunctions c) specifierMap a (kIdx, call))]> (files c)
  ∧ exportedFunctions c' = exportedFunctions c
  ∧ functionEdges c'
    = match endsOf (files c) (exportedFunctions c) specifierMap call with
      | Some st => writeEdge (functionEdges c) st
      | None => functionEdges c
      end.
Proof.
  intros (Hfs & Hex & Hed) Hpos (c0 & Hc0 & Hcid) c'. unfold c'.
  unfold Assembler.edgeForCall, callStep, endsOf, yields, targetOf. simpl.
  assert (files c = <[pos := (k, a)]> (files c)) as Hid by (by rewrite list_insert_id).
  destruct (specifierMap !! _) as [spec|]; [|done].
  destruct (truthy (ImportSpecifierBinding.resolved spec)); simpl; [|done].
  set (resolved := from_option (fun r => r) "" (ImportSpecifierBinding.resolved spec)).
  set (target := match exportedFunctions c !! _ with Some r => Some r | None => _ end).
  assert (∀ t, target = Some t →
            ∃ ft, fnAt (files c) t = Some ft ∧ FunctionInfo.include ft = true) as Htarget.
  { intros t Ht.
    assert (∃ ft, fnAt (files c) t = Some ft ∧ FunctionInfo.isExported ft = true)
      as (ft & Hft & Hexp).
    { unfold target in Ht. destruct (exportedFunctions c !! _) as [r|] eqn:E.
      - injection Ht as <-. by eapply Hex.
      - by eapply Hex. }
    exists ft. split; [done|]. unfold fnAt in Hft.
    destruct (files c !! t.1) as [et|] eqn:Het; [|done]. simpl in Hft.
    destruct (Hfs et) as (HE & _); [by eapply list_elem_of_lookup_2|].
    apply HE; [by eapply list_elem_of_lookup_2 | done]. }
  destruct target as [t|]; simpl; [|done].
  destruct (Htarget t eq_refl) as (ft & Hft & Hinc).
  rewrite Hpos. simpl.
  destruct (Hfs (k, a)) as (_ & _ & HC); [by eapply list_elem_of_lookup_2|].
  destruct (HC c0) as (g & Hg & Hgid & _); [by eapply list_elem_of_lookup_2|].
  destruct (findCaller_is_Some (FileAnalysis.functions a) (CallBinding.callerId call) g Hg)
    as [j Hj]; [congruence|].
  rewrite Hj. simpl.
  destruct (IncludeFacts.findCaller_Some _ _ _ Hj) as (fc & Hfc & Hfcid).
  set (fs1 := includeFn (files c) (pos, j)).
  assert (includeFn fs1 t = fs1) as ->.
  { destruct (FilesFacts.FilesGrown_included (files c) fs1 t ft
                (FilesFacts.includeFn_grown _ _) Hft Hinc) as (ft' & Hft' & _ & Hinc').
    by eapply includeFn_included. }
  assert (fs1 = <[pos := (k, FileAnalysis.mk (FileAnalysis.path a) (FileAnalysis.imports a)
                                (alter Analyzer.setInclude j (FileAnalysis.functions a))
                                (FileAnalysis.calls a) (FileAnalysis.preview a)
                                (FileAnalysis.size a))]> (files c)) as Hfs1.
  { unfold fs1, includeFn. simpl. by rewrite (alter_insert _ _ _ _ Hpos). }
  assert (pos < List.length (files c)) as Hlt by by eapply lookup_lt_Some.
  set (fs3 := alter _ pos fs1).
  assert (fs3 = <[pos := (k, FileAnalysis.mk (FileAnalysis.path a) (FileAnalysis.imports a)
                                (alter Analyzer.setInclude j (FileAnalysis.functions a))
                                (alter (setCallResolved resolved) kIdx (FileAnalysis.calls a))
                                (FileAnalysis.preview a) (FileAnalysis.size a))]> (files c))
    as Hfs3.
  { unfold fs3. rewrite Hfs1.
    erewrite alter_insert by (by apply list_lookup_insert_eq).
    by rewrite list_insert_insert_eq. }
  assert (idOf fs3 (pos, j) = CallBinding.callerId call) as ->.
  { unfold idOf, fnAt. rewrite Hfs3. simpl. rewrite list_lookup_insert_eq by done. simpl.
    rewrite list_lookup_alter_eq, Hfc. simpl. done. }
  assert (idOf fs3 t = idOf (files c) t) as ->.
  { apply FilesFacts.FilesGrown_idOf.
    eapply FilesFacts.FilesGrown_trans; [|apply FilesFacts.setCallResolved_grown].
    apply FilesFacts.includeFn_grown. }
  by split_and!.
Qed.

End CallStepFacts.

Module CallEdgesClosed.
Import JsString Context FilesSpec IncludeSpec StaticSpec CallStepFacts.

Lemma callStep_calls E specifierMap a entry kIdx c0 :
  FileAnalysis.calls a !! kIdx = Some c0 →
  ∃ c1, FileAnalysis.calls (callStep E specifierMap a entry) !! kIdx = Some c1
        ∧ CallBinding.callerId c1 = CallBinding.callerId c0.
Proof.
  intros Hc0. unfold callStep. destruct (yields _ _ _) as [[resolved t]|]; [|eauto].
  destruct (Assembler.findCaller _ _) as [j|]; [|eauto]. simpl.
  rewrite list_lookup_alter. case_decide; [|eauto]. subst. rewrite Hc0. simpl. eauto.
Qed.

(** The ends of an edge are read off the file table as it was when the
    pass began. *)
Lemma endsOf_grown fs fs' E specifierMap call :
  FilesGrown fs fs' → endsOf fs' E specifierMap call = endsOf fs E specifierMap call.
Proof.
  intros Hg. unfold endsOf. destruct (yields _ _ _) as [[r t]|]; [|done]. simpl.
  by rewrite (FilesFacts.FilesGrown_idOf _ _ _ Hg).
Qed.

(** The calls of one file, in closed form. *)
Lemma edgesForCalls_closed fs0 pos specifierMap k l :
  ∀ c a,
    FilesGrown fs0 (files c) →
    ContextCoherent c →
    files c !! pos = Some (k, a) →
    (∀ kIdx call, (kIdx, call) ∈ l →
       ∃ c0, FileAnalysis.calls a !! kIdx = Some c0
             ∧ CallBinding.callerId c0 = CallBinding.callerId call) →
    let c' := fold_left (Assembler.edgeForCall pos specifierMap) l c in
    files c'
    = <[pos := (k, fold_left (callStep (exportedFunctions c) specifierMap) l a)]> (files c)
    ∧ exportedFunctions c' = exportedFunctions c
    ∧ functionEdges c'
      = fold_left writeEdge
          (omap (fun entry : nat * CallBinding.t =>
                   endsOf fs0 (exportedFunctions c) specifierMap entry.2) l)
          (functionEdges c)
    ∧ ContextCoherent c'
    ∧ FilesGrown fs0 (files c').
Proof.
  induction l as [|[kIdx call] l IH]; intros c a Hg Hc Hpos Hcalls;
    cbv zeta; cbn [fold_left omap list_omap].
  - split_and!; try done. by rewrite list_insert_id.
  - destruct (Hcalls kIdx call) as (c0 & Hc0 & Hcid); [left|].
    destruct (edgeForCall_closed pos specifierMap c k a kIdx call Hc Hpos) as (H1 & H2 & H3);
      [eauto|].
    set (c1 := Assembler.edgeForCall pos specifierMap c (kIdx, call)) in *.
    assert (ContextCoherent c1) as Hc1.
    { apply IncludeFacts.edgeForCall_Coherent; [done|]. intros e He.
      rewrite Hpos in He. injection He as <-. eauto. }
    assert (FilesGrown fs0 (files c1)) as Hg1.
    { eapply FilesFacts.FilesGrown_trans; [exact Hg | apply RunFacts.edgeForCall_grown]. }
    assert (pos < List.length (files c)) as Hlt by by eapply lookup_lt_Some.
    destruct (IH c1 (callStep (exportedFunctions c) specifierMap a (kIdx, call)) Hg1 Hc1)
      as (H4 & H5 & H6 & H7 & H8).
    { rewrite H1. by apply list_lookup_insert_eq. }
    { intros kIdx' call' Hin. destruct (Hcalls kIdx' call') as (c0' & Hc0' & Hcid');
        [by right|].
      destruct (callStep_calls (exportedFunctions c) specifierMap a (kIdx, call) kIdx' c0' Hc0')
        as (c1' & ? & ?). exists c1'. split; [done | congruence]. }
    rewrite H2 in H4, H5, H6. split_and!; try done.
    + rewrite H4, H1. by rewrite list_insert_insert_eq.
    + rewrite H6, H3. rewrite (endsOf_grown _ _ _ _ _ Hg). cbn [snd].
      by destruct (endsOf fs0 (exportedFunctions c) specifierMap call).
Qed.

Lemma omap_indexed {A B} (g : A → option B) (h : nat → nat) (l : list A) :
  omap (fun entry : nat * A => g entry.2) (imap (fun i x => (h i, x)) l) = omap g l.
Proof.
  revert h. induction l as [|x l IH]; intros h; simpl; [done|].
  destruct (g x); [f_equal|]; exact (IH (h ∘ S)).
Qed.

(** One file, in closed form. *)
Lemma edgesForFile_closed fs0 c pos e :
  FilesGrown fs0 (files c) →
  ContextCoherent c →
  files c !! pos = Some e →
  let c' := Assembler.edgesForFile c (pos, e) in
  files c' = <[pos := settledEntry (exportedFunctions c) e]> (files c)
  ∧ exportedFunctions c' = exportedFunctions c
  ∧ functionEdges c'
    = fold_left writeEdge (yieldedEnds fs0 (exportedFunctions c) e) (functionEdges c)
  ∧ ContextCoherent c'
  ∧ FilesGrown fs0 (files c').
Proof.
  intros Hg Hc Hpos c'. destruct e as [k a]. unfold c', Assembler.edgesForFile. simpl.
  destruct (edgesForCalls_closed fs0 pos (Assembler.specifierMapOf (FileAnalysis.imports a)) k
              (Assembler.indexed (FileAnalysis.calls a)) c a Hg Hc Hpos)
    as (H1 & H2 & H3 & H4 & H5).
  { intros kIdx call Hin%ProposalFacts.elem_of_indexed. eauto. }
  split_and!; try done. rewrite H3. f_equal. unfold yieldedEnds. simpl.
  apply (omap_indexed _ (fun i => i)).
Qed.

Lemma edgesForFiles_closed fs0 E rest :
  ∀ done c,
    fs0 = done ++ rest →
    files c = map (settledEntry E) done ++ rest →
    exportedFunctions c = E →
    ContextCoherent c →
    FilesGrown fs0 (files c) →
    let c' :=
      fold_left Assembler.edgesForFile
        (imap (fun i x => (List.length done + i, x)) rest) c in
    files c' = map (settledEntry E) fs0
    ∧ exportedFunctions c' = E
    ∧ functionEdges c'
      = fold_left writeEdge (flat_map (yieldedEnds fs0 E) rest) (functionEdges c)
    ∧ ContextCoherent c'.
Proof.
  induction rest as [|e rest IH]; intros done c Hfs0 Hfiles HE Hc Hg; simpl.
  - split_and!; try done. by rewrite Hfiles, Hfs0, !app_nil_r.
  - rewrite Nat.add_0_r.
    assert (files c !! List.length done = Some e) as Hpos.
    { rewrite Hfiles. rewrite lookup_app_r by (rewrite length_map; lia).
      by rewrite length_map, Nat.sub_diag. }
    destruct (edgesForFile_closed fs0 c (List.length done) e Hg Hc Hpos)
      as (H1 & H2 & H3 & H4 & H5).
    set (c1 := Assembler.edgesForFile c (List.length done, e)) in *.
    destruct (IH (done ++ [e]) c1) as (H6 & H7 & H8 & H9).
    + by rewrite <- app_assoc.
    + rewrite H1, HE, Hfiles, map_app. simpl.
      rewrite <- app_assoc. simpl.
      rewrite insert_app_r_alt by (rewrite length_map; lia).
      by rewrite length_map, Nat.sub_diag.
    + congruence.
    + done.
    + done.
    + assert (imap (fun i x => (List.length (done ++ [e]) + i, x)) rest
              = imap ((fun i x => (List.length done + i, x)) ∘ S) rest) as Himap.
      { apply imap_ext. intros i x _. simpl. rewrite length_app. simpl. f_equal. lia. }
      rewrite Himap in H6, H7, H8, H9.
      split_and!; try done. rewrite H8, H3, HE. by rewrite fold_left_app.
Qed.

(** Call-edge derivation in closed form: every entry of the file table is
    settled on its own, and the edge table gets one write for each call that
    gives an edge, in the order of the files and of their calls. *)
Lemma collectFunctionEdges_closed ctx :
  ContextCoherent ctx →
  let E := exportedFunctions ctx in
  files (Assembler.collectFunctionEdges ctx) = map (settledEntry E) (files ctx)
  ∧ functionEdges (Assembler.collectFunctionEdges ctx)
    = fold_left writeEdge (flat_map (yieldedEnds (files ctx) E) (files ctx))
        (functionEdges ctx).
Proof.
  intros Hc E. unfold Assembler.collectFunctionEdges.
  destruct (edgesForFiles_closed (files ctx) E (files ctx) [] ctx)
    as (H1 & _ & H3 & _); try done.
  apply FilesFacts.FilesGrown_refl.
Qed.

End CallEdgesClosed.

Module StaticClosed.
Import JsString Context FilesSpec IncludeSpec ExtractSpec Pipeline.
Import StaticSpec.

(** The deterministic passes in closed form. *)
Lemma staticContext_closed repo completion :
  let fs := resolvedFiles repo completion in
  let E := exportsOf fs in
  files (staticContext repo completion) = map (settledEntry E) fs
  ∧ exportedFunctions (staticContext repo completion) = E
  ∧ functionEdges (staticContext repo completion)
    = fold_left writeEdge (flat_map (yieldedEnds fs E) fs) [].
Proof.
  intros fs E. unfold staticContext, staticPasses.
  set (ctx0 := extract repo completion (initialContext repo)).
  set (ctx1 := if decide (files ctx0 = []) then _ else ctx0).
  destruct (IncludeFacts.extract_Coherent repo completion) as (Hfs & _ & _).
  destruct (RunFacts.extract_rest repo completion (initialContext repo)) as (_ & Hex & Hcache).
  destruct (EdgeRun.extract_edges repo completion (initialContext repo)) as [_ Hed].
  fold ctx0 in Hfs, Hex, Hcache, Hed. simpl in Hex, Hcache, Hed.
  assert (files ctx1 = files ctx0 ∧ functionEdges ctx1 = [] ∧ exportedFunctions ctx1 = ∅
          ∧ candidateCache ctx1 = ∅) as (Hf1 & Hed1 & Hex1 & Hc1)
    by (unfold ctx1; by destruct (decide _)).
  set (ctx2 := Assembler.resolveImports (fileSetOf repo) (tsconfigPaths repo) ctx1).
  assert (files ctx2 = fs) as Hf2.
  { unfold ctx2. rewrite ResolveClosed.resolveImports_files.
    - by rewrite Hf1.
    - rewrite Hc1. apply ResolverFacts.CacheSound_empty. }
  assert (functionEdges ctx2 = [] ∧ exportedFunctions ctx2 = ∅) as [Hed2 Hex2].
  { unfold ctx2, Assembler.resolveImports.
    destruct (Assembler.resolveFiles _ _ _ _) as [st entries]. by simpl. }
  assert (ContextCoherent (Assembler.collectFunctionExports ctx2)) as Hc3.
  { apply IncludeFacts.collectFunctionExports_Coherent, IncludeFacts.resolveImports_Coherent;
      [done | done | by rewrite Hf1]. }
  destruct (CallEdgesClosed.collectFunctionEdges_closed _ Hc3) as [H1 H2].
  assert (exportedFunctions (Assembler.collectFunctionExports ctx2) = E) as HE.
  { unfold Assembler.collectFunctionExports. simpl. by rewrite Hex2, Hf2. }
  rewrite HE in H1, H2.
  change (files (Assembler.collectFunctionExports ctx2)) with (files ctx2) in H1, H2.
  change (functionEdges (Assembler.collectFunctionExports ctx2))
    with (functionEdges ctx2) in H2.
  rewrite Hf2 in H1, H2. rewrite Hed2 in H2.
  split_and!; [done | | done].
  rewrite <- HE. clear.
  unfold Assembler.collectFunctionEdges.
  apply (ProposalFacts.fold_left_invariant
           (fun c => exportedFunctions c
                     = exportedFunctions (Assembler.collectFunctionExports ctx2))); [done|].
  intros c x _ Hc. unfold Assembler.edgesForFile.
  apply (ProposalFacts.fold_left_invariant
           (fun c => exportedFunctions c
                     = exportedFunctions (Assembler.collectFunctionExports ctx2))); [done|].
  intros c' [k call] _ Hc'. unfold Assembler.edgeForCall.
  destruct (_ !! _) as [spec|]; [|done]. destruct (negb _); [done|].
  match goal with |- context [match ?t with Some _ => _ | None => _ end] =>
    destruct t as [targetFn|] end; [|done].
  by destruct (Assembler.findCaller _ _).
Qed.

End StaticClosed.

Module EdgeWrites.
Import JsString Context NameSpec NameFacts StaticSpec.

Section Writes.
Context {K : Type}.
Variable d : K.
Variable mkEdge : option (EdgeRecord.t K) → string → string → EdgeRecord.t K.
Hypothesis mkEdge_None :
  ∀ s t, mkEdge None s t = EdgeRecord.mk s t d static None None.
Hypothesis mkEdge_Some :
  ∀ s0 t0 s t,
    mkEdge (Some (EdgeRecord.mk s0 t0 d static None None)) s t
    = EdgeRecord.mk s t d static None None.

Let write (T : list (string * EdgeRecord.t K)) (st : string * string) :=
  oset T (st.1 +:+ "->" +:+ st.2) (mkEdge (oget T (st.1 +:+ "->" +:+ st.2)) st.1 st.2).

(** The table that a sequence of static writes builds from the empty
    table, when no source holds a greater-than sign: under the key of every
    written pair of ends sits the plain static edge between them, and nothing
    else is stored. *)
Lemma writes_lookup L key e :
  Forall (fun st : string * string => holds ">"%char st.1 = false) L →
  oget (fold_left write L []) key = Some e ↔
  ∃ s t, (s, t) ∈ L ∧ key = s +:+ "->" +:+ t ∧ e = EdgeRecord.mk s t d static None None.
Proof.
  revert key e. induction L as [|[s0 t0] L IH] using rev_ind; intros key e HL.
  - simpl. split; [done|]. intros (s & t & Hin & _). by apply elem_of_nil in Hin.
  - apply Forall_app in HL as [HL Hst]. rewrite Forall_singleton in Hst. simpl in Hst.
    rewrite fold_left_app. simpl. unfold write at 1. simpl.
    set (T := fold_left write L []) in *.
    destruct (decide (s0 +:+ "->" +:+ t0 = key)) as [<-|Hne].
    + rewrite oget_oset_eq.
      assert (mkEdge (oget T (s0 +:+ "->" +:+ t0)) s0 t0
              = EdgeRecord.mk s0 t0 d static None None) as ->.
      { destruct (oget T (s0 +:+ "->" +:+ t0)) as [e0|] eqn:He0; [|apply mkEdge_None].
        destruct (proj1 (IH _ _ HL) He0) as (s & t & _ & _ & ->). apply mkEdge_Some. }
      split.
      * intros [= <-]. exists s0, t0. split_and!; try done. apply elem_of_app. right. left.
      * intros (s & t & Hin & Hkey & ->). f_equal.
        apply elem_of_app in Hin as [Hin| [= -> ->]%list_elem_of_singleton]; [|done].
        rewrite Forall_forall in HL. specialize (HL _ Hin). simpl in HL.
        by destruct (arrow_unique s0 t0 s t Hst HL Hkey) as [-> ->].
    + rewrite oget_oset_ne by done. rewrite IH by done. split.
      * intros (s & t & Hin & ? & ?). exists s, t. split_and!; try done.
        apply elem_of_app. by left.
      * intros (s & t & [Hin| [= -> ->]%list_elem_of_singleton]%elem_of_app & Hkey & ->);
          [eauto | congruence].
Qed.

Lemma writes_NoDup L : NoDup (okeys (fold_left write L [])).
Proof.
  induction L as [|st L IH] using rev_ind; [constructor|].
  rewrite fold_left_app. simpl. by apply NoDup_okeys_oset.
Qed.

Lemma writes_elem_of L e :
  Forall (fun st : string * string => holds ">"%char st.1 = false) L →
  e ∈ ovalues (fold_left write L []) ↔
  ∃ s t, (s, t) ∈ L ∧ e = EdgeRecord.mk s t d static None None.
Proof.
  intros HL. unfold ovalues. rewrite list_elem_of_fmap. split.
  - intros ([key e'] & -> & Hin). apply elem_of_oget in Hin; [|apply writes_NoDup].
    destruct (proj1 (writes_lookup L key e' HL) Hin) as (s & t & ? & _ & ?); eauto.
  - intros (s & t & Hin & ->).
    exists (s +:+ "->" +:+ t, EdgeRecord.mk s t d static None None). split; [done|].
    apply oget_Some_elem_of. apply (proj2 (writes_lookup L _ _ HL)). eauto.
Qed.

(** The records are as distinct as their keys. *)
Lemma writes_NoDup_values L :
  Forall (fun st : string * string => holds ">"%char st.1 = false) L →
  NoDup (ovalues (fold_left write L [])).
Proof.
  intros HL.
  apply (NoDup_fmap_1 (fun e => EdgeRecord.source e +:+ "->" +:+ EdgeRecord.target e)).
  assert ((fun e : EdgeRecord.t K => EdgeRecord.source e +:+ "->" +:+ EdgeRecord.target e)
            <$> ovalues (fold_left write L []) = okeys (fold_left write L [])) as ->;
    [|apply writes_NoDup].
  unfold ovalues, okeys. rewrite <- list_fmap_compose. apply list_fmap_ext.
  intros i [key e] Hi. simpl.
  apply list_elem_of_lookup_2, elem_of_oget in Hi; [|apply writes_NoDup].
  by destruct (proj1 (writes_lookup L key e HL) Hi) as (s & t & _ & -> & ->).
Qed.

(** Writing the same pairs in another order gives the same records. *)
Lemma writes_Permutation L1 L2 :
  Forall (fun st : string * string => holds ">"%char st.1 = false) L1 →
  L1 ≡ₚ L2 →
  ovalues (fold_left write L1 []) ≡ₚ ovalues (fold_left write L2 []).
Proof.
  intros HL1 Hp.
  assert (Forall (fun st : string * string => holds ">"%char st.1 = false) L2) as HL2
    by (by rewrite <- Hp).
  apply NoDup_Permutation; [by apply writes_NoDup_values | by apply writes_NoDup_values|].
  intros e. rewrite !writes_elem_of by done.
  split; intros (s & t & Hin & ->); exists s, t; (split; [|done]);
    [by rewrite <- Hp | by rewrite Hp].
Qed.

End Writes.


Lemma writeEdge_Permutation L1 L2 :
  Forall (fun st : string * string => holds ">"%char st.1 = false) L1 →
  L1 ≡ₚ L2 →
  ovalues (fold_left writeEdge L1 []) ≡ₚ ovalues (fold_left writeEdge L2 []).
Proof. by apply (writes_Permutation fn_imports Assembler.staticFunctionEdge). Qed.

End EdgeWrites.

Module FileEdgeClosed.
Import JsString Context ResolverSpec ResolverFacts ResolveSpec ExtractSpec Pipeline.
Import NameSpec NameFacts StaticSpec.

Section WithResolver.
Variable fileSet : gset string.
Variable paths : list TsconfigPathsEntry.

Lemma resolveBindings_fileEdges relPath st bindings :
  CacheSound fileSet (Assembler.rs_cache st) →
  Assembler.rs_fileEdges (Assembler.resolveBindings fileSet paths relPath st bindings).1
  = fold_left writeFileEdge
      (omap (fun b => (fun r => (relPath, r))
                        <$> resolvedTarget fileSet paths relPath (ImportBinding.source b))
         bindings)
      (Assembler.rs_fileEdges st).
Proof.
  revert st. induction bindings as [|b bindings IH]; intros st Hc; simpl; [done|].
  destruct (ResolveFacts.resolveBinding_spec fileSet paths relPath st b Hc) as [H1 H2].
  destruct (Assembler.resolveBinding _ _ _ _ _) as [st1 b']. simpl in H1, H2.
  pose proof (IH st1 H1) as H3.
  destruct (Assembler.resolveBindings _ _ _ _ _) as [st2 rest']. simpl in *.
  rewrite H3, H2. by destruct (resolvedTarget _ _ _ _).
Qed.

Lemma resolveFiles_fileEdges st entries :
  CacheSound fileSet (Assembler.rs_cache st) →
  Assembler.rs_fileEdges (Assembler.resolveFiles fileSet paths st entries).1
  = fold_left writeFileEdge (flat_map (fileEnds fileSet paths) entries)
      (Assembler.rs_fileEdges st).
Proof.
  revert st. induction entries as [|[relPath analysis] entries IH]; intros st Hc; simpl;
    [done|].
  pose proof (resolveBindings_fileEdges relPath st (FileAnalysis.imports analysis) Hc) as H1.
  destruct (ResolveClosed.resolveBindings_bindings fileSet paths relPath st
              (FileAnalysis.imports analysis) Hc) as [H2 _].
  destruct (Assembler.resolveBindings _ _ _ _ _) as [st1 imports']. simpl in *.
  pose proof (IH st1 H2) as H3.
  destruct (Assembler.resolveFiles _ _ _ _) as [st2 rest']. simpl in *.
  by rewrite H3, H1, fold_left_app.
Qed.

End WithResolver.

(** The file edges of the deterministic passes, in closed form: one write
    for each import that resolves, in the order of the files and of their
    imports. *)
Lemma staticContext_fileEdges repo completion :
  fileEdges (staticContext repo completion)
  = fold_left writeFileEdge
      (flat_map (fileEnds (fileSetOf repo) (tsconfigPaths repo))
         (files (extract repo completion (initialContext repo)))) [].
Proof.
  unfold staticContext, staticPasses.
  rewrite EdgeFacts.collectFunctionEdges_fileEdges.
  unfold Assembler.collectFunctionExports. simpl.
  set (ctx0 := extract repo completion (initialContext repo)).
  set (ctx1 := if decide (files ctx0 = []) then _ else ctx0).
  destruct (RunFacts.extract_rest repo completion (initialContext repo)) as (_ & _ & Hcache).
  destruct (EdgeRun.extract_edges repo completion (initialContext repo)) as [Hed _].
  fold ctx0 in Hcache, Hed. simpl in Hcache, Hed.
  assert (files ctx1 = files ctx0 ∧ fileEdges ctx1 = [] ∧ candidateCache ctx1 = ∅)
    as (Hf1 & Hed1 & Hc1) by (unfold ctx1; by destruct (decide _)).
  unfold Assembler.resolveImports.
  pose proof (resolveFiles_fileEdges (fileSetOf repo) (tsconfigPaths repo)
                (Assembler.mkResolveState (candidateCache ctx1) (fileEdges ctx1)
                   (unresolved ctx1)) (files ctx1)) as H.
  destruct (Assembler.resolveFiles _ _ _ _) as [st entries]. simpl in *.
  rewrite H, Hf1, Hed1; [done|]. rewrite Hc1. apply CacheSound_empty.
Qed.

End FileEdgeClosed.

Module ScheduleFacts.
Import JsString Context FilesSpec IncludeSpec ExtractSpec Pipeline.
Import NameSpec NameFacts StaticSpec.

Lemma NoDup_entries {V} (m : list (string * V)) : NoDup (okeys m) → NoDup m.
Proof. apply NoDup_fmap_1. Qed.

(** Two schedules of the same files give the same entries, in another
    order. *)
Lemma extract_Permutation repo c1 c2 :
  c1 ≡ₚ c2 →
  files (extract repo c1 (initialContext repo))
  ≡ₚ files (extract repo c2 (initialContext repo)).
Proof.
  intros Hp.
  destruct (RunFacts.extract_files repo c1 (initialContext repo)
              (RunFacts.WellExtracted_nil repo)) as [[Hn1 _] _].
  destruct (RunFacts.extract_files repo c2 (initialContext repo)
              (RunFacts.WellExtracted_nil repo)) as [[Hn2 _] _].
  apply NoDup_Permutation; [by apply NoDup_entries | by apply NoDup_entries|].
  intros e. split; apply DeterminismFacts.extract_entries_schedule; [done | by symmetry].
Qed.

Lemma flat_map_Permutation {A B} (f g : A → list B) (l1 l2 : list A) :
  l1 ≡ₚ l2 → (∀ x, x ∈ l1 → f x = g x) → flat_map f l1 ≡ₚ flat_map g l2.
Proof.
  intros Hp. induction Hp as [|x l1 l2 Hp IH|x y l|l1 l2 l3 Hp1 IH1 Hp2 IH2]; intros Hfg.
  - done.
  - simpl. rewrite (Hfg x) by left. apply Permutation_app; [done|].
    apply IH. intros z Hz. apply Hfg. by right.
  - simpl. rewrite (Hfg x), (Hfg y) by (by repeat constructor).
    rewrite !app_assoc. apply Permutation_app.
    + apply Permutation_app_comm.
    + clear -Hfg. induction l as [|z l IH]; simpl; [done|].
      rewrite (Hfg z) by (by repeat constructor). apply Permutation_app; [done|].
      apply IH. intros w Hw. apply Hfg.
      apply elem_of_cons in Hw as [->|Hw]; [by left|].
      apply elem_of_cons in Hw as [->|Hw]; [right; left|].
      by do 3 right.
  - etrans; [apply IH1; exact Hfg|].
    assert (flat_map g l2 ≡ₚ flat_map g l3) as <-; [|done].
    clear -Hp2. induction Hp2; simpl; try done.
    + by apply Permutation_app.
    + rewrite !app_assoc. apply Permutation_app; [apply Permutation_app_comm | done].
    + by etrans.
Qed.

Lemma elem_of_flat_map {A B} (f : A → list B) (l : list A) y :
  y ∈ flat_map f l ↔ ∃ x, x ∈ l ∧ y ∈ f x.
Proof.
  split.
  - intros (x & Hx & Hy)%list_elem_of_In%in_flat_map. exists x.
    split; by apply list_elem_of_In.
  - intros (x & Hx & Hy). apply list_elem_of_In, in_flat_map. exists x.
    split; by apply list_elem_of_In.
Qed.

(** The keys of the file table are paths of the listing. *)
Lemma extract_listed repo completion e :
  schedule repo completion →
  e ∈ files (extract repo completion (initialContext repo)) → e.1 ∈ fileEntries repo.
Proof.
  intros Hs He. destruct e as [k a].
  apply DeterminismFacts.extract_entries in He as [Hk _]. simpl.
  unfold schedule in Hs. rewrite Hs in Hk. unfold parseTargets in Hk.
  by apply list_elem_of_filter in Hk as [_ ?].
Qed.

(** The records of the file edges do not depend on the schedule. *)
Lemma fileEdges_schedule repo c1 c2 :
  plainNames repo = true →
  schedule repo c1 → schedule repo c2 →
  ovalues (fileEdges (staticContext repo c1)) ≡ₚ ovalues (fileEdges (staticContext repo c2)).
Proof.
  intros Hplain H1 H2.
  assert (c1 ≡ₚ c2) as Hp by (unfold schedule in H1, H2; by rewrite H1, H2).
  rewrite !FileEdgeClosed.staticContext_fileEdges.
  apply (EdgeWrites.writes_Permutation file_imports Assembler.staticFileEdge); [done | done | |].
  - apply Forall_forall. intros [s t] Hin. simpl.
    apply elem_of_flat_map in Hin as (e & He & Hin).
    unfold fileEnds in Hin. apply list_elem_of_omap in Hin as (b & _ & Hb).
    destruct (ResolveSpec.resolvedTarget _ _ _ _); [|done]. injection Hb as <- _.
    by destruct (plainNames_paths repo e.1 Hplain (extract_listed repo c1 e H1 He)).
  - apply flat_map_Permutation; [by apply extract_Permutation | done].
Qed.

End ScheduleFacts.

Module ExportScheduleFacts.
Import JsString Context FilesSpec IncludeSpec ExtractSpec Pipeline.
Import NameSpec NameFacts StaticSpec.
Import ExportFacts ScheduleFacts.

(** The entries of the file table after import resolution. *)
Lemma resolvedFiles_entries repo completion e :
  e ∈ resolvedFiles repo completion ↔
  ∃ k code visits,
    k ∈ completion ∧ outcomeOf repo k = Parsed code visits
    ∧ e = resolvedEntry (fileSetOf repo) (tsconfigPaths repo)
            (k, Analyzer.analyzeFile k code visits).
Proof.
  unfold resolvedFiles. rewrite list_elem_of_fmap. split.
  - intros ([k a] & -> & [Hk (code & visits & Hout & ->)]%DeterminismFacts.extract_entries).
    eauto 10.
  - intros (k & code & visits & Hk & Hout & ->).
    exists (k, Analyzer.analyzeFile k code visits). split; [done|].
    apply DeterminismFacts.extract_entries. eauto.
Qed.

Lemma resolvedFiles_okeys repo completion :
  okeys (resolvedFiles repo completion)
  = okeys (files (extract repo completion (initialContext repo))).
Proof.
  unfold resolvedFiles, okeys. rewrite <- list_fmap_compose. by apply list_fmap_ext.
Qed.

Lemma resolvedFiles_NoDup repo completion : NoDup (okeys (resolvedFiles repo completion)).
Proof.
  rewrite resolvedFiles_okeys.
  by destruct (RunFacts.extract_files repo completion (initialContext repo)
                 (RunFacts.WellExtracted_nil repo)) as [[? _] _].
Qed.

Lemma resolvedFiles_Permutation repo c1 c2 :
  c1 ≡ₚ c2 → resolvedFiles repo c1 ≡ₚ resolvedFiles repo c2.
Proof. intros Hp. unfold resolvedFiles. by apply fmap_Permutation, extract_Permutation. Qed.

(** What an entry of the file table is, after import resolution: the analysis
    of a listed file, with its own path, records and calls. *)
Lemma resolvedFiles_entry repo completion e :
  schedule repo completion →
  e ∈ resolvedFiles repo completion →
  e.1 ∈ fileEntries repo
  ∧ FileAnalysis.path e.2 = e.1
  ∧ ∃ code visits,
      outcomeOf repo e.1 = Parsed code visits
      ∧ FileAnalysis.functions e.2
        = FileAnalysis.functions (Analyzer.analyzeFile e.1 code visits)
      ∧ FileAnalysis.calls e.2 = FileAnalysis.calls (Analyzer.analyzeFile e.1 code visits)
      ∧ FileAnalysis.imports e.2
        = map (resolvedBinding (fileSetOf repo) (tsconfigPaths repo) e.1)
            (FileAnalysis.imports (Analyzer.analyzeFile e.1 code visits)).
Proof.
  intros Hs (k & code & visits & Hk & Hout & ->)%resolvedFiles_entries. simpl.
  split_and!; [|done|eauto 10].
  unfold schedule in Hs. rewrite Hs in Hk. unfold parseTargets in Hk.
  by apply list_elem_of_filter in Hk as [_ ?].
Qed.

(** With plain names, the index holds under a key the last record that the
    one file of that path enters under it. *)
Lemma exports_at repo completion key pos e j :
  plainNames repo = true →
  schedule repo completion →
  resolvedFiles repo completion !! pos = Some e →
  exportOf key e = Some j →
  exportsOf (resolvedFiles repo completion) !! key = Some (pos, j).
Proof.
  intros Hplain Hs He Hj.
  rewrite (exportsOf_owner _ key pos e He); [by rewrite Hj|].
  intros pos' e' Hne He'. destruct (exportOf key e') as [j'|] eqn:Hj'; [|done].
  exfalso. apply Hne.
  apply lastMatch_Some in Hj as (f & _ & Hf). apply lastMatch_Some in Hj' as (f' & _ & Hf').
  apply bool_decide_eq_true in Hf, Hf'. unfold exportKeyOf in Hf, Hf'.
  destruct (_ && _); [|done]. destruct (_ && _); [|done].
  injection Hf as Hf. injection Hf' as Hf'.
  destruct (resolvedFiles_entry repo completion e Hs) as (Hl1 & Hp1 & _);
    [by eapply list_elem_of_lookup_2|].
  destruct (resolvedFiles_entry repo completion e' Hs) as (Hl' & Hp' & _);
    [by eapply list_elem_of_lookup_2|].
  rewrite Hp1 in Hf. rewrite Hp' in Hf'.
  destruct (plainNames_paths repo _ Hplain Hl1) as [Hc1 _].
  destruct (plainNames_paths repo _ Hplain Hl') as [Hc' _].
  destruct (colon_unique _ _ _ _ Hc' Hc1 (eq_trans Hf' (eq_sym Hf))) as [Hk _].
  eapply NoDup_lookup; [apply (resolvedFiles_NoDup repo completion) | |].
  - unfold okeys. rewrite list_lookup_fmap, He'. simpl. by rewrite Hk.
  - unfold okeys. by rewrite list_lookup_fmap, He.
Qed.

(** An entry of the export index for one schedule is one for another
    schedule, and refers to the same record. *)
Lemma exports_transfer repo c1 c2 key t1 :
  plainNames repo = true →
  schedule repo c1 → schedule repo c2 →
  exportsOf (resolvedFiles repo c1) !! key = Some t1 →
  ∃ t2, exportsOf (resolvedFiles repo c2) !! key = Some t2
        ∧ idOf (resolvedFiles repo c2) t2 = idOf (resolvedFiles repo c1) t1.
Proof.
  intros Hplain H1 H2 Ht1. destruct t1 as [pos1 j].
  assert (c1 ≡ₚ c2) as Hp by (unfold schedule in H1, H2; by rewrite H1, H2).
  destruct (exportsOf_Some _ _ _ _ Ht1) as (e1 & He1 & Hj).
  assert (e1 ∈ resolvedFiles repo c2) as Hin2.
  { rewrite <- (resolvedFiles_Permutation repo c1 c2 Hp). by eapply list_elem_of_lookup_2. }
  apply list_elem_of_lookup_1 in Hin2 as [pos2 He2].
  exists (pos2, j). split; [by eapply exports_at|].
  unfold idOf, fnAt. simpl. by rewrite He1, He2.
Qed.

Lemma exports_agree repo c1 c2 key :
  plainNames repo = true →
  schedule repo c1 → schedule repo c2 →
  idOf (resolvedFiles repo c1) <$> (exportsOf (resolvedFiles repo c1) !! key)
  = idOf (resolvedFiles repo c2) <$> (exportsOf (resolvedFiles repo c2) !! key).
Proof.
  intros Hplain H1 H2.
  destruct (exportsOf (resolvedFiles repo c1) !! key) as [t1|] eqn:E1.
  - destruct (exports_transfer repo c1 c2 key t1 Hplain H1 H2 E1) as (t2 & -> & Hid).
    simpl. by rewrite Hid.
  - destruct (exportsOf (resolvedFiles repo c2) !! key) as [t2|] eqn:E2; [|done].
    destruct (exports_transfer repo c2 c1 key t2 Hplain H2 H1 E2) as (t1 & Ht1 & _).
    congruence.
Qed.

(** The ends of the edge of a call do not depend on the schedule. *)
Lemma endsOf_agree repo c1 c2 specifierMap call :
  plainNames repo = true →
  schedule repo c1 → schedule repo c2 →
  endsOf (resolvedFiles repo c1) (exportsOf (resolvedFiles repo c1)) specifierMap call
  = endsOf (resolvedFiles repo c2) (exportsOf (resolvedFiles repo c2)) specifierMap call.
Proof.
  intros Hplain H1 H2. unfold endsOf, yields, targetOf.
  destruct (specifierMap !! _) as [spec|]; [|done].
  destruct (truthy _); [|done].
  set (resolved := from_option (fun r => r) "" (ImportSpecifierBinding.resolved spec)).
  pose proof (exports_agree repo c1 c2
                (resolved +:+ ":" +:+ ImportSpecifierBinding.imported spec) Hplain H1 H2) as A1.
  pose proof (exports_agree repo c1 c2 (resolved +:+ ":default") Hplain H1 H2) as A2.
  destruct (exportsOf (resolvedFiles repo c1) !! (resolved +:+ ":" +:+ _)) as [t1|],
    (exportsOf (resolvedFiles repo c2) !! (resolved +:+ ":" +:+ _)) as [t2|];
    simpl in A1; try done.
  - injection A1 as A1. simpl. by rewrite A1.
  - destruct (exportsOf (resolvedFiles repo c1) !! (resolved +:+ ":default")) as [t1|],
      (exportsOf (resolvedFiles repo c2) !! (resolved +:+ ":default")) as [t2|];
      simpl in A2; try done.
    injection A2 as A2. simpl. by rewrite A2.
Qed.

(** What a call does to its own file does not depend on the schedule. *)
Lemma callStep_agree repo c1 c2 specifierMap a entry :
  plainNames repo = true →
  schedule repo c1 → schedule repo c2 →
  callStep (exportsOf (resolvedFiles repo c1)) specifierMap a entry
  = callStep (exportsOf (resolvedFiles repo c2)) specifierMap a entry.
Proof.
  intros Hplain H1 H2. unfold callStep.
  pose proof (endsOf_agree repo c1 c2 specifierMap entry.2 Hplain H1 H2) as A.
  unfold endsOf in A. revert A. unfold yields.
  destruct (specifierMap !! _) as [spec|]; [|done].
  destruct (truthy _); [|done].
  destruct (targetOf (exportsOf (resolvedFiles repo c1)) spec) as [t1|],
    (targetOf (exportsOf (resolvedFiles repo c2)) spec) as [t2|]; simpl; done.
Qed.

Lemma settledEntry_agree repo c1 c2 e :
  plainNames repo = true →
  schedule repo c1 → schedule repo c2 →
  settledEntry (exportsOf (resolvedFiles repo c1)) e
  = settledEntry (exportsOf (resolvedFiles repo c2)) e.
Proof.
  intros Hplain H1 H2. unfold settledEntry. f_equal.
  generalize (Assembler.indexed (FileAnalysis.calls e.2)).
  generalize (Assembler.specifierMapOf (FileAnalysis.imports e.2)). intros sm l.
  generalize e.2. induction l as [|x l IH]; intros a; simpl; [done|].
  by rewrite IH, (callStep_agree repo c1 c2 sm a x Hplain H1 H2).
Qed.

(** The file table after the deterministic passes holds the same entries
    for every schedule. *)
Lemma staticFiles_schedule repo c1 c2 :
  plainNames repo = true →
  schedule repo c1 → schedule repo c2 →
  files (staticContext repo c1) ≡ₚ files (staticContext repo c2).
Proof.
  intros Hplain H1 H2.
  assert (c1 ≡ₚ c2) as Hp by (unfold schedule in H1, H2; by rewrite H1, H2).
  destruct (StaticClosed.staticContext_closed repo c1) as (-> & _ & _).
  destruct (StaticClosed.staticContext_closed repo c2) as (-> & _ & _).
  assert (map (settledEntry (exportsOf (resolvedFiles repo c1))) (resolvedFiles repo c1)
          = map (settledEntry (exportsOf (resolvedFiles repo c2))) (resolvedFiles repo c1))
    as ->.
  { apply map_ext. intros e. by apply settledEntry_agree. }
  by apply (fmap_Permutation _), resolvedFiles_Permutation.
Qed.

(** The caller of every call of an entry is the identifier of one of its
    records. *)
Lemma call_sources_plain repo completion e call :
  plainNames repo = true →
  schedule repo completion →
  e ∈ resolvedFiles repo completion →
  call ∈ FileAnalysis.calls e.2 →
  holds ">"%char (CallBinding.callerId call) = false.
Proof.
  intros Hplain Hs He Hcall.
  destruct (resolvedFiles_entry repo completion e Hs He)
    as (Hl & _ & code & visits & Hout & Hfns & Hcalls & _).
  destruct (AnalyzerFacts.analyzeFile_Coherent e.1 code visits) as (_ & _ & HC).
  rewrite Hcalls in Hcall. destruct (HC call Hcall) as (f & Hf & <- & _).
  by eapply plainNames_ids.
Qed.

(** The records of the function edges do not depend on the schedule. *)
Lemma functionEdges_schedule repo c1 c2 :
  plainNames repo = true →
  schedule repo c1 → schedule repo c2 →
  ovalues (functionEdges (staticContext repo c1))
  ≡ₚ ovalues (functionEdges (staticContext repo c2)).
Proof.
  intros Hplain H1 H2.
  assert (c1 ≡ₚ c2) as Hp by (unfold schedule in H1, H2; by rewrite H1, H2).
  destruct (StaticClosed.staticContext_closed repo c1) as (_ & _ & ->).
  destruct (StaticClosed.staticContext_closed repo c2) as (_ & _ & ->).
  apply EdgeWrites.writeEdge_Permutation.
  - apply Forall_forall. intros [s t] (e & He & Hin)%elem_of_flat_map. simpl.
    unfold yieldedEnds in Hin. apply list_elem_of_omap in Hin as (call & Hcall & Hends).
    unfold endsOf in Hends. destruct (yields _ _ _) as [rt|]; [|done].
    injection Hends as <- _. exact (call_sources_plain repo c1 e call Hplain H1 He Hcall).
  - apply flat_map_Permutation; [by apply resolvedFiles_Permutation|].
    intros e He. unfold yieldedEnds. apply list_omap_ext, Forall2_same_length_lookup.
    split; [done|]. intros i x y Hx Hy. rewrite Hx in Hy. injection Hy as <-.
    by apply endsOf_agree.
Qed.

End ExportScheduleFacts.

Module NodeFacts.
Import JsString Context FilesSpec IncludeSpec ExtractSpec RunSpec Pipeline.
Import NameSpec NameFacts ScheduleFacts ExportScheduleFacts StaticSpec.

(** The loop of one file, started on a table that holds none of its
    identifiers, appends what it builds on its own. *)
Lemma pushFunctionNode_frame l nodes0 seen0 nodes seen :
  (∀ f, f ∈ l → FunctionInfo.id f ∉ seen0) →
  fold_left pushFunctionNode l (nodes0 ++ nodes, seen0 ++ seen)
  = (nodes0 ++ (fold_left pushFunctionNode l (nodes, seen)).1,
     seen0 ++ (fold_left pushFunctionNode l (nodes, seen)).2).
Proof.
  revert nodes seen. induction l as [|f l IH]; intros nodes seen Hl; [done|].
  cbn [fold_left].
  assert (FunctionInfo.id f ∉ seen0) as Hf by (apply Hl; left).
  assert (∀ g, g ∈ l → FunctionInfo.id g ∉ seen0) as Hl' by (intros g Hg; apply Hl; by right).
  unfold pushFunctionNode at 2 4 6.
  destruct (negb (FunctionInfo.include f)); [by apply IH|].
  assert (bool_decide (FunctionInfo.id f ∈ seen0 ++ seen)
          = bool_decide (FunctionInfo.id f ∈ seen)) as ->.
  { apply bool_decide_ext. rewrite elem_of_app. tauto. }
  destruct (bool_decide (FunctionInfo.id f ∈ seen)); [by apply IH|].
  rewrite <- !(assoc_L (++)). by apply IH.
Qed.

Lemma functionNodes_appended fs nodes0 seen0 :
  NoDup (okeys fs) →
  IdsOwned fs →
  (∀ e f, e ∈ fs → f ∈ FileAnalysis.functions e.2 → FunctionInfo.id f ∉ seen0) →
  (fold_left
     (fun st analysis => fold_left pushFunctionNode (FileAnalysis.functions analysis) st)
     (ovalues fs) (nodes0, seen0)).1
  = nodes0 ++ flat_map nodesOfFile fs.
Proof.
  revert nodes0 seen0. induction fs as [|e fs IH]; intros nodes0 seen0 Hnd Hown Hseen.
  - simpl. by rewrite app_nil_r.
  - unfold ovalues. cbn [map fold_left flat_map].
    pose proof (pushFunctionNode_frame (FileAnalysis.functions e.2) nodes0 seen0 [] []) as Hfr.
    rewrite !app_nil_r in Hfr. rewrite Hfr by (intros f Hf; apply (Hseen e f); [left|done]).
    clear Hfr.
    destruct (FilesFacts.pushFunctionNode_fold (FileAnalysis.functions e.2) [] [] eq_refl)
      as (_ & _ & Hin).
    unfold okeys in Hnd. cbn [map] in Hnd. apply NoDup_cons in Hnd as [Hk Hnd].
    fold (ovalues fs). rewrite IH; [by rewrite <- (assoc_L (++)) |done| |].
    + intros a b f g Ha Hb. apply Hown; by right.
    + intros e' g He' Hg. rewrite elem_of_app. intros [Hs|Hs].
      * apply (Hseen e' g); [by right | done | done].
      * apply Hin in Hs as [Hs|(f & Hf & _ & Hid)]; [by apply elem_of_nil in Hs|].
        apply Hk. rewrite (Hown e e' f g); [| left | by right | done | done | done].
        apply list_elem_of_fmap. by exists e'.
Qed.

(** When no two files share an identifier, the function nodes are those of
    the files, file after file. *)
Lemma functionNodesOf_flat fs :
  NoDup (okeys fs) → IdsOwned fs → functionNodesOf fs = flat_map nodesOfFile fs.
Proof.
  intros Hnd Hown. unfold functionNodesOf.
  rewrite (functionNodes_appended fs [] [] Hnd Hown); [done|].
  intros e f _ _. apply not_elem_of_nil.
Qed.

Lemma static_okeys repo completion :
  okeys (files (staticContext repo completion))
  = okeys (files (extract repo completion (initialContext repo))).
Proof.
  destruct (StaticClosed.staticContext_closed repo completion) as (-> & _ & _).
  rewrite <- resolvedFiles_okeys. unfold okeys. rewrite map_map. by apply map_ext.
Qed.

(** With plain names, a record of the table belongs to one file only. *)
Lemma static_IdsOwned repo completion :
  plainNames repo = true →
  schedule repo completion →
  IdsOwned (files (staticContext repo completion)).
Proof.
  intros Hplain Hs e e' f g He He' Hf Hg Hid.
  pose proof (StaticRecordFacts.static_records
                (fun rel f => ∃ tail, FunctionInfo.id f = rel +:+ "::" +:+ tail)
                repo completion) as HR.
  assert (∀ e, e ∈ files (staticContext repo completion) → e.1 ∈ fileEntries repo) as Hl.
  { intros x Hx.
    assert (x.1 ∈ okeys (files (staticContext repo completion))) as Hk
      by (apply list_elem_of_fmap; eauto).
    rewrite static_okeys in Hk. apply list_elem_of_fmap in Hk as (y & -> & Hy).
    destruct y as [k a]. apply DeterminismFacts.extract_entries in Hy as [Hy _]. simpl.
    unfold schedule in Hs. rewrite Hs in Hy. unfold parseTargets in Hy.
    by apply list_elem_of_filter in Hy as [_ ?]. }
  assert (RecordsAt (fun rel f => ∃ tail, FunctionInfo.id f = rel +:+ "::" +:+ tail)
            (files (staticContext repo completion))) as Hrec.
  { apply HR.
    - intros k x [tail Hx]. by exists tail.
    - intros rel code visits x _ Hx.
      by destruct (RecordFacts.analyzeFile_records rel code visits x Hx) as [_ ?]. }
  destruct (Hrec e f He Hf) as [t1 H1]. destruct (Hrec e' g He' Hg) as [t2 H2].
  destruct (plainNames_paths repo _ Hplain (Hl e He)) as [Hc1 _].
  destruct (plainNames_paths repo _ Hplain (Hl e' He')) as [Hc2 _].
  rewrite H1, H2 in Hid.
  by destruct (cut_unique ":"%char _ _ _ _ Hc1 Hc2 Hid).
Qed.

(** The function nodes do not depend on the schedule. *)
Lemma functionNodes_schedule repo c1 c2 :
  plainNames repo = true →
  schedule repo c1 → schedule repo c2 →
  functionNodesOf (files (staticContext repo c1))
  ≡ₚ functionNodesOf (files (staticContext repo c2)).
Proof.
  intros Hplain H1 H2.
  assert (∀ c, NoDup (okeys (files (staticContext repo c)))) as Hnd.
  { intros c. rewrite static_okeys.
    by destruct (RunFacts.extract_files repo c (initialContext repo)
                   (RunFacts.WellExtracted_nil repo)) as [[? _] _]. }
  rewrite !functionNodesOf_flat by (try apply Hnd; by apply static_IdsOwned).
  apply flat_map_Permutation; [by apply staticFiles_schedule | done].
Qed.

End NodeFacts.

(** ** Two runs over the same repository *)

Module DeterminismClaims.
Import Pipeline Examples NameSpec.

(** C9 (amended): without a credential for enrichment, and for a listing
    that is not empty, two runs over the same repository return, whatever
    the clocks read and in whatever orders the files of the parallel phase
    finished: the same sequence of file nodes, the same set of file edge
    identifiers and the same set of function node identifiers. When no
    listed path holds a colon or a greater-than sign and no record
    identifier holds a greater-than sign, the two runs return the same file
    edges, the same function nodes and the same function edges, each with
    all its fields, in an order that can differ. When the files finished in
    the same order, the edges, the function nodes and the warnings are the
    same sequences. *)
Theorem offline_runs_agree host clock1 clock2 repo c1 c2 :
  truthy (OPENAI_API_KEY host) = false →
  fileEntries repo ≠ [] →
  schedule repo c1 → schedule repo c2 →
  ∃ r1 r2,
    analyzeRepositoryGraph host clock1 repo c1 = Returns r1
    ∧ analyzeRepositoryGraph host clock2 repo c2 = Returns r2
    ∧ AnalyzeResponseBody.fileNodes r1 = AnalyzeResponseBody.fileNodes r2
    ∧ map GraphEdge.id (AnalyzeResponseBody.fileEdges r1)
      ≡ₚ map GraphEdge.id (AnalyzeResponseBody.fileEdges r2)
    ∧ map FunctionNode.id (AnalyzeResponseBody.functionNodes r1)
      ≡ₚ map FunctionNode.id (AnalyzeResponseBody.functionNodes r2)
    ∧ (plainNames repo = true →
       AnalyzeResponseBody.fileEdges r1 ≡ₚ AnalyzeResponseBody.fileEdges r2
       ∧ AnalyzeResponseBody.functionNodes r1 ≡ₚ AnalyzeResponseBody.functionNodes r2
       ∧ AnalyzeResponseBody.functionEdges r1 ≡ₚ AnalyzeResponseBody.functionEdges r2)
    ∧ (c1 = c2 →
       AnalyzeResponseBody.fileEdges r1 = AnalyzeResponseBody.fileEdges r2
       ∧ AnalyzeResponseBody.functionNodes r1 = AnalyzeResponseBody.functionNodes r2
       ∧ AnalyzeResponseBody.functionEdges r1 = AnalyzeResponseBody.functionEdges r2
       ∧ AnalyzeResponseBody.warnings r1 = AnalyzeResponseBody.warnings r2).
Proof.
  intros Hkey Hfiles H1 H2.
  assert (c1 ≡ₚ c2) as Hp by (unfold schedule in H1, H2; by rewrite H1, H2).
  unfold analyzeRepositoryGraph. destruct (decide (fileEntries repo = [])); [done|].
  eexists _, _. split; [reflexivity|]. split; [reflexivity|]. split_and!.
  - by apply DeterminismFacts.fileNodes_schedule.
  - by apply DeterminismFacts.fileEdge_ids_schedule.
  - by apply DeterminismFacts.functionNode_ids_schedule.
  - intros Hplain. cbn [respond AnalyzeResponseBody.fileEdges
      AnalyzeResponseBody.functionNodes AnalyzeResponseBody.functionEdges].
    destruct (DeterminismFacts.assemble_offline host repo
                (extract repo c1 (initialContext repo)) Hkey) as (-> & -> & ->).
    destruct (DeterminismFacts.assemble_offline host repo
                (extract repo c2 (initialContext repo)) Hkey) as (-> & -> & ->).
    fold (staticContext repo c1). fold (staticContext repo c2). split_and!.
    + by apply (fmap_Permutation _), ScheduleFacts.fileEdges_schedule.
    + by apply NodeFacts.functionNodes_schedule.
    + by apply (fmap_Permutation _), ExportScheduleFacts.functionEdges_schedule.
  - by intros ->.
Qed.

Lemma offline_runs_agree_witness :
  ∃ r1 r2,
    analyzeRepositoryGraph offlineHost clock0 ScheduleExample.repo ScheduleExample.first
    = Returns r1
    ∧ analyzeRepositoryGraph offlineHost clock0 ScheduleExample.repo ScheduleExample.second
      = Returns r2
    ∧ AnalyzeResponseBody.fileNodes r1 = AnalyzeResponseBody.fileNodes r2
    ∧ AnalyzeResponseBody.fileEdges r1 ≡ₚ AnalyzeResponseBody.fileEdges r2
    ∧ AnalyzeResponseBody.functionNodes r1 ≡ₚ AnalyzeResponseBody.functionNodes r2
    ∧ AnalyzeResponseBody.functionEdges r1 ≡ₚ AnalyzeResponseBody.functionEdges r2.
Proof.
  assert (parseTargets ScheduleExample.repo = ScheduleExample.first) as Ht
    by (vm_compute; reflexivity).
  destruct (offline_runs_agree offlineHost clock0 clock0 ScheduleExample.repo
              ScheduleExample.first ScheduleExample.second)
    as (r1 & r2 & Hr1 & Hr2 & Hnodes & _ & _ & Hplain & _).
  - reflexivity.
  - discriminate.
  - unfold schedule. rewrite Ht. reflexivity.
  - unfold schedule. rewrite Ht. apply perm_swap.
  - exists r1, r2. split; [exact Hr1|]. split; [exact Hr2|]. split; [exact Hnodes|].
    apply Hplain. vm_compute. reflexivity.
Defined.

(** C9 (as stated) fails: the files [a.ts] and [b.ts] can finish in either
    order, and the file edges, the function nodes and the function edges
    come out in that order. *)
Lemma completion_order_shows_in_graph :
  schedule ScheduleExample.repo ScheduleExample.first
  ∧ schedule ScheduleExample.repo ScheduleExample.second
  ∧ ∃ r1 r2,
      analyzeRepositoryGraph offlineHost clock0 ScheduleExample.repo ScheduleExample.first
      = Returns r1
      ∧ analyzeRepositoryGraph offlineHost clock0 ScheduleExample.repo ScheduleExample.second
        = Returns r2
      ∧ map GraphEdge.id (AnalyzeResponseBody.fileEdges r1) = ["a.ts->c.ts"; "b.ts->c.ts"]
      ∧ map GraphEdge.id (AnalyzeResponseBody.fileEdges r2) = ["b.ts->c.ts"; "a.ts->c.ts"]
      ∧ map FunctionNode.id (AnalyzeResponseBody.functionNodes r1)
        = ["a.ts::(module)"; "b.ts::(module)"; "c.ts::shared"]
      ∧ map FunctionNode.id (AnalyzeResponseBody.functionNodes r2)
        = ["b.ts::(module)"; "a.ts::(module)"; "c.ts::shared"]
      ∧ map GraphEdge.id (AnalyzeResponseBody.functionEdges r1)
        = ["a.ts::(module)->c.ts::shared"; "b.ts::(module)->c.ts::shared"]
      ∧ map GraphEdge.id (AnalyzeResponseBody.functionEdges r2)
        = ["b.ts::(module)->c.ts::shared"; "a.ts::(module)->c.ts::shared"]
      ∧ AnalyzeResponseBody.fileEdges r1 ≠ AnalyzeResponseBody.fileEdges r2
      ∧ AnalyzeResponseBody.functionNodes r1 ≠ AnalyzeResponseBody.functionNodes r2
      ∧ AnalyzeResponseBody.functionEdges r1 ≠ AnalyzeResponseBody.functionEdges r2.
Proof.
  assert (parseTargets ScheduleExample.repo = ScheduleExample.first) as Ht by by vm_compute.
  split; [unfold schedule; by rewrite Ht|].
  split; [unfold schedule; rewrite Ht; apply perm_swap|].
  eexists _, _. split; [by vm_compute|]. split; [by vm_compute|].
  split_and!; by vm_compute.
Qed.

(** Without the condition on names the edges themselves depend on the
    order: in [ClashExample.repo] two imports share the key
    [a.ts->b.ts->c.ts], and the file that finishes last gives the edge its
    ends. *)
Lemma clashing_names_change_the_edges :
  schedule ClashExample.repo ClashExample.first
  ∧ schedule ClashExample.repo ClashExample.second
  ∧ plainNames ClashExample.repo = false
  ∧ ∃ r1 r2,
      analyzeRepositoryGraph offlineHost clock0 ClashExample.repo ClashExample.first
      = Returns r1
      ∧ analyzeRepositoryGraph offlineHost clock0 ClashExample.repo ClashExample.second
        = Returns r2
      ∧ AnalyzeResponseBody.fileEdges r1
        = [GraphEdge.mk "a.ts->b.ts->c.ts" "a.ts->b.ts" "c.ts" file_imports static None None]
      ∧ AnalyzeResponseBody.fileEdges r2
        = [GraphEdge.mk "a.ts->b.ts->c.ts" "a.ts" "b.ts->c.ts" file_imports static None None]
      ∧ ¬ AnalyzeResponseBody.fileEdges r1 ≡ₚ AnalyzeResponseBody.fileEdges r2.
Proof.
  assert (parseTargets ClashExample.repo = ClashExample.first) as Ht by by vm_compute.
  split; [unfold schedule; by rewrite Ht|].
  split; [unfold schedule; rewrite Ht; apply perm_swap|].
  split; [by vm_compute|].
  eexists _, _. split; [by vm_compute|]. split; [by vm_compute|].
  split; [by vm_compute|]. split; [by vm_compute|].
  intros Hp. vm_compute in Hp. by apply Permutation_singleton_l in Hp.
Qed.

End DeterminismClaims.

(** ** The edge of a call across files *)

(** *** The caller of a call outside any function *)

Module ModuleCallerFacts.
Import JsString Analyzer CallSpec.

Lemma IdsKept_refl st : IdsKept st st.
Proof. done. Qed.








Lemma withCounter_IdsKept st n : IdsKept st (withCounter st n).
Proof. done. Qed.









End ModuleCallerFacts.

Module CrossFileFacts.
Import JsString Context FilesSpec IncludeSpec ExtractSpec ResolveSpec RunSpec EdgeSpec Pipeline.
Import NameSpec NameFacts StaticSpec.
Import ExportFacts ScheduleFacts ExportScheduleFacts.

(** *** The specifier that a local name is bound to *)







Section Pair.
Variables (repo : Repository) (completion : list string).
Variables (exporter importer codeE codeI : string) (visitsE visitsI : list Visit).
Variables (binding : ImportBinding.t) (spec : ImportSpecifierBinding.t) (call : CallBinding.t).
Variable fn : FunctionInfo.t.

Hypothesis Hplain : plainNames repo = true.
Hypothesis Hsched : schedule repo completion.
Hypothesis HinE : exporter ∈ parseTargets repo.
Hypothesis HinI : importer ∈ parseTargets repo.
Hypothesis HoutE : outcomeOf repo exporter = Parsed codeE visitsE.
Hypothesis HoutI : outcomeOf repo importer = Parsed codeI visitsI.
Hypothesis Hfn : fn ∈ FileAnalysis.functions (Analyzer.analyzeFile exporter codeE visitsE).
Hypothesis Hexported : FunctionInfo.isExported fn = true.
Hypothesis Hname :
  FunctionInfo.exportName fn = Some (ImportSpecifierBinding.imported spec).
Hypothesis Hnonempty : ImportSpecifierBinding.imported spec ≠ "".
Hypothesis Hbinding :
  binding ∈ FileAnalysis.imports (Analyzer.analyzeFile importer codeI visitsI).
Hypothesis Hspec : spec ∈ ImportBinding.specifiers binding.
Hypothesis Hresolves :
  resolvedTarget (fileSetOf repo) (tsconfigPaths repo) importer (ImportBinding.source binding)
  = Some exporter.
Hypothesis Honce :
  ∀ b' s', b' ∈ FileAnalysis.imports (Analyzer.analyzeFile importer codeI visitsI) →
           s' ∈ ImportBinding.specifiers b' →
           ImportSpecifierBinding.local s' = ImportSpecifierBinding.local spec →
           b' = binding ∧ s' = spec.
Hypothesis Hcall : call ∈ FileAnalysis.calls (Analyzer.analyzeFile importer codeI visitsI).
Hypothesis Hlocal : CallBinding.local call = ImportSpecifierBinding.local spec.








End Pair.

End CrossFileFacts.

Module CallEdgeClaims.
Import JsString Context Pipeline Examples CallEdgeExample FilesSpec CallSpec Analyzer.
Import ResolveSpec RunSpec NameSpec.






(** The condition on names is needed: in [ClashExample.callRepo] the two
    calls share the key [a.ts::(module)->Y.ts::(module)->c.ts::g], the
    second write gives the edge its ends, and no edge goes from the module
    pseudo-record of [a.ts] to the function that it imports and calls. *)
Lemma clashing_names_hide_the_edge :
  schedule ClashExample.callRepo ClashExample.callOrder
  ∧ plainNames ClashExample.callRepo = false
  ∧ ∃ r, analyzeRepositoryGraph offlineHost clock0 ClashExample.callRepo
           ClashExample.callOrder = Returns r
         ∧ "a.ts::(module)" ∈ map FunctionNode.id (AnalyzeResponseBody.functionNodes r)
         ∧ "Y.ts::(module)->c.ts::g"
           ∈ map FunctionNode.id (AnalyzeResponseBody.functionNodes r)
         ∧ AnalyzeResponseBody.functionEdges r
           = [GraphEdge.mk "a.ts::(module)->Y.ts::(module)->c.ts::g"
                "a.ts::(module)->Y.ts::(module)" "c.ts::g" fn_imports static None None].
Proof.
  split.
  - unfold schedule.
    by assert (parseTargets ClashExample.callRepo = ClashExample.callOrder) as ->
      by by vm_compute.
  - split; [by vm_compute|]. eexists. split; [by vm_compute|].
    split_and!; [| |by vm_compute].
    + vm_compute. left.
    + vm_compute. right. right. left.
Qed.

End CallEdgeClaims.
